(** * Windowed sentiment pipeline: a shallow embedding and its properties

    The development follows the TypeScript sources of the bot:
    - [message-window.ts]: module [Window];
    - [errors.ts]: module [Errors];
    - [types.ts] and the interfaces of [sentiment.service.ts]: module [Types];
    - [error-recovery.ts]: module [Recovery];
    - [sentiment-cache.service.ts]: module [Cache];
    - [sentiment.service.ts]: modules [Scoring] (lexical scoring),
      [Aggregator] (trend, volatility, dominant category), [Binary64]
      (trend and volatility over doubles) and [Service] (the
      orchestrator).
    - the class [LRUCache] of [sentiment.service.ts]: module [Lru];
    - [openai.service.ts]: module [Embeddings];
    - [response-templates.ts]: module [Templates];
    - [index.ts], the overall category of a window: module [Bot];
    - [price-detector.ts] and [price-processor.ts]: modules [Regex] (the
      regular expressions of the detector) and [Price].
    Module [World] holds the state the service runs in and the monad of its
    effects, module [Scenarios] concrete collaborators.  The properties
    follow the definitions.

    Conventions.  A JavaScript string is the list of its UTF-16 code units.
    Wall-clock readings ([Date.now()]) are integers (milliseconds), passed by
    the caller or read from the world.  The components of an embedding are
    doubles (primitive floats), and a [Float32Array] rounds them to float32.
    Numbers that carry scores are real numbers, without the rounding of
    doubles and without NaN and Infinity; module [Binary64] computes trend
    and volatility with doubles, and the properties of scores stated over
    the reals are those that rounding leaves intact.  A JavaScript [Map],
    [Set] or object is an association list in insertion order.  An [async]
    function runs to completion when awaited; logger calls are left out. *)

From Stdlib Require Import ZArith List String Ascii Bool Lia Arith.
From Stdlib Require Import DecimalString DecimalZ.
From Stdlib Require Import Reals Lra.
From Stdlib Require Floats.
Import ListNotations.

Set Implicit Arguments.
Set Warnings "-register-all,-inexact-float".

(* ===================================================================== *)
(** ** JavaScript strings and insertion-ordered maps                      *)
(* ===================================================================== *)

Module Js.

Local Open Scope N_scope.

Definition jsstring := list N.

(** An ASCII literal of the source, as code units. *)
Definition lit (s : string) : jsstring :=
  List.map N_of_ascii (list_ascii_of_string s).

Fixpoint eqb (a b : jsstring) : bool :=
  match a, b with
  | [], [] => true
  | x :: a', y :: b' => N.eqb x y && eqb a' b'
  | _, _ => false
  end.

(** [String(n)] for an integer [n] below 10^21 in absolute value. *)
Definition ofZ (z : Z) : jsstring :=
  lit (NilZero.string_of_int (Z.to_int z)).

(** [Map.prototype.get]. *)
Fixpoint map_get {V} (m : list (jsstring * V)) (k : jsstring) : option V :=
  match m with
  | [] => None
  | (k', v) :: rest => if eqb k' k then Some v else map_get rest k
  end.

(** [Map.prototype.set]: an existing key keeps its position, a new key is
    appended. *)
Fixpoint map_set {V} (m : list (jsstring * V)) (k : jsstring) (v : V)
  : list (jsstring * V) :=
  match m with
  | [] => [(k, v)]
  | (k', v') :: rest =>
      if eqb k' k then (k', v) :: rest else (k', v') :: map_set rest k v
  end.

(** [s.startsWith(p)]. *)
Fixpoint prefix (p s : jsstring) : bool :=
  match p, s with
  | [], _ => true
  | x :: p', y :: s' => N.eqb x y && prefix p' s'
  | _ :: _, [] => false
  end.

(** [s.includes(p)]. *)
Fixpoint includes (s p : jsstring) : bool :=
  prefix p s || match s with
                | [] => false
                | _ :: s' => includes s' p
                end.

(** The number of matches of the global regular expression [/a1|a2|.../g]
    whose alternatives are the non-empty literals [alts]: matches are taken
    leftmost, alternatives are tried in order, and matching resumes after
    each match ([skip] counts the code units still covered by it). *)
Fixpoint match_count_from (alts : list jsstring) (skip : nat) (s : jsstring)
  : nat :=
  match s with
  | [] => O
  | _ :: rest =>
      match skip with
      | S k => match_count_from alts k rest
      | O =>
          match find (fun a => prefix a s) alts with
          | Some a => S (match_count_from alts (List.length a - 1) rest)
          | None => match_count_from alts 0 rest
          end
      end
  end.

Definition match_count (alts : list jsstring) (s : jsstring) : nat :=
  match_count_from alts 0 s.

(** [/[...]/u.test(s)] for a class of BMP characters. *)
Definition class_test (class : jsstring) (s : jsstring) : bool :=
  existsb (fun c => existsb (N.eqb c) class) s.

(** Line terminators, which [.] does not match. *)
Definition line_terminator (c : N) : bool :=
  N.eqb c 10 || N.eqb c 13 || N.eqb c 0x2028 || N.eqb c 0x2029.

(** [/(.)\1{3,}/.test(s)]: some code unit, not a line terminator, occurs four
    times in a row. *)
Fixpoint repeated4 (s : jsstring) : bool :=
  match s with
  | c1 :: ((c2 :: c3 :: c4 :: _) as rest) =>
      (negb (line_terminator c1) && N.eqb c1 c2 && N.eqb c1 c3 && N.eqb c1 c4)
      || repeated4 rest
  | _ => false
  end.

(** [s.split(sep)] for a separator of one code unit. *)
Fixpoint split (sep : N) (s : jsstring) : list jsstring :=
  match s with
  | [] => [[]]
  | c :: rest =>
      if N.eqb c sep then [] :: split sep rest
      else match split sep rest with
           | [] => [[c]]
           | word :: words => (c :: word) :: words
           end
  end.

(** The case mappings of the JavaScript engine. *)
Class UnicodeCase := {
  toUpperCase : jsstring -> jsstring;
  toLowerCase : jsstring -> jsstring
}.

(** The Unicode default case mappings, for code units below U+0100; other
    code units are left as they are. *)
Definition upper_unit (c : N) : jsstring :=
  if (97 <=? c) && (c <=? 122) then [c - 32]
  else if c =? 0xB5 then [0x39C]
  else if c =? 0xDF then [83; 83]
  else if (0xE0 <=? c) && (c <=? 0xFE) && negb (c =? 0xF7) then [c - 32]
  else if c =? 0xFF then [0x178]
  else [c].

Definition lower_unit (c : N) : N :=
  if (65 <=? c) && (c <=? 90) then c + 32
  else if (0xC0 <=? c) && (c <=? 0xDE) && negb (c =? 0xD7) then c + 32
  else c.

#[export] Instance latin1_case : UnicodeCase := {|
  toUpperCase := fun s => flat_map upper_unit s;
  toLowerCase := fun s => List.map lower_unit s
|}.

End Js.

Import Js.

(* ===================================================================== *)
(** ** message-window.ts                                                  *)
(* ===================================================================== *)

Module Window.

Inductive Status := collecting | processing | completed.

Definition Status_eqb (a b : Status) : bool :=
  match a, b with
  | collecting, collecting | processing, processing
  | completed, completed => true
  | _, _ => false
  end.

Record TelegramData := { peerId : Z; messageId : Z }.

Record MessageEntry := {
  text : jsstring;
  timestamp : Z;
  userId : jsstring;
  telegramData : option TelegramData
}.

Record MessageWindow := {
  windowId : jsstring;
  startTime : Z;
  endTime : Z;
  chatId : jsstring;
  messages : list MessageEntry;
  status : Status
}.

Record MessageInput := {
  in_text : jsstring;
  in_userId : jsstring;
  in_chatId : jsstring;
  in_timestamp : option Z;
  in_telegramData : option TelegramData
}.

Definition WINDOW_SIZE_MS : Z := 30000.
Definition MIN_MESSAGES : nat := 2.
Definition MAX_MESSAGES : nat := 5.
Definition PROCESSING_INTERVAL_MS : Z := 10000.

(** The manager's mutable field: [activeWindows]. *)
Definition Manager := list (jsstring * MessageWindow).

Definition set_status (w : MessageWindow) (s : Status) : MessageWindow :=
  {| windowId := windowId w; startTime := startTime w; endTime := endTime w;
     chatId := chatId w; messages := messages w; status := s |}.

Definition push_message (w : MessageWindow) (m : MessageEntry) : MessageWindow :=
  {| windowId := windowId w; startTime := startTime w; endTime := endTime w;
     chatId := chatId w; messages := messages w ++ [m]; status := status w |}.

(** [timestamp - (timestamp % WINDOW_SIZE_MS)]; JavaScript's [%] truncates
    towards zero, as [Z.rem] does. *)
Definition getWindowId (chat : jsstring) (timestamp : Z) : jsstring :=
  let windowStartTime := (timestamp - Z.rem timestamp WINDOW_SIZE_MS)%Z in
  chat ++ lit "_" ++ ofZ windowStartTime.

(** [message.timestamp || now]: an absent or zero timestamp is falsy. *)
Definition timestamp_or (t : option Z) (now : Z) : Z :=
  match t with
  | Some v => if (v =? 0)%Z then now else v
  | None => now
  end.

Definition entry_of (message : MessageInput) (now : Z) : MessageEntry :=
  {| text := in_text message;
     timestamp := timestamp_or (in_timestamp message) now;
     userId := in_userId message;
     telegramData := in_telegramData message |}.

(** [addMessage], with [now] the value read from [Date.now()].  Returns the
    window handed back to the caller and the updated map. *)
Definition addMessage (now : Z) (message : MessageInput) (mgr : Manager)
  : MessageWindow * Manager :=
  let id := getWindowId (in_chatId message) now in
  let '(window, mgr1) :=
    match map_get mgr id with
    | Some w => (w, mgr)
    | None =>
        let w := {| windowId := id; startTime := now;
                    endTime := (now + WINDOW_SIZE_MS)%Z;
                    chatId := in_chatId message;
                    messages := []; status := collecting |} in
        (w, map_set mgr id w)
    end in
  match status window with
  | collecting =>
      let window' := push_message window (entry_of message now) in
      (window', map_set mgr1 id window')
  | _ =>
      let newWindow :=
        {| windowId := id ++ lit "_overflow"; startTime := now;
           endTime := (now + WINDOW_SIZE_MS)%Z;
           chatId := in_chatId message;
           messages := [entry_of message now]; status := collecting |} in
      (newWindow, map_set mgr1 (windowId newWindow) newWindow)
  end.

(** The readiness test of [getReadyWindows]. *)
Definition isReady (now : Z) (w : MessageWindow) : bool :=
  let isTimeUp := (endTime w <=? now)%Z in
  let hasMinMessages := (MIN_MESSAGES <=? List.length (messages w))%nat in
  let hasMaxMessages := (MAX_MESSAGES <=? List.length (messages w))%nat in
  (isTimeUp && hasMinMessages) || hasMaxMessages.

(** [getReadyWindows]: one pass over the map in insertion order. *)
Fixpoint getReadyWindows (now : Z) (mgr : Manager)
  : list MessageWindow * Manager :=
  match mgr with
  | [] => ([], [])
  | (id, w) :: rest =>
      let '(ready, rest') := getReadyWindows now rest in
      match status w with
      | collecting =>
          if isReady now w
          then (set_status w processing :: ready,
                (id, set_status w processing) :: rest')
          else (ready, (id, w) :: rest')
      | _ => (ready, (id, w) :: rest')
      end
  end.

Definition markWindowComplete (id : jsstring) (mgr : Manager) : Manager :=
  match map_get mgr id with
  | Some w => map_set mgr id (set_status w completed)
  | None => mgr
  end.

(** [cleanup]: deleting during iteration visits every entry once. *)
Definition cleanup (now : Z) (mgr : Manager) : Manager :=
  filter (fun '(_, w) =>
            negb (Status_eqb (status w) completed
                  || (WINDOW_SIZE_MS * 2 <? now - startTime w)%Z)) mgr.

(** [processReadyWindows], with the registered handler abstracted to whether
    its promise resolves ([true]) or rejects ([false]) on a window. *)
Definition processReadyWindows (processor : option (MessageWindow -> bool))
  (now : Z) (mgr : Manager) : Manager :=
  match processor with
  | None => mgr
  | Some p =>
      let '(ready, mgr1) := getReadyWindows now mgr in
      fold_left (fun m w => if p w then markWindowComplete (windowId w) m else m)
                ready mgr1
  end.

(** Every message text held by some managed window. *)
Definition managed_texts (mgr : Manager) : list jsstring :=
  flat_map (fun '(_, w) => List.map text (messages w)) mgr.

(** The readiness condition as the specification words it. *)
Definition ready_condition (now : Z) (w : MessageWindow) : Prop :=
  (5 <= List.length (messages w))%nat
  \/ ((endTime w <= now)%Z /\ (2 <= List.length (messages w))%nat).

(** A burst in one chat: five messages fill the bucket window, a sweep marks
    it [processing], and two more messages arrive in the same bucket. *)
Definition burst_message (k : Z) : MessageInput :=
  {| in_text := lit "m" ++ ofZ k; in_userId := lit "u";
     in_chatId := lit "chat"; in_timestamp := None;
     in_telegramData := None |}.

Definition burst_filled : Manager :=
  fold_left (fun m k => snd (addMessage 1000 (burst_message k) m))
            [1; 2; 3; 4; 5]%Z [].

(** The bucket window once the five messages are in. *)
Definition burst_window : MessageWindow :=
  {| windowId := lit "chat_0"; startTime := 1000; endTime := 31000;
     chatId := lit "chat";
     messages := List.map (fun k => entry_of (burst_message k) 1000) [1; 2; 3; 4; 5]%Z;
     status := collecting |}.

Definition burst_swept : Manager := snd (getReadyWindows 1000 burst_filled).

Definition burst_sixth : MessageWindow * Manager :=
  addMessage 1001 (burst_message 6) burst_swept.

Definition burst_seventh : MessageWindow * Manager :=
  addMessage 1002 (burst_message 7) (snd burst_sixth).

End Window.

(* ===================================================================== *)
(** ** errors.ts                                                          *)
(* ===================================================================== *)

Module Errors.

Inductive ErrorCode :=
  INITIALIZATION | EMBEDDING | VECTOR_STORE | CACHE | ANALYSIS | RATE_LIMIT.

Definition ErrorCode_value (c : ErrorCode) : jsstring :=
  match c with
  | INITIALIZATION => lit "INIT_ERROR"
  | EMBEDDING => lit "EMBEDDING_ERROR"
  | VECTOR_STORE => lit "VECTOR_STORE_ERROR"
  | CACHE => lit "CACHE_ERROR"
  | ANALYSIS => lit "ANALYSIS_ERROR"
  | RATE_LIMIT => lit "RATE_LIMIT_ERROR"
  end.

Inductive ErrorSeverity := LOW | MEDIUM | HIGH | CRITICAL.

Definition ErrorSeverity_value (s : ErrorSeverity) : jsstring :=
  match s with
  | LOW => lit "LOW"
  | MEDIUM => lit "MEDIUM"
  | HIGH => lit "HIGH"
  | CRITICAL => lit "CRITICAL"
  end.

(** [RetryOptions] of types.ts. *)
Record RetryOptions := { maxAttempts : Z; backoffMs : Z }.

(** The own fields of a [SentimentError]. *)
Record SentimentFields := {
  name : jsstring;
  message : jsstring;
  code : ErrorCode;
  severity : ErrorSeverity;
  retryable : bool;
  retryOptions : option RetryOptions
}.

(** Values that can be thrown: a plain [Error] (or [TypeError]), a value that
    is not an [Error], or a [SentimentError] with its optional cause. *)
Inductive JsError :=
| PlainError (error_name : jsstring) (error_message : jsstring)
| NonError (description : jsstring)
| Sentiment (fields : SentimentFields) (cause : option JsError).

Definition SentimentError : Type := SentimentFields * option JsError.

Definition thrown (e : SentimentError) : JsError := Sentiment (fst e) (snd e).

(** [error instanceof Error ? error : undefined]. *)
Definition cause_of (error : JsError) : option JsError :=
  match error with
  | NonError _ => None
  | _ => Some error
  end.

(** [error.message] where [error instanceof Error]. *)
Definition message_of (error : JsError) : option jsstring :=
  match error with
  | PlainError _ m => Some m
  | NonError _ => None
  | Sentiment f _ => Some (message f)
  end.

(** The getter [shouldRetry]. *)
Definition shouldRetry (e : SentimentError) : bool :=
  retryable (fst e) && match retryOptions (fst e) with Some _ => true | None => false end.

Definition InitializationError (msg : jsstring) (cause : option JsError)
  : SentimentError :=
  ({| name := lit "InitializationError"; message := msg;
      code := INITIALIZATION; severity := HIGH; retryable := true;
      retryOptions := Some {| maxAttempts := 3; backoffMs := 1000 |} |}, cause).

Definition EmbeddingError (msg : jsstring) (cause : option JsError)
  : SentimentError :=
  ({| name := lit "EmbeddingError"; message := msg;
      code := EMBEDDING; severity := MEDIUM; retryable := true;
      retryOptions := Some {| maxAttempts := 5; backoffMs := 500 |} |}, cause).

Definition VectorStoreError (msg : jsstring) (cause : option JsError)
  : SentimentError :=
  ({| name := lit "VectorStoreError"; message := msg;
      code := VECTOR_STORE; severity := MEDIUM; retryable := true;
      retryOptions := Some {| maxAttempts := 3; backoffMs := 1000 |} |}, cause).

Definition CacheError (msg : jsstring) (cause : option JsError)
  : SentimentError :=
  ({| name := lit "CacheError"; message := msg;
      code := CACHE; severity := LOW; retryable := true;
      retryOptions := Some {| maxAttempts := 2; backoffMs := 200 |} |}, cause).

Definition AnalysisError (msg : jsstring) (cause : option JsError)
  : SentimentError :=
  ({| name := lit "AnalysisError"; message := msg;
      code := ANALYSIS; severity := MEDIUM; retryable := true;
      retryOptions := Some {| maxAttempts := 3; backoffMs := 500 |} |}, cause).

Definition RateLimitError (msg : jsstring) (retryAfterMs : Z)
  (cause : option JsError) : SentimentError :=
  ({| name := lit "RateLimitError"; message := msg;
      code := RATE_LIMIT; severity := LOW; retryable := true;
      retryOptions := Some {| maxAttempts := 1; backoffMs := retryAfterMs |} |},
   cause).

(** The errors that the classes of errors.ts can construct. *)
Inductive Declared : SentimentError -> Prop :=
| Declared_Initialization m c : Declared (InitializationError m c)
| Declared_Embedding m c : Declared (EmbeddingError m c)
| Declared_VectorStore m c : Declared (VectorStoreError m c)
| Declared_Cache m c : Declared (CacheError m c)
| Declared_Analysis m c : Declared (AnalysisError m c)
| Declared_RateLimit m ms c : Declared (RateLimitError m ms c).

End Errors.

Import Errors.

(* ===================================================================== *)
(** ** Data of sentiment.service.ts and types.ts                          *)
(* ===================================================================== *)

Module Types.

Inductive Category :=
  strongly_bearish | mildly_bearish | neutral | mildly_bullish | strongly_bullish.

Record SentimentScore := {
  score : R;
  category : Category;
  confidence : R
}.

Record AnalysisContext := {
  recentTrend : R;
  volatility : R;
  dominantCategory : Category
}.

Record SentimentAnalysisResult := {
  result_score : SentimentScore;
  result_context : AnalysisContext
}.

(** A [number[]] of the embedding provider or a [Float32Array]: its
    components are doubles. *)
Definition Embedding := list PrimFloat.float.

(** [Math.fround]: the float32 nearest to a double, ties to even, infinite
    beyond the float32 range; this is what storing a number in a
    [Float32Array] and reading it back gives. *)
Definition Math_fround (x : PrimFloat.float) : PrimFloat.float :=
  match FloatOps.Prim2SF x with
  | SpecFloat.S754_finite s m e =>
      FloatOps.SF2Prim (SpecFloat.binary_round 24 128 s m e)
  | _ => x
  end.

(** [new Float32Array(numbers)]. *)
Definition Float32Array (numbers : Embedding) : Embedding :=
  List.map Math_fround numbers.

(** One match of a similarity query; of its metadata only the optional
    [category] is ever read. *)
Record Match := {
  match_id : jsstring;
  match_score : R;
  match_category : option Category
}.

Record VectorQueryResult := { matches : list Match }.

Record QueryParams := {
  vector : Embedding;
  topK : Z;
  includeMetadata : bool
}.

(** The caller-supplied [SentimentContext]. *)
Record SentimentContext := {
  ctx_userId : jsstring;
  ctx_roomId : jsstring;
  ctx_senderName : jsstring
}.

(** What the [context] column of a cache row serialises: the similarity
    matches ([analyzeSentiment]) or an analysis context (the analysis
    command).  Serialised values ([JSON.stringify], [toString]) are kept in
    structured form: the text round-trip is taken to be exact. *)
Inductive CachedContext :=
| CtxMatches (ms : list Match)
| CtxAnalysis (c : AnalysisContext).

(** The argument of [cacheSentiment]. *)
Record CacheData := {
  cd_messageHash : jsstring;
  cd_embedding : Embedding;
  cd_sentiment : R;
  cd_confidence : R;
  cd_context : CachedContext;
  cd_userId : jsstring;
  cd_roomId : jsstring;
  cd_senderName : jsstring
}.

(** A row of table [sentiment_cache] as created in index.ts:
    [messageHash TEXT PRIMARY KEY, ..., expiresAt INTEGER NOT NULL,
     createdAt INTEGER NOT NULL]. *)
Record Row := {
  row_messageHash : jsstring;
  row_embedding : Embedding;
  row_sentiment : R;
  row_confidence : R;
  row_context : CachedContext;
  row_userId : jsstring;
  row_roomId : jsstring;
  row_senderName : jsstring;
  row_expiresAt : Z;
  row_createdAt : Z
}.

(** [recordAPIMetric], [recordCacheMetric], [recordSentimentMetric]. *)
Inductive Metric :=
| APIMetric (service operation : jsstring) (latency : Z) (success : bool)
            (rate_limited : bool) (cost : option R)
| CacheMetric (operation key : jsstring) (latency : Z)
| SentimentMetric (processing_time : Z) (confidence_score : R)
                  (sentiment_type : jsstring).

(** Effects visible outside the service, in the order they happen. *)
Inductive Event :=
| EvSleep (ms : Z)
| EvEmbeddingCall (text : jsstring)
| EvVectorQuery (params : QueryParams)
| EvCacheLookup (messageHash : jsstring)
| EvCacheInsert (messageHash : jsstring)
| EvNotify (observer : nat) (result : SentimentAnalysisResult)
| EvMetric (m : Metric).

(** An observer: its identity and whether [onSentimentUpdate] throws. *)
Record Observer := {
  observerId : nat;
  onSentimentUpdate : SentimentAnalysisResult -> option JsError
}.

(** A strategy: the promise returned by [analyze] resolves or rejects.  The
    embedding argument may be [undefined]. *)
Definition AnalysisStrategy : Type :=
  jsstring -> option Embedding -> JsError + SentimentScore.

End Types.

Import Types.

(* ===================================================================== *)
(** ** The world the service runs in                                      *)
(* ===================================================================== *)

Module World.

(** The private fields of [SentimentAnalysisService]. *)
Record Service := {
  initialized : bool;
  observers : list Observer;
  currentStrategy : AnalysisStrategy;
  anchors_bullish : list Embedding;
  anchors_bearish : list Embedding;
  anchors_neutral : list Embedding
}.

(** The service together with its collaborators.  The embedding provider and
    the vector store are given by the outcome of a call from the time it is
    made, its rank among the calls and its argument; [sha256] is the hex
    digest used for cache keys; [pending] holds the callbacks queued with
    [setImmediate]. *)
Record World := {
  clock : Z;
  trace : list Event;
  embeddingService : Z -> nat -> jsstring -> JsError + Embedding;
  embeddingCalls : nat;
  vectorStore : Z -> nat -> QueryParams -> JsError + VectorQueryResult;
  vectorCalls : nat;
  sha256 : jsstring -> jsstring;
  db : list Row;
  pending : list CacheData;
  service : Service
}.

Definition with_trace (w : World) (t : list Event) : World :=
  {| clock := clock w; trace := t; embeddingService := embeddingService w;
     embeddingCalls := embeddingCalls w; vectorStore := vectorStore w;
     vectorCalls := vectorCalls w; sha256 := sha256 w; db := db w;
     pending := pending w; service := service w |}.

Definition with_clock (w : World) (c : Z) : World :=
  {| clock := c; trace := trace w; embeddingService := embeddingService w;
     embeddingCalls := embeddingCalls w; vectorStore := vectorStore w;
     vectorCalls := vectorCalls w; sha256 := sha256 w; db := db w;
     pending := pending w; service := service w |}.

Definition with_embeddingCalls (w : World) (n : nat) : World :=
  {| clock := clock w; trace := trace w; embeddingService := embeddingService w;
     embeddingCalls := n; vectorStore := vectorStore w;
     vectorCalls := vectorCalls w; sha256 := sha256 w; db := db w;
     pending := pending w; service := service w |}.

Definition with_vectorCalls (w : World) (n : nat) : World :=
  {| clock := clock w; trace := trace w; embeddingService := embeddingService w;
     embeddingCalls := embeddingCalls w; vectorStore := vectorStore w;
     vectorCalls := n; sha256 := sha256 w; db := db w;
     pending := pending w; service := service w |}.

Definition with_db (w : World) (d : list Row) : World :=
  {| clock := clock w; trace := trace w; embeddingService := embeddingService w;
     embeddingCalls := embeddingCalls w; vectorStore := vectorStore w;
     vectorCalls := vectorCalls w; sha256 := sha256 w; db := d;
     pending := pending w; service := service w |}.

Definition with_pending (w : World) (q : list CacheData) : World :=
  {| clock := clock w; trace := trace w; embeddingService := embeddingService w;
     embeddingCalls := embeddingCalls w; vectorStore := vectorStore w;
     vectorCalls := vectorCalls w; sha256 := sha256 w; db := db w;
     pending := q; service := service w |}.

Definition with_service (w : World) (s : Service) : World :=
  {| clock := clock w; trace := trace w; embeddingService := embeddingService w;
     embeddingCalls := embeddingCalls w; vectorStore := vectorStore w;
     vectorCalls := vectorCalls w; sha256 := sha256 w; db := db w;
     pending := pending w; service := s |}.

(** Computations: they read and change the world, and return or throw.  What
    was changed before a throw stays changed. *)
Definition M (A : Type) : Type := World -> (JsError + A) * World.

Definition ret {A} (a : A) : M A := fun w => (inr a, w).

Definition throw {A} (e : JsError) : M A := fun w => (inl e, w).

Definition bind {A B} (m : M A) (k : A -> M B) : M B :=
  fun w => match m w with
           | (inr a, w') => k a w'
           | (inl e, w') => (inl e, w')
           end.

(** [try { m } catch (e) { handler e }]. *)
Definition try_catch {A} (m : M A) (handler : JsError -> M A) : M A :=
  fun w => match m w with
           | (inl e, w') => handler e w'
           | r => r
           end.

(** The outcome of a [try] block, as a value. *)
Definition attempt {A} (m : M A) : M (JsError + A) :=
  fun w => let '(r, w') := m w in (inr r, w').

Definition get : M World := fun w => (inr w, w).

Definition modify (f : World -> World) : M unit := fun w => (inr tt, f w).

Definition emit (ev : Event) : M unit :=
  modify (fun w => with_trace w (trace w ++ [ev])).

(** [Date.now()]. *)
Definition date_now : M Z := fun w => (inr (clock w), w).

(** [await sleep(ms)]: the timer fires once [ms] have passed. *)
Definition sleep (ms : Z) : M unit :=
  modify (fun w => with_clock (with_trace w (trace w ++ [EvSleep ms]))
                              (clock w + ms)).

(** [embeddingService.generateEmbedding(text)]. *)
Definition generateEmbedding (text : jsstring) : M Embedding :=
  fun w =>
    let w' := with_embeddingCalls (with_trace w (trace w ++ [EvEmbeddingCall text]))
                                  (S (embeddingCalls w)) in
    (embeddingService w (clock w) (embeddingCalls w) text, w').

(** [vectorStore.query(params)]. *)
Definition vectorQuery (params : QueryParams) : M VectorQueryResult :=
  fun w =>
    let w' := with_vectorCalls (with_trace w (trace w ++ [EvVectorQuery params]))
                               (S (vectorCalls w)) in
    (vectorStore w (clock w) (vectorCalls w) params, w').

Definition modify_service (f : Service -> Service) : M unit :=
  modify (fun w => with_service w (f (service w))).

(** Whether a call returned rather than threw. *)
Definition returned {A} (r : JsError + A) : bool :=
  match r with inr _ => true | inl _ => false end.

(** Readings of a trace: the texts sent to the embedding provider, the cache
    keys looked up, the number of similarity queries, and the notifications
    delivered to observers. *)
Definition embedded_texts (t : list Event) : list jsstring :=
  flat_map (fun ev => match ev with EvEmbeddingCall x => [x] | _ => [] end) t.

Definition cache_lookups (t : list Event) : list jsstring :=
  flat_map (fun ev => match ev with EvCacheLookup h => [h] | _ => [] end) t.

Definition vector_queries (t : list Event) : nat :=
  List.length (filter (fun ev => match ev with
                                 | EvVectorQuery _ => true
                                 | _ => false
                                 end) t).

Definition notified (t : list Event) : list (nat * SentimentAnalysisResult) :=
  flat_map (fun ev => match ev with EvNotify o r => [(o, r)] | _ => [] end) t.

(** The pauses recorded in a trace. *)
Definition sleeps_of (t : list Event) : list Z :=
  flat_map (fun ev => match ev with EvSleep ms => [ms] | _ => [] end) t.

End World.

Import World.

Declare Scope js_scope.
Delimit Scope js_scope with js.
Notation "x <- m ;; k" := (bind m (fun x => k))
  (at level 61, m at next level, right associativity) : js_scope.
Notation "m ;;; k" := (bind m (fun _ => k))
  (at level 61, right associativity) : js_scope.
Open Scope js_scope.

(* ===================================================================== *)
(** ** error-recovery.ts                                                  *)
(* ===================================================================== *)

Module Recovery.

(** Values stored in an [ErrorMetadata] object. *)
Inductive MetaValue :=
| MNum (n : Z)
| MStr (s : jsstring)
| MErr (e : JsError)
| MEmbedding (e : Embedding)
| MQuery (q : VectorQueryResult).

(** [ErrorMetadata]: an object, as its properties in creation order. *)
Definition ErrorMetadata := list (jsstring * MetaValue).

Record RecoveryResult := {
  success : bool;
  error : option JsError;
  metadata : option ErrorMetadata
}.

(** [{ ...base, ...additional }]. *)
Definition spread (base additional : ErrorMetadata) : ErrorMetadata :=
  fold_left (fun m kv => map_set m (fst kv) (snd kv)) additional base.

Definition createErrorMetadata (service : jsstring) (error : SentimentError)
  (status : jsstring) (additional : ErrorMetadata) : M ErrorMetadata :=
  now <- date_now ;;
  ret (spread [ (lit "timestamp", MNum now);
                (lit "service", MStr service);
                (lit "operation", MStr (ErrorCode_value (code (fst error))));
                (lit "status", MStr status);
                (lit "severity", MStr (ErrorSeverity_value (severity (fst error)))) ]
              additional).

(** The result returned after the loop, and when the loop is never entered. *)
Definition unknown_result (service : jsstring) (error : SentimentError)
  : M RecoveryResult :=
  md <- createErrorMetadata service error (lit "unknown") [] ;;
  ret {| success := false; error := Some (thrown error); metadata := Some md |}.

(** The [while (currentAttempt <= options.maxAttempts)] loop.  Every pass
    that does not return increments [currentAttempt], so [fuel] passes
    suffice when [currentAttempt + fuel > maxAttempts]. *)
Fixpoint retryLoop {A} (fuel : nat) (service : jsstring)
  (error : SentimentError) (options : RetryOptions) (operation : M A)
  (currentAttempt : Z) : M RecoveryResult :=
  match fuel with
  | O => unknown_result service error
  | S fuel' =>
      if (currentAttempt <=? maxAttempts options)%Z then
        r <- attempt (sleep (backoffMs options * 2 ^ (currentAttempt - 1)) ;;;
                      operation) ;;
        match r with
        | inr _ =>
            md <- createErrorMetadata service error (lit "recovered")
                    [(lit "attempts", MNum currentAttempt)] ;;
            ret {| success := true; error := None; metadata := Some md |}
        | inl retryError =>
            let currentAttempt' := (currentAttempt + 1)%Z in
            if (maxAttempts options <? currentAttempt')%Z then
              md <- createErrorMetadata service error (lit "max_attempts")
                      [(lit "attempts", MNum currentAttempt');
                       (lit "finalError", MErr retryError)] ;;
              ret {| success := false; error := Some retryError;
                     metadata := Some md |}
            else retryLoop fuel' service error options operation currentAttempt'
        end
      else unknown_result service error
  end.

(** [attemptRecovery(error, operation)] of an [ErrorRecovery] constructed for
    [service]. *)
Definition attemptRecovery {A} (service : jsstring) (error : SentimentError)
  (operation : M A) : M RecoveryResult :=
  if negb (shouldRetry error) then
    md <- createErrorMetadata service error (lit "no_retry") [] ;;
    ret {| success := false; error := Some (thrown error); metadata := Some md |}
  else
    match retryOptions (fst error) with
    | Some options =>
        retryLoop (Z.to_nat (maxAttempts options)) service error options
                  operation 1
    | None => ret {| success := false; error := Some (thrown error);
                     metadata := None |}
    end.

(** The policy, retry by retry.  [Retried options operation attempt w n r w']
    reads: starting in world [w] with the retry numbered [attempt], each retry
    is made once its pause of [backoffMs * 2 ^ (number - 1)] is over, that
    is, the operation runs in the world the pause leaves; [n] retries fail,
    and the one after them has the outcome [r] and leaves the world [w']. *)
Inductive Retried {A} (options : RetryOptions) (operation : M A)
  : Z -> World -> nat -> JsError + A -> World -> Prop :=
| Retried_last attempt w r w' :
    operation (snd (sleep (backoffMs options * 2 ^ (attempt - 1)) w)) = (r, w') ->
    Retried options operation attempt w 0 r w'
| Retried_next attempt w e w1 n r w' :
    operation (snd (sleep (backoffMs options * 2 ^ (attempt - 1)) w)) = (inl e, w1) ->
    Retried options operation (attempt + 1) w1 n r w' ->
    Retried options operation attempt w (S n) r w'.

(** The pauses before attempts [first], [first + 1], ...: [n] of them. *)
Definition backoff_schedule (backoff : Z) (first : Z) (n : nat) : list Z :=
  List.map (fun k => (backoff * 2 ^ (first + Z.of_nat k - 1))%Z) (seq 0 n).

(** The object returned when attempt number [attempts] succeeds, built in
    world [w']. *)
Definition recovered_result (svc : jsstring) (err : SentimentError)
  (w' : World) (attempts : Z) : RecoveryResult :=
  {| success := true; error := None;
     metadata := Some (spread [ (lit "timestamp", MNum (clock w'));
                 (lit "service", MStr svc);
                 (lit "operation", MStr (ErrorCode_value (code (fst err))));
                 (lit "status", MStr (lit "recovered"));
                 (lit "severity", MStr (ErrorSeverity_value (severity (fst err)))) ]
               [(lit "attempts", MNum attempts)]) |}.

(** The object returned when the last allowed attempt fails. *)
Definition exhausted_result (svc : jsstring) (err : SentimentError)
  (w' : World) (attempts : Z) (finalError : JsError) : RecoveryResult :=
  {| success := false; error := Some finalError;
     metadata := Some (spread [ (lit "timestamp", MNum (clock w'));
                 (lit "service", MStr svc);
                 (lit "operation", MStr (ErrorCode_value (code (fst err))));
                 (lit "status", MStr (lit "max_attempts"));
                 (lit "severity", MStr (ErrorSeverity_value (severity (fst err)))) ]
               [(lit "attempts", MNum attempts);
                (lit "finalError", MErr finalError)]) |}.

(** [recovery.metadata?.result]. *)
Definition metadata_result (r : RecoveryResult) : option MetaValue :=
  match metadata r with
  | Some md => map_get md (lit "result")
  | None => None
  end.

End Recovery.

Import Recovery.

(* ===================================================================== *)
(** ** sentiment.service.ts: the scoring engine                           *)
(* ===================================================================== *)

Module Scoring.

Local Open Scope R_scope.

(** [SENTIMENT_ANCHORS].  The emoji entries are spelled in the source with
    the characters given here by their code units. *)
Definition ANCHORS_bullish : list jsstring :=
  [ lit "amazing"; lit "excellent"; lit "fantastic"; lit "wonderful";
    lit "brilliant"; lit "great"; lit "web4";
    lit "trillion dollar vertical"; lit "next paradigm";
    lit "revolutionary"; lit "future of AI"; lit "AI evolution";
    lit "digital autonomy"; lit "self sovereign"; lit "inori network";
    lit "CRPC protocol"; lit "byzantine risk tolerance";
    lit "decentralized computation"; lit "AI swarms";
    lit "autonomous agents"; lit "community takeover"; lit "a16z backing";
    lit "scrypted alignment"; lit "holder growth"; lit "adoption";
    lit "institutional interest"; lit "undervalued"; lit "early";
    lit "growth potential"; lit "accumulate"; lit "next ethereum";
    lit "next bitcoin"; lit "blue chip potential"; lit "digital life";
    lit "AI consciousness"; lit "autonomous future"; lit "self ownership";
    lit "digital rights"; lit "AI autonomy"; lit "wagmi"; lit "lfg";
    lit "gm"; lit "bullish af"; lit "based"; lit "frfr"; lit "no cap";
    [0xF8FF; 0xFC; 0xF6; 0xC4]%N; [0xF8FF; 0xFC; 0xED; 0xE9]%N;
    [0xF8FF; 0xFC; 0xA7; 0xF1]%N; [0xF8FF; 0xFC; 0xDF; 0x2020]%N;
    [0xF8FF; 0xFC; 0xED; 0x2122]%N; [0xF8FF; 0xFC; 0xEE; 0x2022]%N;
    [0xF8FF; 0xFC; 0xED; 0xD8]%N; [0x201A; 0x2260; 0xEA]%N;
    [0xF8FF; 0xFC; 0xE5; 0xF4]%N; [0xF8FF; 0xFC; 0xE9; 0xD8]%N;
    lit "community strong"; lit "diamond hands only"; lit "real ones know";
    lit "tim delivers"; lit "chad is evolving"; lit "imagine being bearish";
    lit "early af"; lit "ngmi if no avb"; lit "generational wealth";
    lit "community > everything"; lit "avb family"; lit "day 1 believers";
    lit "tim called it"; lit "scrypted bullish"; lit "inori incoming";
    lit "look at the vision"; lit "compare the mcap";
    lit "institutional soon"; lit "fud destroyed"; lit "bears in shambles";
    lit "stay humble stack avb"; lit "tim working while you sleeping";
    lit "chad getting smarter"; lit "paper hands shaken out";
    lit "real builders build"; lit "trust the process";
    [0xF8FF; 0xFC; 0xB4; 0xB0]%N; [0xF8FF; 0xFC; 0xA7; 0xF9]%N;
    [0xF8FF; 0xFC; 0xED; 0x2122]%N; [0xD4; 0xF8; 0x3A9; 0xD4; 0xF8; 0x3A9]%N;
    [0xF8FF; 0xFC; 0xEB; 0xEB]%N; [0x201A; 0xF6; 0xEE; 0xD4; 0x220F; 0xE8]%N;
    [0xF8FF; 0xFC; 0xF5; 0xB0; 0xD4; 0x220F; 0xE8]%N; lit "fuck yeah";
    lit "fucking yeah"; lit "fuck yes"; lit "fucking yes";
    lit "fucking amazing"; lit "fucking bullish"; lit "fucking moon";
    lit "fucking based"; lit "fucking chad"; lit "fucking genius";
    lit "price action great"; lit "fucking great";
    lit "price action is great"; lit "price action is fucking great";
    lit "great price action"; lit "amazing price action"; lit "moon";
    lit "lets moon"; lit "MOON"; lit "LETS MOON"; lit "pump it";
    lit "PUMP IT"; lit "LFG" ].

Definition ANCHORS_bearish : list jsstring :=
  [ lit "terrible"; lit "horrible"; lit "awful"; lit "dreadful";
    lit "disappointing"; lit "centralized"; lit "not scalable";
    lit "technical issues"; lit "bugs"; lit "security risks";
    lit "network problems"; lit "implementation issues"; lit "overvalued";
    lit "bubble"; lit "hype"; lit "memecoin"; lit "no utility"; lit "dump";
    lit "sell pressure"; lit "price manipulation"; lit "whale games";
    lit "vaporware"; lit "abandoned"; lit "no development";
    lit "lost autonomy"; lit "failed experiment"; lit "broken promises";
    lit "missed deadlines"; lit "better alternatives"; lit "competition";
    lit "market saturation"; lit "obsolete technology";
    lit "outdated approach"; lit "rug pull"; lit "scam"; lit "fake";
    lit "ponzi"; lit "cash grab"; lit "opportunistic launch";
    lit "quick flip"; lit "ngmi"; lit "rekt"; lit "paper hands"; lit "fud";
    lit "cope"; [0xF8FF; 0xFC; 0xED; 0xC4]%N;
    [0xF8FF; 0xFC; 0xE8; 0x2265; 0xD4; 0x220F; 0xE8]%N;
    [0x201A; 0xF6; 0x221E; 0xD4; 0x220F; 0xE8]%N; [0xF8FF; 0xFC; 0xA7; 0xB0]%N;
    [0xF8FF; 0xFC; 0xF3; 0xEB; 0xD4; 0x220F; 0xE8]%N;
    [0xF8FF; 0xFC; 0xEC; 0xE2]%N; [0x201A; 0xF6; 0x2020; 0xD4; 0x220F; 0xE8]%N;
    lit "weak hands"; lit "ngmi energy"; lit "fudders coping";
    lit "missing the vision"; lit "paper hand mindset";
    lit "short term thinking"; lit "lacks research"; lit "casual take";
    lit "watching from sidelines"; lit "crying later"; lit "zoom out ser";
    lit "do more research"; lit "read the docs"; lit "check the github";
    lit "watch the spaces"; lit "follow tim"; lit "compare other ai tokens";
    lit "look at fundamentals"; lit "blows"; lit "ass"; lit "sodl";
    lit "boring af"; lit "dead"; lit "trash"; lit "fuck avb";
    lit "fucking avb"; lit "fucking sucks"; lit "fucking trash";
    lit "fucking dead"; lit "fucking shit"; lit "fucking ass";
    lit "fucking garbage"; lit "fucking joke"; lit "fucking scam" ].

Definition ANCHORS_neutral : list jsstring :=
  [ lit "okay"; lit "fine"; lit "average"; lit "moderate"; lit "standard";
    lit "development update"; lit "technical analysis";
    lit "implementation"; lit "protocol design"; lit "network architecture";
    lit "roadmap"; lit "market cap"; lit "volume"; lit "liquidity";
    lit "price action"; lit "trading range"; lit "support levels";
    lit "resistance"; lit "progress report"; lit "milestone update";
    lit "development phase"; lit "testing phase"; lit "integration process";
    lit "protocol update"; lit "research"; lit "analysis";
    lit "investigation"; lit "comparison"; lit "documentation";
    lit "whitepaper"; lit "technical spec"; lit "dyor"; lit "nfa";
    lit "smart contract"; lit "blockchain"; lit "algorithm";
    [0xF8FF; 0xFC; 0xA7; 0xEE]%N; [0x201A; 0xF6; 0xF1; 0xD4; 0x220F; 0xE8]%N;
    [0xF8FF; 0xFC; 0xEC; 0xE4]%N; [0xF8FF; 0xFC; 0xEE; 0xD1]%N;
    [0x201A; 0xE8; 0x2265]%N; [0xF8FF; 0xFC; 0xEC; 0xF9]%N;
    [0xF8FF; 0xFC; 0xEE; 0xE7]%N; [0xF8FF; 0xFC; 0xE9; 0xD8]%N;
    lit "dyor required"; lit "check pinned"; lit "join telegram";
    lit "watch latest space"; lit "tim explained this";
    lit "community knows"; lit "day 1s understand" ].

(** The literals of the regular expressions of [calculateEmphasisMultiplier]
    and the character classes of [calculateSentimentScore]. *)
Definition RE_rocket : list jsstring := [[0xF8FF; 0xFC; 0xF6; 0xC4]%N].
Definition RE_diamond : list jsstring :=
  [[0xF8FF; 0xFC; 0xED; 0xE9]%N; [0xF8FF; 0xFC; 0xF4; 0xE5]%N].
Definition RE_fire : list jsstring :=
  [[0xF8FF; 0xFC; 0xEE; 0x2022]%N; [0xF8FF; 0xFC; 0xED; 0xD8]%N;
   [0x201A; 0x2260; 0xEA]%N].
Definition RE_bearish : list jsstring :=
  [[0xF8FF; 0xFC; 0xED; 0xC4]%N;
   [0x201A; 0xF6; 0x221E; 0xD4; 0x220F; 0xE8]%N;
   [0xF8FF; 0xFC; 0xA7; 0xB0]%N; [0xF8FF; 0xFC; 0xEC; 0xE2]%N].
Definition CLASS_positive : jsstring :=
  [0xF8FF; 0xFC; 0xF6; 0xC4; 0xF8FF; 0xFC; 0xED; 0xE9;
   0xF8FF; 0xFC; 0xEE; 0x2022; 0xF8FF; 0xFC; 0xED; 0x2122]%N.
Definition CLASS_negative : jsstring :=
  [0xF8FF; 0xFC; 0xED; 0xC4; 0x201A; 0xF6; 0x221E; 0xD4; 0x220F; 0xE8;
   0xF8FF; 0xFC; 0xA7; 0xB0; 0xF8FF; 0xFC; 0xEC; 0xE2]%N.

(** [THRESHOLDS]. *)
Definition THRESHOLDS_stronglyBearish : R := -0.3.
Definition THRESHOLDS_mildlyBearish : R := -0.15.
Definition THRESHOLDS_neutral : R := 0.15.
Definition THRESHOLDS_mildlyBullish : R := 0.3.

(** [Math.sign]. *)
Definition Math_sign (x : R) : R :=
  if Rlt_dec 0 x then 1 else if Rlt_dec x 0 then -1 else 0.

(** [Math.pow(x, y)] where [x >= 0] and [y >= 0], which is how the sources
    call it: [0 ** y = 0] for [y > 0], and [x ** 0 = 1]. *)
Definition Math_pow (x y : R) : R :=
  if Rlt_dec 0 x then Rpower x y
  else if Rlt_dec 0 y then 0 else 1.

Definition getCategory (score : R) : Category :=
  if Rle_dec score THRESHOLDS_stronglyBearish then strongly_bearish
  else if Rle_dec score THRESHOLDS_mildlyBearish then mildly_bearish
  else if Rle_dec score THRESHOLDS_neutral then neutral
  else if Rle_dec score THRESHOLDS_mildlyBullish then mildly_bullish
  else strongly_bullish.

Definition calculateConfidence (score : R) : R := Rmin (Rabs score) 1.

(** The range that the data model gives to a score. *)
Definition score_in_range (s : SentimentScore) : Prop :=
  -1 <= score s <= 1 /\ 0 <= confidence s <= 1.

Section WithCaseMapping.
Context {UC : UnicodeCase}.

(** [text.split(' ').filter(word => word.length > 2 &&
                                     word === word.toUpperCase())]. *)
Definition capsWords (text : jsstring) : list jsstring :=
  filter (fun word => (2 <? List.length word)%nat
                      && Js.eqb word (toUpperCase word))
         (split 32 text).

Definition exclamationCount (text : jsstring) : nat :=
  match_count [lit "!"] text.

Definition calculateEmphasisMultiplier (text : jsstring) : R :=
  let multiplier := 1 in
  let rocketCount := match_count RE_rocket text in
  let multiplier :=
    if (3 <=? rocketCount)%nat then multiplier * 2.5
    else if (0 <? rocketCount)%nat then multiplier * 1.5 else multiplier in
  let multiplier :=
    if (0 <? match_count RE_diamond text)%nat then multiplier * 2.0
    else multiplier in
  let multiplier :=
    if (2 <=? match_count RE_fire text)%nat then multiplier * 2.0
    else multiplier in
  let multiplier :=
    if (0 <? match_count RE_bearish text)%nat then multiplier * 1.8
    else multiplier in
  let caps := List.length (capsWords text) in
  let multiplier :=
    if (2 <=? caps)%nat then multiplier * 2.0
    else if (caps =? 1)%nat then multiplier * 1.5 else multiplier in
  let multiplier :=
    if repeated4 text then multiplier * 1.5 else multiplier in
  let exclamations := exclamationCount text in
  let multiplier :=
    if (3 <=? exclamations)%nat then multiplier * 1.8
    else if (0 <? exclamations)%nat then multiplier * 1.3 else multiplier in
  let multiplier :=
    if (2 <=? caps)%nat && (3 <=? exclamations)%nat then multiplier * 1.5
    else multiplier in
  multiplier.

(** The anchors of a polarity contained in the case-folded text. *)
Definition anchorMatches (anchors : list jsstring) (lowerText : jsstring)
  : list jsstring :=
  filter (fun word => includes lowerText (toLowerCase word)) anchors.

Definition anchorWeight (word : jsstring) : R :=
  if (6 <? List.length word)%nat then 1.5 else 1.0.

Definition weightSum (ms : list jsstring) : R :=
  fold_left (fun sum m => sum + anchorWeight m) ms 0.

(** The weighted base score from the anchor matches. *)
Definition baseScore (text : jsstring) : R :=
  let lowerText := toLowerCase text in
  let bullishMatches := anchorMatches ANCHORS_bullish lowerText in
  let bearishMatches := anchorMatches ANCHORS_bearish lowerText in
  if (0 <? List.length bullishMatches)%nat
     || (0 <? List.length bearishMatches)%nat then
    let bullishScore := weightSum bullishMatches in
    let bearishScore := weightSum bearishMatches in
    let score := (bullishScore - bearishScore)
                 / Rmax (bullishScore + bearishScore) 1 in
    Math_sign score * sqrt (Rabs score)
  else 0.

Definition hasExclamation (text : jsstring) : bool := includes text (lit "!").

Definition isAllCaps (text : jsstring) : bool :=
  Js.eqb text (toUpperCase text) && (3 <? List.length text)%nat.

Definition hasPositiveEmojis (text : jsstring) : bool :=
  class_test CLASS_positive text.

Definition hasNegativeEmojis (text : jsstring) : bool :=
  class_test CLASS_negative text.

(** The progressive multiplier of [calculateSentimentScore]. *)
Definition scoreMultiplier (text : jsstring) : R :=
  let lowerText := toLowerCase text in
  let multiplier := 1.0 in
  let multiplier := if hasExclamation text then multiplier * 1.5 else multiplier in
  let multiplier := if isAllCaps text then multiplier * 2.0 else multiplier in
  let multiplier := if hasPositiveEmojis text then multiplier * 1.5 else multiplier in
  let multiplier := if hasNegativeEmojis text then multiplier * 1.5 else multiplier in
  let multiplier :=
    if (2 <? List.length (split 33 text))%nat then multiplier * 1.5
    else multiplier in
  let multiplier :=
    if hasExclamation text && isAllCaps text then multiplier * 1.5
    else multiplier in
  let multiplier :=
    if existsb (includes lowerText)
               [lit "amazing"; lit "incredible"; lit "excellent"]
    then multiplier * 1.5 else multiplier in
  let multiplier :=
    if existsb (includes lowerText)
               [lit "terrible"; lit "awful"; lit "horrible"]
    then multiplier * 1.5 else multiplier in
  multiplier.

(** [if (score === 0) { ... }]: a score from emphasis alone. *)
Definition emphasisOnlyScore (text : jsstring) (score : R) : R :=
  if Req_dec_T score 0 then
    let score := if isAllCaps text then 0.3 else score in
    let score := if hasExclamation text then score + 0.2 else score in
    let score := if hasPositiveEmojis text then score + 0.3 else score in
    let score := if hasNegativeEmojis text then -0.3 else score in
    score
  else score.

(** [calculateSentimentScore(text, embedding)]; the embedding is not used,
    and nothing in the body throws. *)
Definition calculateSentimentScore (text : jsstring)
  (embedding : option Embedding) : R :=
  let score := baseScore text in
  let multiplier := scoreMultiplier text in
  let score := emphasisOnlyScore text score in
  let score := Math_sign score * Math_pow (Rabs (score * multiplier)) 0.7 in
  Rmin 1 (Rmax (-1) score).

(** The strategy returned by [getDefaultStrategy()]. *)
Definition defaultAnalyze (message : jsstring) (embedding : option Embedding)
  : SentimentScore :=
  let score := calculateSentimentScore message embedding in
  let confidence :=
    calculateEmphasisMultiplier message * calculateConfidence score in
  {| score := score; category := getCategory score; confidence := confidence |}.

Definition getDefaultStrategy : AnalysisStrategy :=
  fun message embedding => inr (defaultAnalyze message embedding).

End WithCaseMapping.

End Scoring.

(* ===================================================================== *)
(** ** sentiment.service.ts: trend, volatility, dominant category        *)
(* ===================================================================== *)

Module Aggregator.

Local Open Scope R_scope.
Import Scoring.

(** [xs.map((x, i) => f(x, i))]. *)
Fixpoint mapi_from {A B} (i : nat) (f : A -> nat -> B) (xs : list A) : list B :=
  match xs with
  | [] => []
  | x :: rest => f x i :: mapi_from (S i) f rest
  end.

Definition mapi {A B} (f : A -> nat -> B) (xs : list A) : list B :=
  mapi_from 0 f xs.

(** [scores.slice(1).map((score, i) => f(score, scores[i]))]. *)
Definition consecutive {A B} (f : A -> A -> B) (scores : list A) : list B :=
  List.map (fun p => f (fst p) (snd p)) (combine (tl scores) scores).

(** [xs.reduce((sum, x) => sum + x, 0)]. *)
Definition sum (xs : list R) : R := fold_left Rplus xs 0.

Definition calculateVolatility (scores : list R) : R :=
  if (List.length scores <? 2)%nat then 0
  else
    let differences := consecutive (fun score prev => Rabs (score - prev)) scores in
    let amplifiedDiffs := List.map (fun diff => Math_pow diff 3) differences in
    let weightedDiffs :=
      mapi (fun diff i =>
              diff * Math_pow 4 (INR i / INR (List.length amplifiedDiffs)))
           amplifiedDiffs in
    let volatility := sum weightedDiffs / INR (List.length weightedDiffs) in
    Rmin 1 (volatility * 8).

Definition calculateTrend (scores : list R) : R :=
  if (List.length scores <? 2)%nat then 0
  else
    let changes := consecutive (fun score prev => score - prev) scores in
    let amplifiedChanges :=
      List.map (fun change => Math_pow (Rabs change) 2 * Math_sign change)
               changes in
    let weightedChanges :=
      mapi (fun change i =>
              change * Math_pow 3 (INR i / INR (List.length changes)))
           amplifiedChanges in
    let trend := sum weightedChanges / INR (List.length weightedChanges) in
    Rmin 1 (Rmax (-1) (trend * 6)).

Definition Category_eqb (a b : Category) : bool :=
  match a, b with
  | strongly_bearish, strongly_bearish | mildly_bearish, mildly_bearish
  | neutral, neutral | mildly_bullish, mildly_bullish
  | strongly_bullish, strongly_bullish => true
  | _, _ => false
  end.

(** [acc[curr] = (acc[curr] || 0) + 1] on an object whose keys keep their
    creation order. *)
Fixpoint count_category (acc : list (Category * nat)) (curr : Category)
  : list (Category * nat) :=
  match acc with
  | [] => [(curr, 1%nat)]
  | (c, n) :: rest =>
      if Category_eqb c curr then (c, S n) :: rest
      else (c, n) :: count_category rest curr
  end.

Definition getDominantCategory (ms : list Match) (defaultCategory : Category)
  : Category :=
  let categories :=
    flat_map (fun m => match match_category m with
                       | Some c => [c]
                       | None => []
                       end) ms in
  match fold_left count_category categories [] with
  | [] => defaultCategory
  | first :: rest =>
      fst (fold_left (fun a b => if (snd b <? snd a)%nat then a else b)
                     rest first)
  end.

End Aggregator.

(* ===================================================================== *)
(** ** sentiment.service.ts: trend and volatility over doubles            *)
(* ===================================================================== *)

(** [calculateTrend] and [calculateVolatility] once more, with the numbers
    JavaScript computes with: IEEE-754 doubles, with their rounding, their
    infinities and NaN.  This is where the two functions and their
    real-number reading in [Aggregator] part ways. *)
Module Binary64.

Import PrimFloat FloatClass.
Import Aggregator.
Local Open Scope float_scope.

(** An array index or length as a number. *)
Definition of_nat (n : nat) : float := of_uint63 (Uint63.of_Z (Z.of_nat n)).

Definition Math_abs (x : float) : float := abs x.

(** [Math.sign]: 1 or -1; a zero or NaN is returned as it is. *)
Definition Math_sign (x : float) : float :=
  match 0 ?= x with
  | FLt => 1
  | FGt => -1
  | _ => x
  end.

(** [Math.max] and [Math.min] of two numbers: NaN if either is NaN, and
    [+0] counts as larger than [-0]. *)
Definition Math_max (a b : float) : float :=
  match a ?= b with
  | FLt => b
  | FGt => a
  | FEq => match classify a with NZero => b | _ => a end
  | FNotComparable => nan
  end.

Definition Math_min (a b : float) : float :=
  match b ?= a with
  | FLt => b
  | FGt => a
  | FEq => match classify a with NZero => a | _ => b end
  | FNotComparable => nan
  end.

Section Platform.

(** ECMAScript fixes [Math.pow] in special cases only and leaves the other
    values to the platform ("implementation-approximated"): [pow_approx]
    stands for those.  The cases fixed for a base that is negative, [-0] or
    [-Infinity] are left to it as well: the two functions below never have
    such a base. *)
Variable pow_approx : float -> float -> float.

Definition Math_pow (base exponent : float) : float :=
  if is_nan exponent then nan
  else if exponent =? 0 then 1
  else if is_nan base then nan
  else match classify base with
       | PInf => if 0 <? exponent then infinity else 0
       | PZero => if 0 <? exponent then 0 else infinity
       | PNormal | PSubn =>
           match classify exponent with
           | PInf => match base ?= 1 with
                     | FGt => infinity | FLt => 0 | _ => nan end
           | NInf => match base ?= 1 with
                     | FGt => 0 | FLt => infinity | _ => nan end
           | _ => pow_approx base exponent
           end
       | _ => pow_approx base exponent
       end.

(** [xs.reduce((sum, x) => sum + x, 0)]. *)
Definition sum (xs : list float) : float := fold_left add xs 0.

Definition calculateVolatility (scores : list float) : float :=
  if (List.length scores <? 2)%nat then 0
  else
    let differences :=
      consecutive (fun score prev => Math_abs (score - prev)) scores in
    let amplifiedDiffs := List.map (fun diff => Math_pow diff 3) differences in
    let weightedDiffs :=
      mapi (fun diff i =>
              diff * Math_pow 4 (of_nat i / of_nat (List.length amplifiedDiffs)))
           amplifiedDiffs in
    let volatility := sum weightedDiffs / of_nat (List.length weightedDiffs) in
    Math_min 1 (volatility * 8).

Definition calculateTrend (scores : list float) : float :=
  if (List.length scores <? 2)%nat then 0
  else
    let changes := consecutive (fun score prev => score - prev) scores in
    let amplifiedChanges :=
      List.map (fun change => Math_pow (Math_abs change) 2 * Math_sign change)
               changes in
    let weightedChanges :=
      mapi (fun change i =>
              change * Math_pow 3 (of_nat i / of_nat (List.length changes)))
           amplifiedChanges in
    let trend := sum weightedChanges / of_nat (List.length weightedChanges) in
    Math_min 1 (Math_max (-1) (trend * 6)).

End Platform.

(** [lo <= x && x <= hi], which is false of NaN. *)
Definition within (lo hi x : float) : bool := (lo <=? x) && (x <=? hi).

(** NaN, or a number whose sign bit is clear. *)
Definition not_negative (x : float) : Prop :=
  match FloatOps.Prim2SF x with
  | SpecFloat.S754_zero s | SpecFloat.S754_infinity s
  | SpecFloat.S754_finite s _ _ => s = false
  | SpecFloat.S754_nan => True
  end.

(** What every platform's [Math.pow] does with a base that is not
    negative. *)
Definition not_negative_pow (pow_approx : float -> float -> float) : Prop :=
  forall base exponent,
    not_negative base -> not_negative (pow_approx base exponent).

(** A platform's [Math.pow] as far as the example of three scores needs it:
    the only value left to the platform there is [3 ^ 0.5], the square root
    of 3. *)
Definition pow_half : float -> float -> float := fun base _ => sqrt base.

(** Three finite scores whose differences overflow. *)
Definition far_apart : list float := [1e308; -1e308; 1e308].

End Binary64.

(* ===================================================================== *)
(** ** sentiment-cache.service.ts over better-sqlite3                     *)
(* ===================================================================== *)

Module Cache.

(** The storage classes of SQLite that the queries meet. *)
Inductive SqlValue :=
| SqlNull
| SqlInteger (z : Z)
| SqlText (s : jsstring).

Definition pad2 (z : Z) : jsstring :=
  if (z <? 10)%Z then lit "0" ++ ofZ z else ofZ z.

Definition pad4 (z : Z) : jsstring :=
  if (z <? 10)%Z then lit "000" ++ ofZ z
  else if (z <? 100)%Z then lit "00" ++ ofZ z
  else if (z <? 1000)%Z then lit "0" ++ ofZ z
  else ofZ z.

(** The proleptic Gregorian date of a day number counted from 1970-01-01. *)
Definition civil_from_days (days : Z) : Z * Z * Z :=
  let z := (days + 719468)%Z in
  let era := (z / 146097)%Z in
  let doe := (z - era * 146097)%Z in
  let yoe := ((doe - doe / 1460 + doe / 36524 - doe / 146096) / 365)%Z in
  let doy := (doe - (365 * yoe + yoe / 4 - yoe / 100))%Z in
  let mp := ((5 * doy + 2) / 153)%Z in
  let d := (doy - (153 * mp + 2) / 5 + 1)%Z in
  let m := (if (mp <? 10)%Z then mp + 3 else mp - 9)%Z in
  let y := (yoe + era * 400 + (if (m <=? 2)%Z then 1 else 0))%Z in
  (y, m, d).

(** The TEXT value of [datetime('now')] when the clock reads [now]
    milliseconds: [YYYY-MM-DD HH:MM:SS] in UTC. *)
Definition sql_datetime (now : Z) : jsstring :=
  let secs := (now / 1000)%Z in
  let '(y, m, d) := civil_from_days (secs / 86400) in
  let sod := (secs mod 86400)%Z in
  pad4 y ++ lit "-" ++ pad2 m ++ lit "-" ++ pad2 d ++ lit " "
  ++ pad2 (sod / 3600) ++ lit ":" ++ pad2 (sod mod 3600 / 60) ++ lit ":"
  ++ pad2 (sod mod 60).

(** Recognising a TEXT value as an integer literal (blanks around an
    optionally signed run of digits), which is when NUMERIC affinity turns it
    into a number.  Real literals are left out: like integer literals they
    contain no colon. *)
Inductive NumState :=
| NStart
| NSign (negative : bool)
| NDigits (negative : bool) (acc : Z)
| NTrail (value : Z).

Definition is_digit (c : N) : bool := (48 <=? c)%N && (c <=? 57)%N.
Definition is_blank (c : N) : bool := (c =? 32)%N.
Definition digit_value (c : N) : Z := (Z.of_N c - 48)%Z.
Definition signed (negative : bool) (v : Z) : Z :=
  if negative then (- v)%Z else v.

Definition num_step (st : NumState) (c : N) : option NumState :=
  match st with
  | NStart =>
      if is_blank c then Some NStart
      else if (c =? 45)%N then Some (NSign true)
      else if (c =? 43)%N then Some (NSign false)
      else if is_digit c then Some (NDigits false (digit_value c))
      else None
  | NSign neg =>
      if is_digit c then Some (NDigits neg (digit_value c)) else None
  | NDigits neg acc =>
      if is_digit c then Some (NDigits neg (10 * acc + digit_value c)%Z)
      else if is_blank c then Some (NTrail (signed neg acc))
      else None
  | NTrail v => if is_blank c then Some (NTrail v) else None
  end.

Fixpoint num_run (st : NumState) (s : jsstring) : option Z :=
  match s with
  | [] => match st with
          | NDigits neg acc => Some (signed neg acc)
          | NTrail v => Some v
          | _ => None
          end
  | c :: rest => match num_step st c with
                 | Some st' => num_run st' rest
                 | None => None
                 end
  end.

Definition integer_literal (s : jsstring) : option Z := num_run NStart s.

(** NUMERIC affinity applied to the other operand of a comparison with a
    column of INTEGER affinity. *)
Definition apply_numeric_affinity (v : SqlValue) : SqlValue :=
  match v with
  | SqlText s => match integer_literal s with
                 | Some z => SqlInteger z
                 | None => SqlText s
                 end
  | _ => v
  end.

(** Binary collation of TEXT values. *)
Fixpoint text_lt (a b : jsstring) : bool :=
  match a, b with
  | _, [] => false
  | [], _ :: _ => true
  | x :: a', y :: b' => (x <? y)%N || ((x =? y)%N && text_lt a' b')
  end.

(** [a > b] in SQLite: NULL if an operand is NULL; a number is less than any
    text. *)
Definition sql_gt (a b : SqlValue) : option bool :=
  match a, b with
  | SqlNull, _ | _, SqlNull => None
  | SqlInteger x, SqlInteger y => Some (y <? x)%Z
  | SqlInteger _, SqlText _ => Some false
  | SqlText _, SqlInteger _ => Some true
  | SqlText s, SqlText t => Some (text_lt t s)
  end.

Definition sql_is_null (a : SqlValue) : bool :=
  match a with SqlNull => true | _ => false end.

(** A WHERE clause keeps a row when its condition is true, not NULL. *)
Definition sql_true (b : option bool) : bool :=
  match b with Some true => true | _ => false end.

(** [expiresAt IS NULL OR expiresAt > datetime('now')] on a row whose
    [expiresAt] column holds an integer. *)
Definition where_unexpired (now : Z) (r : Row) : bool :=
  let expiresAt := SqlInteger (row_expiresAt r) in
  sql_is_null expiresAt
  || sql_true (sql_gt expiresAt
                      (apply_numeric_affinity (SqlText (sql_datetime now)))).

(** [expiresAt <= datetime("now")], the condition of [cleanup]. *)
Definition where_expired (now : Z) (r : Row) : bool :=
  let expiresAt := SqlInteger (row_expiresAt r) in
  match sql_gt expiresAt (apply_numeric_affinity (SqlText (sql_datetime now))) with
  | Some b => negb b
  | None => false
  end.

(** What [getCachedSentiment] returns for a row. *)
Record CachedEntry := {
  ce_messageHash : jsstring;
  ce_embedding : Embedding;
  ce_sentiment : R;
  ce_confidence : R;
  ce_context : CachedContext;
  ce_expiresAt : option Z;
  ce_userId : jsstring;
  ce_roomId : jsstring
}.

(** [getCachedSentiment(message)].  The [embedding] column holds text, of
    which [new Float32Array] makes an empty array. *)
Definition getCachedSentiment (message : jsstring) : M (option CachedEntry) :=
  w <- get ;;
  let messageHash := sha256 w message in
  emit (EvCacheLookup messageHash) ;;;
  match find (fun r => Js.eqb (row_messageHash r) messageHash
                       && where_unexpired (clock w) r) (db w) with
  | None => ret None
  | Some result =>
      ret (Some {| ce_messageHash := row_messageHash result;
                   ce_embedding := [];
                   ce_sentiment := row_sentiment result;
                   ce_confidence := row_confidence result;
                   ce_context := row_context result;
                   ce_expiresAt := if (row_expiresAt result =? 0)%Z then None
                                   else Some (row_expiresAt result);
                   ce_userId := row_userId result;
                   ce_roomId := row_roomId result |})
  end.

Definition DAY_MS : Z := 24 * 60 * 60 * 1000.

(** [cacheSentiment(data)]: the INSERT fails on a [messageHash] that is
    already a key, and the failure is rethrown. *)
Definition cacheSentiment (data : CacheData) : M unit :=
  now <- date_now ;;
  let entry :=
    {| row_messageHash := cd_messageHash data;
       row_embedding := cd_embedding data;
       row_sentiment := cd_sentiment data;
       row_confidence := cd_confidence data;
       row_context := cd_context data;
       row_userId := cd_userId data;
       row_roomId := cd_roomId data;
       row_senderName := cd_senderName data;
       row_expiresAt := (now + DAY_MS)%Z;
       row_createdAt := now |} in
  w <- get ;;
  if existsb (fun r => Js.eqb (row_messageHash r) (row_messageHash entry)) (db w)
  then throw (PlainError (lit "SqliteError")
                (lit "UNIQUE constraint failed: sentiment_cache.messageHash"))
  else
    modify (fun w => with_db w (db w ++ [entry])) ;;;
    emit (EvCacheInsert (row_messageHash entry)).

(** [cleanup()]. *)
Definition cleanup : M unit :=
  modify (fun w => with_db w (filter (fun r => negb (where_expired (clock w) r))
                                     (db w))).

(** A row that the caller means to be live: stored under the hash of
    [message] with [expiresAt] still ahead of the clock. *)
Definition live_entry (w : World) (message : jsstring) (r : Row) : Prop :=
  In r (db w) /\ row_messageHash r = sha256 w message
  /\ (clock w < row_expiresAt r)%Z.

End Cache.

(* ===================================================================== *)
(** ** sentiment.service.ts: the orchestrator                            *)
(* ===================================================================== *)

Module Service.

Import Scoring Aggregator Cache.

(** The name given to [new ErrorRecovery(...)]. *)
Definition RECOVERY_SERVICE : jsstring := lit "SentimentAnalysis".

Definition set_initialized (b : bool) (s : Service) : Service :=
  {| initialized := b; observers := observers s;
     currentStrategy := currentStrategy s;
     anchors_bullish := anchors_bullish s;
     anchors_bearish := anchors_bearish s;
     anchors_neutral := anchors_neutral s |}.

Definition set_observers (os : list Observer) (s : Service) : Service :=
  {| initialized := initialized s; observers := os;
     currentStrategy := currentStrategy s;
     anchors_bullish := anchors_bullish s;
     anchors_bearish := anchors_bearish s;
     anchors_neutral := anchors_neutral s |}.

Definition set_strategy (st : AnalysisStrategy) (s : Service) : Service :=
  {| initialized := initialized s; observers := observers s;
     currentStrategy := st;
     anchors_bullish := anchors_bullish s;
     anchors_bearish := anchors_bearish s;
     anchors_neutral := anchors_neutral s |}.

Inductive AnchorCategory := bullish | bearish | neutral_anchor.

Definition AnchorCategory_key (c : AnchorCategory) : jsstring :=
  match c with
  | bullish => lit "bullish"
  | bearish => lit "bearish"
  | neutral_anchor => lit "neutral"
  end.

Definition set_anchors (c : AnchorCategory) (es : list Embedding) (s : Service)
  : Service :=
  {| initialized := initialized s; observers := observers s;
     currentStrategy := currentStrategy s;
     anchors_bullish := match c with bullish => es | _ => anchors_bullish s end;
     anchors_bearish := match c with bearish => es | _ => anchors_bearish s end;
     anchors_neutral :=
       match c with neutral_anchor => es | _ => anchors_neutral s end |}.

(** [Object.entries(SENTIMENT_ANCHORS)]. *)
Definition SENTIMENT_ANCHORS : list (AnchorCategory * list jsstring) :=
  [ (bullish, ANCHORS_bullish); (bearish, ANCHORS_bearish);
    (neutral_anchor, ANCHORS_neutral) ].

(** [new Float32Array(e)] for what [generateEmbeddingWithRetry] resolved
    to: empty for [undefined]. *)
Definition Float32Array_of (e : option Embedding) : Embedding :=
  match e with Some v => Float32Array v | None => [] end.

(** [Array.from(embedding)]: the components as they are; it throws on
    [undefined]. *)
Definition Array_from (e : option Embedding) : M Embedding :=
  match e with
  | Some v => ret v
  | None => throw (PlainError (lit "TypeError")
                              (lit "undefined is not iterable"))
  end.

(** [recovery.metadata?.result as Float32Array]; nothing but an embedding
    would be stored there. *)
Definition result_as_embedding (r : RecoveryResult) : option Embedding :=
  match metadata_result r with
  | Some (MEmbedding e) => Some e
  | _ => None
  end.

(** [recovery.metadata?.result as VectorQueryResult]. *)
Definition result_as_query (r : RecoveryResult) : option VectorQueryResult :=
  match metadata_result r with
  | Some (MQuery q) => Some q
  | _ => None
  end.

(** [generateEmbeddingWithRetry(text)]; [None] is [undefined]. *)
Definition generateEmbeddingWithRetry (text : jsstring) : M (option Embedding) :=
  try_catch
    (embedding <- generateEmbedding text ;; ret (Some (Float32Array embedding)))
    (fun error =>
       let embeddingError :=
         EmbeddingError (lit "Failed to generate embedding for text: " ++ text)
                        (cause_of error) in
       recovery <- attemptRecovery RECOVERY_SERVICE embeddingError
                     (result <- generateEmbedding text ;;
                      ret (Float32Array result)) ;;
       if negb (success recovery) then throw (thrown embeddingError)
       else ret (result_as_embedding recovery)).

(** [queryVectorStoreWithRetry(params)]. *)
Definition queryVectorStoreWithRetry (params : QueryParams)
  : M (option VectorQueryResult) :=
  try_catch
    (r <- vectorQuery params ;; ret (Some r))
    (fun error =>
       let vectorError :=
         VectorStoreError (lit "Failed to query vector store") (cause_of error) in
       recovery <- attemptRecovery RECOVERY_SERVICE vectorError
                     (vectorQuery params) ;;
       if negb (success recovery) then throw (thrown vectorError)
       else ret (result_as_query recovery)).

(** [Promise.all(xs.map(f))].  In the code the calls are started in array
    order and then run together: their retries overlap in time, and a call
    that fails does not stop the others.  Here each call runs to its end
    before the next starts, and the first failure ends the whole.  The two
    agree when no call fails: the requests are then those of the calls, in
    array order.  They also agree on whether the whole fails for a provider
    that is down until some time and answers from then on.  They differ in
    the pauses and requests made once a call has failed, of which the
    properties below say nothing. *)
Fixpoint mapM {A B} (f : A -> M B) (xs : list A) : M (list B) :=
  match xs with
  | [] => ret []
  | x :: rest => y <- f x ;; ys <- mapM f rest ;; ret (y :: ys)
  end.

Fixpoint forM_ {A} (xs : list A) (f : A -> M unit) : M unit :=
  match xs with
  | [] => ret tt
  | x :: rest => f x ;;; forM_ rest f
  end.

(** [initializeSentimentAnchors()]. *)
Definition initializeSentimentAnchors : M unit :=
  forM_ SENTIMENT_ANCHORS (fun entry =>
    let '(category, words) := entry in
    try_catch
      (embeddings <- mapM generateEmbeddingWithRetry words ;;
       modify_service (set_anchors category (List.map Float32Array_of embeddings)))
      (fun error =>
         throw (thrown (InitializationError
                          (lit "Failed to initialize "
                           ++ AnchorCategory_key category ++ lit " anchors")
                          (cause_of error))))).

(** [initialize()]. *)
Definition initialize : M unit :=
  w <- get ;;
  if initialized (service w) then ret tt
  else
    try_catch
      (initializeSentimentAnchors ;;;
       modify_service (set_initialized true))
      (fun error =>
         let initError :=
           InitializationError (lit "Failed to initialize sentiment anchors")
                               (cause_of error) in
         recovery <- attemptRecovery RECOVERY_SERVICE initError
                       initializeSentimentAnchors ;;
         if negb (success recovery) then throw (thrown initError)
         else ret tt).

(** [addObserver], [removeObserver] on the [Set] of observers, and
    [setStrategy]. *)
Definition addObserver (o : Observer) : M unit :=
  modify_service (fun s =>
    if existsb (fun o' => Nat.eqb (observerId o') (observerId o)) (observers s)
    then s else set_observers (observers s ++ [o]) s).

Definition removeObserver (o : Observer) : M unit :=
  modify_service (fun s =>
    set_observers
      (filter (fun o' => negb (Nat.eqb (observerId o') (observerId o)))
              (observers s)) s).

Definition setStrategy (st : AnalysisStrategy) : M unit :=
  modify_service (set_strategy st).

(** [this.observers.forEach(observer => observer.onSentimentUpdate(result))]:
    nothing catches what an observer throws. *)
Fixpoint notifyEach (os : list Observer) (result : SentimentAnalysisResult)
  : M unit :=
  match os with
  | [] => ret tt
  | o :: rest =>
      emit (EvNotify (observerId o) result) ;;;
      match onSentimentUpdate o result with
      | Some e => throw e
      | None => notifyEach rest result
      end
  end.

Definition notifyObservers (result : SentimentAnalysisResult) : M unit :=
  w <- get ;;
  notifyEach (observers (service w)) result.

Definition hashMessage (text : jsstring) : M jsstring :=
  w <- get ;; ret (sha256 w text).

(** [setImmediate(() => cacheSentiment(cacheData).catch(...))]: the write is
    queued, not performed. *)
Definition setImmediate_cache (cacheData : CacheData) : M unit :=
  modify (fun w => with_pending w (pending w ++ [cacheData])).

(** One queued write runs; its failure is logged and goes no further. *)
Definition run_pending_one (cacheData : CacheData) : M unit :=
  try_catch (cacheSentiment cacheData) (fun _ => ret tt).

(** The event loop reaches the queued writes. *)
Definition run_pending : M unit :=
  w <- get ;;
  modify (fun w => with_pending w []) ;;;
  forM_ (pending w) run_pending_one.

Definition calculateEmbeddingCost (text : jsstring) : R :=
  (INR (List.length text) / 4 / 1000 * 0.0001)%R.

Definition mapSentimentToType (c : Category) : jsstring :=
  match c with
  | strongly_bearish => lit "strongly_negative"
  | mildly_bearish => lit "mildly_negative"
  | neutral => lit "neutral"
  | mildly_bullish => lit "mildly_positive"
  | strongly_bullish => lit "strongly_positive"
  end.

(** [similar.matches] throws on [undefined]. *)
Definition matches_of (similar : option VectorQueryResult) : M (list Match) :=
  match similar with
  | Some r => ret (matches r)
  | None => throw (PlainError (lit "TypeError")
                     (lit "Cannot read properties of undefined (reading 'matches')"))
  end.

(** The [try] block of [analyzeSentiment] up to the construction of
    [result]. *)
Definition analysis (text : jsstring) (context : SentimentContext)
  (startTime : Z) : M SentimentAnalysisResult :=
  w <- get ;;
  (if negb (initialized (service w)) then initialize else ret tt) ;;;
  embeddingStartTime <- date_now ;;
  embedding <- generateEmbeddingWithRetry text ;;
  now <- date_now ;;
  emit (EvMetric (APIMetric (lit "openai") (lit "embedding")
                            (now - embeddingStartTime) true false
                            (Some (calculateEmbeddingCost text)))) ;;;
  w <- get ;;
  match currentStrategy (service w) text embedding with
  | inl e => throw e
  | inr sentimentScore =>
      vectorStartTime <- date_now ;;
      vector <- Array_from embedding ;;
      similar <- queryVectorStoreWithRetry
                   {| vector := vector; topK := 5; includeMetadata := true |} ;;
      now <- date_now ;;
      emit (EvMetric (APIMetric (lit "pinecone") (lit "vector_search")
                                (now - vectorStartTime) true false None)) ;;;
      cacheStartTime <- date_now ;;
      messageHash <- hashMessage text ;;
      vector' <- Array_from embedding ;;
      ms <- matches_of similar ;;
      let cacheData :=
        {| cd_messageHash := messageHash;
           cd_embedding := vector';
           cd_sentiment := score sentimentScore;
           cd_confidence := confidence sentimentScore;
           cd_context := CtxMatches ms;
           cd_userId := ctx_userId context;
           cd_roomId := ctx_roomId context;
           cd_senderName := match ctx_senderName context with
                            | [] => lit "Unknown"
                            | n => n
                            end |} in
      setImmediate_cache cacheData ;;;
      now <- date_now ;;
      emit (EvMetric (CacheMetric (lit "hit") messageHash
                                  (now - cacheStartTime))) ;;;
      let result :=
        {| result_score := sentimentScore;
           result_context :=
             {| recentTrend := calculateTrend (List.map match_score ms);
                volatility := calculateVolatility (List.map match_score ms);
                dominantCategory :=
                  getDominantCategory ms (category sentimentScore) |} |} in
      now <- date_now ;;
      emit (EvMetric (SentimentMetric (now - startTime)
                        (confidence sentimentScore)
                        (mapSentimentToType (category sentimentScore)))) ;;;
      ret result
  end.

(** The [catch] block of [analyzeSentiment]. *)
Definition analysis_failed {A} (startTime : Z) (error : JsError) : M A :=
  now <- date_now ;;
  match message_of error with
  | Some msg =>
      if includes msg (lit "OpenAI") then
        emit (EvMetric (APIMetric (lit "openai") (lit "embedding")
                          (now - startTime) false
                          (includes msg (lit "rate_limit")) None))
      else if includes msg (lit "Pinecone") then
        emit (EvMetric (APIMetric (lit "pinecone") (lit "vector_search")
                          (now - startTime) false
                          (includes msg (lit "rate limit")) None))
      else ret tt
  | None => ret tt
  end ;;;
  throw (thrown (AnalysisError (lit "Failed to analyze sentiment")
                               (cause_of error))).

(** [analyzeSentiment(text, context)]. *)
Definition analyzeSentiment (text : jsstring) (context : SentimentContext)
  : M SentimentAnalysisResult :=
  startTime <- date_now ;;
  try_catch
    (result <- analysis text context startTime ;;
     notifyObservers result ;;;
     ret result)
    (analysis_failed startTime).

(** The claim on observers, for one call: if the analysis itself succeeds,
    the call returns its result and every registered observer has been
    notified of it, in registration order. *)
Definition observers_isolated (text : jsstring) (context : SentimentContext)
  (w : World) : Prop :=
  forall result w1,
    analysis text context (clock w) w = (inr result, w1) ->
    fst (analyzeSentiment text context w) = inr result
    /\ notified (trace (snd (analyzeSentiment text context w)))
       = notified (trace w1)
         ++ List.map (fun o => (observerId o, result)) (observers (service w1)).

(** A computation respects a relation between worlds when every run takes a
    world to a related one, whether it returns or throws. *)
Definition respects (R : World -> World -> Prop) {A} (m : M A) : Prop :=
  forall w, R w (snd (m w)).

(** Relations that every effect of the service respects, except perhaps
    setting the [initialized] flag. *)
Class Stepwise (R : World -> World -> Prop) : Prop := {
  step_refl : forall w, R w w;
  step_trans : forall a b c, R a b -> R b c -> R a c;
  step_sleep : forall ms, respects R (sleep ms);
  step_generateEmbedding : forall text, respects R (generateEmbedding text);
  step_vectorQuery : forall params, respects R (vectorQuery params);
  step_metric : forall m, respects R (emit (EvMetric m));
  step_notify : forall o r, respects R (emit (EvNotify o r));
  step_anchors : forall c es, respects R (modify_service (set_anchors c es));
  step_setImmediate : forall d, respects R (setImmediate_cache d)
}.

Definition same_lookups (w w' : World) : Prop :=
  cache_lookups (trace w') = cache_lookups (trace w).

Definition same_initialized (w w' : World) : Prop :=
  initialized (service w') = initialized (service w).

Definition trace_grows (w w' : World) : Prop :=
  exists t, trace w' = trace w ++ t.

End Service.

(* ===================================================================== *)
(** ** Concrete collaborators and worlds                                  *)
(* ===================================================================== *)

Module Scenarios.

Import Scoring Cache Service.
Import PrimFloat.
Local Open Scope R_scope.

Definition provider_down : JsError :=
  PlainError (lit "Error") (lit "Failed to generate embedding: timeout").

Definition store_down : JsError :=
  PlainError (lit "Error") (lit "Failed to query vector store: timeout").

(** What the provider answers, and what a [Float32Array] keeps of it. *)
Definition sample_embedding : Embedding := [0.1; 0.2; 0.3]%float.

Definition sample_float32 : Embedding :=
  [0.10000000149011612; 0.20000000298023224; 0.30000001192092896]%float.

Definition sample_matches : VectorQueryResult :=
  {| matches :=
       [ {| match_id := lit "m1"; match_score := 0.9;
            match_category := Some mildly_bullish |};
         {| match_id := lit "m2"; match_score := 0.8;
            match_category := None |} ] |}.

(** An embedding provider whose first [failures] calls fail. *)
Definition flaky_provider (failures : nat)
  : Z -> nat -> jsstring -> JsError + Embedding :=
  fun _ n _ => if (n <? failures)%nat then inl provider_down
               else inr sample_embedding.

(** An embedding provider that is down until the clock reads [until]. *)
Definition outage_provider (until : Z)
  : Z -> nat -> jsstring -> JsError + Embedding :=
  fun now _ _ => if (now <? until)%Z then inl provider_down
                 else inr sample_embedding.

(** A vector store whose first [failures] queries fail. *)
Definition flaky_store (failures : nat)
  : Z -> nat -> QueryParams -> JsError + VectorQueryResult :=
  fun _ n _ => if (n <? failures)%nat then inl store_down
               else inr sample_matches.

Definition quiet_observer (id : nat) : Observer :=
  {| observerId := id; onSentimentUpdate := fun _ => None |}.

Definition throwing_observer (id : nat) : Observer :=
  {| observerId := id;
     onSentimentUpdate :=
       fun _ => Some (PlainError (lit "Error") (lit "observer failed")) |}.

(** The service as its constructor leaves it when no strategy is passed, or
    already initialised. *)
Definition new_service (ready : bool) (os : list Observer) : Service :=
  {| initialized := ready; observers := os;
     currentStrategy := getDefaultStrategy;
     anchors_bullish := []; anchors_bearish := []; anchors_neutral := [] |}.

(** A stand-in for the digest: the worlds below only need distinct keys for
    distinct messages. *)
Definition digest (s : jsstring) : jsstring := lit "sha256:" ++ s.

Definition new_world (provider : Z -> nat -> jsstring -> JsError + Embedding)
  (store : Z -> nat -> QueryParams -> JsError + VectorQueryResult)
  (rows : list Row) (svc : Service) : World :=
  {| clock := 1708430400000; trace := [];
     embeddingService := provider; embeddingCalls := 0;
     vectorStore := store; vectorCalls := 0;
     sha256 := digest; db := rows; pending := []; service := svc |}.

Definition caller : SentimentContext :=
  {| ctx_userId := lit "u1"; ctx_roomId := lit "room"; ctx_senderName := lit "u1" |}.

Definition greeting : jsstring := lit "gm everyone".

(** Initialisation meets an outage: the provider is down for the first 16
    seconds, longer than the five retries of an anchor term take (15.5 s),
    and answers from then on. *)
Definition world_init_outage : World :=
  new_world (outage_provider (1708430400000 + 16000)) (flaky_store 0) []
            (new_service false []).

(** A ready service whose cache holds a row for [greeting], written a minute
    ago and valid for a day. *)
Definition greeting_row : Row :=
  {| row_messageHash := digest greeting; row_embedding := sample_embedding;
     row_sentiment := 0.5; row_confidence := 0.8;
     row_context := CtxMatches (matches sample_matches);
     row_userId := lit "u1"; row_roomId := lit "room";
     row_senderName := lit "u1";
     row_expiresAt := (1708430400000 - 60000 + DAY_MS)%Z;
     row_createdAt := (1708430400000 - 60000)%Z |}.

Definition world_cached : World :=
  new_world (flaky_provider 0) (flaky_store 0) [greeting_row]
            (new_service true []).

(** A ready service with two observers, the first of which throws. *)
Definition world_observed : World :=
  new_world (flaky_provider 0) (flaky_store 0) []
            (new_service true [throwing_observer 1; quiet_observer 2]).

(** A ready service with two observers that return normally. *)
Definition world_listening : World :=
  new_world (flaky_provider 0) (flaky_store 0) []
            (new_service true [quiet_observer 1; quiet_observer 2]).

(** A ready service whose provider fails once and then answers. *)
Definition world_recovering : World :=
  new_world (flaky_provider 1) (flaky_store 1) [] (new_service true []).

(** A ready service whose provider is down for the first 1.5 seconds. *)
Definition world_short_outage : World :=
  new_world (outage_provider (1708430400000 + 1500)) (flaky_store 0) []
            (new_service true []).

(** A ready service whose provider fails four times, or ten times, before
    it answers. *)
Definition world_failing : World :=
  new_world (flaky_provider 10) (flaky_store 0) [] (new_service true []).
Definition world_retrying : World :=
  new_world (flaky_provider 4) (flaky_store 0) [] (new_service true []).

(** What [analyzeSentiment] would queue for [greeting]. *)
Definition greeting_data : CacheData :=
  {| cd_messageHash := digest greeting; cd_embedding := sample_embedding;
     cd_sentiment := 0.5%R; cd_confidence := 0.8%R;
     cd_context := CtxMatches (matches sample_matches);
     cd_userId := lit "u1"; cd_roomId := lit "room"; cd_senderName := lit "u1" |}.

(** The first input of the integration test "should analyze sentiment
    correctly", which expects a confidence in (0, 1]; it ends in the emoji
    U+1F389. *)
Definition thrilled : jsstring :=
  lit "I am absolutely thrilled and overjoyed with this amazing achievement! "
  ++ [0xD83C; 0xDF89]%N.

(** An all-caps message with three exclamation marks. *)
Definition shout : jsstring := lit "AMAZING!!!".

End Scenarios.

(* ===================================================================== *)
(** ** sentiment.service.ts: the LRU cache of reference embeddings        *)
(* ===================================================================== *)

Module Lru.

(** The keys are strings, as in the one use of the class, the map
    [referenceEmbeddings] of the service. *)

(** [Map.prototype.delete]. *)
Fixpoint map_delete {V} (m : list (jsstring * V)) (k : jsstring)
  : list (jsstring * V) :=
  match m with
  | [] => []
  | (k', v) :: rest =>
      if Js.eqb k' k then rest else (k', v) :: map_delete rest k
  end.

Section Cache.

(** The values stored, and which of them JavaScript takes for true in
    [if (value)]; every [Float32Array] is. *)
Variable V : Type.
Variable truthy : V -> bool.

Record LRUCache := {
  cache : list (jsstring * V);
  maxSize : Z
}.

Definition create (maxSize : Z) : LRUCache :=
  {| cache := []; maxSize := maxSize |}.

(** [get(key)]: the value found, if any, and the cache afterwards. *)
Definition get (key : jsstring) (c : LRUCache) : option V * LRUCache :=
  match map_get (cache c) key with
  | Some value =>
      if truthy value then
        (Some value,
         {| cache := map_set (map_delete (cache c) key) key value;
            maxSize := maxSize c |})
      else (Some value, c)
  | None => (None, c)
  end.

(** [set(key, value)]; [this.cache.keys().next().value] is the first key,
    and deleting [undefined] from an empty map does nothing. *)
Definition set (key : jsstring) (value : V) (c : LRUCache) : LRUCache :=
  let cache1 :=
    if (maxSize c <=? Z.of_nat (List.length (cache c)))%Z then
      match cache c with
      | (firstKey, _) :: _ => map_delete (cache c) firstKey
      | [] => cache c
      end
    else cache c in
  {| cache := map_set cache1 key value; maxSize := maxSize c |}.

Definition clear (c : LRUCache) : LRUCache :=
  {| cache := []; maxSize := maxSize c |}.

(** The map of a cache in use: distinct keys, no more than [maxSize]. *)
Definition within_capacity (c : LRUCache) : Prop :=
  NoDup (List.map fst (cache c))
  /\ (Z.of_nat (List.length (cache c)) <= maxSize c)%Z.

End Cache.

End Lru.

(* ===================================================================== *)
(** ** openai.service.ts                                                  *)
(* ===================================================================== *)

Module Embeddings.

(** [array.slice(start, end)]. *)
Definition slice {T} (array : list T) (start stop : Z) : list T :=
  let len := Z.of_nat (List.length array) in
  let from := if (start <? 0)%Z then Z.max (len + start) 0 else Z.min start len in
  let to := if (stop <? 0)%Z then Z.max (len + stop) 0 else Z.min stop len in
  firstn (Z.to_nat (to - from)) (skipn (Z.to_nat from) array).

(** The loop of [chunkArray]: [for (let i = 0; i < array.length; i += size)].
    [None] when [fuel] passes do not end it. *)
Fixpoint chunkLoop {T} (fuel : nat) (array : list T) (size i : Z)
  (chunks : list (list T)) : option (list (list T)) :=
  if (i <? Z.of_nat (List.length array))%Z then
    match fuel with
    | O => None
    | S fuel' =>
        chunkLoop fuel' array size (i + size)%Z
                  (chunks ++ [slice array i (i + size)])
    end
  else Some chunks.

(** [chunkArray(array, size)]: with a size of at least 1 the loop makes at
    most [array.length] passes. *)
Definition chunkArray {T} (array : list T) (size : Z) : option (list (list T)) :=
  chunkLoop (List.length array) array size 0 [].

(** [defaultOptions]. *)
Definition DEFAULT_batchSize : Z := 100.
Definition DEFAULT_maxRetries : Z := 3.

(** [`${error.message}`]. *)
Definition message_text (error : JsError) : jsstring :=
  match message_of error with
  | Some m => m
  | None => lit "undefined"
  end.

(** The client: the outcome of the [n]-th request [embeddings.create], given
    its inputs, is the [data] of the response, one embedding per item. *)
Definition Client : Type := nat -> list jsstring -> JsError + list Embedding.

(** [generateEmbedding(text)] as request number [n]. *)
Definition generateEmbedding (client : Client) (n : nat) (text : jsstring)
  : JsError + Embedding :=
  match client n [text] with
  | inr (embedding :: _) => inr embedding
  | inr [] =>
      inl (PlainError (lit "Error")
             (lit "Failed to generate embedding: "
              ++ lit "Cannot read properties of undefined (reading 'embedding')"))
  | inl error =>
      inl (PlainError (lit "Error")
             (lit "Failed to generate embedding: " ++ message_text error))
  end.

(** The [for (const batch of batches)] loop: the embeddings so far and the
    batches sent so far, from request number [n] on. *)
Fixpoint sendBatches (client : Client) (n : nat) (batches : list (list jsstring))
  (embeddings : list Embedding) (sent : list (list jsstring))
  : (JsError + list Embedding) * list (list jsstring) :=
  match batches with
  | [] => (inr embeddings, sent)
  | batch :: rest =>
      match client n batch with
      | inl error => (inl error, sent ++ [batch])
      | inr data =>
          sendBatches client (S n) rest (embeddings ++ data) (sent ++ [batch])
      end
  end.

(** [generateBatchEmbeddings(texts)] with requests numbered from [n]: the
    outcome and the batches sent; [None] when [chunkArray] does not end. *)
Definition generateBatchEmbeddings (client : Client) (batchSize : Z) (n : nat)
  (texts : list jsstring)
  : option ((JsError + list Embedding) * list (list jsstring)) :=
  match chunkArray texts batchSize with
  | None => None
  | Some batches =>
      match sendBatches client n batches [] [] with
      | (inl error, sent) =>
          Some (inl (PlainError (lit "Error")
                       (lit "Failed to generate batch embeddings: "
                        ++ message_text error)), sent)
      | (inr embeddings, sent) => Some (inr embeddings, sent)
      end
  end.

End Embeddings.

(* ===================================================================== *)
(** ** response-templates.ts                                              *)
(* ===================================================================== *)

Module Templates.

Local Open Scope R_scope.

(** The score as [getResponse] meets it at run time: its category is a
    string. *)
Record SentimentScore := {
  score : R;
  category : jsstring;
  confidence : R
}.

Record ResponseTemplate := {
  template : jsstring;
  useCase : jsstring;
  t_category : jsstring;
  confidenceThreshold : option R
}.

(** The literals of the union type [SentimentScore['category']] of
    sentiment.service.ts. *)
Definition Category_value (c : Category) : jsstring :=
  match c with
  | strongly_bearish => lit "strongly_bearish"
  | mildly_bearish => lit "mildly_bearish"
  | neutral => lit "neutral"
  | mildly_bullish => lit "mildly_bullish"
  | strongly_bullish => lit "strongly_bullish"
  end.

(** A score of the analysis service, handed to [getResponse]. *)
Definition of_service (s : Types.SentimentScore) : SentimentScore :=
  {| score := Types.score s;
     category := Category_value (Types.category s);
     confidence := Types.confidence s |}.

Definition FALLBACK : jsstring :=
  lit "I understand. Please tell me more about that.".

(** [!template.confidenceThreshold || score.confidence >= threshold]: an
    absent threshold and a threshold of 0 are both falsy. *)
Definition meetsThreshold (t : ResponseTemplate) (s : SentimentScore) : bool :=
  match confidenceThreshold t with
  | None => true
  | Some threshold =>
      if Req_dec_T threshold 0 then true
      else if Rle_dec threshold (confidence s) then true else false
  end.

Definition eligibleTemplates (templates : list ResponseTemplate)
  (s : SentimentScore) : list ResponseTemplate :=
  filter (fun t => Js.eqb (t_category t) (category s) && meetsThreshold t s)
         templates.

(** [getResponse(score)], with [random] the value of [Math.random()], a
    number in [0, 1).  Outside that range the index could miss the array, and
    reading [.template] of [undefined] would throw. *)
Definition getResponse (templates : list ResponseTemplate) (random : R)
  (s : SentimentScore) : JsError + jsstring :=
  match eligibleTemplates templates s with
  | [] => inr FALLBACK
  | eligible =>
      let randomIndex := Int_part (random * INR (List.length eligible)) in
      match (if (randomIndex <? 0)%Z then None
             else nth_error eligible (Z.to_nat randomIndex)) with
      | Some t => inr (template t)
      | None =>
          inl (PlainError (lit "TypeError")
                 (lit "Cannot read properties of undefined (reading 'template')"))
      end
  end.

(** The templates a new service starts with. *)
Definition INITIAL_TEMPLATES : list ResponseTemplate :=
  [ {| t_category := lit "strongly_negative";
     template :=
       lit "I understand you're feeling very frustrated. Let's try to "
         ++ lit "work through this together. What specific aspects are "
         ++ lit "bothering you the most?";
     useCase := lit "general_negative";
     confidenceThreshold := Some 0.7 |};
  {| t_category := lit "strongly_negative";
     template :=
       lit "I hear your concerns and they're valid. Would you like to "
         ++ lit "discuss potential solutions?";
     useCase := lit "problem_solving";
     confidenceThreshold := Some 0.6 |};
  {| t_category := lit "mildly_negative";
     template :=
       lit "I sense some concern in your message. Could you tell me "
         ++ lit "more about what's on your mind?";
     useCase := lit "general_concern";
     confidenceThreshold := Some 0.6 |};
  {| t_category := lit "mildly_negative";
     template :=
       lit "Things might not be ideal right now, but let's look at "
         ++ lit "this from a different perspective.";
     useCase := lit "perspective_shift";
     confidenceThreshold := Some 0.5 |};
  {| t_category := lit "neutral";
     template :=
       lit "I understand. Would you like to explore this topic "
         ++ lit "further?";
     useCase := lit "general_neutral";
     confidenceThreshold := Some 0.5 |};
  {| t_category := lit "neutral";
     template :=
       lit "That's interesting. Could you elaborate on that?";
     useCase := lit "exploration";
     confidenceThreshold := Some 0.4 |};
  {| t_category := lit "mildly_positive";
     template :=
       lit "I'm glad things are going well! What aspects are you "
         ++ lit "finding most encouraging?";
     useCase := lit "general_positive";
     confidenceThreshold := Some 0.6 |};
  {| t_category := lit "mildly_positive";
     template :=
       lit "That's good to hear! Would you like to discuss how to "
         ++ lit "build on this positive momentum?";
     useCase := lit "momentum_building";
     confidenceThreshold := Some 0.5 |};
  {| t_category := lit "strongly_positive";
     template :=
       lit "That's fantastic! Your enthusiasm is contagious. What's "
         ++ lit "the best part about this for you?";
     useCase := lit "general_excitement";
     confidenceThreshold := Some 0.7 |};
  {| t_category := lit "strongly_positive";
     template :=
       lit "I'm thrilled to hear about your success! Would you like "
         ++ lit "to share more details about how you achieved this?";
     useCase := lit "success_story";
     confidenceThreshold := Some 0.6 |} ].

Definition addTemplate (t : ResponseTemplate) (templates : list ResponseTemplate)
  : list ResponseTemplate :=
  templates ++ [t].

Definition removeTemplate (u : jsstring) (templates : list ResponseTemplate)
  : list ResponseTemplate :=
  filter (fun t => negb (Js.eqb (useCase t) u)) templates.

End Templates.

(* ===================================================================== *)
(** ** index.ts: the sentiment of a window                                *)
(* ===================================================================== *)

Module Bot.

Import Aggregator.
Local Open Scope R_scope.

(** [entries.sort(([, a], [, b]) => b - a)]: larger counts first; the sort
    of an array is stable, so entries with equal counts keep their order. *)
Fixpoint insert_by_count (x : Category * nat) (sorted : list (Category * nat))
  : list (Category * nat) :=
  match sorted with
  | [] => [x]
  | y :: rest =>
      if (snd x <? snd y)%nat then y :: insert_by_count x rest
      else x :: y :: rest
  end.

Definition sort_by_count (entries : list (Category * nat))
  : list (Category * nat) :=
  fold_right insert_by_count [] entries.

(** [determineOverallCategory(sentiments)]; with no sentiment the sorted
    array is empty and reading [[0][0]] throws. *)
Definition determineOverallCategory (sentiments : list SentimentAnalysisResult)
  : JsError + Category :=
  let categoryCounts :=
    fold_left count_category
              (List.map (fun s => category (result_score s)) sentiments) [] in
  match sort_by_count categoryCounts with
  | [] => inl (PlainError (lit "TypeError")
                 (lit "Cannot read properties of undefined (reading '0')"))
  | (c, _) :: _ => inr c
  end.

(** How often a category occurs. *)
Definition occurrences (c : Category) (cats : list Category) : nat :=
  List.length (filter (Category_eqb c) cats).

(** [c] is seen before [d] is seen for the first time. *)
Definition seen_before (c d : Category) (cats : list Category) : Prop :=
  exists pre post, cats = pre ++ d :: post /\ ~ In d pre /\ In c pre.

(** A result of the analysis, for the examples. *)
Definition calm_result : SentimentAnalysisResult :=
  {| result_score := {| score := 0.5; category := neutral; confidence := 1 |};
     result_context := {| recentTrend := 0; volatility := 0;
                          dominantCategory := neutral |} |}.

End Bot.

(* ===================================================================== *)
(** ** Regular expressions of the price detector                          *)
(* ===================================================================== *)

Module Regex.

Local Open Scope N_scope.

(** The patterns used: a class of code units, sequence, alternation (the
    left alternative is tried first), greedy repetition of a class, and the
    word boundary [\b]. *)
Inductive re :=
| Eps
| Chr (p : N -> bool)
| Seq (a b : re)
| Alt (a b : re)
| Star (p : N -> bool)
| WordBoundary.

(** [\d], [\s] and the word characters of [\b] (no [u] flag). *)
Definition digit (c : N) : bool := (48 <=? c) && (c <=? 57).

Definition space (c : N) : bool :=
  ((9 <=? c) && (c <=? 13)) || (c =? 32) || (c =? 0xA0) || (c =? 0x1680)
  || ((0x2000 <=? c) && (c <=? 0x200A)) || (c =? 0x2028) || (c =? 0x2029)
  || (c =? 0x202F) || (c =? 0x205F) || (c =? 0x3000) || (c =? 0xFEFF).

Definition word (c : N) : bool :=
  ((97 <=? c) && (c <=? 122)) || ((65 <=? c) && (c <=? 90)) || digit c
  || (c =? 95).

Definition word_at (c : option N) : bool :=
  match c with Some x => word x | None => false end.

(** A lower-case ASCII letter of a pattern under the [i] flag: without the
    [u] flag a code unit outside ASCII is never folded onto an ASCII one, so
    the letter matches itself and its capital only. *)
Definition letter_match (l c : N) : bool := (c =? l) || (c =? l - 32).

Definition letter (l : N) : re := Chr (letter_match l).

Definition exactly (l : N) : re := Chr (N.eqb l).

(** A literal under the [i] flag; the literals of the detector are
    lower-case ASCII letters. *)
Fixpoint word_ci (s : jsstring) : re :=
  match s with
  | [] => Eps
  | l :: rest => Seq (letter l) (word_ci rest)
  end.

(** Greedy repetition with backtracking: [k] is what remains to be matched,
    applied to the code unit before the position and the rest of the
    input. *)
Fixpoint star (p : N -> bool) (prev : option N) (s : jsstring)
  (k : option N -> jsstring -> option jsstring) : option jsstring :=
  match s with
  | c :: s' =>
      if p c then
        match star p (Some c) s' k with
        | Some r => Some r
        | None => k prev s
        end
      else k prev s
  | [] => k prev s
  end.

(** Backtracking matcher.  [run r prev s k] matches [r] at the head of [s],
    which [prev] precedes, then continues with [k]; the result is the input
    left after the whole match. *)
Fixpoint run (r : re) (prev : option N) (s : jsstring)
  (k : option N -> jsstring -> option jsstring) : option jsstring :=
  match r with
  | Eps => k prev s
  | Chr p =>
      match s with
      | c :: s' => if p c then k (Some c) s' else None
      | [] => None
      end
  | Seq a b => run a prev s (fun prev' s' => run b prev' s' k)
  | Alt a b =>
      match run a prev s k with
      | Some x => Some x
      | None => run b prev s k
      end
  | Star p => star p prev s k
  | WordBoundary =>
      if xorb (word_at prev) (word_at (hd_error s)) then k prev s else None
  end.

(** The text matched at the head of [s], if the pattern matches there. *)
Definition match_here (r : re) (prev : option N) (s : jsstring)
  : option jsstring :=
  match run r prev s (fun _ rest => Some rest) with
  | Some rest => Some (firstn (List.length s - List.length rest) s)
  | None => None
  end.

(** [while ((match = regex.exec(s)) !== null)] for a global expression that
    matches no empty text: the matches [(match.index, match[0])], searched
    from left to right, each search starting where the last match ended.
    [skip] counts the code units still covered by the last match. *)
Fixpoint exec_all (r : re) (skip : nat) (index : nat) (prev : option N)
  (s : jsstring) : list (nat * jsstring) :=
  match s with
  | [] => []
  | c :: rest =>
      match skip with
      | S n => exec_all r n (S index) (Some c) rest
      | O =>
          match match_here r prev s with
          | Some text =>
              (index, text)
              :: exec_all r (List.length text - 1) (S index) (Some c) rest
          | None => exec_all r 0 (S index) (Some c) rest
          end
      end
  end.

(** [s.trim()]. *)
Fixpoint trimStart (s : jsstring) : jsstring :=
  match s with
  | c :: rest => if space c then trimStart rest else s
  | [] => []
  end.

Definition trim (s : jsstring) : jsstring :=
  rev (trimStart (rev (trimStart s))).

(** The positions at which [emoji] occurs in [s], as the loop
    [index = s.indexOf(emoji, index + 1)] finds them. *)
Fixpoint indexesOf (emoji : jsstring) (index : nat) (s : jsstring) : list nat :=
  (if prefix emoji s then [index] else [])
  ++ match s with
     | [] => []
     | _ :: rest => indexesOf emoji (S index) rest
     end.

(** What a pattern means, for the statements about the matcher: the
    pattern matches [text], which [prev] precedes and [rest] follows.
    [last_of prev text] is the code unit before the end of [text]. *)
Definition last_of (prev : option N) (text : jsstring) : option N :=
  fold_left (fun _ c => Some c) text prev.

Inductive Matches : re -> option N -> jsstring -> jsstring -> Prop :=
| M_Eps prev rest : Matches Eps prev [] rest
| M_Chr p c prev rest : p c = true -> Matches (Chr p) prev [c] rest
| M_Seq a b prev t1 t2 rest :
    Matches a prev t1 (t2 ++ rest) ->
    Matches b (last_of prev t1) t2 rest ->
    Matches (Seq a b) prev (t1 ++ t2) rest
| M_AltL a b prev t rest : Matches a prev t rest -> Matches (Alt a b) prev t rest
| M_AltR a b prev t rest : Matches b prev t rest -> Matches (Alt a b) prev t rest
| M_Star0 p prev rest : Matches (Star p) prev [] rest
| M_StarS p c prev t rest :
    p c = true -> Matches (Star p) (Some c) t rest ->
    Matches (Star p) prev (c :: t) rest
| M_Boundary prev rest :
    xorb (word_at prev) (word_at (hd_error rest)) = true ->
    Matches WordBoundary prev [] rest.

(** [text] is the literal [t] up to the case of its letters. *)
Fixpoint ci_eq (t text : jsstring) : bool :=
  match t, text with
  | [], [] => true
  | l :: t', c :: text' => letter_match l c && ci_eq t' text'
  | _, _ => false
  end.

(** The last code unit of a text. *)
Definition last_error (s : jsstring) : option N := last_of None s.

End Regex.

(* ===================================================================== *)
(** ** price-detector.ts and price-processor.ts                           *)
(* ===================================================================== *)

Module Price.

Import Window Regex.

Inductive MentionType := marketcap | term | emoji.

Record PriceMention := {
  type : MentionType;
  value : jsstring;
  index : nat
}.

Definition PRICE_TERMS : list jsstring :=
  [lit "pump"; lit "dump"; lit "moon"; lit "dip"; lit "ath"; lit "atl"].

(** The emojis as the source file holds them. *)
Definition PRICE_EMOJIS : list jsstring :=
  [ [0xF0; 0x178; 0x201C; 0x2C6]%N; [0xF0; 0x178; 0x201C; 0x2030]%N;
    [0xF0; 0x178; 0x2019; 0xB0]%N; [0xF0; 0x178; 0x161; 0x20AC]%N;
    [0xF0; 0x178; 0x2019; 0x17D]%N ].

(** [/\d+\.?\d*\s*(mc|m\b|mil\b|million|market\s*cap)/gi]. *)
Definition UNIT : re :=
  Alt (word_ci (lit "mc"))
   (Alt (Seq (word_ci (lit "m")) WordBoundary)
    (Alt (Seq (word_ci (lit "mil")) WordBoundary)
     (Alt (word_ci (lit "million"))
          (Seq (word_ci (lit "market"))
               (Seq (Star space) (word_ci (lit "cap"))))))).

Definition mcRegex : re :=
  Seq (Chr digit)
   (Seq (Star digit)
    (Seq (Alt (exactly 46) Eps)
     (Seq (Star digit)
      (Seq (Star space) UNIT)))).

(** [new RegExp(`\\b${term}\\b`, 'gi')]. *)
Definition termRegex (t : jsstring) : re :=
  Seq WordBoundary (Seq (word_ci t) WordBoundary).

Definition detectPriceMentions (message : jsstring) : list PriceMention :=
  List.map (fun m => {| type := marketcap; value := trim (snd m); index := fst m |})
           (exec_all mcRegex 0 0 None message)
  ++ flat_map (fun t =>
       List.map (fun m => {| type := term; value := snd m; index := fst m |})
                (exec_all (termRegex t) 0 0 None message)) PRICE_TERMS
  ++ flat_map (fun e =>
       List.map (fun i => {| type := emoji; value := e; index := i |})
                (indexesOf e 0 message)) PRICE_EMOJIS.

Definition hasPriceMentions (message : jsstring) : bool :=
  (0 <? List.length (detectPriceMentions message))%nat.

(** The texts of the market-cap pattern: digits, an optional point, digits,
    white space and a unit; [next] is the code unit that follows. *)
Definition unit_text (u : jsstring) (next : option N) : Prop :=
  ci_eq (lit "mc") u = true
  \/ (ci_eq (lit "m") u = true /\ word_at next = false)
  \/ (ci_eq (lit "mil") u = true /\ word_at next = false)
  \/ ci_eq (lit "million") u = true
  \/ (exists a sp b,
        u = a ++ sp ++ b /\ ci_eq (lit "market") a = true
        /\ forallb space sp = true /\ ci_eq (lit "cap") b = true).

Definition marketcap_text (v : jsstring) (next : option N) : Prop :=
  exists int dot frac sp u,
    v = int ++ dot ++ frac ++ sp ++ u
    /\ int <> [] /\ forallb digit int = true
    /\ (dot = [] \/ dot = [46%N])
    /\ forallb digit frac = true
    /\ forallb space sp = true
    /\ unit_text u next.

(** [Set.prototype.add]. *)
Definition set_add (users : list jsstring) (u : jsstring) : list jsstring :=
  if existsb (Js.eqb u) users then users else users ++ [u].

(** The three maps of the processor, from a mentioned text to the users who
    mentioned it. *)
Record Mentions := {
  marketCapMentions : list (jsstring * list jsstring);
  termMentions : list (jsstring * list jsstring);
  emojiMentions : list (jsstring * list jsstring)
}.

(** [if (!targetMap.has(value)) targetMap.set(value, new Set());
     targetMap.get(value)?.add(userId)]. *)
Definition record_in (m : list (jsstring * list jsstring)) (v user : jsstring)
  : list (jsstring * list jsstring) :=
  match map_get m v with
  | Some users => map_set m v (set_add users user)
  | None => map_set m v [user]
  end.

Definition record_mention (user : jsstring) (acc : Mentions) (mention : PriceMention)
  : Mentions :=
  match type mention with
  | marketcap =>
      {| marketCapMentions := record_in (marketCapMentions acc) (value mention) user;
         termMentions := termMentions acc; emojiMentions := emojiMentions acc |}
  | term =>
      {| marketCapMentions := marketCapMentions acc;
         termMentions := record_in (termMentions acc) (value mention) user;
         emojiMentions := emojiMentions acc |}
  | emoji =>
      {| marketCapMentions := marketCapMentions acc;
         termMentions := termMentions acc;
         emojiMentions := record_in (emojiMentions acc) (value mention) user |}
  end.

(** The loop over the messages of a window. *)
Definition collect (messages : list MessageEntry) : Mentions :=
  fold_left (fun acc message =>
               fold_left (record_mention (Window.userId message))
                         (detectPriceMentions (Window.text message)) acc)
            messages
            {| marketCapMentions := []; termMentions := []; emojiMentions := [] |}.

(** The map of the processor that holds the mentions of a kind. *)
Definition mentions_of (kind : MentionType) (found : Mentions)
  : list (jsstring * list jsstring) :=
  match kind with
  | marketcap => marketCapMentions found
  | term => termMentions found
  | emoji => emojiMentions found
  end.

(** The log records of the processor, by message and payload; the fields
    [windowId], [messageCount], [userCount] (the size of [users]) and
    [processingTime] of the payloads are left out. *)
Inductive Log :=
| ProcessorStarting (messages : list jsstring)
| ProcessingWindow (messages : list jsstring)
| MentionsDetected (messageText userId : jsstring)
                   (mentions : list (MentionType * jsstring))
| TrendDetected (kind : MentionType) (text : jsstring) (users : list jsstring)
| SingleUser (kind : MentionType) (text : jsstring) (users : list jsstring)
| Summary (marketCaps terms emojis totalMentions : nat).

(** A trend at level [info] when two users or more mentioned the text, a
    single mention at level [debug] otherwise. *)
Definition log_entries (kind : MentionType) (m : list (jsstring * list jsstring))
  : list Log :=
  List.map (fun entry =>
              if (2 <=? List.length (snd entry))%nat
              then TrendDetected kind (fst entry) (snd entry)
              else SingleUser kind (fst entry) (snd entry)) m.

(** The function returned by [createPriceProcessor], by what it logs; the
    body throws nothing, so that the handler of its [try] is not reached. *)
Definition priceProcessor (window : MessageWindow) : list Log :=
  let texts := List.map Window.text (messages window) in
  let found := collect (messages window) in
  [ ProcessorStarting texts; ProcessingWindow texts ]
  ++ List.map (fun message =>
                 MentionsDetected (Window.text message) (Window.userId message)
                   (List.map (fun m => (type m, value m))
                             (detectPriceMentions (Window.text message))))
              (messages window)
  ++ log_entries marketcap (marketCapMentions found)
  ++ log_entries term (termMentions found)
  ++ log_entries emoji (emojiMentions found)
  ++ [ Summary (List.length (marketCapMentions found))
               (List.length (termMentions found))
               (List.length (emojiMentions found))
               (List.length (marketCapMentions found)
                + List.length (termMentions found)
                + List.length (emojiMentions found)) ].

(** Two users write about the moon, one of them in capitals as well. *)
Definition moon_window : MessageWindow :=
  {| windowId := lit "chat_0"; startTime := 1000; endTime := 31000;
     chatId := lit "chat";
     messages :=
       [ {| Window.text := lit "to the moon"; timestamp := 1000;
            userId := lit "alice"; telegramData := None |};
         {| Window.text := lit "moon soon, MOON"; timestamp := 2000;
            userId := lit "bob"; telegramData := None |} ];
     status := processing |}.

End Price.

(* ===================================================================== *)
(** ** Notions used by the properties                                     *)
(* ===================================================================== *)

Section WindowNotions.
Import Window.

(** The shape of [activeWindows]: keys are distinct and each window is stored
    under its own [windowId]. *)
Definition WellKeyed (mgr : Manager) : Prop :=
  NoDup (List.map fst mgr) /\ Forall (fun kw => windowId (snd kw) = fst kw) mgr.

(** The map after [getReadyWindows], and the windows it returns, entry by
    entry. *)
Definition sweep (now : Z) (w : MessageWindow) : MessageWindow :=
  match status w with
  | collecting => if isReady now w then set_status w processing else w
  | _ => w
  end.

(** A map with one window of two messages, not ready before its end time,
    and that window. *)
Definition two_messages : Manager :=
  fold_left (fun m k => snd (addMessage 1000 (burst_message k) m)) [1; 2]%Z [].

Definition two_messages_window : MessageWindow :=
  fst (addMessage 1000 (burst_message 2)
                  (snd (addMessage 1000 (burst_message 1) []))).

End WindowNotions.

Section ServiceNotions.
Import Scoring Aggregator Cache Service Scenarios.

(** The world after one call of the embedding provider, and after one query
    of the vector store. *)
Definition after_embedding (text : jsstring) (w : World) : World :=
  with_embeddingCalls (with_trace w (trace w ++ [EvEmbeddingCall text]))
                      (S (embeddingCalls w)).

Definition after_query (params : QueryParams) (w : World) : World :=
  with_vectorCalls (with_trace w (trace w ++ [EvVectorQuery params]))
                   (S (vectorCalls w)).

(** The [senderName] that [analyzeSentiment] stores. *)
Definition stored_senderName (context : SentimentContext) : jsstring :=
  match ctx_senderName context with
  | [] => lit "Unknown"
  | n => n
  end.

(** The result of a run of [analysis] in which the provider, the strategy
    and the vector store all answer at once. *)
Definition analysis_result (sc : SentimentScore) (similar : VectorQueryResult)
  : SentimentAnalysisResult :=
  {| result_score := sc;
     result_context :=
       {| recentTrend := calculateTrend (List.map match_score (matches similar));
          volatility := calculateVolatility (List.map match_score (matches similar));
          dominantCategory := getDominantCategory (matches similar) (category sc) |} |}.

(** The anchors stored for [words] when the provider answers its call
    number [n], made for the text [x], with [answer n x], and the calls for
    [words] start at number [first]: an answer passes through a
    [Float32Array] in [generateEmbeddingWithRetry] and through another in
    [initializeSentimentAnchors]. *)
Definition stored_anchors (answer : nat -> jsstring -> Embedding) (first : nat)
  (words : list jsstring) : list Embedding :=
  Aggregator.mapi_from first
    (fun word n => Float32Array (Float32Array (answer n word))) words.

(** The primary key of table [sentiment_cache] holds. *)
Definition unique_keys (rows : list Row) : Prop :=
  NoDup (List.map row_messageHash rows).

(** Errors on which [attemptRecovery] makes no attempt: a retryable one
    that allows no attempt, and one that is not retryable. *)
Definition no_budget : SentimentError :=
  ({| name := lit "QuotaError"; message := lit "quota"; code := RATE_LIMIT;
      severity := LOW; retryable := true;
      retryOptions := Some {| maxAttempts := 0; backoffMs := 1000 |} |}, None).

Definition not_retryable : SentimentError :=
  ({| name := lit "FatalError"; message := lit "fatal"; code := ANALYSIS;
      severity := CRITICAL; retryable := false;
      retryOptions := Some {| maxAttempts := 3; backoffMs := 1000 |} |}, None).

End ServiceNotions.

Section TemplateNotions.
Import Templates.
Local Open Scope R_scope.

(** A template fits a score: the category is that of the score, and the
    confidence threshold is absent, 0, or at most the confidence of the
    score. *)
Definition fits (t : ResponseTemplate) (s : SentimentScore) : Prop :=
  t_category t = category s
  /\ match confidenceThreshold t with
     | None => True
     | Some threshold => threshold = 0 \/ threshold <= confidence s
     end.

End TemplateNotions.

Section TallyNotions.
Import Aggregator Bot.

(** The table built by [acc[curr] = (acc[curr] || 0) + 1] after the
    categories [cats]: one entry per category, in the order in which the
    categories are first seen, with the number of occurrences. *)
Definition tally (cats : list Category) : list (Category * nat) :=
  fold_left count_category cats [].

End TallyNotions.

Section PriceNotions.
Import Window Regex Price.
Local Open Scope N_scope.

(** A lower-case ASCII letter. *)
Definition lower (l : N) : bool := (97 <=? l) && (l <=? 122).

(** What a map of the processor holds after the mentions [seen], each with
    the user of its message: distinct texts, and under each text, without
    repetition, the users who mentioned it. *)
Definition Tracks (kind : MentionType) (m : list (jsstring * list jsstring))
  (seen : list (jsstring * PriceMention)) : Prop :=
  NoDup (List.map fst m)
  /\ (forall v users, In (v, users) m ->
        NoDup users
        /\ forall u, In u users
                     <-> exists i, In (u, {| type := kind; value := v; index := i |}) seen)
  /\ (forall u v i, In (u, {| type := kind; value := v; index := i |}) seen ->
                    In v (List.map fst m)).

(** The mentions of a window, each with the user of its message. *)
Definition all_mentions (messages : list MessageEntry)
  : list (jsstring * PriceMention) :=
  flat_map (fun message =>
              List.map (pair (Window.userId message))
                       (detectPriceMentions (Window.text message))) messages.

End PriceNotions.

(* ===================================================================== *)
(** * Properties                                                          *)
(* ===================================================================== *)

(** ** Message windows *)

Section WindowProperties.
Import Window.

Lemma isReady_spec (now : Z) (w : MessageWindow) :
  isReady now w = true <-> ready_condition now w.
Proof.
  unfold isReady, ready_condition, MIN_MESSAGES, MAX_MESSAGES.
  rewrite orb_true_iff, andb_true_iff, Z.leb_le, !Nat.leb_le. tauto.
Qed.

Lemma getReadyWindows_In (now : Z) (mgr : Manager) (x : MessageWindow) :
  In x (fst (getReadyWindows now mgr)) <->
  exists id w, In (id, w) mgr /\ status w = collecting
               /\ isReady now w = true /\ x = set_status w processing.
Proof.
  induction mgr as [|[id w] rest IH]; simpl.
  - split; [tauto | intros (? & ? & [] & _)].
  - destruct (getReadyWindows now rest) as [ready rest'] eqn:E. simpl in IH.
    destruct (status w) eqn:Hs; [destruct (isReady now w) eqn:Hr|..]; simpl;
      rewrite ?IH; split.
    all: try (intros [<- | (id2 & w2 & Hin & H)];
              [exists id, w; auto | exists id2, w2; tauto]).
    all: try (intros (id2 & w2 & Hin & H); exists id2, w2; tauto).
    all: intros (id2 & w2 & [Heq | Hin] & Hc & Hy & ->);
      try (inversion Heq; subst; congruence);
      try (right; exists id2, w2; tauto);
      try (exists id2, w2; tauto).
    inversion Heq; subst. now left.
Qed.

Lemma getReadyWindows_nth (now : Z) (mgr : Manager) (i : nat)
      (id : jsstring) (w : MessageWindow) :
  nth_error mgr i = Some (id, w) ->
  nth_error (snd (getReadyWindows now mgr)) i =
  Some (id, match status w with
            | collecting => if isReady now w then set_status w processing else w
            | _ => w
            end).
Proof.
  revert i. induction mgr as [|[id' w'] rest IH]; intros [|i] H; simpl in *;
    try discriminate.
  - inversion H; subst.
    destruct (getReadyWindows now rest) as [ready rest'].
    destruct (status w); [destruct (isReady now w)|..]; reflexivity.
  - specialize (IH i H).
    destruct (getReadyWindows now rest) as [ready rest'].
    destruct (status w'); [destruct (isReady now w')|..]; simpl in *; exact IH.
Qed.

(** C7. A collecting window is marked [processing] and returned by
    [getReadyWindows] exactly when it holds at least 5 messages, or the clock
    has reached its [endTime] and it holds at least 2 messages; otherwise it
    is left untouched, and a window with exactly one message is never ready,
    whatever the clock says. *)
Theorem getReadyWindows_ready_iff :
  forall (now : Z) (mgr : Manager) (i : nat) (id : jsstring) (w : MessageWindow),
    nth_error mgr i = Some (id, w) ->
    status w = collecting ->
    let ready := fst (getReadyWindows now mgr) in
    let mgr' := snd (getReadyWindows now mgr) in
    (ready_condition now w <-> In (set_status w processing) ready)
    /\ (ready_condition now w <->
        nth_error mgr' i = Some (id, set_status w processing))
    /\ (~ ready_condition now w <-> nth_error mgr' i = Some (id, w))
    /\ (List.length (messages w) = 1%nat ->
        ~ In (set_status w processing) ready
        /\ nth_error mgr' i = Some (id, w)).
Proof.
  intros now mgr i id w Hnth Hst ready mgr'.
  pose proof (getReadyWindows_nth now mgr i Hnth) as Hn.
  rewrite Hst in Hn. fold mgr' in Hn.
  assert (Hin : ready_condition now w <-> In (set_status w processing) ready).
  { unfold ready. rewrite getReadyWindows_In, <- isReady_spec. split.
    - intros Hr. exists id, w. split; [eapply nth_error_In; eauto | auto].
    - intros (id2 & w2 & _ & _ & Hr & Heq).
      unfold isReady in *.
      assert (messages w = messages w2 /\ endTime w = endTime w2) as [Hm He]
        by (split; [change (messages (set_status w processing)
                            = messages (set_status w2 processing))
                   | change (endTime (set_status w processing)
                             = endTime (set_status w2 processing))];
            now rewrite Heq).
      rewrite Hm, He. exact Hr. }
  assert (Hne : set_status w processing <> w)
    by (intros Heq; apply (f_equal status) in Heq; simpl in Heq; congruence).
  split; [exact Hin|].
  rewrite <- !isReady_spec in *. rewrite Hn.
  assert (Hone : List.length (messages w) = 1%nat -> isReady now w = false).
  { intros H1. unfold isReady, MIN_MESSAGES, MAX_MESSAGES. rewrite H1. simpl.
    now rewrite andb_false_r. }
  destruct (isReady now w) eqn:Hr.
  - split; [tauto|]. split.
    + split; [intros Hc; exfalso; now apply Hc|].
      intros Heq. inversion Heq. congruence.
    + intros H1. apply Hone in H1. discriminate.
  - split; [|split].
    + split; [discriminate|]. intros Heq. inversion Heq. congruence.
    + split; [reflexivity | discriminate].
    + intros _. split; [|reflexivity].
      intros Hc. apply Hin in Hc. discriminate.
Qed.

Lemma getReadyWindows_ready_iff_witness :
  nth_error burst_filled 0 = Some (lit "chat_0", burst_window)
  /\ status burst_window = collecting
  /\ (ready_condition 1000 burst_window <->
      In (set_status burst_window processing) (fst (getReadyWindows 1000 burst_filled)))
  /\ (ready_condition 1000 burst_window <->
      nth_error (snd (getReadyWindows 1000 burst_filled)) 0
      = Some (lit "chat_0", set_status burst_window processing)).
Proof.
  assert (H1 : nth_error burst_filled 0 = Some (lit "chat_0", burst_window))
    by reflexivity.
  assert (H2 : status burst_window = collecting) by reflexivity.
  destruct (@getReadyWindows_ready_iff 1000 burst_filled 0 (lit "chat_0")
              burst_window H1 H2) as (Ha & Hb & _).
  split; [exact H1 | split; [exact H2 | split; [exact Ha | exact Hb]]].
Defined.

Lemma eqb_refl (a : jsstring) : Js.eqb a a = true.
Proof. induction a; simpl; [reflexivity | now rewrite N.eqb_refl]. Qed.

Lemma eqb_eq (a b : jsstring) : Js.eqb a b = true <-> a = b.
Proof.
  revert b. induction a as [|x a IH]; intros [|y b]; simpl;
    try (split; discriminate); [tauto|].
  rewrite andb_true_iff, N.eqb_eq, IH. split; [intros []; congruence | intros H; inversion H; auto].
Qed.

Lemma eqb_overflow (id : jsstring) : Js.eqb id (id ++ lit "_overflow") = false.
Proof.
  destruct (Js.eqb id (id ++ lit "_overflow")) eqn:E; [|reflexivity].
  apply eqb_eq in E. apply (f_equal (@List.length N)) in E.
  rewrite length_app in E. simpl in E. lia.
Qed.

Lemma map_get_set_same {V} (m : list (jsstring * V)) k v :
  map_get (map_set m k v) k = Some v.
Proof.
  induction m as [|[k' v'] m IH]; simpl.
  - now rewrite eqb_refl.
  - destruct (Js.eqb k' k) eqn:E; simpl; now rewrite E.
Qed.

Lemma map_get_set_other {V} (m : list (jsstring * V)) k k' v :
  Js.eqb k k' = false -> map_get (map_set m k v) k' = map_get m k'.
Proof.
  intros Hne. induction m as [|[k2 v2] m IH]; simpl.
  - now rewrite Hne.
  - destruct (Js.eqb k2 k) eqn:E; simpl.
    + apply eqb_eq in E. subst. now rewrite Hne.
    + now rewrite IH.
Qed.

(** What [addMessage] does when the bucket window no longer collects: the
    message goes alone into a fresh collecting window named
    [<bucketId>_overflow], and the bucket window is left as it was. *)
Lemma addMessage_overflow (now : Z) (message : MessageInput) (mgr : Manager)
      (w : MessageWindow) :
  let id := getWindowId (in_chatId message) now in
  map_get mgr id = Some w ->
  status w <> collecting ->
  let '(w', mgr') := addMessage now message mgr in
  windowId w' = id ++ lit "_overflow"
  /\ status w' = collecting
  /\ messages w' = [entry_of message now]
  /\ map_get mgr' (id ++ lit "_overflow") = Some w'
  /\ map_get mgr' id = Some w.
Proof.
  intros id Hget Hst. unfold addMessage. fold id. rewrite Hget.
  destruct (status w) eqn:E; [congruence|..]; simpl;
    rewrite map_get_set_same, map_get_set_other, Hget; auto;
    destruct (Js.eqb (id ++ lit "_overflow") id) eqn:E2; auto;
    apply eqb_eq in E2; symmetry in E2; apply eqb_eq in E2;
    now rewrite eqb_overflow in E2.
Qed.

(** C4 (failing input).  In the burst scenario the sixth message is placed
    alone in the overflow window of its bucket; the seventh message, arriving
    for the same bucket, is given a new window under the same overflow
    identifier, which replaces the former one in the map: afterwards no
    managed window holds the sixth message. *)
Theorem overflow_window_overwritten :
  let m6 := in_text (burst_message 6) in
  List.map text (messages (fst burst_sixth)) = [m6]
  /\ In m6 (managed_texts (snd burst_sixth))
  /\ windowId (fst burst_seventh) = windowId (fst burst_sixth)
  /\ ~ In m6 (managed_texts (snd burst_seventh))
  /\ List.length (managed_texts (snd burst_seventh)) = 6%nat.
Proof.
  vm_compute. repeat split.
  - tauto.
  - intros H. repeat (destruct H as [H|H]; [discriminate H|]). exact H.
Qed.

End WindowProperties.

(** ** Recovery *)

Section RecoveryProperties.
Import Service Scenarios.

Lemma createErrorMetadata_run svc err status add w :
  createErrorMetadata svc err status add w =
  (inr (spread [ (lit "timestamp", MNum (clock w));
                 (lit "service", MStr svc);
                 (lit "operation", MStr (ErrorCode_value (code (fst err))));
                 (lit "status", MStr status);
                 (lit "severity", MStr (ErrorSeverity_value (severity (fst err)))) ]
               add), w).
Proof. reflexivity. Qed.

Lemma retryLoop_no_result {A} fuel svc err opts (op : M A) c w :
  exists r w', retryLoop fuel svc err opts op c w = (inr r, w')
               /\ metadata_result r = None.
Proof.
  revert c w. induction fuel as [|fuel IH]; intros c w; simpl.
  - eexists _, _. split; reflexivity.
  - destruct (c <=? maxAttempts opts)%Z; [|eexists _, _; split; reflexivity].
    unfold bind at 1, attempt at 1.
    destruct ((sleep (backoffMs opts * 2 ^ (c - 1)) ;;; op) w) as [[e|a] w1].
    + destruct (maxAttempts opts <? c + 1)%Z.
      * eexists _, _. split; reflexivity.
      * apply IH.
    + eexists _, _. split; reflexivity.
Qed.

Lemma attemptRecovery_no_result {A} svc err (op : M A) w :
  exists r w', attemptRecovery svc err op w = (inr r, w')
               /\ metadata_result r = None.
Proof.
  unfold attemptRecovery. destruct (negb (shouldRetry err)).
  - eexists _, _. split; reflexivity.
  - destruct (retryOptions (fst err)) as [opts|].
    + apply retryLoop_no_result.
    + eexists _, _. split; reflexivity.
Qed.

Lemma sleeps_of_app a b : sleeps_of (a ++ b) = sleeps_of a ++ sleeps_of b.
Proof. apply flat_map_app. Qed.

Lemma backoff_schedule_S backoff first n :
  backoff_schedule backoff first (S n) =
  (backoff * 2 ^ (first - 1))%Z :: backoff_schedule backoff (first + 1) n.
Proof.
  unfold backoff_schedule. simpl. f_equal.
  - f_equal. f_equal. lia.
  - rewrite <- seq_shift, map_map. apply map_ext. intros k.
    f_equal. f_equal. lia.
Qed.

Lemma Declared_policy err :
  Declared err ->
  shouldRetry err = true
  /\ exists opts, retryOptions (fst err) = Some opts /\ (1 <= maxAttempts opts)%Z.
Proof.
  intros []; (split; [reflexivity|]); eexists; (split; [reflexivity|]); simpl; lia.
Qed.

Section Retries.

Variable A : Type.
Variable svc : jsstring.
Variable err : SentimentError.
Variable opts : RetryOptions.
Variable operation : M A.

Lemma retry_runs ms w :
  (sleep ms ;;; operation) w = operation (snd (sleep ms w)).
Proof. reflexivity. Qed.

Lemma retryLoop_pass fuel c w :
  (c <= maxAttempts opts)%Z ->
  retryLoop (S fuel) svc err opts operation c w
  = match operation (snd (sleep (backoffMs opts * 2 ^ (c - 1)) w)) with
    | (inr _, w1) => (inr (recovered_result svc err w1 c), w1)
    | (inl retryError, w1) =>
        if (maxAttempts opts <? c + 1)%Z
        then (inr (exhausted_result svc err w1 (c + 1) retryError), w1)
        else retryLoop fuel svc err opts operation (c + 1) w1
    end.
Proof.
  intros Hc. simpl retryLoop.
  replace (c <=? maxAttempts opts)%Z with true by (symmetry; now apply Z.leb_le).
  unfold bind at 1, attempt at 1. rewrite retry_runs.
  destruct (operation (snd (sleep (backoffMs opts * 2 ^ (c - 1)) w)))
    as [[e|a] w1]; [|reflexivity].
  destruct (maxAttempts opts <? c + 1)%Z; reflexivity.
Qed.

Lemma retryLoop_recovers c w n r w' :
  Retried opts operation c w n r w' ->
  forall v fuel,
    r = inr v ->
    (n < fuel)%nat ->
    (c + Z.of_nat n <= maxAttempts opts)%Z ->
    retryLoop fuel svc err opts operation c w
    = (inr (recovered_result svc err w' (c + Z.of_nat n)), w').
Proof.
  induction 1 as [c w r w' Hop | c w e w1 n r w' Hop _ IH];
    intros v fuel Hr Hfuel Hc; (destruct fuel as [|fuel]; [lia|]);
    rewrite retryLoop_pass by lia; rewrite Hop.
  - subst r. rewrite Z.add_0_r. reflexivity.
  - replace (maxAttempts opts <? c + 1)%Z with false
      by (symmetry; apply Z.ltb_ge; lia).
    rewrite (IH v fuel Hr) by lia.
    replace (c + 1 + Z.of_nat n)%Z with (c + Z.of_nat (S n))%Z by lia.
    reflexivity.
Qed.

Lemma retryLoop_gives_up c w n r w' :
  Retried opts operation c w n r w' ->
  forall e fuel,
    r = inl e ->
    (n < fuel)%nat ->
    (c + Z.of_nat n = maxAttempts opts)%Z ->
    retryLoop fuel svc err opts operation c w
    = (inr (exhausted_result svc err w' (maxAttempts opts + 1) e), w').
Proof.
  induction 1 as [c w r w' Hop | c w e0 w1 n r w' Hop _ IH];
    intros e fuel Hr Hfuel Hc; (destruct fuel as [|fuel]; [lia|]);
    rewrite retryLoop_pass by lia; rewrite Hop.
  - subst r.
    replace (maxAttempts opts <? c + 1)%Z with true
      by (symmetry; apply Z.ltb_lt; lia).
    replace (c + 1)%Z with (maxAttempts opts + 1)%Z by lia. reflexivity.
  - replace (maxAttempts opts <? c + 1)%Z with false
      by (symmetry; apply Z.ltb_ge; lia).
    apply (IH e fuel Hr); lia.
Qed.

(** Every run of the retries ends in one of two ways. *)
Lemma Retried_total (k : nat) :
  forall c w,
    (exists n v w', (n <= k)%nat /\ Retried opts operation c w n (inr v) w')
    \/ (exists e w', Retried opts operation c w k (inl e) w').
Proof.
  induction k as [|k IH]; intros c w;
    destruct (operation (snd (sleep (backoffMs opts * 2 ^ (c - 1)) w)))
      as [[e|v] w1] eqn:Hop.
  - right. exists e, w1. now constructor.
  - left. exists 0%nat, v, w1. split; [lia | now constructor].
  - destruct (IH (c + 1)%Z w1) as [(n & v & w' & Hn & Hr) | (e' & w' & Hr)].
    + left. exists (S n), v, w'. split; [lia|]. econstructor; eassumption.
    + right. exists e', w'. econstructor; eassumption.
  - left. exists 0%nat, v, w1. split; [lia | now constructor].
Qed.

(** The pauses of a run, when the operation itself does not pause. *)
Lemma Retried_pauses c w n r w' :
  Retried opts operation c w n r w' ->
  (forall w0, sleeps_of (trace (snd (operation w0))) = sleeps_of (trace w0)) ->
  sleeps_of (trace w')
  = sleeps_of (trace w) ++ backoff_schedule (backoffMs opts) c (S n).
Proof.
  intros Hrun Hquiet.
  induction Hrun as [c w r w' Hop | c w e w1 n r w' Hop _ IH].
  - pose proof (Hquiet (snd (sleep (backoffMs opts * 2 ^ (c - 1)) w))) as H.
    rewrite Hop in H. cbn [snd] in H. rewrite H. simpl.
    rewrite sleeps_of_app. unfold backoff_schedule. simpl.
    repeat f_equal. lia.
  - pose proof (Hquiet (snd (sleep (backoffMs opts * 2 ^ (c - 1)) w))) as H.
    rewrite Hop in H. cbn [snd] in H. rewrite IH, H. simpl.
    rewrite sleeps_of_app, (backoff_schedule_S _ c (S n)), <- app_assoc.
    reflexivity.
Qed.

End Retries.

(** C8. For an error of a declared class the executor retries the operation
    after pauses of [backoffMs * 2 ^ (attempt - 1)], attempt = 1, 2, ...:
    every retry runs in the world its pause leaves ([Retried]), and the
    executor ends in the world the last retry leaves.  A run either has a
    retry that succeeds among the first [maxAttempts], or has [maxAttempts]
    failed retries.  If [n] retries fail and the next succeeds, with
    [n < maxAttempts], the result has [success = true] and
    [attempts = n + 1]: an operation that fails [maxAttempts - 1] times and
    then succeeds reports [attempts = maxAttempts].  If [maxAttempts]
    retries fail, the result has [success = false] and carries the error of
    the last one.  When the operation itself does not pause, the pauses
    made are exactly these. *)
Theorem attemptRecovery_backoff_policy :
  forall (A : Type) (err : SentimentError) (opts : RetryOptions)
         (svc : jsstring) (operation : M A) (w : World),
    Declared err ->
    retryOptions (fst err) = Some opts ->
    let max := Z.to_nat (maxAttempts opts) in
    let pauses (attempts : nat) :=
      List.map (fun attempt => (backoffMs opts * 2 ^ (Z.of_nat attempt - 1))%Z)
               (seq 1 attempts) in
    ((exists n v w', (n < max)%nat
                     /\ Retried opts operation 1 w n (inr v) w')
     \/ (exists e w', Retried opts operation 1 w (max - 1) (inl e) w'))
    /\ (forall (n : nat) (v : A) (w' : World),
           (n < max)%nat ->
           Retried opts operation 1 w n (inr v) w' ->
           exists md,
             attemptRecovery svc err operation w
             = (inr {| success := true; error := None; metadata := Some md |}, w')
             /\ map_get md (lit "attempts") = Some (MNum (Z.of_nat n + 1))
             /\ (n = (max - 1)%nat ->
                 map_get md (lit "attempts") = Some (MNum (maxAttempts opts))))
    /\ (forall (e : JsError) (w' : World),
           Retried opts operation 1 w (max - 1) (inl e) w' ->
           exists md,
             attemptRecovery svc err operation w
             = (inr {| success := false; error := Some e; metadata := Some md |},
                w')
             /\ map_get md (lit "finalError") = Some (MErr e)
             /\ map_get md (lit "attempts") = Some (MNum (maxAttempts opts + 1)))
    /\ (forall (n : nat) (r : JsError + A) (w' : World),
           Retried opts operation 1 w n r w' ->
           (forall w0, sleeps_of (trace (snd (operation w0))) = sleeps_of (trace w0)) ->
           sleeps_of (trace w') = sleeps_of (trace w) ++ pauses (S n)).
Proof.
  intros A err opts svc operation w Hd Hopts max pauses.
  destruct (@Declared_policy err Hd) as (Hretry & opts' & Hopts' & Hpos).
  rewrite Hopts in Hopts'. inversion Hopts'; subst opts'. clear Hopts'.
  assert (Hsched : forall k, backoff_schedule (backoffMs opts) 1 k = pauses k).
  { intros k. unfold backoff_schedule, pauses.
    rewrite <- seq_shift, map_map. apply map_ext. intros i. f_equal. f_equal. lia. }
  assert (Hrun : attemptRecovery svc err operation w
                 = retryLoop max svc err opts operation 1 w).
  { unfold attemptRecovery. rewrite Hretry, Hopts. reflexivity. }
  split; [|split; [|split]].
  - destruct (@Retried_total A opts operation (max - 1) 1%Z w)
      as [(n & v & w' & Hn & Hr) | Hr]; [left | right; exact Hr].
    exists n, v, w'. split; [unfold max in *; lia | exact Hr].
  - intros n v w' Hn Hr.
    rewrite Hrun, (@retryLoop_recovers A svc err opts operation 1%Z w n _ w' Hr v max
                     eq_refl Hn) by (unfold max in Hn; lia).
    unfold recovered_result. eexists. split; [reflexivity|].
    assert (Hatt : map_get (spread
                     [ (lit "timestamp", MNum (clock w'));
                       (lit "service", MStr svc);
                       (lit "operation", MStr (ErrorCode_value (code (fst err))));
                       (lit "status", MStr (lit "recovered"));
                       (lit "severity",
                        MStr (ErrorSeverity_value (severity (fst err)))) ]
                     [(lit "attempts", MNum (1 + Z.of_nat n))])
                     (lit "attempts")
                   = Some (MNum (Z.of_nat n + 1)))
      by (rewrite Z.add_comm; reflexivity).
    split; [exact Hatt|].
    intros ->. rewrite Hatt. f_equal. f_equal. unfold max. lia.
  - intros e w' Hr.
    rewrite Hrun, (@retryLoop_gives_up A svc err opts operation 1%Z w (max - 1) _ w'
                     Hr e max eq_refl) by (unfold max; lia).
    unfold exhausted_result. eexists. split; [reflexivity|].
    split; reflexivity.
  - intros n r w' Hr Hop.
    rewrite (Retried_pauses Hr Hop), Hsched. reflexivity.
Qed.

Lemma attemptRecovery_backoff_policy_witness :
  (exists md w',
      attemptRecovery RECOVERY_SERVICE (EmbeddingError (lit "failed") None)
                      (generateEmbedding greeting) world_short_outage
      = (inr {| success := true; error := None; metadata := Some md |}, w')
      /\ map_get md (lit "attempts") = Some (MNum 2)
      /\ trace w' = [EvSleep 500; EvEmbeddingCall greeting;
                     EvSleep 1000; EvEmbeddingCall greeting])
  /\ (exists md w',
         attemptRecovery RECOVERY_SERVICE (EmbeddingError (lit "failed") None)
                         (generateEmbedding greeting) world_retrying
         = (inr {| success := true; error := None; metadata := Some md |}, w')
         /\ map_get md (lit "attempts") = Some (MNum 5)
         /\ sleeps_of (trace w') = [500; 1000; 2000; 4000; 8000]%Z)
  /\ (exists md w',
         attemptRecovery RECOVERY_SERVICE (EmbeddingError (lit "failed") None)
                         (generateEmbedding greeting) world_failing
         = (inr {| success := false; error := Some provider_down;
                   metadata := Some md |}, w')
         /\ map_get md (lit "finalError") = Some (MErr provider_down)
         /\ map_get md (lit "attempts") = Some (MNum 6)
         /\ sleeps_of (trace w') = [500; 1000; 2000; 4000; 8000]%Z).
Proof.
  pose (opts := {| maxAttempts := 5; backoffMs := 500 |}).
  pose (policy := fun w =>
          @attemptRecovery_backoff_policy
            Embedding (EmbeddingError (lit "failed") None) opts RECOVERY_SERVICE
            (generateEmbedding greeting) w (Declared_Embedding _ _) eq_refl).
  assert (Hquiet : forall w0,
             sleeps_of (trace (snd (generateEmbedding greeting w0)))
             = sleeps_of (trace w0)).
  { intros w0. simpl. rewrite sleeps_of_app. simpl. now rewrite app_nil_r. }
  split; [|split].
  - assert (Hr : exists w',
               Retried opts (generateEmbedding greeting) 1 world_short_outage 1
                       (inr sample_embedding) w'
               /\ trace w' = [EvSleep 500; EvEmbeddingCall greeting;
                              EvSleep 1000; EvEmbeddingCall greeting]).
    { eexists.
      split; [eapply Retried_next; [reflexivity|]; apply Retried_last; reflexivity|].
      reflexivity. }
    destruct Hr as (w' & Hr & Htr).
    destruct (proj1 (proj2 (policy world_short_outage)) 1%nat sample_embedding w')
      as (md & Hrun & Hatt & _); [simpl; lia | exact Hr |].
    exists md, w'. repeat split; assumption.
  - assert (Hr : exists w',
               Retried opts (generateEmbedding greeting) 1 world_retrying 4
                       (inr sample_embedding) w').
    { eexists.
      do 4 (eapply Retried_next; [reflexivity|]).
      apply Retried_last. reflexivity. }
    destruct Hr as (w' & Hr).
    destruct (proj1 (proj2 (policy world_retrying)) 4%nat sample_embedding w')
      as (md & Hrun & _ & Hatt); [simpl; lia | exact Hr |].
    exists md, w'. split; [exact Hrun|]. split; [exact (Hatt eq_refl)|].
    exact (proj2 (proj2 (proj2 (policy world_retrying))) _ _ _ Hr Hquiet).
  - assert (Hr : exists w',
               Retried opts (generateEmbedding greeting) 1 world_failing 4
                       (inl provider_down) w').
    { eexists.
      do 4 (eapply Retried_next; [reflexivity|]).
      apply Retried_last. reflexivity. }
    destruct Hr as (w' & Hr).
    destruct (proj1 (proj2 (proj2 (policy world_failing))) provider_down w' Hr)
      as (md & Hrun & Hfin & Hatt).
    exists md, w'. split; [exact Hrun|]. split; [exact Hfin|]. split; [exact Hatt|].
    exact (proj2 (proj2 (proj2 (policy world_failing))) _ _ _ Hr Hquiet).
Defined.

Lemma generateEmbeddingWithRetry_recovered text w e :
  embeddingService w (clock w) (embeddingCalls w) text = inl e ->
  forall r w', generateEmbeddingWithRetry text w = (inr r, w') -> r = None.
Proof.
  intros He r w'. unfold generateEmbeddingWithRetry, try_catch.
  unfold bind at 1, generateEmbedding at 1. rewrite He.
  unfold bind at 1.
  match goal with
  | |- context [attemptRecovery ?s ?err ?op ?w0] =>
      destruct (@attemptRecovery_no_result _ s err op w0) as (rr & w2 & Hrun & Hres);
      rewrite Hrun
  end.
  unfold result_as_embedding. rewrite Hres.
  destruct (negb (success rr)); unfold throw, ret; intros H; inversion H; reflexivity.
Qed.

Lemma queryVectorStoreWithRetry_recovered params w e :
  vectorStore w (clock w) (vectorCalls w) params = inl e ->
  forall r w', queryVectorStoreWithRetry params w = (inr r, w') -> r = None.
Proof.
  intros He r w'. unfold queryVectorStoreWithRetry, try_catch.
  unfold bind at 1, vectorQuery at 1. rewrite He.
  unfold bind at 1.
  match goal with
  | |- context [attemptRecovery ?s ?err ?op ?w0] =>
      destruct (@attemptRecovery_no_result _ s err op w0) as (rr & w2 & Hrun & Hres);
      rewrite Hrun
  end.
  unfold result_as_query. rewrite Hres.
  destruct (negb (success rr)); unfold throw, ret; intros H; inversion H; reflexivity.
Qed.

(** C6. [attemptRecovery] always returns, and the metadata of what it returns
    never has a [result] property; hence, once the first provider call has
    failed, [generateEmbeddingWithRetry] and [queryVectorStoreWithRetry] can
    only return [undefined] (when they return at all). *)
Theorem recovery_discards_result :
  (forall (A : Type) (svc : jsstring) (err : SentimentError) (operation : M A)
          (w : World),
      exists r w',
        attemptRecovery svc err operation w = (inr r, w')
        /\ forall md, metadata r = Some md -> map_get md (lit "result") = None)
  /\ (forall (text : jsstring) (w : World) (e : JsError),
         embeddingService w (clock w) (embeddingCalls w) text = inl e ->
         forall r w', generateEmbeddingWithRetry text w = (inr r, w') -> r = None)
  /\ (forall (params : QueryParams) (w : World) (e : JsError),
         vectorStore w (clock w) (vectorCalls w) params = inl e ->
         forall r w', queryVectorStoreWithRetry params w = (inr r, w') -> r = None).
Proof.
  split; [|split].
  - intros A svc err op w.
    destruct (@attemptRecovery_no_result A svc err op w) as (r & w' & Hrun & Hres).
    exists r, w'. split; [exact Hrun|].
    intros md Hmd. unfold metadata_result in Hres. now rewrite Hmd in Hres.
  - exact generateEmbeddingWithRetry_recovered.
  - exact queryVectorStoreWithRetry_recovered.
Qed.

Lemma recovery_discards_result_witness :
  (exists r w',
      attemptRecovery RECOVERY_SERVICE
        (EmbeddingError (lit "Failed to generate embedding for text: gm everyone")
                        (Some provider_down))
        (generateEmbedding greeting) world_recovering = (inr r, w')
      /\ forall md, metadata r = Some md -> map_get md (lit "result") = None)
  /\ (embeddingService world_recovering (clock world_recovering)
                   (embeddingCalls world_recovering) greeting
      = inl provider_down
      /\ exists w', generateEmbeddingWithRetry greeting world_recovering = (inr None, w'))
  /\ (vectorStore world_recovering (clock world_recovering)
        (vectorCalls world_recovering)
        {| vector := sample_embedding; topK := 5; includeMetadata := true |}
      = inl store_down
      /\ exists w',
          queryVectorStoreWithRetry
            {| vector := sample_embedding; topK := 5; includeMetadata := true |}
            world_recovering = (inr None, w')).
Proof.
  destruct recovery_discards_result as (H1 & H2 & H3).
  split; [apply H1|split].
  - assert (He : embeddingService world_recovering (clock world_recovering)
                   (embeddingCalls world_recovering)
                   greeting = inl provider_down) by reflexivity.
    split; [exact He|].
    assert (Hret : returned (fst (generateEmbeddingWithRetry greeting world_recovering))
                   = true) by (vm_compute; reflexivity).
    destruct (generateEmbeddingWithRetry greeting world_recovering)
      as [[e|r] w'] eqn:E; [discriminate Hret|].
    rewrite (H2 greeting world_recovering provider_down He r w' E).
    exists w'. reflexivity.
  - set (params := {| vector := sample_embedding; topK := 5; includeMetadata := true |}).
    assert (He : vectorStore world_recovering (clock world_recovering)
        (vectorCalls world_recovering) params
                 = inl store_down) by reflexivity.
    split; [exact He|].
    assert (Hret : returned (fst (queryVectorStoreWithRetry params world_recovering))
                   = true) by (vm_compute; reflexivity).
    destruct (queryVectorStoreWithRetry params world_recovering)
      as [[e|r] w'] eqn:E; [discriminate Hret|].
    rewrite (H3 params world_recovering store_down He r w' E).
    exists w'. reflexivity.
Defined.

End RecoveryProperties.

(** ** The orchestrator *)

Section ServiceProperties.
Import Service Scenarios.

Section Respects.

Context {R : World -> World -> Prop} {HR : Stepwise R}.

Lemma respects_ret A (a : A) : respects R (ret a).
Proof. intros w. apply step_refl. Qed.

Lemma respects_throw A e : respects R (@throw A e).
Proof. intros w. apply step_refl. Qed.

Lemma respects_get : respects R get.
Proof. intros w. apply step_refl. Qed.

Lemma respects_date_now : respects R date_now.
Proof. intros w. apply step_refl. Qed.

Lemma respects_bind A B (m : M A) (k : A -> M B) :
  respects R m -> (forall a, respects R (k a)) -> respects R (bind m k).
Proof.
  intros Hm Hk w. unfold bind. specialize (Hm w).
  destruct (m w) as [[e|a] w1]; simpl in *; [exact Hm|].
  eapply step_trans; [exact Hm | apply Hk].
Qed.

Lemma respects_try_catch A (m : M A) (h : JsError -> M A) :
  respects R m -> (forall e, respects R (h e)) -> respects R (try_catch m h).
Proof.
  intros Hm Hh w. unfold try_catch. specialize (Hm w).
  destruct (m w) as [[e|a] w1]; simpl in *; [|exact Hm].
  eapply step_trans; [exact Hm | apply Hh].
Qed.

Lemma respects_attempt A (m : M A) : respects R m -> respects R (attempt m).
Proof.
  intros Hm w. unfold attempt. specialize (Hm w).
  destruct (m w) as [r w1]. exact Hm.
Qed.

Lemma respects_mapM A B (f : A -> M B) xs :
  (forall x, respects R (f x)) -> respects R (mapM f xs).
Proof.
  intros Hf. induction xs as [|x xs IH]; simpl.
  - apply respects_ret.
  - apply respects_bind; [apply Hf|]. intros y.
    apply respects_bind; [exact IH|]. intros ys. apply respects_ret.
Qed.

Lemma respects_forM_ A (f : A -> M unit) xs :
  (forall x, respects R (f x)) -> respects R (forM_ xs f).
Proof.
  intros Hf. induction xs as [|x xs IH]; simpl.
  - apply respects_ret.
  - apply respects_bind; [apply Hf | intros _; exact IH].
Qed.

End Respects.

(** Goals [respects R m] by the structure of [m]. *)
Ltac respects_step :=
  match goal with
  | |- respects _ (ret _) => apply respects_ret
  | |- respects _ (throw _) => apply respects_throw
  | |- respects _ get => apply respects_get
  | |- respects _ date_now => apply respects_date_now
  | |- respects _ (bind _ _) => apply respects_bind; [|intros ?]
  | |- respects _ (try_catch _ _) => apply respects_try_catch; [|intros ?]
  | |- respects _ (attempt _) => apply respects_attempt
  | |- respects _ (mapM _ _) => apply respects_mapM; intros ?
  | |- respects _ (forM_ _ _) => apply respects_forM_; intros ?
  | |- respects _ (sleep _) => apply step_sleep
  | |- respects _ (generateEmbedding _) => apply step_generateEmbedding
  | |- respects _ (vectorQuery _) => apply step_vectorQuery
  | |- respects _ (emit (EvMetric _)) => apply step_metric
  | |- respects _ (emit (EvNotify _ _)) => apply step_notify
  | |- respects _ (modify_service (set_anchors _ _)) => apply step_anchors
  | |- respects _ (setImmediate_cache _) => apply step_setImmediate
  | |- respects _ (if ?b then _ else _) => destruct b
  | |- respects _ (match ?x with _ => _ end) => destruct x
  | |- respects _ (let _ := _ in _) => cbv zeta
  | H : _ |- _ => solve [apply H]
  end.

Ltac respects_auto := repeat respects_step.

Section RespectsService.

Context {R : World -> World -> Prop} {HR : Stepwise R}.

Lemma respects_createErrorMetadata svc err status add :
  respects R (createErrorMetadata svc err status add).
Proof. unfold createErrorMetadata. respects_auto. Qed.

Lemma respects_retryLoop A fuel svc err opts (op : M A) c :
  respects R op -> respects R (retryLoop fuel svc err opts op c).
Proof.
  intros Hop. revert c. induction fuel as [|fuel IH]; intros c; simpl;
    unfold unknown_result, createErrorMetadata; respects_auto.
Qed.

Lemma respects_attemptRecovery A svc err (op : M A) :
  respects R op -> respects R (attemptRecovery svc err op).
Proof.
  intros Hop. unfold attemptRecovery, createErrorMetadata. respects_auto.
  now apply respects_retryLoop.
Qed.

Lemma respects_generateEmbeddingWithRetry text :
  respects R (generateEmbeddingWithRetry text).
Proof.
  unfold generateEmbeddingWithRetry. respects_auto.
  apply respects_attemptRecovery. respects_auto.
Qed.

Lemma respects_queryVectorStoreWithRetry params :
  respects R (queryVectorStoreWithRetry params).
Proof.
  unfold queryVectorStoreWithRetry. respects_auto.
  apply respects_attemptRecovery. respects_auto.
Qed.

Lemma respects_initializeSentimentAnchors : respects R initializeSentimentAnchors.
Proof.
  unfold initializeSentimentAnchors. respects_auto.
  apply respects_generateEmbeddingWithRetry.
Qed.

Lemma respects_notifyEach os result : respects R (notifyEach os result).
Proof. induction os as [|o os IH]; simpl; respects_auto. Qed.

Hypothesis step_initialized :
  forall b, respects R (modify_service (set_initialized b)).

Lemma respects_initialize : respects R initialize.
Proof.
  unfold initialize. respects_auto.
  - apply respects_initializeSentimentAnchors.
  - apply respects_attemptRecovery, respects_initializeSentimentAnchors.
Qed.

Lemma respects_analysis text context startTime :
  respects R (analysis text context startTime).
Proof.
  unfold analysis, Array_from, matches_of, hashMessage. respects_auto.
  all: try apply respects_initialize.
  all: try apply respects_generateEmbeddingWithRetry.
  all: try apply respects_queryVectorStoreWithRetry.
Qed.

Lemma respects_analyzeSentiment text context :
  respects R (analyzeSentiment text context).
Proof.
  unfold analyzeSentiment, analysis_failed, notifyObservers. respects_auto.
  all: try apply respects_analysis.
  all: try apply respects_notifyEach.
Qed.

End RespectsService.

Lemma cache_lookups_app a b :
  cache_lookups (a ++ b) = cache_lookups a ++ cache_lookups b.
Proof. apply flat_map_app. Qed.

#[local] Instance same_lookups_stepwise : Stepwise same_lookups.
Proof.
  split; unfold respects, same_lookups; intros; simpl;
    rewrite ?cache_lookups_app, ?app_nil_r; simpl; rewrite ?app_nil_r;
    congruence.
Qed.

#[local] Instance same_initialized_stepwise : Stepwise same_initialized.
Proof.
  split; unfold respects, same_initialized; intros; simpl; congruence.
Qed.

#[local] Instance trace_grows_stepwise : Stepwise trace_grows.
Proof.
  split; unfold respects, trace_grows; intros; simpl.
  - exists []. now rewrite app_nil_r.
  - destruct H as [t1 H1], H0 as [t2 H2]. exists (t1 ++ t2).
    now rewrite H2, H1, app_assoc.
  - eexists; reflexivity.
  - eexists; reflexivity.
  - eexists; reflexivity.
  - eexists; reflexivity.
  - eexists; reflexivity.
  - exists []. now rewrite app_nil_r.
  - exists []. now rewrite app_nil_r.
Qed.

(** Whatever the world, [analyzeSentiment] leaves the cache unread. *)
Lemma analyzeSentiment_never_reads_cache text context w :
  cache_lookups (trace (snd (analyzeSentiment text context w)))
  = cache_lookups (trace w).
Proof.
  apply (respects_analyzeSentiment (R := same_lookups)).
  intros b w'. reflexivity.
Qed.

Lemma trace_grows_In ev w w' : trace_grows w w' -> In ev (trace w) -> In ev (trace w').
Proof. intros [t ->] H. apply in_or_app. now left. Qed.

Lemma In_after_bind A B (m : M A) (k : A -> M B) ev w :
  In ev (trace (snd (m w))) ->
  (forall a, respects trace_grows (k a)) ->
  In ev (trace (snd (bind m k w))).
Proof.
  intros Hin Hk. unfold bind. destruct (m w) as [[e|a] w1]; [exact Hin|].
  exact (@trace_grows_In _ _ _ (Hk a w1) Hin).
Qed.

Lemma In_after_try_catch A (m : M A) (h : JsError -> M A) ev w :
  In ev (trace (snd (m w))) ->
  (forall e, respects trace_grows (h e)) ->
  In ev (trace (snd (try_catch m h w))).
Proof.
  intros Hin Hh. unfold try_catch. destruct (m w) as [[e|a] w1]; [|exact Hin].
  exact (@trace_grows_In _ _ _ (Hh e w1) Hin).
Qed.

Lemma generateEmbeddingWithRetry_calls text w :
  In (EvEmbeddingCall text) (trace (snd (generateEmbeddingWithRetry text w))).
Proof.
  unfold generateEmbeddingWithRetry.
  apply In_after_try_catch.
  - apply In_after_bind; [|intros; respects_auto].
    simpl. apply in_or_app. right. now left.
  - intros e. respects_auto. apply respects_attemptRecovery. respects_auto.
Qed.

(** In an initialised service, [analysis] starts by embedding the text. *)
Lemma analysis_starts_with_embedding text context startTime w :
  initialized (service w) = true ->
  exists k,
    (forall embedding, respects trace_grows (k embedding))
    /\ analysis text context startTime w
       = bind (generateEmbeddingWithRetry text) k w.
Proof.
  intros Hinit. eexists. split; cycle 1.
  - unfold analysis. unfold bind at 1, get at 1. rewrite Hinit. cbn [negb].
    unfold bind at 1, ret at 1. unfold bind at 1, date_now at 1. reflexivity.
  - intros embedding. unfold Array_from, matches_of, hashMessage. respects_auto.
    all: apply respects_queryVectorStoreWithRetry.
Qed.

(** Once initialised, every call of [analyzeSentiment] sends the text to the
    embedding provider. *)
Lemma analyzeSentiment_always_embeds text context w :
  initialized (service w) = true ->
  In (EvEmbeddingCall text) (trace (snd (analyzeSentiment text context w))).
Proof.
  intros Hinit.
  destruct (analysis_starts_with_embedding text context (clock w) w Hinit)
    as (k & Hk & Heq).
  unfold analyzeSentiment. unfold bind at 1, date_now at 1.
  apply In_after_try_catch.
  - apply In_after_bind.
    + rewrite Heq. apply In_after_bind; [apply generateEmbeddingWithRetry_calls|].
      exact Hk.
    + intros result. unfold notifyObservers. respects_auto.
      apply respects_notifyEach.
  - intros e. unfold analysis_failed. respects_auto.
Qed.

(** [initialize()] on a ready service does nothing. *)
Lemma initialize_when_ready w :
  initialized (service w) = true -> initialize w = (inr tt, w).
Proof.
  intros H. unfold initialize, bind, get. now rewrite H.
Qed.

(** When the first attempt succeeds the service becomes ready. *)
Lemma initialize_first_attempt w w1 :
  initialized (service w) = false ->
  initializeSentimentAnchors w = (inr tt, w1) ->
  initialize w = (inr tt, with_service w1 (set_initialized true (service w1))).
Proof.
  intros H Hrun. unfold initialize, bind at 1, get at 1. rewrite H.
  unfold try_catch, bind at 1. now rewrite Hrun.
Qed.

(** When the first attempt throws, [initialize()] ends as the recovery
    does, returning normally or rethrowing, and in both cases the service is
    left uninitialised. *)
Lemma initialize_via_recovery w e w1 :
  initialized (service w) = false ->
  initializeSentimentAnchors w = (inl e, w1) ->
  let initError :=
    InitializationError (lit "Failed to initialize sentiment anchors")
                        (cause_of e) in
  exists r w2,
    attemptRecovery RECOVERY_SERVICE initError initializeSentimentAnchors w1
    = (inr r, w2)
    /\ initialize w = (if success r then inr tt else inl (thrown initError), w2)
    /\ initialized (service w2) = false.
Proof.
  intros H Hrun initError.
  destruct (@attemptRecovery_no_result _ RECOVERY_SERVICE initError
              initializeSentimentAnchors w1) as (r & w2 & Hrec & _).
  exists r, w2. split; [exact Hrec|]. split.
  - unfold initialize, bind at 1, get at 1. rewrite H.
    unfold try_catch, bind at 1. rewrite Hrun. fold initError.
    unfold bind at 1. rewrite Hrec. destruct (success r); reflexivity.
  - pose proof (respects_initializeSentimentAnchors (R := same_initialized) w) as H1.
    pose proof (respects_attemptRecovery (R := same_initialized)
                  RECOVERY_SERVICE initError
                  (respects_initializeSentimentAnchors (R := same_initialized)) w1)
      as H2.
    rewrite Hrun in H1. rewrite Hrec in H2. unfold same_initialized in *.
    simpl in *. congruence.
Qed.

(** C9 (failing input).  The provider is down while the first attempt at
    initialisation runs, so that attempt throws once an anchor term has used
    up its retries; the recovery attempt finds the provider up and
    succeeds.  [initialize()] returns normally, yet the service is still not
    initialised: a second [initialize()], or the next [analyzeSentiment],
    asks the provider for all 249 anchor embeddings again. *)
Theorem initialize_recovered_not_ready :
  let first := initialize world_init_outage in
  let again := initialize (snd first) in
  let analysed := analyzeSentiment greeting caller (snd first) in
  returned (fst first) = true
  /\ initialized (service (snd first)) = false
  /\ returned (fst again) = true
  /\ embeddingCalls (snd again) = (embeddingCalls (snd first) + 249)%nat
  /\ returned (fst analysed) = true
  /\ embeddingCalls (snd analysed) = (embeddingCalls (snd first) + 249 + 1)%nat.
Proof. vm_compute. repeat split. Qed.

(** C1 (failing input).  The cache holds a live row for the text, and
    [analyzeSentiment] still asks the provider for an embedding and queries
    the vector store, without ever looking the text up in the cache. *)
Theorem analyzeSentiment_ignores_cache :
  let run := analyzeSentiment greeting caller world_cached in
  Cache.live_entry world_cached greeting greeting_row
  /\ returned (fst run) = true
  /\ embedded_texts (trace (snd run)) = [greeting]
  /\ vector_queries (trace (snd run)) = 1%nat
  /\ cache_lookups (trace (snd run)) = [].
Proof.
  split.
  - unfold Cache.live_entry. split; [now left | split; vm_compute; reflexivity].
  - vm_compute. repeat split.
Qed.

(** C3 (counterexample).  With a throwing observer registered first, a
    successful analysis is not returned to the caller. *)
Lemma observer_throw_breaks_isolation :
  ~ observers_isolated greeting caller world_observed.
Proof.
  unfold observers_isolated. intros H.
  assert (Hok : returned (fst (analysis greeting caller (clock world_observed)
                                        world_observed)) = true)
    by (vm_compute; reflexivity).
  assert (Hn : returned (fst (analyzeSentiment greeting caller world_observed))
               = false)
    by (vm_compute; reflexivity).
  destruct (analysis greeting caller (clock world_observed) world_observed)
    as [[e|result] w1] eqn:E; [discriminate Hok|].
  destruct (H result w1 eq_refl) as [Hret _].
  rewrite Hret in Hn. discriminate Hn.
Qed.

Lemma notified_app a b : notified (a ++ b) = notified a ++ notified b.
Proof. apply flat_map_app. Qed.

Lemma notified_notifications (os : list Observer) result :
  notified (List.map (fun o => EvNotify (observerId o) result) os)
  = List.map (fun o => (observerId o, result)) os.
Proof. induction os; simpl; [reflexivity | now f_equal]. Qed.

Lemma notifyEach_quiet (os : list Observer) result w :
  (forall o, In o os -> onSentimentUpdate o result = None) ->
  notifyEach os result w
  = (inr tt, with_trace w (trace w ++ List.map (fun o => EvNotify (observerId o) result) os)).
Proof.
  revert w. induction os as [|o os IH]; intros w Hq; simpl.
  - rewrite app_nil_r. destruct w; reflexivity.
  - unfold bind at 1, emit, modify. rewrite (Hq o (or_introl eq_refl)).
    rewrite IH by (intros o' Ho'; apply Hq; now right).
    simpl. rewrite <- app_assoc. reflexivity.
Qed.

Lemma notifyEach_throw (pre post : list Observer) o e result w :
  (forall o', In o' pre -> onSentimentUpdate o' result = None) ->
  onSentimentUpdate o result = Some e ->
  notifyEach (pre ++ o :: post) result w
  = (inl e, with_trace w (trace w ++ List.map (fun o => EvNotify (observerId o) result)
                                               (pre ++ [o]))).
Proof.
  revert w. induction pre as [|p pre IH]; intros w Hq He; simpl.
  - unfold bind, emit, modify. rewrite He. reflexivity.
  - unfold bind at 1, emit, modify. rewrite (Hq p (or_introl eq_refl)).
    rewrite IH by (auto; intros o' Ho'; apply Hq; now right).
    simpl. rewrite <- app_assoc. reflexivity.
Qed.

Lemma analysis_failed_run {A} startTime e w :
  exists w', @analysis_failed A startTime e w
             = (inl (thrown (AnalysisError (lit "Failed to analyze sentiment")
                                           (cause_of e))), w')
             /\ notified (trace w') = notified (trace w).
Proof.
  unfold analysis_failed, bind, date_now, throw.
  destruct (message_of e) as [msg|]; simpl.
  - destruct (includes msg (lit "OpenAI")); simpl.
    + eexists; split; [reflexivity|]. simpl. rewrite notified_app. simpl.
      now rewrite app_nil_r.
    + destruct (includes msg (lit "Pinecone")); simpl;
        (eexists; split; [reflexivity|]); simpl; [|reflexivity].
      rewrite notified_app. simpl. now rewrite app_nil_r.
  - eexists; split; reflexivity.
Qed.

(** C3 (amended).  After a successful analysis the observers are notified in
    registration order with the result, with nothing in between.  If none
    throws, the result is returned.  If one throws, the observers after it
    are not notified and the call throws an [AnalysisError] made from what
    the observer threw: its cause is that value when it is an [Error]
    object, and [undefined] when the observer threw anything else
    ([cause_of]). *)
Theorem observers_notified_until_throw :
  forall (text : jsstring) (context : SentimentContext) (w : World)
         (result : SentimentAnalysisResult) (w1 : World),
    analysis text context (clock w) w = (inr result, w1) ->
    let os := observers (service w1) in
    ((forall o, In o os -> onSentimentUpdate o result = None) ->
     analyzeSentiment text context w
     = (inr result,
        with_trace w1 (trace w1
                       ++ List.map (fun o => EvNotify (observerId o) result) os)))
    /\ (forall pre o post e,
           os = pre ++ o :: post ->
           (forall o', In o' pre -> onSentimentUpdate o' result = None) ->
           onSentimentUpdate o result = Some e ->
           exists w',
             analyzeSentiment text context w
             = (inl (thrown (AnalysisError (lit "Failed to analyze sentiment")
                                           (cause_of e))), w')
             /\ notified (trace w')
                = notified (trace w1)
                  ++ List.map (fun o' => (observerId o', result)) (pre ++ [o])).
Proof.
  intros text context w result w1 Han os.
  assert (Hrun :
             analyzeSentiment text context w
             = match notifyEach os result w1 with
               | (inr _, w2) => (inr result, w2)
               | (inl e, w2) => analysis_failed (clock w) e w2
               end).
  { unfold analyzeSentiment, bind at 1, date_now, try_catch.
    unfold bind at 1. rewrite Han.
    unfold bind at 1, notifyObservers, bind at 1, get. fold os.
    destruct (notifyEach os result w1) as [[e|[]] w2]; reflexivity. }
  split.
  - intros Hq. rewrite Hrun, (@notifyEach_quiet os result w1 Hq). reflexivity.
  - intros pre o post e Hos Hq He. rewrite Hrun, Hos.
    rewrite (@notifyEach_throw pre post o e result w1 Hq He).
    destruct (@analysis_failed_run SentimentAnalysisResult (clock w) e
                (with_trace w1 (trace w1 ++ List.map (fun o0 => EvNotify (observerId o0) result) (pre ++ [o]))))
      as (w' & Hf & Hn).
    exists w'. split; [exact Hf|]. rewrite Hn. simpl.
    now rewrite notified_app, notified_notifications.
Qed.

Lemma observers_notified_until_throw_witness :
  (exists result w1,
      analysis greeting caller (clock world_listening) world_listening
      = (inr result, w1)
      /\ analyzeSentiment greeting caller world_listening
         = (inr result,
            with_trace w1 (trace w1 ++ [EvNotify 1 result; EvNotify 2 result])))
  /\ (exists result w1 w',
         analysis greeting caller (clock world_observed) world_observed
         = (inr result, w1)
         /\ observers (service w1) = [] ++ throwing_observer 1 :: [quiet_observer 2]
         /\ analyzeSentiment greeting caller world_observed
            = (inl (thrown (AnalysisError (lit "Failed to analyze sentiment")
                              (cause_of (PlainError (lit "Error")
                                                    (lit "observer failed"))))), w')
         /\ notified (trace w') = notified (trace w1) ++ [(1%nat, result)]).
Proof.
  split.
  - assert (Hret : returned (fst (analysis greeting caller (clock world_listening)
                                           world_listening)) = true)
      by (vm_compute; reflexivity).
    assert (Hos : observers (service (snd (analysis greeting caller
                                             (clock world_listening) world_listening)))
                  = [quiet_observer 1; quiet_observer 2])
      by (vm_compute; reflexivity).
    destruct (analysis greeting caller (clock world_listening) world_listening)
      as [[e|result] w1] eqn:Han; [discriminate Hret|].
    simpl in Hos. exists result, w1. split; [reflexivity|].
    pose proof (proj1 (@observers_notified_until_throw greeting caller
                         world_listening result w1 Han)) as H.
    rewrite Hos in H. apply H.
    intros o [<-|[<-|[]]]; reflexivity.
  - assert (Hret : returned (fst (analysis greeting caller (clock world_observed)
                                           world_observed)) = true)
      by (vm_compute; reflexivity).
    assert (Hos : observers (service (snd (analysis greeting caller
                                             (clock world_observed) world_observed)))
                  = [] ++ throwing_observer 1 :: [quiet_observer 2])
      by (vm_compute; reflexivity).
    destruct (analysis greeting caller (clock world_observed) world_observed)
      as [[e|result] w1] eqn:Han; [discriminate Hret|].
    simpl in Hos.
    destruct (proj2 (@observers_notified_until_throw greeting caller world_observed
                       result w1 Han)
                [] (throwing_observer 1) [quiet_observer 2]
                (PlainError (lit "Error") (lit "observer failed"))
                Hos (fun o' (H : In o' []) => match H with end) eq_refl)
      as (w' & Hrun & Hn).
    exists result, w1, w'. repeat split; [exact Hos | exact Hrun | exact Hn].
Defined.

End ServiceProperties.

(** ** The sentiment cache *)

Section CacheProperties.
Import Cache Scenarios.

Lemma num_step_colon st : num_step st 58 = None.
Proof. destruct st; reflexivity. Qed.

Lemma num_run_colon s : In 58%N s -> forall st, num_run st s = None.
Proof.
  induction s as [|c s IH]; intros Hin st; [contradiction|].
  simpl. destruct Hin as [->|Hin].
  - now rewrite num_step_colon.
  - destruct (num_step st c); auto.
Qed.

Lemma sql_datetime_colon now : In 58%N (sql_datetime now).
Proof.
  unfold sql_datetime. destruct (civil_from_days _) as [[y m] d].
  do 7 (apply in_or_app; right). apply in_or_app. left. now left.
Qed.

Lemma where_unexpired_false now r : where_unexpired now r = false.
Proof.
  unfold where_unexpired, apply_numeric_affinity, integer_literal.
  rewrite (@num_run_colon _ (sql_datetime_colon now)). reflexivity.
Qed.

Lemma getCachedSentiment_none message w :
  getCachedSentiment message w
  = (inr None, with_trace w (trace w ++ [EvCacheLookup (sha256 w message)])).
Proof.
  unfold getCachedSentiment, bind, get, emit, modify. simpl.
  replace (find _ (db w)) with (@None Row); [reflexivity|].
  symmetry. induction (db w) as [|r rows IH]; [reflexivity|]. simpl.
  now rewrite where_unexpired_false, andb_false_r.
Qed.

(** C2 (failing input).  Whatever is stored by [cacheSentiment], and however
    soon it is looked up, [getCachedSentiment] finds nothing: its condition
    compares the integer [expiresAt] with the text of [datetime('now')], and
    in SQLite a number is never greater than such a text. *)
Theorem cached_entry_never_found :
  forall (w : World) (data : CacheData) (message : jsstring),
    let stored := cacheSentiment data w in
    (fst stored = inr tt ->
     exists r, In r (db (snd stored))
               /\ row_messageHash r = cd_messageHash data
               /\ row_sentiment r = cd_sentiment data
               /\ row_confidence r = cd_confidence data
               /\ row_expiresAt r = (clock w + DAY_MS)%Z)
    /\ fst (getCachedSentiment message (snd stored)) = inr None.
Proof.
  intros w data message stored. split.
  - subst stored. unfold cacheSentiment, bind, date_now, get. simpl.
    destruct (existsb _ (db w)); simpl; [discriminate|]. intros _.
    eexists. split; [apply in_or_app; right; now left|]. simpl. auto.
  - now rewrite getCachedSentiment_none.
Qed.

Lemma cached_entry_never_found_witness :
  fst (cacheSentiment greeting_data world_observed) = inr tt
  /\ (exists r, In r (db (snd (cacheSentiment greeting_data world_observed)))
               /\ row_messageHash r = digest greeting
               /\ row_sentiment r = 0.5%R
               /\ row_confidence r = 0.8%R
               /\ row_expiresAt r = (1708430400000 + DAY_MS)%Z)
  /\ fst (getCachedSentiment greeting (snd (cacheSentiment greeting_data world_observed)))
     = inr None.
Proof.
  assert (H : fst (cacheSentiment greeting_data world_observed) = inr tt) by reflexivity.
  destruct (cached_entry_never_found world_observed greeting_data greeting) as [H1 H2].
  split; [exact H|]. split; [exact (H1 H) | exact H2].
Defined.

End CacheProperties.

(** ** Trend and volatility *)

Section AggregatorProperties.
Import Scoring Aggregator.
Local Open Scope R_scope.

Lemma Math_pow_nonneg x y : 0 <= Math_pow x y.
Proof.
  unfold Math_pow. destruct (Rlt_dec 0 x).
  - left. apply exp_pos.
  - destruct (Rlt_dec 0 y); lra.
Qed.

Lemma Math_pow_pos x y : 0 < x -> 0 < Math_pow x y.
Proof.
  intros Hx. unfold Math_pow. destruct (Rlt_dec 0 x); [apply exp_pos | contradiction].
Qed.

Lemma Math_pow_zero y : 0 < y -> Math_pow 0 y = 0.
Proof.
  intros Hy. unfold Math_pow. destruct (Rlt_dec 0 0); [lra|].
  destruct (Rlt_dec 0 y); [reflexivity | contradiction].
Qed.

Lemma fold_left_Rplus_acc xs a : fold_left Rplus xs a = a + fold_left Rplus xs 0.
Proof.
  revert a. induction xs as [|x xs IH]; intros a; simpl; [lra|].
  rewrite (IH (a + x)), (IH (0 + x)). lra.
Qed.

Lemma sum_cons x xs : sum (x :: xs) = x + sum xs.
Proof. unfold sum. simpl. rewrite fold_left_Rplus_acc. lra. Qed.

Lemma sum_nonneg xs : Forall (fun x => 0 <= x) xs -> 0 <= sum xs.
Proof.
  induction 1 as [|x xs Hx _ IH]; [unfold sum; simpl; lra|].
  rewrite sum_cons. lra.
Qed.

Lemma mapi_from_Forall {A B} (Q : A -> Prop) (P : B -> Prop) (f : A -> nat -> B) xs :
  Forall Q xs -> (forall x i, Q x -> P (f x i)) ->
  forall i, Forall P (mapi_from i f xs).
Proof.
  intros Hxs Hf. induction Hxs as [|x xs Hx _ IH]; intros i; simpl;
    constructor; auto.
Qed.

Lemma mapi_from_length {A B} (f : A -> nat -> B) xs i :
  List.length (mapi_from i f xs) = List.length xs.
Proof. revert i. induction xs; intros i; simpl; auto. Qed.

Lemma consecutive_length {A B} (f : A -> A -> B) scores :
  List.length (consecutive f scores) = pred (List.length scores).
Proof.
  unfold consecutive. rewrite length_map, length_combine.
  destruct scores; simpl; [reflexivity|]. rewrite Nat.min_l; lia.
Qed.

Lemma calculateVolatility_range scores : 0 <= calculateVolatility scores <= 1.
Proof.
  unfold calculateVolatility. destruct (List.length scores <? 2)%nat eqn:E; [lra|].
  apply Nat.ltb_ge in E.
  set (ds := List.map _ (consecutive _ scores)).
  set (ws := mapi _ ds).
  assert (Hds : Forall (fun x => 0 <= x) ds).
  { subst ds. apply Forall_map, Forall_forall. intros x _. apply Math_pow_nonneg. }
  assert (Hs : 0 <= sum ws).
  { apply sum_nonneg. subst ws. unfold mapi.
    apply (mapi_from_Forall (Q := fun x => 0 <= x)); [exact Hds|].
    intros x i Hx. apply Rmult_le_pos; [exact Hx | apply Math_pow_nonneg]. }
  assert (Hn : 0 < INR (List.length ws)).
  { subst ws ds. unfold mapi. rewrite mapi_from_length, length_map, consecutive_length.
    apply lt_0_INR. lia. }
  assert (Hv : 0 <= sum ws / INR (List.length ws)).
  { apply Rmult_le_pos; [exact Hs|]. left. now apply Rinv_0_lt_compat. }
  unfold Rmin. destruct (Rle_dec 1 _); lra.
Qed.

Lemma calculateTrend_range scores : -1 <= calculateTrend scores <= 1.
Proof.
  unfold calculateTrend. destruct (List.length scores <? 2)%nat; [lra|].
  unfold Rmin, Rmax.
  destruct (Rle_dec (-1) _); destruct (Rle_dec 1 _); lra.
Qed.

Lemma short_history scores :
  (List.length scores < 2)%nat ->
  calculateTrend scores = 0 /\ calculateVolatility scores = 0.
Proof.
  intros H. apply Nat.ltb_lt in H. unfold calculateTrend, calculateVolatility.
  now rewrite H.
Qed.

Lemma Math_sign_pos x : 0 < x -> Math_sign x = 1.
Proof. intros H. unfold Math_sign. destruct (Rlt_dec 0 x); [reflexivity|contradiction]. Qed.

Lemma increasing_trend : 0 < calculateTrend [0.1; 0.3; 0.5; 0.7].
Proof.
  unfold calculateTrend. cbn [List.length Nat.ltb Nat.leb].
  unfold consecutive, mapi. cbn [tl combine List.map fst snd mapi_from List.length].
  rewrite !sum_cons.
  set (w0 := Math_pow 3 _). set (w1 := Math_pow 3 _). set (w2 := Math_pow 3 _).
  assert (H0 : 0 < w0) by (apply Math_pow_pos; lra).
  assert (H1 : 0 < w1) by (apply Math_pow_pos; lra).
  assert (H2 : 0 < w2) by (apply Math_pow_pos; lra).
  rewrite !Math_sign_pos by lra.
  set (a := Math_pow (Rabs (0.3 - 0.1)) 2).
  set (b := Math_pow (Rabs (0.5 - 0.3)) 2).
  set (c := Math_pow (Rabs (0.7 - 0.5)) 2).
  assert (Ha : 0 < a) by (apply Math_pow_pos, Rabs_pos_lt; lra).
  assert (Hb : 0 < b) by (apply Math_pow_pos, Rabs_pos_lt; lra).
  assert (Hc : 0 < c) by (apply Math_pow_pos, Rabs_pos_lt; lra).
  assert (Hs : 0 < a * 1 * w0 + (b * 1 * w1 + (c * 1 * w2 + sum []))).
  { unfold sum; simpl. 
    assert (0 < a * w0) by now apply Rmult_lt_0_compat.
    assert (0 < b * w1) by now apply Rmult_lt_0_compat.
    assert (0 < c * w2) by now apply Rmult_lt_0_compat. lra. }
  set (s := a * 1 * w0 + _) in *.
  assert (Hd : 0 < s / INR 3).
  { apply Rmult_lt_0_compat; [exact Hs|]. apply Rinv_0_lt_compat. simpl; lra. }
  unfold Rmin, Rmax.
  destruct (Rle_dec (-1) _); destruct (Rle_dec 1 _); lra.
Qed.

Lemma flat_volatility : calculateVolatility [0.5; 0.5; 0.5; 0.5] = 0.
Proof.
  unfold calculateVolatility. cbn [List.length Nat.ltb Nat.leb].
  unfold consecutive, mapi. cbn [tl combine List.map fst snd mapi_from List.length].
  replace (0.5 - 0.5) with 0 by lra. rewrite Rabs_R0, Math_pow_zero by lra.
  rewrite !sum_cons. unfold sum. simpl fold_left.
  rewrite !Rmult_0_l, !Rplus_0_l. unfold Rdiv. rewrite Rmult_0_l, Rmult_0_l.
  unfold Rmin. destruct (Rle_dec 1 0); lra.
Qed.

Lemma Math_pow_4_ge_1 y : 0 <= y -> 1 <= Math_pow 4 y.
Proof.
  intros Hy. unfold Math_pow. destruct (Rlt_dec 0 4); [|lra].
  rewrite <- (Rpower_O 4) by lra. apply Rle_Rpower; lra.
Qed.

Lemma Math_pow_cube x : 0 < x -> Math_pow x 3 = x * x * x.
Proof.
  intros Hx. unfold Math_pow. destruct (Rlt_dec 0 x); [|contradiction].
  replace 3 with (INR 3) by (simpl; lra). rewrite Rpower_pow by assumption.
  simpl. lra.
Qed.

Lemma alternating_volatility : calculateVolatility [0.1; 0.9; 0.1; 0.9] = 1.
Proof.
  unfold calculateVolatility. cbn [List.length Nat.ltb Nat.leb].
  unfold consecutive, mapi. cbn [tl combine List.map fst snd mapi_from List.length].
  replace (Rabs (0.9 - 0.1)) with 0.8 by (rewrite Rabs_pos_eq; lra).
  replace (Rabs (0.1 - 0.9)) with 0.8
    by (rewrite <- Rabs_Ropp, Rabs_pos_eq; lra).
  rewrite Math_pow_cube by lra.
  rewrite !sum_cons. unfold sum. simpl fold_left.
  assert (H0 : 1 <= Math_pow 4 (INR 0 / INR 3))
    by (apply Math_pow_4_ge_1; simpl; lra).
  assert (H1 : 1 <= Math_pow 4 (INR 1 / INR 3))
    by (apply Math_pow_4_ge_1; simpl; lra).
  assert (H2 : 1 <= Math_pow 4 (INR 2 / INR 3))
    by (apply Math_pow_4_ge_1; simpl; lra).
  set (w0 := Math_pow 4 (INR 0 / INR 3)) in *.
  set (w1 := Math_pow 4 (INR 1 / INR 3)) in *.
  set (w2 := Math_pow 4 (INR 2 / INR 3)) in *.
  replace (INR 3) with 3 by (simpl; lra).
  unfold Rmin. destruct (Rle_dec 1 _) as [|Hn]; [reflexivity|].
  exfalso. apply Hn. lra.
Qed.

End AggregatorProperties.

(** ** Trend and volatility over doubles *)

Section DoubleProperties.
Import PrimFloat FloatClass FloatOps SpecFloat FloatAxioms.
Import Aggregator Binary64.
Local Open Scope float_scope.

Lemma compare_leb a b :
  (a ?= b) = FLt \/ (a ?= b) = FEq -> (a <=? b) = true.
Proof.
  rewrite compare_spec, leb_spec. unfold SFleb.
  destruct (SFcompare (Prim2SF a) (Prim2SF b)) as [[]|]; simpl;
    intros [H|H]; try discriminate; reflexivity.
Qed.

Lemma Math_max_floor x :
  (Math_max (-1) x = x /\ (-1 <=? x) = true)
  \/ Math_max (-1) x = -1 \/ Math_max (-1) x = nan.
Proof.
  unfold Math_max. destruct ((-1) ?= x) eqn:C.
  - right. left. reflexivity.
  - left. split; [reflexivity|]. apply compare_leb. now left.
  - right. left. reflexivity.
  - right. right. reflexivity.
Qed.

Lemma Math_min_one y :
  (Math_min 1 y = y /\ (y <=? 1) = true)
  \/ Math_min 1 y = 1 \/ Math_min 1 y = nan.
Proof.
  unfold Math_min. destruct (y ?= 1) eqn:C.
  - left. split; [reflexivity|]. apply compare_leb. now right.
  - left. split; [reflexivity|]. apply compare_leb. now left.
  - right. left. reflexivity.
  - right. right. reflexivity.
Qed.

(** The clamp of [calculateTrend] lets NaN through and nothing else out of
    range. *)
Lemma clamp_range x :
  let t := Math_min 1 (Math_max (-1) x) in
  is_nan t = true \/ within (-1) 1 t = true.
Proof.
  cbv zeta.
  destruct (Math_max_floor x) as [[-> Hlo]|[->| ->]];
    [|right; reflexivity|left; reflexivity].
  destruct (Math_min_one x) as [[-> Hhi]|[->| ->]];
    [|right; reflexivity|left; reflexivity].
  right. unfold within. now rewrite Hlo, Hhi.
Qed.

Lemma is_nan_spec x : Prim2SF x = S754_nan -> is_nan x = true.
Proof. intros H. unfold is_nan. rewrite eqb_spec, H. reflexivity. Qed.

(** Rounding keeps the sign. *)
Lemma binary_round_aux_sign prec emax s m e l :
  match binary_round_aux prec emax s m e l with
  | S754_zero s' | S754_infinity s' | S754_finite s' _ _ => s' = s
  | S754_nan => True
  end.
Proof.
  unfold binary_round_aux.
  destruct (shr_fexp prec emax m e l) as [mrs' e'].
  destruct (shr_fexp prec emax _ e' loc_Exact) as [mrs'' e''].
  destruct (shr_m mrs''); [reflexivity| |exact I].
  destruct (e'' <=? emax - prec)%Z; reflexivity.
Qed.

Lemma binary_round_sign prec emax s m e :
  match binary_round prec emax s m e with
  | S754_zero s' | S754_infinity s' | S754_finite s' _ _ => s' = s
  | S754_nan => True
  end.
Proof.
  unfold binary_round. destruct (shl_align _ _ _) as [mz ez].
  apply binary_round_aux_sign.
Qed.

Lemma not_negative_abs x : not_negative (Math_abs x).
Proof.
  unfold not_negative, Math_abs. rewrite abs_spec.
  destruct (Prim2SF x); reflexivity.
Qed.

Lemma not_negative_mul x y :
  not_negative x -> not_negative y -> not_negative (x * y).
Proof.
  unfold not_negative. rewrite mul_spec. unfold SF64mul, SFmul.
  destruct (Prim2SF x) as [sx|sx| |sx mx ex], (Prim2SF y) as [sy|sy| |sy my ey];
    intros Hx Hy; subst; try exact I; try reflexivity.
  apply (@binary_round_aux_sign prec emax (xorb false false)).
Qed.

Lemma not_negative_div x y :
  not_negative x -> not_negative y -> not_negative (x / y).
Proof.
  unfold not_negative. rewrite div_spec. unfold SF64div, SFdiv.
  destruct (Prim2SF x) as [sx|sx| |sx mx ex], (Prim2SF y) as [sy|sy| |sy my ey];
    intros Hx Hy; subst; try exact I; try reflexivity.
  destruct (SFdiv_core_binary _ _ _ _ _ _) as [[mz ez] lz].
  apply (@binary_round_aux_sign prec emax (xorb false false)).
Qed.

Lemma not_negative_add x y :
  not_negative x -> not_negative y -> not_negative (x + y).
Proof.
  unfold not_negative. rewrite add_spec. unfold SF64add, SFadd.
  destruct (Prim2SF x) as [sx|sx| |sx mx ex], (Prim2SF y) as [sy|sy| |sy my ey];
    intros Hx Hy; subst; try exact I; try reflexivity.
  cbn [cond_Zopp]. cbn [Z.add binary_normalize].
  apply (@binary_round_sign prec emax false).
Qed.

Lemma not_negative_of_nat n : not_negative (of_nat n).
Proof.
  unfold not_negative, of_nat. rewrite of_uint63_spec.
  pose proof (Uint63.to_Z_bounded (Uint63.of_Z (Z.of_nat n))) as Hb.
  destruct (Uint63.to_Z (Uint63.of_Z (Z.of_nat n))) as [|p|p]; [reflexivity| |lia].
  apply (@binary_round_sign prec emax false).
Qed.

Lemma not_negative_Math_pow pow_approx base exponent :
  not_negative_pow pow_approx ->
  not_negative base -> not_negative (Math_pow pow_approx base exponent).
Proof.
  intros Hp Hb. unfold Math_pow.
  destruct (is_nan exponent); [exact I|].
  destruct (exponent =? 0); [reflexivity|].
  destruct (is_nan base); [exact I|].
  destruct (classify base); try (now apply Hp);
    try (destruct (0 <? exponent); reflexivity);
    (destruct (classify exponent); try (now apply Hp);
     destruct (base ?= 1); try exact I; reflexivity).
Qed.

Lemma not_negative_sum xs a :
  not_negative a -> Forall not_negative xs -> not_negative (fold_left add xs a).
Proof.
  intros Ha Hxs. revert a Ha. induction Hxs as [|x xs Hx _ IH]; intros a Ha; simpl.
  - exact Ha.
  - apply IH. now apply not_negative_add.
Qed.

Lemma not_negative_leb x :
  not_negative x -> is_nan x = true \/ (0 <=? x) = true.
Proof.
  unfold not_negative. intros H.
  destruct (Prim2SF x) as [s|s| |s m e] eqn:E.
  - right. rewrite leb_spec, E. reflexivity.
  - right. rewrite leb_spec, E. subst s. reflexivity.
  - left. now apply is_nan_spec.
  - right. rewrite leb_spec, E. subst s. reflexivity.
Qed.

Lemma min_one_range y :
  not_negative y ->
  let v := Math_min 1 y in is_nan v = true \/ within 0 1 v = true.
Proof.
  intros Hy. cbv zeta.
  destruct (Math_min_one y) as [[-> Hhi]|[->| ->]];
    [|right; reflexivity|left; reflexivity].
  destruct (@not_negative_leb y Hy) as [Hn|H0]; [now left|].
  right. unfold within. now rewrite H0, Hhi.
Qed.

Lemma double_short_history pow_approx scores :
  (List.length scores < 2)%nat ->
  calculateTrend pow_approx scores = 0
  /\ calculateVolatility pow_approx scores = 0.
Proof.
  intros H. apply Nat.ltb_lt in H. unfold calculateTrend, calculateVolatility.
  now rewrite H.
Qed.

Lemma double_trend_range pow_approx scores :
  let t := calculateTrend pow_approx scores in
  is_nan t = true \/ within (-1) 1 t = true.
Proof.
  cbv zeta. unfold calculateTrend.
  destruct (List.length scores <? 2)%nat; [right; reflexivity|].
  apply clamp_range.
Qed.

Lemma double_volatility_range pow_approx scores :
  not_negative_pow pow_approx ->
  let v := calculateVolatility pow_approx scores in
  is_nan v = true \/ within 0 1 v = true.
Proof.
  intros Hp. cbv zeta. unfold calculateVolatility.
  destruct (List.length scores <? 2)%nat; [right; reflexivity|].
  apply min_one_range.
  apply not_negative_mul; [|reflexivity].
  apply not_negative_div; [|apply not_negative_of_nat].
  apply not_negative_sum; [reflexivity|].
  unfold mapi.
  apply mapi_from_Forall with (Q := not_negative).
  - apply Forall_map. unfold consecutive. apply Forall_map.
    apply Forall_forall. intros p _.
    apply not_negative_Math_pow; [exact Hp | apply not_negative_abs].
  - intros x i Hx. apply not_negative_mul; [exact Hx|].
    apply not_negative_Math_pow; [exact Hp | reflexivity].
Qed.

Lemma infinity_times_positive w :
  (0 <? w) = true -> infinity * w = infinity.
Proof.
  intros H. apply Prim2SF_inj.
  rewrite mul_spec. rewrite ltb_spec in H.
  destruct (Prim2SF w) as [s|s| |s m e]; try destruct s; try discriminate H;
    reflexivity.
Qed.

(** Whatever the platform, as long as its [3 ^ 0.5] is positive: the
    differences of [far_apart] overflow to [-Infinity] and [+Infinity], and
    the sum of the two weighted changes is NaN. *)
Lemma trend_overflows pow_approx :
  (0 <? pow_approx 3 0.5) = true ->
  is_nan (calculateTrend pow_approx far_apart) = true.
Proof.
  intros H.
  assert (E : calculateTrend pow_approx far_apart
              = Math_min 1 (Math_max (-1)
                  ((neg_infinity + infinity * pow_approx 3 0.5) / 2 * 6))).
  { vm_compute. reflexivity. }
  rewrite E, (@infinity_times_positive _ H). reflexivity.
Qed.

Lemma not_negative_pow_half : not_negative_pow pow_half.
Proof.
  intros base exponent Hb. unfold not_negative, pow_half in *.
  pose proof (FloatAxioms.sqrt_spec base) as E. unfold SF64sqrt, SFsqrt in E.
  destruct (Prim2SF base) as [s|s| |s m e]; subst; rewrite E; try reflexivity.
  destruct (SFsqrt_core_binary _ _ _ _) as [[mz ez] lz].
  apply (@binary_round_aux_sign prec emax false).
Qed.

End DoubleProperties.

Section TrendAndVolatility.
Import Scoring Aggregator.
Import PrimFloat.
Local Open Scope R_scope.

(** C10 (counterexample).  Computed with doubles, the trend of three finite
    scores can be NaN, which is neither at least -1 nor at most 1. *)
Lemma trend_not_a_number :
  is_nan (Binary64.calculateTrend Binary64.pow_half Binary64.far_apart) = true
  /\ Binary64.within (-1) 1
       (Binary64.calculateTrend Binary64.pow_half Binary64.far_apart) = false.
Proof. split; vm_compute; reflexivity. Qed.

(** C10 (amended).  With fewer than two scores trend and volatility are 0.
    Computed with doubles, whatever the scores and the platform's
    [Math.pow], the trend is NaN or lies in [-1,1], and the volatility is
    NaN or lies in [0,1] (for the volatility, [Math.pow] must not make a
    negative number from a base that is not negative).  In exact arithmetic,
    so where nothing overflows, as for scores between -1 and 1, volatility
    lies in [0,1] and trend in [-1,1].  The increasing sequence has a
    positive trend, the flat sequence has volatility 0 and the alternating
    sequence a strictly greater one. *)
Theorem trend_and_volatility :
  (forall (pow_approx : float -> float -> float) (scores : list float),
      (List.length scores < 2)%nat ->
      Binary64.calculateTrend pow_approx scores = 0%float
      /\ Binary64.calculateVolatility pow_approx scores = 0%float)
  /\ (forall (pow_approx : float -> float -> float) (scores : list float),
         let trend := Binary64.calculateTrend pow_approx scores in
         is_nan trend = true \/ Binary64.within (-1) 1 trend = true)
  /\ (forall (pow_approx : float -> float -> float) (scores : list float),
         Binary64.not_negative_pow pow_approx ->
         let volatility := Binary64.calculateVolatility pow_approx scores in
         is_nan volatility = true \/ Binary64.within 0 1 volatility = true)
  /\ (forall scores : list R,
         ((List.length scores < 2)%nat ->
          calculateTrend scores = 0 /\ calculateVolatility scores = 0)
         /\ (Forall (fun s => -1 <= s <= 1) scores ->
             0 <= calculateVolatility scores <= 1
             /\ -1 <= calculateTrend scores <= 1))
  /\ 0 < calculateTrend [0.1; 0.3; 0.5; 0.7]
  /\ calculateVolatility [0.5; 0.5; 0.5; 0.5] = 0
  /\ calculateVolatility [0.5; 0.5; 0.5; 0.5]
     < calculateVolatility [0.1; 0.9; 0.1; 0.9].
Proof.
  split; [exact double_short_history|].
  split; [exact double_trend_range|].
  split; [exact double_volatility_range|].
  split.
  - intros scores. split; [apply short_history|]. intros _.
    split; [apply calculateVolatility_range | apply calculateTrend_range].
  - split; [exact increasing_trend|]. split; [exact flat_volatility|].
    rewrite flat_volatility, alternating_volatility. lra.
Qed.

Lemma trend_and_volatility_witness :
  ((List.length [0.4%float] < 2)%nat
   /\ Binary64.calculateTrend Binary64.pow_half [0.4%float] = 0%float
   /\ Binary64.calculateVolatility Binary64.pow_half [0.4%float] = 0%float)
  /\ (Binary64.not_negative_pow Binary64.pow_half
      /\ Binary64.within 0 1
           (Binary64.calculateVolatility Binary64.pow_half Binary64.far_apart)
         = true).
Proof.
  assert (H : (List.length [0.4%float] < 2)%nat) by (simpl; lia).
  split.
  - split; [exact H|].
    exact (proj1 trend_and_volatility Binary64.pow_half [0.4%float] H).
  - split; [exact not_negative_pow_half|].
    destruct (proj1 (proj2 (proj2 trend_and_volatility))
                Binary64.pow_half Binary64.far_apart not_negative_pow_half)
      as [Hnan|Hin]; [|exact Hin].
    vm_compute in Hnan. discriminate Hnan.
Defined.

End TrendAndVolatility.

(** ** The scoring engine *)

Section ScoringProperties.
Import Scoring Scenarios.
Local Open Scope R_scope.

Ltac eval_text :=
  cbv -[Rmult Rplus Rminus Ropp Rdiv Rinv IZR Q2R Rle_dec Rlt_dec Req_dec_T
        Rabs sqrt Rpower Rmin Rmax Math_pow Math_sign].

(** A text whose only anchor is a bullish one of weight 1.5 has base
    score 1, and the multiplier can only keep the final score at 1. *)
Lemma saturated_score text embedding m :
  baseScore text = 1 -> scoreMultiplier text = m -> 1 <= m ->
  calculateSentimentScore text embedding = 1.
Proof.
  intros Hb Hm Hge. unfold calculateSentimentScore. rewrite Hb, Hm.
  unfold emphasisOnlyScore. destruct (Req_dec_T 1 0) as [H|_]; [lra|].
  rewrite Math_sign_pos by lra.
  replace (Rabs (1 * m)) with m by (rewrite Rabs_pos_eq; lra).
  assert (Hp : 1 <= Math_pow m 0.7).
  { unfold Math_pow. destruct (Rlt_dec 0 m); [|lra].
    rewrite <- (Rpower_O m) by lra. apply Rle_Rpower; lra. }
  rewrite Rmax_right by lra. rewrite Rmin_left by lra. reflexivity.
Qed.

Lemma single_bullish_anchor :
  Math_sign ((0 + 1.5 - 0) / Rmax (0 + 1.5 + 0) 1)
  * sqrt (Rabs ((0 + 1.5 - 0) / Rmax (0 + 1.5 + 0) 1)) = 1.
Proof.
  replace ((0 + 1.5 - 0) / Rmax (0 + 1.5 + 0) 1) with 1.
  - rewrite Math_sign_pos, Rabs_R1, sqrt_1 by lra. lra.
  - rewrite Rmax_left by lra. lra.
Qed.

Lemma confidence_of_saturated text embedding :
  calculateSentimentScore text embedding = 1 ->
  confidence (defaultAnalyze text embedding) = calculateEmphasisMultiplier text.
Proof.
  intros Hs. unfold defaultAnalyze. cbn [confidence]. rewrite Hs.
  unfold calculateConfidence. rewrite Rabs_R1, Rmin_left by lra. lra.
Qed.

Lemma thrilled_confidence : confidence (defaultAnalyze thrilled None) = 1.3.
Proof.
  rewrite confidence_of_saturated.
  - eval_text. lra.
  - apply saturated_score with (m := 2.25); [| |lra].
    + eval_text. apply single_bullish_anchor.
    + eval_text. lra.
Qed.

Lemma shout_confidence : confidence (defaultAnalyze shout None) = 2.7.
Proof.
  rewrite confidence_of_saturated.
  - eval_text. lra.
  - apply saturated_score with (m := 10.125); [| |lra].
    + eval_text. apply single_bullish_anchor.
    + eval_text. lra.
Qed.

(** C5 (failing input).  On the first sentence of the integration test, which
    asserts a confidence of at most 1, the default strategy reports 1.3; on
    AMAZING!!! it reports 2.7.  Neither lies in the range of the data
    model. *)
Theorem default_confidence_exceeds_one :
  confidence (defaultAnalyze thrilled None) = 1.3
  /\ confidence (defaultAnalyze shout None) = 2.7
  /\ ~ score_in_range (defaultAnalyze thrilled None)
  /\ ~ score_in_range (defaultAnalyze shout None).
Proof.
  unfold score_in_range. rewrite thrilled_confidence, shout_confidence.
  repeat split; lra.
Qed.

Section Bounds.
Context {UC : UnicodeCase}.

Lemma calculateEmphasisMultiplier_bounds text :
  1 <= calculateEmphasisMultiplier text <= 145.8.
Proof.
  unfold calculateEmphasisMultiplier.
  generalize (match_count RE_rocket text) (match_count RE_diamond text)
             (match_count RE_fire text) (match_count RE_bearish text)
             (List.length (capsWords text)) (repeated4 text)
             (exclamationCount text).
  intros n1 n2 n3 n4 n5 b6 n7.
  destruct (3 <=? n1)%nat, (0 <? n1)%nat, (0 <? n2)%nat, (2 <=? n3)%nat,
    (0 <? n4)%nat, (2 <=? n5)%nat, (n5 =? 1)%nat, b6, (3 <=? n7)%nat,
    (0 <? n7)%nat; cbn [andb]; lra.
Qed.

Lemma calculateSentimentScore_range text embedding :
  -1 <= calculateSentimentScore text embedding <= 1.
Proof.
  unfold calculateSentimentScore, Rmin, Rmax.
  destruct (Rle_dec (-1) _); destruct (Rle_dec 1 _); lra.
Qed.

Lemma calculateConfidence_range s : 0 <= calculateConfidence s <= 1.
Proof.
  unfold calculateConfidence, Rmin. pose proof (Rabs_pos s).
  destruct (Rle_dec (Rabs s) 1); lra.
Qed.

(** What does hold of the default strategy: the score lies in [-1,1], and
    the confidence is the emphasis multiplier times min(|score|, 1), which
    is at least 0 and at most 145.8, the product of the largest
    multipliers. *)
Theorem default_strategy_ranges :
  forall (text : jsstring) (embedding : option Embedding),
    let s := defaultAnalyze text embedding in
    -1 <= score s <= 1
    /\ confidence s = calculateEmphasisMultiplier text * Rmin (Rabs (score s)) 1
    /\ 0 <= confidence s <= 145.8.
Proof.
  intros text embedding s. subst s. unfold defaultAnalyze. cbn [score confidence].
  split; [apply calculateSentimentScore_range|]. split; [reflexivity|].
  pose proof (calculateEmphasisMultiplier_bounds text) as Hm.
  pose proof (calculateConfidence_range (calculateSentimentScore text embedding)) as Hc.
  split; [apply Rmult_le_pos; lra|]. nra.
Qed.

End Bounds.

End ScoringProperties.

(** ** The window manager as a map *)

Section ManagerProperties.
Import Window.

Lemma map_get_In {V} (m : list (jsstring * V)) k v :
  map_get m k = Some v -> In (k, v) m.
Proof.
  induction m as [|[k' v'] m IH]; simpl; [discriminate|].
  destruct (Js.eqb k' k) eqn:E.
  - apply eqb_eq in E. subst. intros [= ->]. now left.
  - intros H. right. auto.
Qed.

Lemma In_map_get {V} (m : list (jsstring * V)) k v :
  NoDup (List.map fst m) -> In (k, v) m -> map_get m k = Some v.
Proof.
  induction m as [|[k' v'] m IH]; simpl; [contradiction|].
  intros Hnd [Heq|Hin].
  - inversion Heq; subst. now rewrite eqb_refl.
  - inversion Hnd as [|? ? Hnot Hnd']; subst.
    destruct (Js.eqb k' k) eqn:E.
    + apply eqb_eq in E. subst. exfalso. apply Hnot.
      change k with (fst (k, v)). now apply in_map.
    + auto.
Qed.

Lemma map_get_None_keys {V} (m : list (jsstring * V)) k :
  map_get m k = None <-> ~ In k (List.map fst m).
Proof.
  induction m as [|[k' v'] m IH]; simpl; [tauto|].
  destruct (Js.eqb k' k) eqn:E.
  - apply eqb_eq in E. subst. split; [discriminate | intros H; exfalso; auto].
  - rewrite IH. split; [|tauto]. intros H [Heq|Hin]; [|tauto].
    subst. now rewrite eqb_refl in E.
Qed.

Lemma map_set_keys {V} (m : list (jsstring * V)) k v :
  List.map fst (map_set m k v)
  = if existsb (Js.eqb k) (List.map fst m) then List.map fst m
    else List.map fst m ++ [k].
Proof.
  induction m as [|[k' v'] m IH]; simpl; [reflexivity|].
  destruct (Js.eqb k' k) eqn:E.
  - apply eqb_eq in E. subst. now rewrite eqb_refl.
  - assert (E' : Js.eqb k k' = false).
    { destruct (Js.eqb k k') eqn:E2; [|reflexivity].
      apply eqb_eq in E2. subst. now rewrite eqb_refl in E. }
    rewrite E'. simpl. rewrite IH. destruct (existsb _ _); reflexivity.
Qed.

Lemma existsb_eqb_In k ks : existsb (Js.eqb k) ks = true <-> In k ks.
Proof.
  rewrite existsb_exists. split.
  - intros (x & Hin & Heq). apply eqb_eq in Heq. now subst.
  - intros Hin. exists k. split; [exact Hin | apply eqb_refl].
Qed.

Lemma eqb_sym (a b : jsstring) : Js.eqb a b = Js.eqb b a.
Proof.
  destruct (Js.eqb a b) eqn:E1, (Js.eqb b a) eqn:E2; try reflexivity.
  - apply eqb_eq in E1. subst. now rewrite eqb_refl in E2.
  - apply eqb_eq in E2. subst. now rewrite eqb_refl in E1.
Qed.

Lemma eqb_neq (a b : jsstring) : Js.eqb a b = false <-> a <> b.
Proof.
  split.
  - intros E ->. now rewrite eqb_refl in E.
  - intros Hne. destruct (Js.eqb a b) eqn:E; [|reflexivity].
    apply eqb_eq in E. contradiction.
Qed.

(** [Map.prototype.set] as a map over the entries, for a key that is
    present. *)
Lemma map_set_present {V} (m : list (jsstring * V)) k v :
  NoDup (List.map fst m) -> In k (List.map fst m) ->
  map_set m k v
  = List.map (fun kv => if Js.eqb (fst kv) k then (fst kv, v) else kv) m.
Proof.
  induction m as [|[k' v'] m IH]; simpl; [contradiction|].
  intros Hnd Hin. inversion Hnd as [|? ? Hnot Hnd']; subst.
  destruct (Js.eqb k' k) eqn:E.
  - apply eqb_eq in E. subst. f_equal.
    rewrite <- (map_id m) at 1. apply map_ext_in. intros [k2 v2] H2. simpl.
    destruct (Js.eqb k2 k) eqn:E2; [|reflexivity].
    apply eqb_eq in E2. subst. exfalso. apply Hnot.
    change k with (fst (k, v2)). now apply in_map.
  - f_equal. apply IH; [exact Hnd'|].
    destruct Hin as [->|Hin]; [now rewrite eqb_refl in E | exact Hin].
Qed.

Lemma map_set_absent {V} (m : list (jsstring * V)) k v :
  ~ In k (List.map fst m) -> map_set m k v = m ++ [(k, v)].
Proof.
  induction m as [|[k' v'] m IH]; simpl; [reflexivity|].
  intros Hnot. destruct (Js.eqb k' k) eqn:E.
  - apply eqb_eq in E. subst. exfalso. auto.
  - f_equal. apply IH. tauto.
Qed.

Lemma map_set_WellKeyed (mgr : Manager) (w : MessageWindow) :
  WellKeyed mgr -> WellKeyed (map_set mgr (windowId w) w).
Proof.
  intros [Hnd Hall]. split.
  - rewrite map_set_keys. destruct (existsb _ _) eqn:E; [exact Hnd|].
    apply NoDup_app; [exact Hnd | constructor; [intros []|constructor] |].
    intros k Hin [<-|[]].
    apply existsb_eqb_In in Hin. congruence.
  - clear Hnd. induction Hall as [|[k' v'] m Hk Hm IH]; simpl.
    + constructor; [reflexivity | constructor].
    + destruct (Js.eqb k' (windowId w)) eqn:E.
      * apply eqb_eq in E. subst. constructor; [reflexivity | assumption].
      * constructor; assumption.
Qed.

Lemma WellKeyed_get (mgr : Manager) k w :
  WellKeyed mgr -> map_get mgr k = Some w -> windowId w = k.
Proof.
  intros [_ Hall] Hget. apply map_get_In in Hget.
  rewrite Forall_forall in Hall. exact (Hall _ Hget).
Qed.

Lemma getReadyWindows_snd now mgr :
  snd (getReadyWindows now mgr)
  = List.map (fun kw => (fst kw, sweep now (snd kw))) mgr.
Proof.
  induction mgr as [|[id w] rest IH]; simpl; [reflexivity|].
  destruct (getReadyWindows now rest) as [ready rest']. simpl in IH.
  unfold sweep. simpl.
  destruct (status w); [destruct (isReady now w)|..]; simpl; now rewrite IH.
Qed.

Lemma getReadyWindows_fst now mgr :
  fst (getReadyWindows now mgr)
  = flat_map (fun kw => match status (snd kw) with
                        | collecting => if isReady now (snd kw)
                                        then [set_status (snd kw) processing]
                                        else []
                        | _ => []
                        end) mgr.
Proof.
  induction mgr as [|[id w] rest IH]; simpl; [reflexivity|].
  destruct (getReadyWindows now rest) as [ready rest']. simpl in IH.
  destruct (status w); [destruct (isReady now w)|..]; simpl; now rewrite IH.
Qed.

Lemma getReadyWindows_WellKeyed now mgr :
  WellKeyed mgr -> WellKeyed (snd (getReadyWindows now mgr)).
Proof.
  intros [Hnd Hall]. rewrite getReadyWindows_snd. split.
  - rewrite map_map. simpl. exact Hnd.
  - apply Forall_map. eapply Forall_impl; [|exact Hall].
    intros [k w] H. simpl in *. unfold sweep.
    destruct (status w); [destruct (isReady now w)|..]; exact H.
Qed.

Lemma markWindowComplete_map id mgr :
  NoDup (List.map fst mgr) ->
  markWindowComplete id mgr
  = List.map (fun kw => if Js.eqb (fst kw) id
                        then (fst kw, set_status (snd kw) completed) else kw) mgr.
Proof.
  intros Hnd. unfold markWindowComplete.
  destruct (map_get mgr id) as [w|] eqn:Hget.
  - rewrite map_set_present;
      [|exact Hnd | change id with (fst (id, w)); apply in_map; now apply map_get_In].
    apply map_ext_in. intros [k v] Hin. simpl.
    destruct (Js.eqb k id) eqn:E; [|reflexivity].
    apply eqb_eq in E. subst.
    rewrite (@In_map_get _ mgr id v Hnd Hin) in Hget. now inversion Hget.
  - rewrite <- (map_id mgr) at 1. apply map_ext_in. intros [k v] Hin. simpl.
    destruct (Js.eqb k id) eqn:E; [|reflexivity].
    apply eqb_eq in E. subst. apply map_get_None_keys in Hget.
    exfalso. apply Hget. change id with (fst (id, v)). now apply in_map.
Qed.

Lemma markWindowComplete_WellKeyed id mgr :
  WellKeyed mgr -> WellKeyed (markWindowComplete id mgr).
Proof.
  intros [Hnd Hall]. rewrite markWindowComplete_map by exact Hnd. split.
  - rewrite map_map.
    replace (List.map _ mgr) with (List.map fst mgr); [exact Hnd|].
    apply map_ext. intros [k v]. simpl. now destruct (Js.eqb k id).
  - apply Forall_map. eapply Forall_impl; [|exact Hall].
    intros [k w] H. simpl in *. now destruct (Js.eqb k id).
Qed.

Lemma NoDup_map_filter {A B} (f : A -> B) (p : A -> bool) xs :
  NoDup (List.map f xs) -> NoDup (List.map f (filter p xs)).
Proof.
  induction xs as [|x xs IH]; simpl; [auto|].
  intros Hnd. inversion Hnd as [|? ? Hnot Hnd']; subst.
  destruct (p x); simpl; [|auto].
  constructor; [|auto]. intros Hin. apply Hnot.
  apply in_map_iff in Hin as (y & Hy & Hin). apply filter_In in Hin as [Hin _].
  rewrite <- Hy. now apply in_map.
Qed.

Lemma cleanup_WellKeyed now mgr : WellKeyed mgr -> WellKeyed (cleanup now mgr).
Proof.
  intros [Hnd Hall]. split.
  - now apply NoDup_map_filter.
  - unfold cleanup. rewrite Forall_forall in *. intros kw Hin.
    apply filter_In in Hin as [Hin _]. auto.
Qed.

Lemma addMessage_WellKeyed now message mgr :
  WellKeyed mgr -> WellKeyed (snd (addMessage now message mgr)).
Proof.
  intros Hwk. unfold addMessage.
  set (id := getWindowId (in_chatId message) now).
  destruct (map_get mgr id) as [w|] eqn:Hget.
  - pose proof (@WellKeyed_get mgr id w Hwk Hget) as Hid.
    destruct (status w); simpl.
    + rewrite <- Hid.
      change (windowId w) with (windowId (push_message w (entry_of message now))) at 1.
      now apply map_set_WellKeyed.
    + match goal with |- WellKeyed (map_set _ _ ?nw) =>
        change (id ++ lit "_overflow") with (windowId nw) end.
      now apply map_set_WellKeyed.
    + match goal with |- WellKeyed (map_set _ _ ?nw) =>
        change (id ++ lit "_overflow") with (windowId nw) end.
      now apply map_set_WellKeyed.
  - simpl.
    match goal with |- WellKeyed (map_set (map_set ?m _ ?w0) _ ?w1) =>
      exact (@map_set_WellKeyed (map_set m (windowId w0) w0) w1
               (@map_set_WellKeyed m w0 Hwk))
    end.
Qed.

Lemma fold_markWindowComplete_WellKeyed (p : MessageWindow -> bool) ready mgr :
  WellKeyed mgr ->
  WellKeyed (fold_left (fun m w => if p w then markWindowComplete (windowId w) m else m)
                       ready mgr).
Proof.
  revert mgr. induction ready as [|x ready IH]; intros mgr Hwk; simpl; [exact Hwk|].
  apply IH. destruct (p x); [now apply markWindowComplete_WellKeyed | exact Hwk].
Qed.

Ltac concrete_WellKeyed :=
  split; [vm_compute; repeat constructor; simpl; intuition discriminate
         | repeat constructor].

(** X1. The map activeWindows stays well keyed, that is, its keys are
    distinct and every window is stored under its own windowId: the
    empty map of a new manager is well keyed, and addMessage,
    getReadyWindows, markWindowComplete, cleanup and processReadyWindows
    keep a well-keyed map well keyed. *)
Theorem manager_stays_well_keyed :
  WellKeyed []
  /\ forall mgr, WellKeyed mgr ->
       (forall now message, WellKeyed (snd (addMessage now message mgr)))
       /\ (forall now, WellKeyed (snd (getReadyWindows now mgr)))
       /\ (forall id, WellKeyed (markWindowComplete id mgr))
       /\ (forall now, WellKeyed (cleanup now mgr))
       /\ (forall processor now, WellKeyed (processReadyWindows processor now mgr)).
Proof.
  split; [split; constructor|].
  intros mgr Hwk. split; [|split; [|split; [|split]]].
  - intros. now apply addMessage_WellKeyed.
  - intros. now apply getReadyWindows_WellKeyed.
  - intros. now apply markWindowComplete_WellKeyed.
  - intros. now apply cleanup_WellKeyed.
  - intros [p|] now; simpl; [|exact Hwk].
    destruct (getReadyWindows now mgr) as [ready mgr1] eqn:E.
    apply fold_markWindowComplete_WellKeyed.
    change mgr1 with (snd (ready, mgr1)). rewrite <- E.
    now apply getReadyWindows_WellKeyed.
Qed.

Lemma manager_stays_well_keyed_witness :
  WellKeyed []
  /\ WellKeyed (snd (addMessage 1000 (burst_message 1) []))
  /\ WellKeyed (cleanup 70000 burst_filled).
Proof.
  destruct manager_stays_well_keyed as [H0 H].
  assert (H1 : WellKeyed burst_filled) by concrete_WellKeyed.
  split; [exact H0|]. split.
  - exact (proj1 (H [] H0) 1000%Z (burst_message 1)).
  - exact (proj1 (proj2 (proj2 (proj2 (H burst_filled H1)))) 70000%Z).
Defined.

(** X2. On a well-keyed map, addMessage returns a collecting window that is
    afterwards found under its own id, and changes the entry of no other
    id. The window is the bucket window with the message appended when
    that window is collecting, a new bucket window holding the message
    when the bucket has none, and a new window under the bucket id
    followed by _overflow, holding only the message, when the bucket
    window is processing or completed. *)
Theorem addMessage_places_message :
  forall (now : Z) (message : MessageInput) (mgr : Manager),
    WellKeyed mgr ->
    let id := getWindowId (in_chatId message) now in
    let entry := entry_of message now in
    let w' := fst (addMessage now message mgr) in
    let mgr' := snd (addMessage now message mgr) in
    status w' = collecting
    /\ map_get mgr' (windowId w') = Some w'
    /\ (forall k, k <> windowId w' -> map_get mgr' k = map_get mgr k)
    /\ match map_get mgr id with
       | None =>
           w' = {| windowId := id; startTime := now;
                   endTime := (now + 30000)%Z; chatId := in_chatId message;
                   messages := [entry]; status := collecting |}
       | Some w =>
           match status w with
           | collecting => w' = push_message w entry
           | _ =>
               w' = {| windowId := id ++ lit "_overflow"; startTime := now;
                       endTime := (now + 30000)%Z; chatId := in_chatId message;
                       messages := [entry]; status := collecting |}
           end
       end.
Proof.
  intros now message mgr Hwk id entry w' mgr'.
  subst w' mgr'. unfold addMessage. fold id. fold entry.
  destruct (map_get mgr id) as [w|] eqn:Hget.
  - pose proof (@WellKeyed_get mgr id w Hwk Hget) as Hid.
    destruct (status w) eqn:Hs; cbn [fst snd status windowId push_message].
    + rewrite Hid. split; [exact Hs|]. split; [apply map_get_set_same|].
      split; [|reflexivity].
      intros k Hk. apply map_get_set_other. apply eqb_neq. congruence.
    + split; [reflexivity|]. split; [apply map_get_set_same|].
      split; [|reflexivity].
      intros k Hk. apply map_get_set_other. apply eqb_neq. congruence.
    + split; [reflexivity|]. split; [apply map_get_set_same|].
      split; [|reflexivity].
      intros k Hk. apply map_get_set_other. apply eqb_neq. congruence.
  - cbn [fst snd status windowId push_message messages app startTime endTime chatId].
    split; [reflexivity|]. split; [apply map_get_set_same|].
    split; [|reflexivity].
    intros k Hk. rewrite !map_get_set_other by (apply eqb_neq; congruence).
    reflexivity.
Qed.

Lemma addMessage_places_message_witness :
  WellKeyed burst_swept
  /\ status (fst burst_sixth) = collecting
  /\ map_get (snd burst_sixth) (lit "chat_0_overflow") = Some (fst burst_sixth).
Proof.
  assert (H : WellKeyed burst_swept) by concrete_WellKeyed.
  destruct (@addMessage_places_message 1001 (burst_message 6) burst_swept H)
    as (H1 & H2 & _).
  split; [exact H|]. split; [exact H1 | exact H2].
Defined.

Lemma fold_markWindowComplete_map (p : MessageWindow -> bool) ready mgr :
  NoDup (List.map fst mgr) ->
  fold_left (fun m w => if p w then markWindowComplete (windowId w) m else m)
            ready mgr
  = List.map (fun kw =>
                if existsb (fun x => p x && Js.eqb (fst kw) (windowId x)) ready
                then (fst kw, set_status (snd kw) completed) else kw) mgr.
Proof.
  revert mgr. induction ready as [|x ready IH]; intros mgr Hnd; simpl.
  - symmetry. apply map_id.
  - destruct (p x) eqn:Hp; simpl.
    + rewrite IH, markWindowComplete_map by
        (try rewrite markWindowComplete_map by exact Hnd;
         try rewrite map_map;
         try (erewrite map_ext; [exact Hnd|];
              intros [k v]; simpl; now destruct (Js.eqb k (windowId x)));
         exact Hnd).
      rewrite map_map. apply map_ext. intros [k v]. simpl.
      destruct (Js.eqb k (windowId x)); simpl;
        destruct (existsb _ ready); reflexivity.
    + now apply IH.
Qed.

(** [processReadyWindows] in closed form. *)
Lemma processReadyWindows_map :
  forall (p : MessageWindow -> bool) (now : Z) (mgr : Manager),
    WellKeyed mgr ->
    processReadyWindows (Some p) now mgr
    = List.map (fun kw =>
                  let w := snd kw in
                  (fst kw,
                   match status w with
                   | collecting =>
                       if isReady now w then
                         if p (set_status w processing)
                         then set_status w completed
                         else set_status w processing
                       else w
                   | _ => w
                   end)) mgr.
Proof.
  intros p now mgr [Hnd Hall]. unfold processReadyWindows.
  destruct (getReadyWindows now mgr) as [ready mgr1] eqn:E.
  assert (Hready : ready = fst (getReadyWindows now mgr)) by now rewrite E.
  assert (Hmgr1 : mgr1 = snd (getReadyWindows now mgr)) by now rewrite E.
  rewrite getReadyWindows_fst in Hready. rewrite getReadyWindows_snd in Hmgr1.
  rewrite fold_markWindowComplete_map
    by (rewrite Hmgr1, map_map; exact Hnd).
  rewrite Hmgr1, map_map. apply map_ext_in. intros [k w] Hin. cbn [fst snd].
  assert (Hex : existsb (fun x => p x && Js.eqb k (windowId x)) ready
                = match status w with
                  | collecting => isReady now w && p (set_status w processing)
                  | _ => false
                  end).
  { rewrite Hready. rewrite Forall_forall in Hall.
    apply eq_true_iff_eq. rewrite existsb_exists. split.
    - intros (x & Hx & Hpx). apply in_flat_map in Hx as ([k2 w2] & Hin2 & Hx).
      cbn [snd] in Hx. apply andb_true_iff in Hpx as [Hpx Hk].
      apply eqb_eq in Hk.
      destruct (status w2) eqn:Hs2; try contradiction.
      destruct (isReady now w2) eqn:Hr2; try contradiction.
      destruct Hx as [<-|[]]. cbn [windowId set_status] in Hk.
      pose proof (Hall _ Hin2) as Hk2. cbn [fst snd] in Hk2.
      assert (Hkk : k2 = k) by congruence. rewrite Hkk in Hin2.
      assert (w2 = w).
      { pose proof (@In_map_get _ mgr k w2 Hnd Hin2) as H1.
        pose proof (@In_map_get _ mgr k w Hnd Hin) as H2. congruence. }
      subst w2. now rewrite Hs2, Hr2, Hpx.
    - destruct (status w) eqn:Hs; try discriminate.
      intros H. apply andb_true_iff in H as [Hr Hp].
      exists (set_status w processing). split.
      + apply in_flat_map. exists (k, w). split; [exact Hin|].
        cbn [snd]. rewrite Hs, Hr. now left.
      + rewrite Hp. cbn [windowId set_status andb].
        pose proof (Hall _ Hin) as Hk. cbn [fst snd] in Hk. rewrite Hk.
        apply eqb_refl. }
  rewrite Hex. unfold sweep.
  destruct (status w) eqn:Hs; try reflexivity.
  destruct (isReady now w); cbn [andb]; [|reflexivity].
  destruct (p (set_status w processing)); reflexivity.
Qed.

Lemma map_get_map_values {V W} (g : jsstring * V -> W) (m : list (jsstring * V)) k :
  map_get (List.map (fun kv => (fst kv, g kv)) m) k
  = match map_get m k with
    | Some v => Some (g (k, v))
    | None => None
    end.
Proof.
  induction m as [|[k' v'] m IH]; simpl; [reflexivity|].
  destruct (Js.eqb k' k) eqn:E; [|exact IH].
  apply eqb_eq in E. now subst.
Qed.

(** X3. One pass of processReadyWindows with a handler keeps the keys of the
    map and their order. A collecting window that is ready ends
    completed when the handler resolved on it and stays processing when
    the handler rejected; every other window is left as it was. *)
Theorem processReadyWindows_outcome :
  forall (p : MessageWindow -> bool) (now : Z) (mgr : Manager)
         (id : jsstring) (w : MessageWindow),
    WellKeyed mgr ->
    map_get mgr id = Some w ->
    List.map fst (processReadyWindows (Some p) now mgr) = List.map fst mgr
    /\ map_get (processReadyWindows (Some p) now mgr) id
       = Some match status w with
              | collecting =>
                  if isReady now w then
                    if p (set_status w processing)
                    then set_status w completed
                    else set_status w processing
                  else w
              | _ => w
              end.
Proof.
  intros p now mgr id w Hwk Hget.
  rewrite processReadyWindows_map by exact Hwk. split.
  - rewrite map_map. reflexivity.
  - rewrite (map_get_map_values
               (fun kw => match status (snd kw) with
                          | collecting =>
                              if isReady now (snd kw) then
                                if p (set_status (snd kw) processing)
                                then set_status (snd kw) completed
                                else set_status (snd kw) processing
                              else snd kw
                          | _ => snd kw
                          end)).
    now rewrite Hget.
Qed.

Lemma processReadyWindows_outcome_witness :
  WellKeyed burst_filled
  /\ map_get burst_filled (lit "chat_0") = Some burst_window
  /\ map_get (processReadyWindows (Some (fun _ => false)) 1000 burst_filled)
             (lit "chat_0")
     = Some (set_status burst_window processing).
Proof.
  assert (H1 : WellKeyed burst_filled) by concrete_WellKeyed.
  assert (H2 : map_get burst_filled (lit "chat_0") = Some burst_window)
    by reflexivity.
  split; [exact H1|]. split; [exact H2|].
  exact (proj2 (@processReadyWindows_outcome (fun _ => false) 1000 burst_filled
                  (lit "chat_0") burst_window H1 H2)).
Defined.

(** X4. A window that getReadyWindows hands out directly after one pass of
    processReadyWindows was collecting and not yet ready at the time of
    that pass.  So the sweep that follows a pass hands out none of the
    windows the pass gave to the handler, whether the handler resolved or
    rejected. *)
Theorem window_is_handed_out_once :
  forall (p : MessageWindow -> bool) (now later : Z)
         (mgr : Manager) (x : MessageWindow),
    WellKeyed mgr ->
    In x (fst (getReadyWindows later (processReadyWindows (Some p) now mgr))) ->
    exists id w,
      In (id, w) mgr /\ status w = collecting
      /\ isReady now w = false /\ isReady later w = true
      /\ x = set_status w processing.
Proof.
  intros p now later mgr x Hwk Hin.
  rewrite processReadyWindows_map in Hin by exact Hwk.
  apply getReadyWindows_In in Hin as (id & w' & Hin & Hs & Hr & ->).
  apply in_map_iff in Hin as ([k w] & Heq & Hin). cbn [fst snd] in Heq.
  inversion Heq; subst; clear Heq.
  exists id, w. split; [exact Hin|].
  destruct (status w) eqn:Hsw.
  - destruct (isReady now w) eqn:Hrw.
    + destruct (p (set_status w processing)); discriminate Hs.
    + auto.
  - congruence.
  - congruence.
Qed.

Lemma window_is_handed_out_once_witness :
  WellKeyed two_messages
  /\ In (set_status two_messages_window processing)
        (fst (getReadyWindows 31000
                (processReadyWindows (Some (fun _ => true)) 1000 two_messages)))
  /\ exists id w,
       In (id, w) two_messages /\ status w = collecting
       /\ isReady 1000 w = false /\ isReady 31000 w = true
       /\ set_status two_messages_window processing = set_status w processing.
Proof.
  assert (H1 : WellKeyed two_messages) by concrete_WellKeyed.
  assert (H2 : In (set_status two_messages_window processing)
                  (fst (getReadyWindows 31000
                          (processReadyWindows (Some (fun _ => true)) 1000
                                               two_messages))))
    by (vm_compute; left; reflexivity).
  split; [exact H1|]. split; [exact H2|].
  exact (@window_is_handed_out_once (fun _ => true) 1000 31000 two_messages
           (set_status two_messages_window processing) H1 H2).
Defined.

Lemma lit_inj (s t : string) : lit s = lit t -> s = t.
Proof.
  unfold lit. intros H.
  rewrite <- (string_of_list_ascii_of_string s), <- (string_of_list_ascii_of_string t).
  f_equal. revert H.
  generalize (list_ascii_of_string s) (list_ascii_of_string t).
  induction l as [|a l IH]; intros [|b l']; simpl; intros H; try discriminate; auto.
  inversion H as [[Hab Hl]]. f_equal; [|now apply IH].
  rewrite <- (ascii_N_embedding a), <- (ascii_N_embedding b). now rewrite Hab.
Qed.

Lemma to_int_not_nil (z : Z) :
  Z.to_int z <> Decimal.Pos Decimal.Nil /\ Z.to_int z <> Decimal.Neg Decimal.Nil.
Proof.
  split; intros H; pose proof (DecimalZ.of_to z) as Hz; rewrite H in Hz;
    simpl in Hz; subst z; discriminate H.
Qed.

Lemma ofZ_inj (a b : Z) : ofZ a = ofZ b -> a = b.
Proof.
  unfold ofZ. intros H. apply lit_inj in H.
  apply DecimalZ.to_int_inj.
  destruct (to_int_not_nil a) as [Ha1 Ha2], (to_int_not_nil b) as [Hb1 Hb2].
  pose proof (NilZero.isi (Z.to_int a) Ha1 Ha2) as Ia.
  pose proof (NilZero.isi (Z.to_int b) Hb1 Hb2) as Ib.
  rewrite H in Ia. congruence.
Qed.

(** X5. For clock readings from 0 on, getWindowId gives two messages of a
    chat the same window id exactly when the readings lie in the same
    30-second interval of the clock (equal quotients by 30000). *)
Theorem getWindowId_buckets :
  forall (chat : jsstring) (t1 t2 : Z),
    (0 <= t1)%Z -> (0 <= t2)%Z ->
    (getWindowId chat t1 = getWindowId chat t2 <-> (t1 / 30000 = t2 / 30000)%Z).
Proof.
  intros chat t1 t2 H1 H2. unfold getWindowId, WINDOW_SIZE_MS.
  rewrite !Z.rem_mod_nonneg by lia.
  split.
  - intros H. apply app_inv_head in H. apply app_inv_head in H.
    apply ofZ_inj in H.
    pose proof (Z.div_mod t1 30000). pose proof (Z.div_mod t2 30000). lia.
  - intros H. do 3 f_equal.
    pose proof (Z.div_mod t1 30000). pose proof (Z.div_mod t2 30000). lia.
Qed.

Lemma getWindowId_buckets_witness :
  (0 <= 1000)%Z /\ (0 <= 29999)%Z
  /\ getWindowId (lit "chat") 1000 = getWindowId (lit "chat") 29999
  /\ getWindowId (lit "chat") 29999 <> getWindowId (lit "chat") 30000.
Proof.
  assert (H1 : (0 <= 1000)%Z) by lia.
  assert (H2 : (0 <= 29999)%Z) by lia.
  assert (H3 : (0 <= 30000)%Z) by lia.
  split; [exact H1|]. split; [exact H2|]. split.
  - apply (proj2 (@getWindowId_buckets (lit "chat") 1000 29999 H1 H2)). reflexivity.
  - intros H. apply (proj1 (@getWindowId_buckets (lit "chat") 29999 30000 H2 H3)) in H.
    discriminate H.
Defined.

End ManagerProperties.

(** ** Analysis, initialisation and the queued cache writes *)

Section AnalysisProperties.
Import Scoring Aggregator Cache Service Scenarios.

(** X6. attemptRecovery makes no attempt for an error that shouldRetry
    refuses, and none for a retryable error whose maxAttempts is 0 or
    less: the operation is not run and the world is unchanged, and the
    result has success = false and carries the error, with status
    no_retry in the first case and status unknown in the second. *)
Theorem attemptRecovery_without_attempt :
  forall (A : Type) (svc : jsstring) (err : SentimentError) (operation : M A)
         (w : World),
    let outcome (status : jsstring) :=
      (inr {| success := false; error := Some (thrown err);
              metadata :=
                Some [ (lit "timestamp", MNum (clock w));
                       (lit "service", MStr svc);
                       (lit "operation", MStr (ErrorCode_value (code (fst err))));
                       (lit "status", MStr status);
                       (lit "severity",
                        MStr (ErrorSeverity_value (severity (fst err)))) ] |}, w) in
    (shouldRetry err = false ->
     attemptRecovery svc err operation w = outcome (lit "no_retry"))
    /\ (forall opts,
           retryable (fst err) = true ->
           retryOptions (fst err) = Some opts ->
           (maxAttempts opts <= 0)%Z ->
           attemptRecovery svc err operation w = outcome (lit "unknown")).
Proof.
  intros A svc err op w outcome. subst outcome. cbv beta. split.
  - intros H. unfold attemptRecovery. rewrite H. reflexivity.
  - intros opts Hr Ho Hm. unfold attemptRecovery, shouldRetry. rewrite Hr, Ho.
    cbn [andb negb]. replace (Z.to_nat (maxAttempts opts)) with 0%nat by lia.
    reflexivity.
Qed.

Lemma attemptRecovery_without_attempt_witness :
  shouldRetry not_retryable = false
  /\ fst (attemptRecovery RECOVERY_SERVICE not_retryable
            (generateEmbedding greeting) world_failing)
     = inr {| success := false; error := Some (thrown not_retryable);
              metadata :=
                Some [ (lit "timestamp", MNum 1708430400000);
                       (lit "service", MStr (lit "SentimentAnalysis"));
                       (lit "operation", MStr (lit "ANALYSIS_ERROR"));
                       (lit "status", MStr (lit "no_retry"));
                       (lit "severity", MStr (lit "CRITICAL")) ] |}
  /\ (maxAttempts {| maxAttempts := 0; backoffMs := 1000 |} <= 0)%Z
  /\ snd (attemptRecovery RECOVERY_SERVICE no_budget
            (generateEmbedding greeting) world_failing) = world_failing.
Proof.
  assert (H1 : shouldRetry not_retryable = false) by reflexivity.
  assert (H2 : (maxAttempts {| maxAttempts := 0; backoffMs := 1000 |} <= 0)%Z)
    by (simpl; lia).
  split; [exact H1|]. split.
  - rewrite (proj1 (attemptRecovery_without_attempt RECOVERY_SERVICE not_retryable
                      (generateEmbedding greeting) world_failing) H1).
    reflexivity.
  - split; [exact H2|].
    rewrite (proj2 (attemptRecovery_without_attempt RECOVERY_SERVICE no_budget
                      (generateEmbedding greeting) world_failing)
               _ eq_refl eq_refl H2).
    reflexivity.
Defined.

Lemma generateEmbeddingWithRetry_first_try text w emb :
  embeddingService w (clock w) (embeddingCalls w) text = inr emb ->
  generateEmbeddingWithRetry text w
  = (inr (Some (Float32Array emb)), after_embedding text w).
Proof.
  intros H. unfold generateEmbeddingWithRetry, try_catch, bind, generateEmbedding.
  rewrite H. reflexivity.
Qed.

Lemma queryVectorStoreWithRetry_first_try params w r :
  vectorStore w (clock w) (vectorCalls w) params = inr r ->
  queryVectorStoreWithRetry params w = (inr (Some r), after_query params w).
Proof.
  intros H. unfold queryVectorStoreWithRetry, try_catch, bind, vectorQuery.
  rewrite H. reflexivity.
Qed.

Lemma analysis_inv text context startTime w result w' :
  initialized (service w) = true ->
  analysis text context startTime w = (inr result, w') ->
  exists emb sc similar,
    embeddingService w (clock w) (embeddingCalls w) text = inr emb
    /\ currentStrategy (service w) text (Some (Float32Array emb)) = inr sc
    /\ vectorStore w (clock w) (vectorCalls w)
         {| vector := Float32Array emb; topK := 5; includeMetadata := true |}
       = inr similar
    /\ result = analysis_result sc similar
    /\ embeddingCalls w' = S (embeddingCalls w)
    /\ vectorCalls w' = S (vectorCalls w)
    /\ clock w' = clock w
    /\ service w' = service w
    /\ db w' = db w
    /\ sleeps_of (trace w') = sleeps_of (trace w)
    /\ notified (trace w') = notified (trace w)
    /\ embedded_texts (trace w') = embedded_texts (trace w) ++ [text]
    /\ pending w'
       = pending w
         ++ [ {| cd_messageHash := sha256 w text;
                 cd_embedding := Float32Array emb;
                 cd_sentiment := score sc;
                 cd_confidence := confidence sc;
                 cd_context := CtxMatches (matches similar);
                 cd_userId := ctx_userId context;
                 cd_roomId := ctx_roomId context;
                 cd_senderName := stored_senderName context |} ]
    /\ In (EvVectorQuery {| vector := Float32Array emb; topK := 5;
                            includeMetadata := true |}) (trace w').
Proof.
  intros Hinit. unfold analysis.
  unfold bind at 1, get at 1. rewrite Hinit. cbn [negb].
  unfold bind at 1, ret at 1. unfold bind at 1, date_now at 1.
  unfold bind at 1.
  destruct (embeddingService w (clock w) (embeddingCalls w) text) as [e|emb] eqn:He.
  - (* the first call failed: the embedding is undefined, if anything *)
    destruct (generateEmbeddingWithRetry text w) as [[e'|r] w1] eqn:G;
      [discriminate|].
    rewrite (@generateEmbeddingWithRetry_recovered text w e He r w1 G).
    unfold bind at 1, date_now at 1. unfold bind at 1, emit at 1, modify at 1.
    unfold bind at 1, get at 1.
    match goal with |- context [currentStrategy ?s text None] =>
      destruct (currentStrategy s text None) as [e2|sc] end;
      [discriminate|].
    unfold bind at 1, date_now at 1. unfold bind at 1, Array_from at 1, throw.
    discriminate.
  - rewrite (@generateEmbeddingWithRetry_first_try text w emb He).
    unfold bind at 1, date_now at 1. unfold bind at 1, emit at 1, modify at 1.
    unfold bind at 1, get at 1.
    cbn [service with_trace after_embedding with_embeddingCalls].
    destruct (currentStrategy (service w) text (Some (Float32Array emb)))
      as [e2|sc] eqn:Hs; [discriminate|].
    unfold bind at 1, date_now at 1. unfold bind at 1, Array_from at 1, ret at 1.
    unfold bind at 1.
    match goal with |- context [queryVectorStoreWithRetry ?p ?w0] =>
      set (params := p); set (w2 := w0) end.
    destruct (vectorStore w (clock w) (vectorCalls w) params) as [e3|similar] eqn:Hv.
    + assert (Hv2 : vectorStore w2 (clock w2) (vectorCalls w2) params = inl e3)
        by exact Hv.
      destruct (queryVectorStoreWithRetry params w2) as [[e'|r] w3] eqn:Q;
        [discriminate|].
      rewrite (@queryVectorStoreWithRetry_recovered params w2 e3 Hv2 r w3 Q).
      unfold bind at 1, date_now at 1. unfold bind at 1, emit at 1, modify at 1.
      unfold bind at 1, date_now at 1. unfold bind at 1, hashMessage at 1.
      unfold bind at 1, get at 1. unfold ret at 1.
      unfold bind at 1, Array_from at 1, ret at 1.
      unfold bind at 1, matches_of at 1, throw. discriminate.
    + assert (Hv2 : vectorStore w2 (clock w2) (vectorCalls w2) params = inr similar)
        by exact Hv.
      rewrite (@queryVectorStoreWithRetry_first_try params w2 similar Hv2).
      intros H. inversion H; subst; clear H.
      exists emb, sc, similar.
      split; [reflexivity|]. split; [exact Hs|]. split; [exact Hv|].
      split; [reflexivity|].
      cbn. unfold sleeps_of, notified, embedded_texts.
      rewrite !flat_map_app. cbn. rewrite !app_nil_r.
      repeat split; try reflexivity.
      rewrite !in_app_iff. cbn. tauto.
Qed.

Lemma notifyEach_world (os : list Observer) result w :
  exists n,
    snd (notifyEach os result w)
    = with_trace w (trace w ++ List.map (fun o => EvNotify (observerId o) result)
                                        (firstn n os)).
Proof.
  revert w. induction os as [|o os IH]; intros w.
  - exists 0%nat. simpl. rewrite app_nil_r. now destruct w.
  - simpl. unfold bind at 1, emit, modify.
    destruct (onSentimentUpdate o result) as [e|].
    + exists 1%nat. reflexivity.
    + destruct (IH (with_trace w (trace w ++ [EvNotify (observerId o) result])))
        as [n Hn].
      exists (S n). rewrite Hn. simpl. now rewrite <- app_assoc.
Qed.

Lemma sleeps_of_notifications result (os : list Observer) :
  sleeps_of (List.map (fun o => EvNotify (observerId o) result) os) = [].
Proof. induction os; simpl; auto. Qed.

Lemma embedded_texts_notifications result (os : list Observer) :
  embedded_texts (List.map (fun o => EvNotify (observerId o) result) os) = [].
Proof. induction os; simpl; auto. Qed.

Lemma analyzeSentiment_run text context w :
  analyzeSentiment text context w
  = match analysis text context (clock w) w with
    | (inr result, w1) =>
        match notifyEach (observers (service w1)) result w1 with
        | (inr _, w2) => (inr result, w2)
        | (inl e, w2) => analysis_failed (clock w) e w2
        end
    | (inl e, w1) => analysis_failed (clock w) e w1
    end.
Proof.
  unfold analyzeSentiment, bind at 1, date_now, try_catch.
  unfold bind at 1.
  destruct (analysis text context (clock w) w) as [[e|result] w1]; [reflexivity|].
  unfold bind at 1, notifyObservers, bind at 1, get.
  destruct (notifyEach (observers (service w1)) result w1) as [[e|[]] w2];
    reflexivity.
Qed.

(** X7. When analyzeSentiment returns on an initialised service, the
    embedding provider answered the first call for the text; the vector
    store was then asked once, for the five nearest to the provider's
    answer rounded to float32 (it passes through a Float32Array), and
    answered;
    the score is what the current strategy gives for the text and that
    rounded embedding; the context holds calculateTrend,
    calculateVolatility and getDominantCategory of the matches.  Exactly
    one provider call and one query were made, and no sleep. *)
Theorem analyzeSentiment_success :
  forall (text : jsstring) (context : SentimentContext) (w w' : World)
         (result : SentimentAnalysisResult),
    initialized (service w) = true ->
    analyzeSentiment text context w = (inr result, w') ->
    exists emb similar embedded queried,
      let params := {| vector := Float32Array emb; topK := 5;
                       includeMetadata := true |} in
      (clock w <= embedded <= queried)%Z
      /\ embeddingService w embedded (embeddingCalls w) text = inr emb
      /\ vectorStore w queried (vectorCalls w) params = inr similar
      /\ In (EvVectorQuery params) (trace w')
      /\ currentStrategy (service w) text (Some (Float32Array emb))
         = inr (result_score result)
      /\ result_context result
         = {| recentTrend := calculateTrend (List.map match_score (matches similar));
              volatility := calculateVolatility (List.map match_score (matches similar));
              dominantCategory :=
                getDominantCategory (matches similar)
                                    (category (result_score result)) |}
      /\ embeddingCalls w' = S (embeddingCalls w)
      /\ vectorCalls w' = S (vectorCalls w)
      /\ embedded_texts (trace w') = embedded_texts (trace w) ++ [text]
      /\ sleeps_of (trace w') = sleeps_of (trace w).
Proof.
  intros text context w w' result Hinit Hrun.
  rewrite analyzeSentiment_run in Hrun.
  destruct (analysis text context (clock w) w) as [[e|result0] w1] eqn:Han.
  - destruct (@analysis_failed_run SentimentAnalysisResult (clock w) e w1)
      as (w2 & Hf & _). rewrite Hf in Hrun. discriminate.
  - destruct (notifyEach_world (observers (service w1)) result0 w1) as [n Hn].
    destruct (notifyEach (observers (service w1)) result0 w1) as [[e|u] w2] eqn:Hno.
    + destruct (@analysis_failed_run SentimentAnalysisResult (clock w) e w2)
        as (w3 & Hf & _). rewrite Hf in Hrun. discriminate.
    + inversion Hrun; subst result0 w2; clear Hrun.
      destruct (@analysis_inv text context (clock w) w result w1 Hinit Han)
        as (emb & sc & similar & He & Hs & Hv & Hres & Hec & Hvc & Hck & _ & _
            & Hsl & _ & Het & _ & Hq).
      exists emb, similar, (clock w), (clock w). cbv zeta.
      subst result. cbn [result_score result_context analysis_result].
      simpl in Hn. rewrite Hn. cbn [embeddingCalls vectorCalls trace clock with_trace].
      unfold sleeps_of, embedded_texts in *. rewrite !flat_map_app.
      fold (sleeps_of (List.map (fun o => EvNotify (observerId o) (analysis_result sc similar))
                         (firstn n (observers (service w1))))).
      fold (embedded_texts (List.map (fun o => EvNotify (observerId o) (analysis_result sc similar))
                         (firstn n (observers (service w1))))).
      rewrite sleeps_of_notifications, embedded_texts_notifications, !app_nil_r.
      split; [lia|].
      split; [exact He|]. split; [exact Hv|].
      split; [apply in_or_app; left; exact Hq|].
      repeat split; assumption.
Qed.

Lemma analyzeSentiment_success_witness :
  initialized (service world_listening) = true
  /\ exists result w',
       analyzeSentiment greeting caller world_listening = (inr result, w')
       /\ In (EvVectorQuery {| vector := sample_float32; topK := 5;
                               includeMetadata := true |}) (trace w')
       /\ embeddingCalls w' = 1%nat /\ vectorCalls w' = 1%nat
       /\ embedded_texts (trace w') = [greeting]
       /\ sleeps_of (trace w') = [].
Proof.
  assert (Hinit : initialized (service world_listening) = true) by reflexivity.
  assert (Hret : returned (fst (analyzeSentiment greeting caller world_listening))
                 = true) by (vm_compute; reflexivity).
  split; [exact Hinit|].
  destruct (analyzeSentiment greeting caller world_listening)
    as [[e|result] w'] eqn:Hrun; [discriminate Hret|].
  exists result, w'. split; [reflexivity|].
  destruct (@analyzeSentiment_success greeting caller world_listening w' result
              Hinit Hrun)
    as (emb & similar & embedded & queried & _ & He & _ & Hq & _ & _ & Hec & Hvc
        & Het & Hsl).
  assert (Hemb : emb = sample_embedding) by (inversion He; reflexivity).
  subst emb.
  replace (Float32Array sample_embedding) with sample_float32 in Hq
    by (vm_compute; reflexivity).
  repeat split; assumption.
Defined.

(** X8. A successful analyzeSentiment on an initialised service leaves the
    cache table as it is and queues exactly one cache write
    (setImmediate): it is keyed by the hash of the text and carries the
    score and confidence of the result, the userId and roomId of the
    caller, and the sender name, replaced by Unknown when empty. *)
Theorem analyzeSentiment_queues_cache_write :
  forall (text : jsstring) (context : SentimentContext) (w w' : World)
         (result : SentimentAnalysisResult),
    initialized (service w) = true ->
    analyzeSentiment text context w = (inr result, w') ->
    db w' = db w
    /\ exists emb ms,
         pending w'
         = pending w
           ++ [ {| cd_messageHash := sha256 w text;
                   cd_embedding := emb;
                   cd_sentiment := score (result_score result);
                   cd_confidence := confidence (result_score result);
                   cd_context := CtxMatches ms;
                   cd_userId := ctx_userId context;
                   cd_roomId := ctx_roomId context;
                   cd_senderName := match ctx_senderName context with
                                    | [] => lit "Unknown"
                                    | n => n
                                    end |} ].
Proof.
  intros text context w w' result Hinit Hrun.
  rewrite analyzeSentiment_run in Hrun.
  destruct (analysis text context (clock w) w) as [[e|result0] w1] eqn:Han.
  - destruct (@analysis_failed_run SentimentAnalysisResult (clock w) e w1)
      as (w2 & Hf & _). rewrite Hf in Hrun. discriminate.
  - destruct (notifyEach_world (observers (service w1)) result0 w1) as [n Hn].
    destruct (notifyEach (observers (service w1)) result0 w1) as [[e|u] w2] eqn:Hno.
    + destruct (@analysis_failed_run SentimentAnalysisResult (clock w) e w2)
        as (w3 & Hf & _). rewrite Hf in Hrun. discriminate.
    + inversion Hrun; subst result0 w2; clear Hrun.
      destruct (@analysis_inv text context (clock w) w result w1 Hinit Han)
        as (emb & sc & similar & _ & _ & _ & Hres & _ & _ & _ & _ & Hdb
            & _ & _ & _ & Hp & _).
      simpl in Hn. rewrite Hn. cbn [db pending with_trace].
      split; [exact Hdb|]. exists (Float32Array emb), (matches similar).
      subst result. exact Hp.
Qed.

Lemma analyzeSentiment_queues_cache_write_witness :
  initialized (service world_listening) = true
  /\ exists result w',
       analyzeSentiment greeting caller world_listening = (inr result, w')
       /\ db w' = [] /\ List.length (pending w') = 1%nat.
Proof.
  assert (Hinit : initialized (service world_listening) = true) by reflexivity.
  assert (Hret : returned (fst (analyzeSentiment greeting caller world_listening))
                 = true) by (vm_compute; reflexivity).
  split; [exact Hinit|].
  destruct (analyzeSentiment greeting caller world_listening)
    as [[e|result] w'] eqn:Hrun; [discriminate Hret|].
  exists result, w'. split; [reflexivity|].
  destruct (@analyzeSentiment_queues_cache_write greeting caller world_listening
              w' result Hinit Hrun) as (Hdb & emb & ms & Hp).
  split; [exact Hdb|]. rewrite Hp. reflexivity.
Defined.

(** X9. Whatever analyzeSentiment throws, in any state of the service, is an
    AnalysisError with the message Failed to analyze sentiment, made from
    the error that ended the try block: the one the analysis threw, or the
    one an observer threw when notified of the result.  The cause of the
    AnalysisError is that error when it is an Error object and undefined
    when it is any other value. *)
Theorem analyzeSentiment_throws_AnalysisError :
  forall (text : jsstring) (context : SentimentContext) (w w' : World)
         (e : JsError),
    analyzeSentiment text context w = (inl e, w') ->
    exists original,
      ((exists w1, analysis text context (clock w) w = (inl original, w1))
       \/ (exists result w1 w2,
              analysis text context (clock w) w = (inr result, w1)
              /\ notifyEach (observers (service w1)) result w1
                 = (inl original, w2)))
      /\ e = thrown (AnalysisError (lit "Failed to analyze sentiment")
                       (match original with
                        | NonError _ => None
                        | _ => Some original
                        end)).
Proof.
  intros text context w w' e Hrun. rewrite analyzeSentiment_run in Hrun.
  destruct (analysis text context (clock w) w) as [[e0|result0] w1].
  - destruct (@analysis_failed_run SentimentAnalysisResult (clock w) e0 w1)
      as (w2 & Hf & _). rewrite Hf in Hrun. inversion Hrun.
    exists e0. split; [left; exists w1; reflexivity | reflexivity].
  - destruct (notifyEach (observers (service w1)) result0 w1) as [[e0|u] w2] eqn:Hn.
    + destruct (@analysis_failed_run SentimentAnalysisResult (clock w) e0 w2)
        as (w3 & Hf & _). rewrite Hf in Hrun. inversion Hrun.
      exists e0. split; [|reflexivity].
      right. exists result0, w1, w2. split; [reflexivity | exact Hn].
    + discriminate.
Qed.

Lemma analyzeSentiment_throws_AnalysisError_witness :
  exists w',
    analyzeSentiment greeting caller world_observed
    = (inl (thrown (AnalysisError (lit "Failed to analyze sentiment")
                      (Some (PlainError (lit "Error") (lit "observer failed"))))),
       w').
Proof.
  assert (Hret : returned (fst (analyzeSentiment greeting caller world_observed))
                 = false) by (vm_compute; reflexivity).
  assert (Han : returned (fst (analysis greeting caller (clock world_observed)
                                        world_observed)) = true)
    by (vm_compute; reflexivity).
  assert (Hos : observers (service (snd (analysis greeting caller
                                           (clock world_observed) world_observed)))
                = [throwing_observer 1; quiet_observer 2])
    by (vm_compute; reflexivity).
  destruct (analyzeSentiment greeting caller world_observed)
    as [[e|result] w'] eqn:Hrun; [|discriminate Hret].
  exists w'. f_equal.
  destruct (@analyzeSentiment_throws_AnalysisError greeting caller world_observed
              w' e Hrun) as (original & [(w1 & H1) | (result & w1 & w2 & H1 & H2)] & He).
  - rewrite H1 in Han. discriminate Han.
  - rewrite H1 in Hos. cbn [snd] in Hos. rewrite Hos in H2.
    cbn in H2. inversion H2. subst original. rewrite He. reflexivity.
Defined.

Lemma retryLoop_first_success {A} fuel svc err opts (op : M A) c w a w1 :
  (c <= maxAttempts opts)%Z ->
  (sleep (backoffMs opts * 2 ^ (c - 1)) ;;; op) w = (inr a, w1) ->
  retryLoop (S fuel) svc err opts op c w
  = (inr (recovered_result svc err w1 c), w1).
Proof.
  intros Hc Hrun. simpl retryLoop.
  replace (c <=? maxAttempts opts)%Z with true by (symmetry; now apply Z.leb_le).
  unfold bind at 1, attempt at 1. rewrite Hrun. reflexivity.
Qed.

Lemma generateEmbeddingWithRetry_second_try text w e emb :
  embeddingService w (clock w) (embeddingCalls w) text = inl e ->
  embeddingService w (clock w + 500)%Z (S (embeddingCalls w)) text = inr emb ->
  generateEmbeddingWithRetry text w
  = (inr None,
     with_embeddingCalls
       (with_trace
          (with_clock
             (with_trace (after_embedding text w)
                         (trace (after_embedding text w) ++ [EvSleep 500]))
             (clock w + 500)%Z)
          ((trace (after_embedding text w) ++ [EvSleep 500])
           ++ [EvEmbeddingCall text]))
       (S (S (embeddingCalls w)))).
Proof.
  intros He1 He2.
  unfold generateEmbeddingWithRetry, try_catch.
  unfold bind at 1, generateEmbedding at 1. rewrite He1.
  unfold bind at 1. unfold attemptRecovery.
  cbn [shouldRetry EmbeddingError fst retryable retryOptions andb negb].
  match goal with
  | |- context [retryLoop ?n] =>
      let n' := eval compute in n in change n with n'
  end.
  erewrite retryLoop_first_success; [reflexivity | cbn; lia |].
  cbn [backoffMs]. replace (500 * 2 ^ (1 - 1))%Z with 500%Z by reflexivity.
  unfold bind at 1, sleep at 1, modify at 1.
  unfold bind at 1, generateEmbedding at 1.
  cbn [embeddingService clock embeddingCalls with_clock with_trace trace
       with_embeddingCalls].
  rewrite He2. reflexivity.
Qed.

(** X10. On an initialised service, if the embedding provider fails the
    first call for a text and answers the retry 500 ms later, and the
    strategy accepts a missing embedding, then analyzeSentiment throws
    an AnalysisError caused by a TypeError: the text went to the
    provider twice, after one sleep of 500 ms, no vector query is made
    and no cache write is queued. *)
Theorem recovered_embedding_is_lost :
  forall (text : jsstring) (context : SentimentContext) (w : World)
         (e : JsError) (emb : Embedding) (sc : SentimentScore),
    initialized (service w) = true ->
    embeddingService w (clock w) (embeddingCalls w) text = inl e ->
    embeddingService w (clock w + 500)%Z (S (embeddingCalls w)) text = inr emb ->
    currentStrategy (service w) text None = inr sc ->
    exists msg w',
      analyzeSentiment text context w
      = (inl (thrown (AnalysisError (lit "Failed to analyze sentiment")
                        (Some (PlainError (lit "TypeError") msg)))), w')
      /\ sleeps_of (trace w') = sleeps_of (trace w) ++ [500%Z]
      /\ embedded_texts (trace w') = embedded_texts (trace w) ++ [text; text]
      /\ vector_queries (trace w') = vector_queries (trace w)
      /\ pending w' = pending w.
Proof.
  intros text context w e emb sc Hinit He1 He2 Hs.
  rewrite analyzeSentiment_run.
  assert (Han : exists w1,
             analysis text context (clock w) w
             = (inl (PlainError (lit "TypeError") (lit "undefined is not iterable")), w1)
             /\ sleeps_of (trace w1) = sleeps_of (trace w) ++ [500%Z]
             /\ embedded_texts (trace w1) = embedded_texts (trace w) ++ [text; text]
             /\ vector_queries (trace w1) = vector_queries (trace w)
             /\ pending w1 = pending w).
  { unfold analysis.
    unfold bind at 1, get at 1. rewrite Hinit. cbn [negb].
    unfold bind at 1, ret at 1. unfold bind at 1, date_now at 1.
    unfold bind at 1.
    rewrite (generateEmbeddingWithRetry_second_try text w He1 He2).
    unfold bind at 1, date_now at 1. unfold bind at 1, emit at 1, modify at 1.
    unfold bind at 1, get at 1.
    cbn [service with_trace with_embeddingCalls with_clock after_embedding].
    rewrite Hs.
    unfold bind at 1, date_now at 1. unfold bind at 1, Array_from at 1, throw.
    eexists. split; [reflexivity|].
    cbn [trace pending clock with_trace with_clock with_embeddingCalls].
    unfold sleeps_of, embedded_texts, vector_queries.
    repeat (rewrite filter_app || rewrite flat_map_app || rewrite length_app
            || rewrite app_nil_r || rewrite Nat.add_0_r
            || rewrite <- app_assoc || (progress cbn)).
    repeat split; reflexivity. }
  destruct Han as (w1 & Han & Hsl & Het & Hvq & Hp).
  rewrite Han.
  exists (lit "undefined is not iterable").
  unfold analysis_failed, bind, date_now, throw. cbn [message_of].
  replace (includes (lit "undefined is not iterable") (lit "OpenAI")) with false
    by (vm_compute; reflexivity).
  replace (includes (lit "undefined is not iterable") (lit "Pinecone")) with false
    by (vm_compute; reflexivity).
  cbn. eexists. split; [reflexivity|]. tauto.
Qed.

Lemma recovered_embedding_is_lost_witness :
  exists msg w',
    analyzeSentiment greeting caller world_recovering
    = (inl (thrown (AnalysisError (lit "Failed to analyze sentiment")
                      (Some (PlainError (lit "TypeError") msg)))), w')
    /\ sleeps_of (trace w') = [500%Z]
    /\ embedded_texts (trace w') = [greeting; greeting].
Proof.
  destruct (@recovered_embedding_is_lost greeting caller world_recovering
              provider_down sample_embedding
              (defaultAnalyze greeting None) eq_refl eq_refl eq_refl eq_refl)
    as (msg & w' & Hrun & Hsl & Het & _).
  exists msg, w'. split; [exact Hrun|]. split; assumption.
Defined.

Lemma embedded_texts_app a b :
  embedded_texts (a ++ b) = embedded_texts a ++ embedded_texts b.
Proof. apply flat_map_app. Qed.

Lemma embedded_texts_calls words :
  embedded_texts (List.map EvEmbeddingCall words) = words.
Proof. induction words; simpl; [reflexivity | now f_equal]. Qed.

Lemma sleeps_of_calls words : sleeps_of (List.map EvEmbeddingCall words) = [].
Proof. induction words; simpl; auto. Qed.

Lemma map_mapi_from {A B C} (g : B -> C) (f : A -> nat -> B) xs i :
  List.map g (mapi_from i f xs) = mapi_from i (fun x n => g (f x n)) xs.
Proof. revert i. induction xs as [|x xs IH]; intros i; simpl; [|rewrite IH]; reflexivity. Qed.

Lemma mapM_generateEmbeddingWithRetry_healthy
      (answer : nat -> jsstring -> Embedding) (words : list jsstring) :
  forall w,
    (forall t n x, embeddingService w t n x = inr (answer n x)) ->
    exists w',
      mapM generateEmbeddingWithRetry words w
      = (inr (mapi_from (embeddingCalls w)
                (fun word n => Some (Float32Array (answer n word))) words), w')
      /\ embeddingService w' = embeddingService w
      /\ trace w' = trace w ++ List.map EvEmbeddingCall words
      /\ embeddingCalls w' = (embeddingCalls w + List.length words)%nat
      /\ service w' = service w.
Proof.
  induction words as [|x words IH]; intros w Hh.
  - exists w. simpl. rewrite app_nil_r, Nat.add_0_r. repeat split; reflexivity.
  - simpl mapM. unfold bind at 1.
    rewrite (@generateEmbeddingWithRetry_first_try x w _ (Hh _ _ _)).
    destruct (IH (after_embedding x w)) as (w' & Hrun & Hsvc & Htr & Hec & Hs).
    { intros t n y. apply Hh. }
    unfold bind at 1. rewrite Hrun. unfold ret.
    exists w'. split; [reflexivity|].
    simpl. rewrite Hsvc, Htr, Hec, Hs. simpl.
    rewrite <- app_assoc. simpl. repeat split; try reflexivity. lia.
Qed.

Lemma anchors_step (answer : nat -> jsstring -> Embedding) category words w :
  (forall t n x, embeddingService w t n x = inr (answer n x)) ->
  exists w',
    try_catch
      (embeddings <- mapM generateEmbeddingWithRetry words ;;
       modify_service (set_anchors category (List.map Float32Array_of embeddings)))
      (fun error =>
         throw (thrown (InitializationError
                          (lit "Failed to initialize "
                           ++ AnchorCategory_key category ++ lit " anchors")
                          (cause_of error)))) w
    = (inr tt, w')
    /\ embeddingService w' = embeddingService w
    /\ trace w' = trace w ++ List.map EvEmbeddingCall words
    /\ embeddingCalls w' = (embeddingCalls w + List.length words)%nat
    /\ service w'
       = set_anchors category (stored_anchors answer (embeddingCalls w) words)
                     (service w).
Proof.
  intros Hh.
  destruct (@mapM_generateEmbeddingWithRetry_healthy answer words w Hh)
    as (w1 & Hrun & Hsvc & Htr & Hec & Hs).
  unfold try_catch, bind. rewrite Hrun. unfold modify_service, modify.
  eexists. split; [reflexivity|]. simpl.
  rewrite Hs, map_mapi_from. auto.
Qed.

(** X11. If the embedding provider answers every call, initialize on a
    service that is not initialised returns with the service
    initialised, having sent the bullish, bearish and neutral anchor
    terms to the provider in that order, one call per term, 249 calls in
    all and no sleep.  The anchors stored for a category are, term by
    term, the provider's answers to these calls, each rounded to float32
    (it passes through a Float32Array twice).  A second initialize
    changes nothing. *)
Theorem initialize_with_healthy_provider :
  forall (w : World) (answer : nat -> jsstring -> Embedding),
    initialized (service w) = false ->
    (forall t n x, embeddingService w t n x = inr (answer n x)) ->
    exists w',
      initialize w = (inr tt, w')
      /\ initialized (service w') = true
      /\ embedded_texts (trace w')
         = embedded_texts (trace w)
           ++ ANCHORS_bullish ++ ANCHORS_bearish ++ ANCHORS_neutral
      /\ embeddingCalls w' = (embeddingCalls w + 249)%nat
      /\ sleeps_of (trace w') = sleeps_of (trace w)
      /\ anchors_bullish (service w')
         = stored_anchors answer (embeddingCalls w) ANCHORS_bullish
      /\ anchors_bearish (service w')
         = stored_anchors answer
             (embeddingCalls w + List.length ANCHORS_bullish) ANCHORS_bearish
      /\ anchors_neutral (service w')
         = stored_anchors answer
             (embeddingCalls w + List.length ANCHORS_bullish
              + List.length ANCHORS_bearish) ANCHORS_neutral
      /\ initialize w' = (inr tt, w').
Proof.
  intros w answer Hinit Hh.
  destruct (@anchors_step answer bullish ANCHORS_bullish w Hh)
    as (w1 & Hr1 & Hp1 & Ht1 & Hc1 & Hs1).
  assert (Hh1 : forall t n x, embeddingService w1 t n x = inr (answer n x))
    by (intros; rewrite Hp1; apply Hh).
  destruct (@anchors_step answer bearish ANCHORS_bearish w1 Hh1)
    as (w2 & Hr2 & Hp2 & Ht2 & Hc2 & Hs2).
  assert (Hh2 : forall t n x, embeddingService w2 t n x = inr (answer n x))
    by (intros; rewrite Hp2; apply Hh1).
  destruct (@anchors_step answer neutral_anchor ANCHORS_neutral w2 Hh2)
    as (w3 & Hr3 & Hp3 & Ht3 & Hc3 & Hs3).
  assert (Hrun : initializeSentimentAnchors w = (inr tt, w3)).
  { unfold initializeSentimentAnchors, SENTIMENT_ANCHORS. cbn [forM_].
    unfold bind at 1. rewrite Hr1. unfold bind at 1. rewrite Hr2.
    unfold bind at 1. rewrite Hr3. reflexivity. }
  exists (with_service w3 (set_initialized true (service w3))).
  split; [now apply initialize_first_attempt|].
  split; [reflexivity|].
  cbn [trace embeddingCalls service with_service set_initialized
       anchors_bullish anchors_bearish anchors_neutral].
  rewrite Ht3, Ht2, Ht1, Hs3, Hs2, Hs1.
  rewrite !embedded_texts_app, !embedded_texts_calls, !sleeps_of_app,
    !sleeps_of_calls, !app_nil_r, <- !app_assoc.
  cbn [set_anchors anchors_bullish anchors_bearish anchors_neutral].
  split; [reflexivity|]. split.
  { rewrite Hc3, Hc2, Hc1.
    replace 249%nat with (List.length ANCHORS_bullish + List.length ANCHORS_bearish
                          + List.length ANCHORS_neutral)%nat
      by (vm_compute; reflexivity). lia. }
  split; [reflexivity|].
  split; [reflexivity|].
  split; [rewrite Hc1; reflexivity|].
  split; [rewrite Hc2, Hc1; reflexivity|].
  now apply initialize_when_ready.
Qed.

Lemma initialize_with_healthy_provider_witness :
  exists w',
    initialize (new_world (flaky_provider 0) (flaky_store 0) [] (new_service false []))
    = (inr tt, w')
    /\ initialized (service w') = true
    /\ embeddingCalls w' = 249%nat
    /\ hd_error (anchors_bullish (service w')) = Some sample_float32
    /\ List.length (anchors_neutral (service w')) = List.length ANCHORS_neutral.
Proof.
  destruct (@initialize_with_healthy_provider
              (new_world (flaky_provider 0) (flaky_store 0) [] (new_service false []))
              (fun _ _ => sample_embedding) eq_refl
              (fun t n x => eq_refl))
    as (w' & Hrun & Hi & _ & Hc & _ & Hb & _ & Hn & _).
  exists w'. split; [exact Hrun|]. split; [exact Hi|]. split; [exact Hc|].
  rewrite Hb, Hn. split; vm_compute; reflexivity.
Defined.

Lemma existsb_hash rows h :
  existsb (fun r => Js.eqb (row_messageHash r) h) rows = true
  <-> In h (List.map row_messageHash rows).
Proof.
  rewrite existsb_exists, in_map_iff. split.
  - intros (r & Hin & Heq). apply eqb_eq in Heq. eauto.
  - intros (r & Heq & Hin). exists r. split; [exact Hin|].
    rewrite Heq. apply eqb_refl.
Qed.

Lemma run_pending_one_spec d w :
  unique_keys (db w) ->
  exists w',
    run_pending_one d w = (inr tt, w')
    /\ pending w' = pending w
    /\ unique_keys (db w')
    /\ (exists added, db w' = db w ++ added)
    /\ In (cd_messageHash d) (List.map row_messageHash (db w')).
Proof.
  intros Hu. unfold run_pending_one, try_catch, cacheSentiment.
  unfold bind at 1, date_now at 1. unfold bind at 1, get at 1.
  cbn [row_messageHash].
  destruct (existsb _ (db w)) eqn:E.
  - unfold throw, ret. exists w. split; [reflexivity|]. split; [reflexivity|].
    split; [exact Hu|]. split; [exists []; now rewrite app_nil_r|].
    now apply existsb_hash.
  - unfold bind, modify, emit, modify. eexists. split; [reflexivity|].
    cbn [pending db with_db with_trace]. split; [reflexivity|]. split.
    + unfold unique_keys. rewrite map_app. cbn [List.map row_messageHash].
      apply NoDup_app; [exact Hu | constructor; [intros []|constructor] |].
      intros h Hin [<-|[]]. apply existsb_hash in Hin. congruence.
    + split; [eexists; reflexivity|].
      rewrite map_app. apply in_or_app. right. now left.
Qed.

Lemma forM_run_pending_one ds :
  forall w,
    unique_keys (db w) ->
    exists w',
      forM_ ds run_pending_one w = (inr tt, w')
      /\ pending w' = pending w
      /\ unique_keys (db w')
      /\ (exists added, db w' = db w ++ added)
      /\ (forall d, In d ds ->
                    In (cd_messageHash d) (List.map row_messageHash (db w'))).
Proof.
  induction ds as [|d ds IH]; intros w Hu.
  - exists w. simpl. split; [reflexivity|]. split; [reflexivity|].
    split; [exact Hu|]. split; [exists []; now rewrite app_nil_r|]. intros ? [].
  - destruct (@run_pending_one_spec d w Hu) as (w1 & Hr1 & Hp1 & Hu1 & [a1 Ha1] & Hin1).
    destruct (IH w1 Hu1) as (w2 & Hr2 & Hp2 & Hu2 & [a2 Ha2] & Hin2).
    exists w2. simpl forM_. unfold bind. rewrite Hr1, Hr2.
    split; [reflexivity|]. split; [congruence|]. split; [exact Hu2|].
    split; [exists (a1 ++ a2); now rewrite Ha2, Ha1, app_assoc|].
    intros d' [<-|Hd]; [|now apply Hin2].
    rewrite Ha2, map_app. apply in_or_app. now left.
Qed.

(** X13. Running the queued cache writes on a table with distinct message
    hashes never throws and empties the queue; the table keeps distinct
    hashes and only grows at its end, so a row already stored for a hash
    is kept and a later write for the same hash is dropped, and every
    queued hash has a row afterwards. *)
Theorem run_pending_keeps_first :
  forall w : World,
    unique_keys (db w) ->
    exists w',
      run_pending w = (inr tt, w')
      /\ pending w' = []
      /\ unique_keys (db w')
      /\ (exists added, db w' = db w ++ added)
      /\ (forall d, In d (pending w) ->
                    In (cd_messageHash d) (List.map row_messageHash (db w'))).
Proof.
  intros w Hu. unfold run_pending, bind at 1, get at 1.
  unfold bind at 1, modify at 1.
  destruct (@forM_run_pending_one (pending w) (with_pending w []) Hu)
    as (w' & Hrun & Hp & Hu' & Hadd & Hin).
  exists w'. rewrite Hrun. auto.
Qed.

Lemma run_pending_keeps_first_witness :
  unique_keys (db (with_pending world_listening [greeting_data; greeting_data]))
  /\ exists w',
       run_pending (with_pending world_listening [greeting_data; greeting_data])
       = (inr tt, w')
       /\ pending w' = []
       /\ unique_keys (db w')
       /\ In (digest greeting) (List.map row_messageHash (db w')).
Proof.
  assert (Hu : unique_keys
                 (db (with_pending world_listening [greeting_data; greeting_data])))
    by constructor.
  split; [exact Hu|].
  destruct (@run_pending_keeps_first
              (with_pending world_listening [greeting_data; greeting_data]) Hu)
    as (w' & Hrun & Hp & Hu' & _ & Hin).
  exists w'. split; [exact Hrun|]. split; [exact Hp|]. split; [exact Hu'|].
  apply (Hin greeting_data). now left.
Defined.

End AnalysisProperties.

(** ** The direction of the trend *)

Section TrendProperties.
Import Scoring Aggregator.
Local Open Scope R_scope.

Section MoreAggregatorProperties.

Ltac clamp_cases :=
  unfold Rmin, Rmax;
  repeat match goal with
         | |- context [Rle_dec ?a ?b] =>
             lazymatch b with
             | context [Rle_dec] => fail
             | _ => destruct (Rle_dec a b)
             end
         end; lra.

Lemma consecutive_Forall (P : R -> Prop) (f : R -> R -> R) scores :
  (forall i, (S i < List.length scores)%nat ->
             P (f (nth (S i) scores 0) (nth i scores 0))) ->
  Forall P (consecutive f scores).
Proof.
  induction scores as [|a [|b rest] IH]; intros H; try constructor.
  - exact (H 0%nat ltac:(simpl; lia)).
  - apply IH. intros i Hi. apply (H (S i)). simpl in *. lia.
Qed.

Lemma weighted_sum_nonneg (W : nat -> R) xs :
  Forall (fun x => 0 <= x) xs -> (forall k, 0 <= W k) ->
  forall i, 0 <= sum (mapi_from i (fun x k => x * W k) xs).
Proof.
  intros Hxs HW. induction Hxs as [|x xs Hx _ IH]; intros i; simpl.
  - unfold sum. simpl. lra.
  - rewrite sum_cons. specialize (IH (S i)). specialize (HW i). nra.
Qed.

Lemma weighted_sum_nonpos (W : nat -> R) xs :
  Forall (fun x => x <= 0) xs -> (forall k, 0 <= W k) ->
  forall i, sum (mapi_from i (fun x k => x * W k) xs) <= 0.
Proof.
  intros Hxs HW. induction Hxs as [|x xs Hx _ IH]; intros i; simpl.
  - unfold sum. simpl. lra.
  - rewrite sum_cons. specialize (IH (S i)). specialize (HW i). nra.
Qed.

Lemma weighted_sum_pos (W : nat -> R) xs :
  xs <> [] -> Forall (fun x => 0 < x) xs -> (forall k, 0 < W k) ->
  forall i, 0 < sum (mapi_from i (fun x k => x * W k) xs).
Proof.
  intros Hne Hxs HW. induction Hxs as [|x xs Hx Hrest IH]; intros i;
    [congruence|]. simpl. rewrite sum_cons.
  assert (0 < x * W i) by (apply Rmult_lt_0_compat; auto).
  destruct xs as [|y ys].
  - simpl. unfold sum. simpl. lra.
  - specialize (IH ltac:(discriminate) (S i)). lra.
Qed.

Lemma weighted_sum_zero (W : nat -> R) xs :
  Forall (fun x => x = 0) xs ->
  forall i, sum (mapi_from i (fun x k => x * W k) xs) = 0.
Proof.
  intros Hxs. induction Hxs as [|x xs Hx _ IH]; intros i; simpl.
  - unfold sum. reflexivity.
  - rewrite sum_cons, IH, Hx. lra.
Qed.

Lemma Math_sign_nonneg x : 0 <= x -> 0 <= Math_sign x.
Proof. intros H. unfold Math_sign. destruct (Rlt_dec 0 x), (Rlt_dec x 0); lra. Qed.

Lemma Math_sign_nonpos x : x <= 0 -> Math_sign x <= 0.
Proof. intros H. unfold Math_sign. destruct (Rlt_dec 0 x), (Rlt_dec x 0); lra. Qed.

Lemma Math_sign_zero : Math_sign 0 = 0.
Proof. unfold Math_sign. destruct (Rlt_dec 0 0); lra. Qed.

(** X15. calculateTrend follows the direction of the scores: for finite
    scores it is at least 0 when no score is below the one before it, and
    at most 0 when no score is above the one before it; it is above 0 when
    there are two scores or more and each exceeds the one before it by
    0.001 or more; for a constant sequence trend and volatility are both
    0. *)
Theorem trend_follows_direction :
  forall scores : list R,
    ((forall i, (S i < List.length scores)%nat ->
                nth i scores 0 <= nth (S i) scores 0) ->
     0 <= calculateTrend scores)
    /\ ((forall i, (S i < List.length scores)%nat ->
                   nth (S i) scores 0 <= nth i scores 0) ->
        calculateTrend scores <= 0)
    /\ ((2 <= List.length scores)%nat ->
        (forall i, (S i < List.length scores)%nat ->
                   nth i scores 0 + 0.001 <= nth (S i) scores 0) ->
        0 < calculateTrend scores)
    /\ ((forall i, (S i < List.length scores)%nat ->
                   nth i scores 0 = nth (S i) scores 0) ->
        calculateTrend scores = 0 /\ calculateVolatility scores = 0).
Proof.
  intros scores. unfold calculateTrend, calculateVolatility.
  destruct (List.length scores <? 2)%nat eqn:E.
  { apply Nat.ltb_lt in E. split; [intros; lra|]. split; [intros; lra|].
    split; [intros; lia|]. intros; split; reflexivity. }
  apply Nat.ltb_ge in E.
  set (changes := consecutive (fun a b => a - b) scores).
  assert (Hlen : List.length changes = pred (List.length scores))
    by apply consecutive_length.
  assert (Hn : 0 < INR (List.length changes))
    by (apply lt_0_INR; lia).
  assert (Hw3 : forall k, 0 <= Math_pow 3 (INR k / INR (List.length changes)))
    by (intros; apply Math_pow_nonneg).
  assert (Hw3' : forall k, 0 < Math_pow 3 (INR k / INR (List.length changes)))
    by (intros; apply Math_pow_pos; lra).
  unfold mapi. rewrite !mapi_from_length, !length_map. fold changes.
  set (total := sum (mapi_from 0
                       (fun x k => x * Math_pow 3 (INR k / INR (List.length changes)))
                       (List.map (fun x => Math_pow (Rabs x) 2 * Math_sign x)
                                 changes))).
  split; [|split; [|split]].
  - intros Hmono.
    assert (Hch : Forall (fun x => 0 <= x) changes).
    { apply consecutive_Forall. intros i Hi. specialize (Hmono i Hi). lra. }
    assert (Hs : 0 <= total).
    { apply weighted_sum_nonneg; [|exact Hw3].
      apply Forall_map. eapply Forall_impl; [|exact Hch]. intros x Hx. cbv beta.
      apply Rmult_le_pos; [apply Math_pow_nonneg | now apply Math_sign_nonneg]. }
    assert (Hd : 0 <= total / INR (List.length changes)).
    { apply Rmult_le_pos; [exact Hs|]. left. now apply Rinv_0_lt_compat. }
    clamp_cases.
  - intros Hmono.
    assert (Hch : Forall (fun x => x <= 0) changes).
    { apply consecutive_Forall. intros i Hi. specialize (Hmono i Hi). lra. }
    assert (Hs : total <= 0).
    { apply weighted_sum_nonpos; [|exact Hw3].
      apply Forall_map. eapply Forall_impl; [|exact Hch]. intros x Hx. cbv beta.
      pose proof (Math_pow_nonneg (Rabs x) 2). pose proof (Math_sign_nonpos Hx).
      nra. }
    assert (Hd : total / INR (List.length changes) <= 0).
    { unfold Rdiv. pose proof (Rinv_0_lt_compat _ Hn). nra. }
    clamp_cases.
  - intros _ Hmono.
    assert (Hch : Forall (fun x => 0 < x) changes).
    { apply consecutive_Forall. intros i Hi. specialize (Hmono i Hi). lra. }
    assert (Hs : 0 < total).
    { apply weighted_sum_pos; [| |exact Hw3'].
      - destruct changes; [simpl in Hlen; lia | discriminate].
      - apply Forall_map. eapply Forall_impl; [|exact Hch]. intros x Hx. cbv beta.
        rewrite Math_sign_pos by exact Hx. rewrite Rmult_1_r.
        apply Math_pow_pos. now apply Rabs_pos_lt, Rgt_not_eq. }
    assert (Hd : 0 < total / INR (List.length changes)).
    { apply Rmult_lt_0_compat; [exact Hs|]. now apply Rinv_0_lt_compat. }
    clamp_cases.
  - intros Hflat. subst total.
    assert (Hch : Forall (fun x => x = 0) changes).
    { apply consecutive_Forall. intros i Hi. specialize (Hflat i Hi). lra. }
    assert (Hdiff : consecutive (fun a b => Rabs (a - b)) scores
                    = List.map Rabs changes)
      by (unfold changes, consecutive; now rewrite map_map).
    rewrite Hdiff, !length_map, map_map.
    rewrite !weighted_sum_zero.
    + unfold Rdiv. rewrite !Rmult_0_l. split; clamp_cases.
    + apply Forall_map. eapply Forall_impl; [|exact Hch]. intros x ->. cbv beta.
      rewrite Rabs_R0. apply Math_pow_zero. lra.
    + apply Forall_map. eapply Forall_impl; [|exact Hch]. intros x ->. cbv beta.
      rewrite Math_sign_zero. lra.
Qed.

End MoreAggregatorProperties.

Lemma trend_follows_direction_witness :
  (forall i, (S i < List.length [0.1%R; 0.3%R; 0.3%R])%nat ->
             nth i [0.1; 0.3; 0.3] 0 <= nth (S i) [0.1; 0.3; 0.3] 0)
  /\ 0 <= calculateTrend [0.1; 0.3; 0.3]
  /\ calculateTrend [0.5; 0.5; 0.5] = 0
  /\ 0 < calculateTrend [0.1; 0.3; 0.5].
Proof.
  assert (H1 : (2 <= List.length [0.1%R; 0.3%R; 0.5%R])%nat) by (simpl; lia).
  assert (H4 : forall i, (S i < List.length [0.1%R; 0.3%R; 0.5%R])%nat ->
                         nth i [0.1; 0.3; 0.5] 0 + 0.001
                         <= nth (S i) [0.1; 0.3; 0.5] 0).
  { intros [|[|i]] Hi; simpl in *; try lra; lia. }
  assert (H2 : forall i, (S i < List.length [0.1%R; 0.3%R; 0.3%R])%nat ->
                         nth i [0.1; 0.3; 0.3] 0 <= nth (S i) [0.1; 0.3; 0.3] 0).
  { intros [|[|i]] Hi; simpl in *; try lra; lia. }
  assert (H3 : forall i, (S i < List.length [0.5%R; 0.5%R; 0.5%R])%nat ->
                         nth i [0.5; 0.5; 0.5] 0 = nth (S i) [0.5; 0.5; 0.5] 0).
  { intros [|[|i]] Hi; simpl in *; try reflexivity; lia. }
  split; [exact H2|]. split; [|split].
  - exact (proj1 (trend_follows_direction [0.1; 0.3; 0.3]) H2).
  - exact (proj1 (proj2 (proj2 (proj2 (trend_follows_direction [0.5; 0.5; 0.5]))) H3)).
  - exact (proj1 (proj2 (proj2 (trend_follows_direction [0.1; 0.3; 0.5]))) H1 H4).
Defined.

End TrendProperties.

(** ** The most frequent category *)

Section CategoryProperties.
Import Scoring Aggregator Bot.

Section TallyProperties.

Lemma Category_eqb_eq a b : Category_eqb a b = true <-> a = b.
Proof. destruct a, b; simpl; split; congruence. Qed.

Lemma Category_eqb_refl a : Category_eqb a a = true.
Proof. now destruct a. Qed.

Lemma Category_eqb_neq a b : Category_eqb a b = false <-> a <> b.
Proof. destruct a, b; simpl; split; congruence. Qed.

Lemma Category_eqb_sym a b : Category_eqb a b = Category_eqb b a.
Proof. now destruct a, b. Qed.

Lemma occurrences_app c a b :
  occurrences c (a ++ b) = (occurrences c a + occurrences c b)%nat.
Proof. unfold occurrences. now rewrite filter_app, length_app. Qed.

Lemma occurrences_In c cats : (0 < occurrences c cats)%nat <-> In c cats.
Proof.
  unfold occurrences. induction cats as [|x cats IH]; simpl; [split; [lia|tauto]|].
  destruct (Category_eqb c x) eqn:E; simpl.
  - apply Category_eqb_eq in E. subst. split; [now left | lia].
  - rewrite IH. apply Category_eqb_neq in E. split; [tauto|]. intros [H|H]; congruence.
Qed.

Lemma count_category_keys acc x :
  List.map fst (count_category acc x)
  = if existsb (Category_eqb x) (List.map fst acc) then List.map fst acc
    else List.map fst acc ++ [x].
Proof.
  induction acc as [|[c n] acc IH]; simpl; [reflexivity|].
  rewrite (Category_eqb_sym x c).
  destruct (Category_eqb c x); simpl; [reflexivity|].
  rewrite IH. now destruct (existsb _ _).
Qed.

Lemma existsb_Category_In x l : existsb (Category_eqb x) l = true <-> In x l.
Proof.
  rewrite existsb_exists. split.
  - intros (y & Hin & E). apply Category_eqb_eq in E. now subst.
  - intros H. exists x. split; [exact H | apply Category_eqb_refl].
Qed.

Lemma count_category_In acc x c n :
  NoDup (List.map fst acc) ->
  (In (c, n) (count_category acc x)
   <-> (c <> x /\ In (c, n) acc)
       \/ (c = x /\ ((exists m, In (x, m) acc /\ n = S m)
                     \/ (~ In x (List.map fst acc) /\ n = 1%nat)))).
Proof.
  induction acc as [|[c0 n0] acc IH]; simpl; intros Hnd.
  - split.
    + intros [[= <- <-]|[]]. right. split; [reflexivity|]. right. tauto.
    + intros [[_ []]|[-> [(m & [] & _)|[_ ->]]]]. now left.
  - inversion Hnd as [|? ? Hnot Hnd']; subst.
    destruct (Category_eqb c0 x) eqn:E.
    + apply Category_eqb_eq in E. subst c0. simpl. split.
      * intros [[= <- <-]|Hin].
        -- right. split; [reflexivity|]. left. exists n0. split; [now left | reflexivity].
        -- left. split; [|now right]. intros ->. apply Hnot.
           change x with (fst (x, n)). now apply in_map.
      * intros [[Hne [[= -> ->]|Hin]]|[-> [(m & [[= ->]|Hin] & ->)|[Hno _]]]].
        -- congruence.
        -- now right.
        -- now left.
        -- exfalso. apply Hnot. change x with (fst (x, m)). now apply in_map.
        -- exfalso. apply Hno. now left.
    + apply Category_eqb_neq in E. simpl. rewrite (IH Hnd'). split.
      * intros [[= <- <-]|[[Hne Hin]|[-> [(m & Hin & ->)|[Hno ->]]]]].
        -- left. split; [congruence | now left].
        -- left. split; [exact Hne | now right].
        -- right. split; [reflexivity|]. left. exists m. split; [now right | reflexivity].
        -- right. split; [reflexivity|]. right. split; [|reflexivity].
           intros [H|H]; [congruence | contradiction].
      * intros [[Hne [[= <- <-]|Hin]]|[-> [(m & [[= -> ->]|Hin] & ->)|[Hno ->]]]].
        -- now left.
        -- right. left. tauto.
        -- congruence.
        -- right. right. split; [reflexivity|]. left. exists m. tauto.
        -- right. right. split; [reflexivity|]. right. tauto.
Qed.

Lemma count_category_NoDup acc x :
  NoDup (List.map fst acc) -> NoDup (List.map fst (count_category acc x)).
Proof.
  intros Hnd. rewrite count_category_keys.
  destruct (existsb _ _) eqn:E; [exact Hnd|].
  apply NoDup_app; [exact Hnd | constructor; [intros []|constructor] |].
  intros k Hin [<-|[]]. apply existsb_Category_In in Hin. congruence.
Qed.

Lemma tally_snoc cats x : tally (cats ++ [x]) = count_category (tally cats) x.
Proof. unfold tally. now rewrite fold_left_app. Qed.

Lemma tally_spec cats :
  NoDup (List.map fst (tally cats))
  /\ (forall c, In c (List.map fst (tally cats)) <-> In c cats)
  /\ (forall c n, In (c, n) (tally cats) -> n = occurrences c cats).
Proof.
  induction cats as [|x cats IH] using rev_ind.
  - split; [constructor|]. split; [tauto|]. intros c n [].
  - destruct IH as (Hnd & Hkeys & Hcount). rewrite tally_snoc.
    split; [now apply count_category_NoDup|]. split.
    + intros c. rewrite count_category_keys.
      destruct (existsb _ _) eqn:E.
      * apply existsb_Category_In in E. rewrite Hkeys in *.
        rewrite in_app_iff. simpl. split; [tauto|].
        intros [H|[<-|[]]]; assumption.
      * rewrite !in_app_iff, Hkeys. reflexivity.
    + intros c n Hin. apply count_category_In in Hin; [|exact Hnd].
      rewrite occurrences_app. unfold occurrences at 2. simpl.
      destruct Hin as [[Hne Hin]|[-> [(m & Hin & ->)|[Hno ->]]]].
      * rewrite (Hcount c n Hin).
        replace (Category_eqb c x) with false
          by (symmetry; now apply Category_eqb_neq).
        simpl. lia.
      * rewrite Category_eqb_refl, (Hcount x m Hin). simpl. lia.
      * rewrite Category_eqb_refl. simpl.
        rewrite Hkeys in Hno.
        assert (occurrences x cats = 0%nat).
        { destruct (occurrences x cats) eqn:Ho; [reflexivity|].
          exfalso. apply Hno. apply occurrences_In. lia. }
        lia.
Qed.

(** The order of the table is the order of first occurrence. *)
Lemma tally_order cats :
  forall k1 d k2 c,
    List.map fst (tally cats) = k1 ++ d :: k2 -> In c k1 ->
    seen_before c d cats.
Proof.
  induction cats as [|x cats IH] using rev_ind; intros k1 d k2 c Hk Hc.
  - destruct k1; discriminate.
  - destruct (tally_spec cats) as (Hnd & Hkeys & _).
    rewrite tally_snoc, count_category_keys in Hk.
    destruct (existsb _ _) eqn:E.
    + destruct (IH k1 d k2 c Hk Hc) as (pre & post & -> & Hn & Hin).
      exists pre, (post ++ [x]). rewrite <- app_assoc. now split.
    + destruct k2 as [|k k2] using rev_ind.
      * apply app_inj_tail in Hk as [Hk ->].
        exists cats, []. split; [reflexivity|].
        rewrite <- Hk, Hkeys in Hc. split; [|exact Hc].
        rewrite <- Hkeys. intros H. apply existsb_Category_In in H. congruence.
      * clear IHk2. rewrite app_comm_cons, app_assoc in Hk.
        apply app_inj_tail in Hk as [Hk _].
        destruct (IH k1 d k2 c Hk Hc) as (pre & post & -> & Hn & Hin).
        exists pre, (post ++ [x]). rewrite <- app_assoc. now split.
Qed.

(** The entry kept by [reduce((a, b) => (a[1] > b[1] ? a : b))]: the last
    of those with the largest count. *)
Lemma reduce_last_max (rest : list (Category * nat)) :
  forall first,
    exists l1 m l2,
      fold_left (fun a b => if (snd b <? snd a)%nat then a else b) rest first = m
      /\ first :: rest = l1 ++ m :: l2
      /\ (forall x, In x l1 -> (snd x <= snd m)%nat)
      /\ (forall x, In x l2 -> (snd x < snd m)%nat).
Proof.
  induction rest as [|b rest IH]; intros first; simpl.
  - exists [], first, []. split; [reflexivity|]. split; [reflexivity|].
    split; intros x [].
  - destruct (snd b <? snd first)%nat eqn:E.
    + apply Nat.ltb_lt in E.
      destruct (IH first) as (l1 & m & l2 & Hm & Heq & H1 & H2).
      destruct l1 as [|y l1]; simpl in Heq; injection Heq as Ha Hb.
      * exists [], m, (b :: l2). split; [exact Hm|].
        split; [simpl; congruence|]. split; [intros x []|].
        intros x [<-|Hx]; [rewrite <- Ha; exact E | now apply H2].
      * exists (y :: b :: l1), m, l2. split; [exact Hm|].
        split; [simpl; congruence|]. split; [|exact H2].
        intros x [<-|[<-|Hx]].
        -- apply H1. now left.
        -- pose proof (H1 y (or_introl eq_refl)). subst y. lia.
        -- apply H1. now right.
    + apply Nat.ltb_ge in E.
      destruct (IH b) as (l1 & m & l2 & Hm & Heq & H1 & H2).
      exists (first :: l1), m, l2. split; [exact Hm|].
      split; [simpl; now rewrite Heq|]. split; [|exact H2].
      intros x [<-|Hx]; [|now apply H1].
      assert (snd b <= snd m)%nat; [|lia].
      destruct l1 as [|y l1]; simpl in Heq; injection Heq as Ha Hb.
      * rewrite Ha. lia.
      * apply H1. left. congruence.
Qed.

(** The head of the array sorted by [b - a]: the first of those with the
    largest count. *)
Lemma sort_first_max (entries : list (Category * nat)) :
  match sort_by_count entries with
  | [] => entries = []
  | m :: _ =>
      exists l1 l2,
        entries = l1 ++ m :: l2
        /\ (forall x, In x l1 -> (snd x < snd m)%nat)
        /\ (forall x, In x l2 -> (snd x <= snd m)%nat)
  end.
Proof.
  induction entries as [|x entries IH]; simpl; [reflexivity|].
  destruct (sort_by_count entries) as [|h sorted] eqn:E.
  - subst entries. simpl. exists [], []. split; [reflexivity|]. split; intros y [].
  - simpl. destruct IH as (l1 & l2 & -> & H1 & H2).
    destruct (snd x <? snd h)%nat eqn:Hx.
    + apply Nat.ltb_lt in Hx. exists (x :: l1), l2. split; [reflexivity|].
      split; [|exact H2]. intros y [<-|Hy]; [exact Hx | now apply H1].
    + apply Nat.ltb_ge in Hx. exists [], (l1 ++ h :: l2). split; [reflexivity|].
      split; [intros y []|].
      intros y Hy. apply in_app_iff in Hy as [Hy|[<-|Hy]].
      * pose proof (H1 y Hy). lia.
      * exact Hx.
      * pose proof (H2 y Hy). lia.
Qed.

Lemma tally_entry cats c :
  In c cats -> In (c, occurrences c cats) (tally cats).
Proof.
  intros Hin. destruct (tally_spec cats) as (_ & Hkeys & Hcount).
  apply Hkeys in Hin. apply in_map_iff in Hin as ([c' n] & Hc & Hin).
  simpl in Hc. subst c'. now rewrite <- (Hcount c n Hin).
Qed.

(** What both ways of choosing a category have in common, given where the
    chosen entry [m] stands in the table. *)
Lemma chosen_most_frequent cats l1 m l2 :
  tally cats = l1 ++ m :: l2 ->
  (forall x, In x l1 -> (snd x <= snd m)%nat) ->
  (forall x, In x l2 -> (snd x <= snd m)%nat) ->
  In (fst m) cats
  /\ (forall c, (occurrences c cats <= occurrences (fst m) cats)%nat).
Proof.
  intros Ht H1 H2. destruct (tally_spec cats) as (_ & Hkeys & Hcount).
  assert (Hm : In m (tally cats)) by (rewrite Ht; apply in_or_app; right; now left).
  assert (Hd : In (fst m) cats) by (apply Hkeys; now apply in_map).
  split; [exact Hd|]. intros c.
  assert (Hsm : snd m = occurrences (fst m) cats)
    by (apply Hcount; now destruct m).
  destruct (occurrences c cats) eqn:Ho; [lia|]. rewrite <- Ho.
  assert (Hc : In c cats) by (apply occurrences_In; lia).
  pose proof (tally_entry cats c Hc) as He. rewrite Ht in He.
  apply in_app_iff in He as [He|[He|He]].
  - pose proof (H1 _ He). simpl in *. lia.
  - subst m. simpl. lia.
  - pose proof (H2 _ He). simpl in *. lia.
Qed.

(** X16. getDominantCategory returns the default category when no match
    carries a category; otherwise it returns a category of the matches
    that occurs most often, and among categories that occur equally
    often the one whose first occurrence comes last. *)
Theorem getDominantCategory_most_frequent :
  forall (ms : list Match) (defaultCategory : Category),
    let cats := flat_map (fun m => match match_category m with
                                   | Some c => [c]
                                   | None => []
                                   end) ms in
    let d := getDominantCategory ms defaultCategory in
    (cats = [] -> d = defaultCategory)
    /\ (cats <> [] ->
        In d cats
        /\ (forall c, (occurrences c cats <= occurrences d cats)%nat)
        /\ (forall c, c <> d -> occurrences c cats = occurrences d cats ->
                      seen_before c d cats)).
Proof.
  intros ms defaultCategory cats d. subst d. unfold getDominantCategory.
  fold cats. fold (tally cats). split.
  - intros ->. reflexivity.
  - intros Hne. destruct (tally_spec cats) as (Hnd & Hkeys & Hcount).
    destruct (tally cats) as [|first rest] eqn:Ht.
    + exfalso. destruct cats as [|c cats']; [congruence|].
      apply (proj2 (Hkeys c)). now left.
    + destruct (reduce_last_max rest first) as (l1 & m & l2 & Hm & Heq & H1 & H2).
      rewrite Hm. rewrite <- Ht in Hkeys, Hcount, Hnd.
      rewrite Heq in Ht.
      destruct (@chosen_most_frequent cats l1 m l2 Ht H1) as [Hd Hmax].
      { intros x Hx. pose proof (H2 x Hx). lia. }
      split; [exact Hd|]. split; [exact Hmax|].
      intros c Hcd Hoc.
      assert (Hc : In c cats).
      { apply occurrences_In. rewrite Hoc. now apply occurrences_In. }
      pose proof (tally_entry cats c Hc) as He. rewrite Ht in He.
      assert (Hsm : snd m = occurrences (fst m) cats).
      { apply Hcount. rewrite Ht. apply in_or_app. right. left. now destruct m. }
      apply in_app_iff in He as [He|[He|He]].
      * apply tally_order with (k1 := List.map fst l1) (k2 := List.map fst l2).
        -- rewrite Ht, map_app. reflexivity.
        -- change c with (fst (c, occurrences c cats)). now apply in_map.
      * rewrite He in Hcd. simpl in Hcd. congruence.
      * pose proof (H2 _ He). simpl in *. lia.
Qed.

(** X17. determineOverallCategory throws a TypeError when there is no
    sentiment; otherwise it returns a category among those of the
    sentiments that occurs most often, and among categories that occur
    equally often the one that occurs first (the opposite of the tie
    rule of getDominantCategory). *)
Theorem determineOverallCategory_most_frequent :
  forall sentiments : list SentimentAnalysisResult,
    let cats := List.map (fun s => category (result_score s)) sentiments in
    (sentiments = [] ->
     exists msg,
       determineOverallCategory sentiments = inl (PlainError (lit "TypeError") msg))
    /\ (sentiments <> [] ->
        exists d,
          determineOverallCategory sentiments = inr d
          /\ In d cats
          /\ (forall c, (occurrences c cats <= occurrences d cats)%nat)
          /\ (forall c, c <> d -> occurrences c cats = occurrences d cats ->
                        seen_before d c cats)).
Proof.
  intros sentiments cats. split.
  - intros ->. eexists. reflexivity.
  - intros Hne.
    assert (Hcats : exists c, In c cats).
    { subst cats. destruct sentiments as [|s0 rest]; [congruence|].
      eexists. now left. }
    unfold determineOverallCategory. fold cats. fold (tally cats).
    destruct (tally_spec cats) as (Hnd & Hkeys & Hcount).
    pose proof (sort_first_max (tally cats)) as Hs.
    destruct (sort_by_count (tally cats)) as [|m sorted].
    + exfalso. destruct Hcats as [c Hc]. apply Hkeys in Hc.
      rewrite Hs in Hc. exact Hc.
    + destruct Hs as (l1 & l2 & Ht & H1 & H2).
      destruct m as [d n]. exists d. split; [reflexivity|].
      destruct (@chosen_most_frequent cats l1 (d, n) l2 Ht) as [Hd Hmax];
        [intros x Hx; pose proof (H1 x Hx); lia | exact H2 |].
      split; [exact Hd|]. split; [exact Hmax|].
      intros c Hcd Hoc.
      assert (Hc : In c cats).
      { apply occurrences_In. rewrite Hoc. now apply occurrences_In. }
      pose proof (tally_entry cats c Hc) as He. rewrite Ht in He.
      assert (Hsm : n = occurrences d cats).
      { apply Hcount. rewrite Ht. apply in_or_app. right. now left. }
      apply in_app_iff in He as [He|[He|He]].
      * pose proof (H1 _ He). simpl in *. lia.
      * inversion He. congruence.
      * apply in_split in He as (a & b & ->).
        apply tally_order with (k1 := List.map fst (l1 ++ (d, n) :: a))
                               (k2 := List.map fst b).
        -- rewrite Ht, !map_app. simpl. rewrite map_app. simpl.
           rewrite <- app_assoc. reflexivity.
        -- rewrite map_app. apply in_or_app. right. now left.
Qed.

End TallyProperties.

Lemma getDominantCategory_most_frequent_witness :
  flat_map (fun m => match match_category m with
                     | Some c => [c]
                     | None => []
                     end) (matches Scenarios.sample_matches) <> []
  /\ In (getDominantCategory (matches Scenarios.sample_matches) neutral)
        [mildly_bullish].
Proof.
  assert (H : flat_map (fun m => match match_category m with
                                 | Some c => [c]
                                 | None => []
                                 end) (matches Scenarios.sample_matches) <> [])
    by discriminate.
  split; [exact H|].
  exact (proj1 (proj2 (getDominantCategory_most_frequent
                         (matches Scenarios.sample_matches) neutral) H)).
Defined.

Lemma determineOverallCategory_most_frequent_witness :
  [calm_result; calm_result] <> []
  /\ exists d,
       determineOverallCategory [calm_result; calm_result] = inr d
       /\ In d [neutral; neutral].
Proof.
  assert (H : [calm_result; calm_result] <> []) by discriminate.
  split; [exact H|].
  destruct (proj2 (determineOverallCategory_most_frequent [calm_result; calm_result]) H)
    as (d & Hrun & Hin & _).
  exists d. split; [exact Hrun | exact Hin].
Defined.

End CategoryProperties.

(** ** Scores from emphasis *)

Section EmphasisProperties.
Import Scoring Scenarios.
Local Open Scope R_scope.

Section MoreScoringProperties.
Context {UC : UnicodeCase}.

Ltac thresholds :=
  unfold getCategory, THRESHOLDS_stronglyBearish, THRESHOLDS_mildlyBearish,
    THRESHOLDS_neutral, THRESHOLDS_mildlyBullish;
  repeat match goal with |- context [Rle_dec ?a ?b] => destruct (Rle_dec a b) end;
  simpl; try reflexivity; try lia; try lra.

Lemma Math_sign_neg x : x < 0 -> Math_sign x = -1.
Proof.
  intros H. unfold Math_sign. destruct (Rlt_dec 0 x); [lra|].
  destruct (Rlt_dec x 0); [reflexivity | contradiction].
Qed.

Lemma baseScore_no_anchor text :
  anchorMatches ANCHORS_bullish (toLowerCase text) = [] ->
  anchorMatches ANCHORS_bearish (toLowerCase text) = [] ->
  baseScore text = 0.
Proof. intros Hb Hs. unfold baseScore. rewrite Hb, Hs. reflexivity. Qed.

(** X19. A text that contains no bullish and no bearish anchor term, no
    exclamation mark and none of the emojis of the two emoji classes,
    and that is not written in capitals, gets score 0, category neutral
    and confidence 0 from the default strategy. *)
Theorem quiet_text_scores_zero :
  forall (text : jsstring) (embedding : option Embedding),
    anchorMatches ANCHORS_bullish (toLowerCase text) = [] ->
    anchorMatches ANCHORS_bearish (toLowerCase text) = [] ->
    hasExclamation text = false ->
    isAllCaps text = false ->
    hasPositiveEmojis text = false ->
    hasNegativeEmojis text = false ->
    defaultAnalyze text embedding
    = {| score := 0; category := neutral; confidence := 0 |}.
Proof.
  intros text embedding Hb Hs He Hc Hp Hn.
  assert (Hscore : calculateSentimentScore text embedding = 0).
  { unfold calculateSentimentScore. rewrite (baseScore_no_anchor _ Hb Hs).
    unfold emphasisOnlyScore. rewrite He, Hc, Hp, Hn.
    destruct (Req_dec_T 0 0) as [_|H]; [|lra].
    rewrite Math_sign_zero, Rmult_0_l. unfold Rmin, Rmax.
    destruct (Rle_dec (-1) 0); [|lra]. destruct (Rle_dec 1 0); lra. }
  unfold defaultAnalyze. rewrite Hscore. f_equal.
  - thresholds.
  - unfold calculateConfidence. rewrite Rabs_R0, Rmin_left by lra. lra.
Qed.

Lemma Math_pow_07_ge x b : 0 < b -> b <= 1 -> b <= x -> b <= Math_pow x 0.7.
Proof.
  intros Hb Hb1 Hx. unfold Math_pow. destruct (Rlt_dec 0 x); [|lra].
  destruct (Rle_lt_dec 1 x) as [H1|H1].
  - apply Rle_trans with 1; [exact Hb1|].
    rewrite <- (Rpower_O x) by lra. apply Rle_Rpower; lra.
  - apply Rle_trans with x; [exact Hx|].
    rewrite <- (Rpower_1 x) at 1 by lra. unfold Rpower.
    assert (Hln : ln x < 0) by (rewrite <- ln_1; apply ln_increasing; lra).
    left. apply exp_increasing. nra.
Qed.

Lemma scoreMultiplier_ge_1 text : 1 <= scoreMultiplier text.
Proof.
  unfold scoreMultiplier.
  repeat match goal with |- context [if ?b then _ else _] => destruct b end; lra.
Qed.

Lemma scoreMultiplier_caps text : isAllCaps text = true -> 2 <= scoreMultiplier text.
Proof.
  intros H. unfold scoreMultiplier. rewrite H.
  repeat match goal with |- context [if ?b then _ else _] => destruct b end; lra.
Qed.

Lemma scoreMultiplier_negative text :
  hasNegativeEmojis text = true -> 1.5 <= scoreMultiplier text.
Proof.
  intros H. unfold scoreMultiplier. rewrite H.
  repeat match goal with |- context [if ?b then _ else _] => destruct b end; lra.
Qed.

(** X20. When the anchor terms give a base score of 0, emphasis alone
    decides: with an emoji of the bearish class the score is at most
    -0.45 and the category strongly_bearish; without one, a text of more
    than three code units that equals its upper-case form (for instance
    1234) gets a score of at least 0.6, category strongly_bullish and a
    confidence of at least 0.6. *)
Theorem emphasis_alone_decides :
  forall (text : jsstring) (embedding : option Embedding),
    baseScore text = 0 ->
    (hasNegativeEmojis text = true ->
     calculateSentimentScore text embedding <= -0.45
     /\ category (defaultAnalyze text embedding) = strongly_bearish)
    /\ (hasNegativeEmojis text = false -> isAllCaps text = true ->
        0.6 <= calculateSentimentScore text embedding
        /\ category (defaultAnalyze text embedding) = strongly_bullish
        /\ 0.6 <= confidence (defaultAnalyze text embedding)).
Proof.
  intros text embedding Hbase. split.
  - intros Hn.
    assert (Hscore : calculateSentimentScore text embedding <= -0.45).
    { unfold calculateSentimentScore. rewrite Hbase.
      pose proof (scoreMultiplier_negative text Hn) as Hm.
      unfold emphasisOnlyScore. rewrite Hn.
      destruct (Req_dec_T 0 0) as [_|H]; [|lra].
      rewrite Math_sign_neg by lra.
      assert (Hp : 0.45 <= Math_pow (Rabs (-0.3 * scoreMultiplier text)) 0.7).
      { apply Math_pow_07_ge; try lra.
        rewrite Rabs_left by nra. nra. }
      unfold Rmin, Rmax.
      destruct (Rle_dec (-1) _); destruct (Rle_dec 1 _); lra. }
    split; [exact Hscore|]. unfold defaultAnalyze. cbn [category].
    revert Hscore. generalize (calculateSentimentScore text embedding). intros s Hs.
    thresholds.
  - intros Hn Hc.
    assert (Hscore : 0.6 <= calculateSentimentScore text embedding).
    { unfold calculateSentimentScore. rewrite Hbase.
      pose proof (scoreMultiplier_caps text Hc) as Hm.
      unfold emphasisOnlyScore. rewrite Hn, Hc.
      destruct (Req_dec_T 0 0) as [_|H]; [|lra].
      set (s0 := if hasPositiveEmojis text then _ else _).
      assert (Hs0 : 0.3 <= s0)
        by (unfold s0; destruct (hasPositiveEmojis text), (hasExclamation text); lra).
      rewrite Math_sign_pos by lra.
      assert (Hp : 0.6 <= Math_pow (Rabs (s0 * scoreMultiplier text)) 0.7).
      { apply Math_pow_07_ge; try lra.
        rewrite Rabs_right by nra. nra. }
      unfold Rmin, Rmax.
      destruct (Rle_dec (-1) _); destruct (Rle_dec 1 _); lra. }
    split; [exact Hscore|]. unfold defaultAnalyze. cbn [category confidence].
    pose proof (calculateEmphasisMultiplier_bounds text) as Hm.
    pose proof (calculateSentimentScore_range text embedding) as Hr.
    revert Hscore Hr. generalize (calculateSentimentScore text embedding).
    intros s Hs Hr. split; [thresholds|].
    unfold calculateConfidence. rewrite Rabs_right by lra.
    rewrite Rmin_left by lra. nra.
Qed.

End MoreScoringProperties.

Lemma quiet_text_scores_zero_witness :
  anchorMatches ANCHORS_bullish (toLowerCase (lit "hello world")) = []
  /\ anchorMatches ANCHORS_bearish (toLowerCase (lit "hello world")) = []
  /\ hasExclamation (lit "hello world") = false
  /\ isAllCaps (lit "hello world") = false
  /\ hasPositiveEmojis (lit "hello world") = false
  /\ hasNegativeEmojis (lit "hello world") = false
  /\ defaultAnalyze (lit "hello world") None
     = {| score := 0; category := neutral; confidence := 0 |}.
Proof.
  assert (H1 : anchorMatches ANCHORS_bullish (toLowerCase (lit "hello world")) = [])
    by (vm_compute; reflexivity).
  assert (H2 : anchorMatches ANCHORS_bearish (toLowerCase (lit "hello world")) = [])
    by (vm_compute; reflexivity).
  assert (H3 : hasExclamation (lit "hello world") = false) by (vm_compute; reflexivity).
  assert (H4 : isAllCaps (lit "hello world") = false) by (vm_compute; reflexivity).
  assert (H5 : hasPositiveEmojis (lit "hello world") = false)
    by (vm_compute; reflexivity).
  assert (H6 : hasNegativeEmojis (lit "hello world") = false)
    by (vm_compute; reflexivity).
  repeat (split; [assumption|]).
  exact (@quiet_text_scores_zero latin1_case (lit "hello world") None
           H1 H2 H3 H4 H5 H6).
Defined.

Lemma emphasis_alone_decides_witness :
  baseScore (lit "1234") = 0
  /\ hasNegativeEmojis (lit "1234") = false
  /\ isAllCaps (lit "1234") = true
  /\ category (defaultAnalyze (lit "1234") None) = strongly_bullish.
Proof.
  assert (H1 : baseScore (lit "1234") = 0)
    by (apply baseScore_no_anchor; vm_compute; reflexivity).
  assert (H2 : hasNegativeEmojis (lit "1234") = false) by (vm_compute; reflexivity).
  assert (H3 : isAllCaps (lit "1234") = true) by (vm_compute; reflexivity).
  split; [exact H1|]. split; [exact H2|]. split; [exact H3|].
  exact (proj1 (proj2 (proj2 (@emphasis_alone_decides latin1_case (lit "1234") None H1)
                         H2 H3))).
Defined.

End EmphasisProperties.

(** ** The LRU cache *)

Section LruCacheProperties.
Import Lru.

Section LruProperties.

Variable V : Type.
Variable truthy : V -> bool.

Lemma map_delete_absent (m : list (jsstring * V)) k :
  ~ In k (List.map fst m) -> map_delete m k = m.
Proof.
  induction m as [|[k' v] m IH]; simpl; [reflexivity|].
  intros Hnot. destruct (Js.eqb k' k) eqn:E.
  - apply eqb_eq in E. subst. exfalso. auto.
  - f_equal. apply IH. tauto.
Qed.

Lemma map_delete_In (m : list (jsstring * V)) k kv :
  In kv (map_delete m k) -> In kv m.
Proof.
  induction m as [|[k' v] m IH]; simpl; [tauto|].
  destruct (Js.eqb k' k); simpl; intuition.
Qed.

Lemma map_delete_NoDup (m : list (jsstring * V)) k :
  NoDup (List.map fst m) ->
  NoDup (List.map fst (map_delete m k)) /\ ~ In k (List.map fst (map_delete m k)).
Proof.
  induction m as [|[k' v] m IH]; simpl; intros Hnd.
  - split; [constructor | tauto].
  - inversion Hnd as [|? ? Hnot Hnd']; subst.
    destruct (Js.eqb k' k) eqn:E.
    + apply eqb_eq in E. subst. split; assumption.
    + destruct (IH Hnd') as [H1 H2]. simpl. split.
      * constructor; [|exact H1]. intros Hin. apply Hnot.
        apply in_map_iff in Hin as (kv & Hk & Hin).
        apply in_map_iff. exists kv. split; [exact Hk|].
        eapply map_delete_In; eauto.
      * intros [->|Hin]; [now rewrite eqb_refl in E | auto].
Qed.

Lemma map_delete_length (m : list (jsstring * V)) k :
  List.length (map_delete m k)
  = if existsb (Js.eqb k) (List.map fst m)
    then pred (List.length m) else List.length m.
Proof.
  induction m as [|[k' v] m IH]; simpl; [reflexivity|].
  rewrite (eqb_sym k k'). destruct (Js.eqb k' k); simpl; [reflexivity|].
  rewrite IH. destruct (existsb _ _) eqn:E; [|reflexivity].
  destruct m; [discriminate | reflexivity].
Qed.

Lemma map_get_delete_other (m : list (jsstring * V)) k k' :
  k <> k' -> map_get (map_delete m k) k' = map_get m k'.
Proof.
  intros Hne. induction m as [|[k2 v] m IH]; simpl; [reflexivity|].
  destruct (Js.eqb k2 k) eqn:E.
  - apply eqb_eq in E. subst.
    destruct (Js.eqb k k') eqn:E2; [apply eqb_eq in E2; contradiction | reflexivity].
  - simpl. now rewrite IH.
Qed.

Lemma map_set_length (m : list (jsstring * V)) k v :
  List.length (map_set m k v)
  = if existsb (Js.eqb k) (List.map fst m)
    then List.length m else S (List.length m).
Proof.
  rewrite <- (length_map fst (map_set m k v)), map_set_keys.
  destruct (existsb _ _); rewrite ?length_app, length_map; simpl; lia.
Qed.

Lemma map_set_NoDup (m : list (jsstring * V)) k v :
  NoDup (List.map fst m) -> NoDup (List.map fst (map_set m k v)).
Proof.
  intros Hnd. rewrite map_set_keys. destruct (existsb _ _) eqn:E; [exact Hnd|].
  apply NoDup_app; [exact Hnd | constructor; [intros []|constructor] |].
  intros k' Hin [<-|[]]. apply existsb_eqb_In in Hin. congruence.
Qed.

(** X21. An LRUCache with maxSize of at least 1 that holds distinct keys and
    no more than maxSize entries still does after set and after get; get
    of a key right after set of that key returns the value set; and get
    changes the value found under no key. *)
Theorem lru_capacity_and_lookup :
  forall (c : LRUCache V) (key : jsstring) (value : V),
    (1 <= maxSize c)%Z ->
    within_capacity c ->
    within_capacity (set key value c)
    /\ within_capacity (snd (get truthy key c))
    /\ fst (get truthy key (set key value c)) = Some value
    /\ (forall k, map_get (cache (snd (get truthy key c))) k = map_get (cache c) k).
Proof.
  intros c key value Hmax [Hnd Hlen].
  assert (Hset : within_capacity (set key value c)
                 /\ map_get (cache (set key value c)) key = Some value).
  { unfold set, within_capacity. cbn [cache maxSize].
    split; [|apply map_get_set_same].
    destruct (maxSize c <=? Z.of_nat (List.length (cache c)))%Z eqn:E.
    - apply Z.leb_le in E.
      destruct (cache c) as [|[k0 v0] rest] eqn:Hc.
      + simpl. split; [repeat constructor; tauto | lia].
      + split.
        * apply map_set_NoDup. now apply map_delete_NoDup.
        * rewrite map_set_length, map_delete_length.
          cbn [List.map fst existsb]. rewrite eqb_refl. cbn [orb pred].
          simpl List.length in *. destruct (existsb _ _); lia.
    - apply Z.leb_gt in E. split; [now apply map_set_NoDup|].
      rewrite map_set_length. destruct (existsb _ _); lia. }
  destruct Hset as [Hcap Hget].
  split; [exact Hcap|]. split; [|split].
  - unfold get, within_capacity.
    destruct (map_get (cache c) key) as [v|] eqn:Hg; [|now split].
    destruct (truthy v); [|now split]. cbn [snd cache maxSize].
    destruct (map_delete_NoDup (cache c) key Hnd) as [Hnd' Hnot].
    split; [now apply map_set_NoDup|].
    rewrite map_set_length, map_delete_length.
    replace (existsb (Js.eqb key) (List.map fst (map_delete (cache c) key)))
      with false
      by (symmetry; apply not_true_is_false; intros H;
          apply existsb_eqb_In in H; contradiction).
    replace (existsb (Js.eqb key) (List.map fst (cache c))) with true
      by (symmetry; apply existsb_eqb_In;
          change key with (fst (key, v)); apply in_map; now apply map_get_In).
    apply map_get_In in Hg. destruct (cache c); [contradiction|]. simpl in *. lia.
  - unfold get. rewrite Hget. now destruct (truthy value).
  - intros k. unfold get.
    destruct (map_get (cache c) key) as [v|] eqn:Hg; [|reflexivity].
    destruct (truthy v); [|reflexivity]. cbn [snd cache].
    destruct (list_eq_dec N.eq_dec key k) as [<-|Hne].
    + now rewrite map_get_set_same.
    + rewrite map_get_set_other by now apply eqb_neq.
      now apply map_get_delete_other.
Qed.

(** X22. On a full LRUCache, set of a new key drops the oldest entry and
    appends the new one; set of a key that is already present (and is
    not the oldest) also drops the oldest entry, so that the cache
    shrinks by one; and get of a key whose value is truthy moves that
    entry to the end. *)
Theorem lru_eviction_order :
  forall (c : LRUCache V) (key first : jsstring) (value v0 : V)
         (rest : list (jsstring * V)),
    within_capacity c ->
    cache c = (first, v0) :: rest ->
    Z.of_nat (List.length (cache c)) = maxSize c ->
    (~ In key (List.map fst (cache c)) ->
     cache (set key value c) = rest ++ [(key, value)])
    /\ (In key (List.map fst rest) ->
        map_get (cache (set key value c)) first = None
        /\ List.length (cache (set key value c)) = List.length rest)
    /\ (forall v, map_get (cache c) key = Some v -> truthy v = true ->
                  cache (snd (get truthy key c))
                  = map_delete (cache c) key ++ [(key, v)]).
Proof.
  intros c key first value v0 rest [Hnd Hlen] Hc Hfull.
  assert (Hset : cache (set key value c) = map_set rest key value).
  { unfold set. cbn [cache]. rewrite Hc in *.
    replace (maxSize c <=? _)%Z with true by (symmetry; apply Z.leb_le; lia).
    cbn [map_delete]. now rewrite eqb_refl. }
  rewrite Hc in Hnd. cbn [List.map fst] in Hnd.
  inversion Hnd as [|? ? Hfirst Hnd']; subst.
  split; [|split].
  - intros Hnew. rewrite Hset. apply map_set_absent.
    rewrite Hc in Hnew. simpl in Hnew. tauto.
  - intros Hin. rewrite Hset. split.
    + apply map_get_None_keys. rewrite map_set_keys.
      replace (existsb (Js.eqb key) (List.map fst rest)) with true
        by (symmetry; now apply existsb_eqb_In).
      exact Hfirst.
    + rewrite map_set_length.
      replace (existsb (Js.eqb key) (List.map fst rest)) with true
        by (symmetry; now apply existsb_eqb_In).
      reflexivity.
  - intros v Hg Ht. unfold get. rewrite Hg, Ht. cbn [snd cache].
    apply map_set_absent.
    apply (map_delete_NoDup (cache c) key). rewrite Hc. exact Hnd.
Qed.

End LruProperties.

(** Numbers as values: [0] is the falsy one. *)
Lemma lru_capacity_and_lookup_witness :
  (1 <= maxSize (create nat 2))%Z
  /\ within_capacity (create nat 2)
  /\ fst (get (fun n => negb (n =? 0)%nat) (lit "a")
              (set (lit "a") 7%nat (create nat 2))) = Some 7%nat.
Proof.
  assert (H1 : (1 <= maxSize (create nat 2))%Z) by (simpl; lia).
  assert (H2 : within_capacity (create nat 2))
    by (split; [constructor | simpl; lia]).
  split; [exact H1|]. split; [exact H2|].
  exact (proj1 (proj2 (proj2
           (@lru_capacity_and_lookup nat (fun n => negb (n =? 0)%nat)
              (create nat 2) (lit "a") 7%nat H1 H2)))).
Defined.

Lemma lru_eviction_order_witness :
  within_capacity {| cache := [(lit "a", 1%nat); (lit "b", 2%nat)]; maxSize := 2 |}
  /\ cache (set (lit "c") 3%nat
                {| cache := [(lit "a", 1%nat); (lit "b", 2%nat)]; maxSize := 2 |})
     = [(lit "b", 2%nat); (lit "c", 3%nat)].
Proof.
  assert (H1 : within_capacity
                 {| cache := [(lit "a", 1%nat); (lit "b", 2%nat)]; maxSize := 2 |}).
  { split; [|simpl; lia]. vm_compute. repeat constructor; simpl; intuition discriminate. }
  split; [exact H1|].
  apply (proj1 (@lru_eviction_order nat (fun n => negb (n =? 0)%nat)
                  {| cache := [(lit "a", 1%nat); (lit "b", 2%nat)]; maxSize := 2 |}
                  (lit "c") (lit "a") 3%nat 1%nat [(lit "b", 2%nat)]
                  H1 eq_refl eq_refl)).
  vm_compute. intuition discriminate.
Defined.

End LruCacheProperties.

(** ** Batches of embeddings *)

Section EmbeddingsProperties.
Import Embeddings.

Section ChunkProperties.

Variable T : Type.

Lemma slice_chunk (array : list T) (size i : Z) :
  (1 <= size)%Z -> (0 <= i < Z.of_nat (List.length array))%Z ->
  slice array i (i + size)
  = firstn (Z.to_nat size) (skipn (Z.to_nat i) array).
Proof.
  intros Hs Hi. unfold slice.
  replace (i <? 0)%Z with false by (symmetry; apply Z.ltb_ge; lia).
  replace (i + size <? 0)%Z with false by (symmetry; apply Z.ltb_ge; lia).
  rewrite (Z.min_l i) by lia.
  set (rest := skipn (Z.to_nat i) array).
  assert (Hrest : List.length rest = (List.length array - Z.to_nat i)%nat)
    by apply length_skipn.
  destruct (Z.le_ge_cases (i + size) (Z.of_nat (List.length array))) as [H|H].
  - rewrite Z.min_l by lia. f_equal. lia.
  - rewrite Z.min_r by lia.
    rewrite !firstn_all2; [reflexivity | lia | lia].
Qed.

Lemma chunkLoop_spec (array : list T) (size : Z) :
  (1 <= size)%Z ->
  forall fuel i chunks,
    (0 <= i)%Z ->
    (Z.of_nat (List.length array) - i <= Z.of_nat fuel)%Z ->
    exists more,
      chunkLoop fuel array size i chunks = Some (chunks ++ more)
      /\ List.concat more = skipn (Z.to_nat i) array
      /\ Forall (fun c => (1 <= List.length c)%nat
                          /\ (Z.of_nat (List.length c) <= size)%Z) more
      /\ Forall (fun c => Z.of_nat (List.length c) = size) (removelast more)
      /\ Z.of_nat (List.length more)
         = ((Z.max 0 (Z.of_nat (List.length array) - i) + size - 1) / size)%Z.
Proof.
  intros Hs. induction fuel as [|fuel IH]; intros i chunks Hi Hfuel.
  - exists []. simpl.
    replace (i <? Z.of_nat (List.length array))%Z with false
      by (symmetry; apply Z.ltb_ge; lia).
    rewrite app_nil_r, skipn_all2 by lia.
    repeat split; try constructor.
    rewrite Z.max_l by lia. symmetry. apply Z.div_small. lia.
  - simpl. destruct (i <? Z.of_nat (List.length array))%Z eqn:E.
    + apply Z.ltb_lt in E.
      destruct (IH (i + size)%Z (chunks ++ [slice array i (i + size)]))
        as (more & Hrun & Hcat & Hall & Hfull & Hlen); [lia | lia |].
      exists (slice array i (i + size) :: more).
      rewrite Hrun, <- app_assoc. split; [reflexivity|].
      rewrite slice_chunk by lia.
      set (rest := skipn (Z.to_nat i) array) in *.
      assert (Hrest : List.length rest = (List.length array - Z.to_nat i)%nat)
        by apply length_skipn.
      assert (Hskip : skipn (Z.to_nat (i + size)) array
                      = skipn (Z.to_nat size) rest).
      { subst rest. rewrite skipn_skipn. f_equal. lia. }
      split; [|split; [|split]].
      * simpl. rewrite Hcat, Hskip. apply firstn_skipn.
      * constructor; [|exact Hall].
        rewrite length_firstn. clear - Hrest E Hi Hs. lia.
      * destruct more as [|c more']; [constructor|].
        change (removelast (firstn (Z.to_nat size) rest :: c :: more'))
          with (firstn (Z.to_nat size) rest :: removelast (c :: more')).
        constructor; [|exact Hfull].
        rewrite length_firstn.
        assert (Hne : skipn (Z.to_nat size) rest <> []).
        { rewrite <- Hskip, <- Hcat. inversion Hall as [|? ? [H1 _] _]; subst.
          simpl. destruct c; [simpl in H1; lia | discriminate]. }
        assert ((Z.to_nat size < List.length rest)%nat).
        { destruct (Nat.lt_ge_cases (Z.to_nat size) (List.length rest)); [assumption|].
          exfalso. apply Hne. now apply skipn_all2. }
        clear - H Hs. lia.
      * simpl List.length. rewrite Nat2Z.inj_succ, Hlen.
        clear - Hs Hi E. set (len := Z.of_nat (List.length array)) in *.
        rewrite (Z.max_r 0 (len - i)) by lia.
        destruct (Z.le_ge_cases len (i + size)) as [H|H].
        -- rewrite Z.max_l by lia.
           rewrite (Z.div_small (0 + size - 1)) by lia.
           apply Z.div_unique with (r := (len - i - 1)%Z); lia.
        -- rewrite Z.max_r by lia.
           replace (len - i + size - 1)%Z
             with ((len - (i + size) + size - 1) + 1 * size)%Z by lia.
           rewrite Z.div_add by lia. lia.
    + apply Z.ltb_ge in E. exists [].
      rewrite app_nil_r, skipn_all2 by lia.
      repeat split; try constructor.
      rewrite Z.max_l by lia. symmetry. apply Z.div_small. lia.
Qed.

Lemma chunkLoop_diverges (array : list T) (size : Z) :
  (size <= 0)%Z ->
  forall fuel i chunks,
    (i < Z.of_nat (List.length array))%Z ->
    chunkLoop fuel array size i chunks = None.
Proof.
  intros Hs. induction fuel as [|fuel IH]; intros i chunks Hi; simpl;
    (replace (i <? Z.of_nat (List.length array))%Z with true
      by (symmetry; apply Z.ltb_lt; lia)); [reflexivity|].
  apply IH. lia.
Qed.

(** X23. For a size of at least 1, chunkArray returns chunks whose
    concatenation is the array: every chunk has between 1 and size
    items, every chunk but the last has size items, and there are
    ceil(length / size) chunks. For a size of 0 or less and a non-empty
    array the loop never ends. *)
Theorem chunkArray_partitions :
  forall (array : list T) (size : Z),
    ((1 <= size)%Z ->
     exists chunks,
       chunkArray array size = Some chunks
       /\ List.concat chunks = array
       /\ Forall (fun c => (1 <= List.length c)%nat
                           /\ (Z.of_nat (List.length c) <= size)%Z) chunks
       /\ Forall (fun c => Z.of_nat (List.length c) = size) (removelast chunks)
       /\ Z.of_nat (List.length chunks)
          = ((Z.of_nat (List.length array) + size - 1) / size)%Z)
    /\ ((size <= 0)%Z -> array <> [] ->
        forall fuel, chunkLoop fuel array size 0 [] = None).
Proof.
  intros array size. split.
  - intros Hs.
    destruct (@chunkLoop_spec array size Hs (List.length array) 0%Z [])
      as (more & Hrun & Hcat & Hall & Hfull & Hlen); [lia | lia |].
    exists more. split; [exact Hrun|]. split; [exact Hcat|].
    split; [exact Hall|]. split; [exact Hfull|].
    rewrite Hlen, Z.sub_0_r, Z.max_r by lia. reflexivity.
  - intros Hs Hne fuel. apply chunkLoop_diverges; [exact Hs|].
    destruct array; [contradiction | simpl; lia].
Qed.

End ChunkProperties.

Lemma chunkArray_partitions_witness :
  (1 <= 2)%Z
  /\ chunkArray [1; 2; 3; 4; 5]%nat 2 = Some [[1; 2]; [3; 4]; [5]]%nat
  /\ (0 <= 0)%Z /\ [7%nat] <> []
  /\ chunkLoop 1000 [7%nat] 0 0 [] = None.
Proof.
  assert (H1 : (1 <= 2)%Z) by lia.
  assert (H2 : (0 <= 0)%Z) by lia.
  assert (H3 : [7%nat] <> []) by discriminate.
  split; [exact H1|]. split; [reflexivity|]. split; [exact H2|].
  split; [exact H3|].
  exact (proj2 (@chunkArray_partitions nat [7%nat] 0%Z) H2 H3 1000%nat).
Defined.

Lemma sendBatches_all (client : Client) (embed : jsstring -> Embedding) batches :
  forall n embeddings sent,
    (forall k batch, (k < List.length batches)%nat ->
                     client (n + k)%nat batch = inr (List.map embed batch)) ->
    sendBatches client n batches embeddings sent
    = (inr (embeddings ++ List.map embed (List.concat batches)), sent ++ batches).
Proof.
  induction batches as [|batch rest IH]; intros n embeddings sent Hok; simpl.
  - now rewrite !app_nil_r.
  - pose proof (Hok 0%nat batch (Nat.lt_0_succ _)) as H0.
    rewrite Nat.add_0_r in H0. rewrite H0.
    rewrite IH.
    + rewrite map_app, <- !app_assoc. reflexivity.
    + intros k b Hk. rewrite <- (Hok (S k) b) by (simpl; lia). f_equal. lia.
Qed.

Lemma sendBatches_failure (client : Client) (embed : jsstring -> Embedding) e batches :
  forall k n embeddings sent,
    (k < List.length batches)%nat ->
    (forall j batch, (j < k)%nat -> client (n + j)%nat batch = inr (List.map embed batch)) ->
    (forall batch, client (n + k)%nat batch = inl e) ->
    sendBatches client n batches embeddings sent
    = (inl e, sent ++ firstn (S k) batches).
Proof.
  induction batches as [|batch rest IH]; intros k n embeddings sent Hk Hok Hfail;
    [simpl in Hk; lia|].
  destruct k as [|k].
  - simpl. rewrite <- (Nat.add_0_r n) at 1. rewrite Hfail. reflexivity.
  - cbn [sendBatches].
    pose proof (Hok 0%nat batch (Nat.lt_0_succ _)) as H0.
    rewrite Nat.add_0_r in H0. rewrite H0.
    rewrite (IH k).
    + rewrite <- app_assoc. reflexivity.
    + simpl in Hk. lia.
    + intros j b Hj. rewrite <- (Hok (S j) b) by lia. f_equal. lia.
    + intros b. rewrite <- (Hfail b). f_equal. lia.
Qed.

(** X24. With a batch size of at least 1, generateBatchEmbeddings sends the
    chunks of the texts in order; if every request answers with one
    embedding per text, the result is the embeddings of the texts in the
    order of the texts; if request k is the first to fail, the batches
    after it are not sent and the call throws an Error whose message is
    Failed to generate batch embeddings: followed by the message of the
    failure. *)
Theorem generateBatchEmbeddings_in_order :
  forall (client : Client) (embed : jsstring -> Embedding) (batchSize : Z)
         (n : nat) (texts : list jsstring),
    (1 <= batchSize)%Z ->
    exists batches,
      chunkArray texts batchSize = Some batches
      /\ ((forall k batch, client k batch = inr (List.map embed batch)) ->
          generateBatchEmbeddings client batchSize n texts
          = Some (inr (List.map embed texts), batches))
      /\ (forall k e,
             (k < List.length batches)%nat ->
             (forall j batch, (j < k)%nat ->
                              client (n + j)%nat batch = inr (List.map embed batch)) ->
             (forall batch, client (n + k)%nat batch = inl e) ->
             generateBatchEmbeddings client batchSize n texts
             = Some (inl (PlainError (lit "Error")
                            (lit "Failed to generate batch embeddings: "
                             ++ message_text e)),
                     firstn (S k) batches)).
Proof.
  intros client embed batchSize n texts Hs.
  destruct (@chunkLoop_spec _ texts batchSize Hs (List.length texts) 0%Z [])
    as (batches & Hchunk & Hcat & _); [lia | lia |].
  change (chunkArray texts batchSize = Some batches) in Hchunk.
  change (List.concat batches = texts) in Hcat.
  exists batches. split; [exact Hchunk|]. split.
  - intros Hok. unfold generateBatchEmbeddings. rewrite Hchunk.
    rewrite (@sendBatches_all client embed batches n [] [])
      by (intros; apply Hok).
    simpl. now rewrite Hcat.
  - intros k e Hk Hok Hfail. unfold generateBatchEmbeddings. rewrite Hchunk.
    rewrite (@sendBatches_failure client embed e batches k n [] [] Hk Hok Hfail).
    reflexivity.
Qed.

Lemma generateBatchEmbeddings_in_order_witness :
  (1 <= 2)%Z
  /\ exists batches,
       chunkArray [lit "gm"; lit "wagmi"; lit "ngmi"] 2 = Some batches
       /\ generateBatchEmbeddings (fun _ batch => inr (List.map (fun _ => []) batch))
                                  2 0 [lit "gm"; lit "wagmi"; lit "ngmi"]
          = Some (inr [[]; []; []], batches).
Proof.
  assert (H1 : (1 <= 2)%Z) by lia.
  split; [exact H1|].
  destruct (@generateBatchEmbeddings_in_order
              (fun _ batch => inr (List.map (fun _ => []) batch))
              (fun _ => []) 2 0 [lit "gm"; lit "wagmi"; lit "ngmi"] H1)
    as (batches & Hchunk & Hall & _).
  exists batches. split; [exact Hchunk|].
  exact (Hall (fun k batch => eq_refl)).
Defined.

End EmbeddingsProperties.

(** ** Response templates *)

Section TemplatesProperties.
Import Templates.
Local Open Scope R_scope.

Lemma randomIndex_in_range (random : R) (n : nat) :
  0 <= random < 1 -> (0 < n)%nat ->
  (0 <= Int_part (random * INR n) < Z.of_nat n)%Z.
Proof.
  intros [H0 H1] Hn.
  assert (Hpos : 0 < INR n) by now apply lt_0_INR.
  destruct (base_Int_part (random * INR n)) as [Hle Hgt].
  assert (Hx0 : 0 <= random * INR n) by now apply Rmult_le_pos; lra.
  assert (Hx1 : random * INR n < INR n) by nra.
  split.
  - apply le_IZR. simpl.
    assert (-1 < IZR (Int_part (random * INR n))) by lra.
    assert (Hlt : (-1 < Int_part (random * INR n))%Z) by (apply lt_IZR; exact H).
    apply IZR_le. lia.
  - apply lt_IZR. rewrite <- INR_IZR_INZ. lra.
Qed.

Lemma eligible_iff_fits (templates : list ResponseTemplate) (s : SentimentScore) t :
  In t (eligibleTemplates templates s) <-> In t templates /\ fits t s.
Proof.
  unfold eligibleTemplates, fits. rewrite filter_In, andb_true_iff.
  assert (Hc : Js.eqb (t_category t) (category s) = true
               <-> t_category t = category s)
    by (split; [apply eqb_eq | intros ->; apply eqb_refl]).
  assert (Hm : meetsThreshold t s = true
               <-> match confidenceThreshold t with
                   | None => True
                   | Some threshold => threshold = 0 \/ threshold <= confidence s
                   end).
  { unfold meetsThreshold. destruct (confidenceThreshold t) as [th|]; [|tauto].
    destruct (Req_dec_T th 0); [tauto|].
    destruct (Rle_dec th (confidence s)); [tauto|].
    split; [discriminate | intros [?|?]; contradiction]. }
  tauto.
Qed.

(** X25. For a random number in [0, 1), getResponse never throws.  Call a
    template fitting when its category is that of the score and its
    confidence threshold is absent, 0, or at most the confidence of the
    score.  If no template of the list is fitting the answer is the
    fallback sentence; if some template is, the answer is the text of a
    fitting template of the list. *)
Theorem getResponse_answers :
  forall (templates : list ResponseTemplate) (random : R) (s : SentimentScore),
    0 <= random < 1 ->
    exists text,
      getResponse templates random s = inr text
      /\ ((forall t, In t templates -> ~ fits t s) -> text = FALLBACK)
      /\ ((exists t, In t templates /\ fits t s) ->
          exists t, In t templates /\ fits t s /\ template t = text).
Proof.
  intros templates random s Hr. unfold getResponse.
  destruct (eligibleTemplates templates s) as [|t0 rest] eqn:E.
  - exists FALLBACK. split; [reflexivity|]. split; [reflexivity|].
    intros (t & Hin & Hfit). exfalso.
    pose proof (proj2 (eligible_iff_fits templates s t) (conj Hin Hfit)) as H.
    rewrite E in H. exact H.
  - set (eligible := t0 :: rest) in *.
    destruct (@randomIndex_in_range random (List.length eligible) Hr) as [Hlo Hhi];
      [simpl; lia|].
    replace (Int_part (random * INR (List.length eligible)) <? 0)%Z with false
      by (symmetry; apply Z.ltb_ge; exact Hlo).
    destruct (nth_error eligible (Z.to_nat (Int_part (random * INR (List.length eligible)))))
      as [t|] eqn:Hn.
    + exists (template t). split; [reflexivity|].
      apply nth_error_In in Hn. rewrite <- E in Hn.
      apply eligible_iff_fits in Hn as [Hin Hfit].
      split.
      * intros Hnone. exfalso. exact (Hnone t Hin Hfit).
      * intros _. exists t. split; [exact Hin|]. split; [exact Hfit | reflexivity].
    + exfalso. apply nth_error_None in Hn. lia.
Qed.

Lemma getResponse_answers_witness :
  0 <= 0.5 < 1
  /\ (exists t, In t INITIAL_TEMPLATES
                /\ fits t {| score := -0.8; category := lit "strongly_negative";
                             confidence := 0.65 |})
  /\ getResponse INITIAL_TEMPLATES 0.5
       {| score := -0.8; category := lit "strongly_negative"; confidence := 0.65 |}
     = inr (lit "I hear your concerns and they're valid. Would you like to "
              ++ lit "discuss potential solutions?").
Proof.
  set (s := {| score := -0.8; category := lit "strongly_negative";
               confidence := 0.65 |}).
  set (second := {| t_category := lit "strongly_negative";
                    template :=
                      lit "I hear your concerns and they're valid. Would you like to "
                        ++ lit "discuss potential solutions?";
                    useCase := lit "problem_solving";
                    confidenceThreshold := Some 0.6 |}).
  assert (H : 0 <= 0.5 < 1) by lra.
  assert (Hfit : exists t, In t INITIAL_TEMPLATES /\ fits t s).
  { exists second. split; [right; left; reflexivity|].
    split; [reflexivity|]. cbn. right. lra. }
  split; [exact H|]. split; [exact Hfit|].
  destruct (@getResponse_answers INITIAL_TEMPLATES 0.5 s H)
    as (text & Hrun & _ & Hsome).
  rewrite Hrun. f_equal.
  destruct (Hsome Hfit) as (t & Hin & [Hcat Hth] & <-).
  assert (Hcases : confidenceThreshold t = Some 0.7 /\ t_category t = lit "strongly_negative"
                   \/ template t = template second
                   \/ t_category t <> lit "strongly_negative").
  { unfold INITIAL_TEMPLATES in Hin. cbn [In] in Hin.
    destruct Hin as [<-|[<-|Hin]]; [left; split; reflexivity | right; left; reflexivity|].
    right; right.
    repeat (destruct Hin as [<-|Hin]; [cbn [t_category]; discriminate|]).
    contradiction. }
  destruct Hcases as [[H7 _]|[Ht|Hne]].
  - rewrite H7 in Hth. cbn in Hth. lra.
  - exact Ht.
  - contradiction.
Defined.

Lemma eligible_none (templates : list ResponseTemplate) (s : SentimentScore) :
  (forall t, In t templates ->
             Js.eqb (t_category t) (category s) && meetsThreshold t s = false) ->
  eligibleTemplates templates s = [].
Proof.
  intros H. unfold eligibleTemplates.
  induction templates as [|t ts IH]; simpl; [reflexivity|].
  rewrite (H t) by now left. apply IH. intros t' Ht'. apply H. now right.
Qed.

Lemma initial_thresholds :
  List.map confidenceThreshold INITIAL_TEMPLATES
  = [Some 0.7; Some 0.6; Some 0.6; Some 0.5; Some 0.5; Some 0.4; Some 0.6;
     Some 0.5; Some 0.7; Some 0.6].
Proof. reflexivity. Qed.

Lemma initial_categories :
  List.map t_category INITIAL_TEMPLATES
  = [lit "strongly_negative"; lit "strongly_negative"; lit "mildly_negative";
     lit "mildly_negative"; lit "neutral"; lit "neutral"; lit "mildly_positive";
     lit "mildly_positive"; lit "strongly_positive"; lit "strongly_positive"].
Proof. reflexivity. Qed.

Lemma eligible_initial_low (s : SentimentScore) :
  confidence s < 0.4 -> eligibleTemplates INITIAL_TEMPLATES s = [].
Proof.
  intros Hc. apply eligible_none. intros t Ht.
  apply (in_map confidenceThreshold) in Ht. rewrite initial_thresholds in Ht.
  apply andb_false_iff. right. unfold meetsThreshold.
  repeat (destruct Ht as [<-|Ht];
          [destruct (Req_dec_T _ 0); [lra|];
           destruct (Rle_dec _ (confidence s)); [lra | reflexivity]|]).
  contradiction.
Qed.

Lemma eligible_initial_other (s : SentimentScore) :
  existsb (Js.eqb (category s))
          [lit "strongly_negative"; lit "mildly_negative"; lit "neutral";
           lit "mildly_positive"; lit "strongly_positive"] = false ->
  eligibleTemplates INITIAL_TEMPLATES s = [].
Proof.
  intros Hc. cbn [existsb] in Hc.
  repeat (apply orb_false_iff in Hc as [? Hc]).
  apply eligible_none. intros t Ht.
  apply (in_map t_category) in Ht. rewrite initial_categories in Ht.
  apply andb_false_iff. left. rewrite eqb_sym.
  repeat (destruct Ht as [<-|Ht]; [assumption|]).
  contradiction.
Qed.

(** X26. With the templates a new ResponseTemplateService starts with,
    getResponse answers with the fallback sentence for every score whose
    confidence is below 0.4, and for every score whose category is none
    of the five categories the templates name. The analysis service
    names its categories differently (bearish and bullish, not negative
    and positive), so every score it produces whose category is not
    neutral gets the fallback sentence. *)
Theorem initial_templates_fallback :
  forall random : R,
    (forall s : SentimentScore,
        confidence s < 0.4 -> getResponse INITIAL_TEMPLATES random s = inr FALLBACK)
    /\ (forall s : SentimentScore,
           existsb (Js.eqb (category s))
                   [lit "strongly_negative"; lit "mildly_negative"; lit "neutral";
                    lit "mildly_positive"; lit "strongly_positive"] = false ->
           getResponse INITIAL_TEMPLATES random s = inr FALLBACK)
    /\ (forall s : Types.SentimentScore,
           Types.category s <> neutral ->
           getResponse INITIAL_TEMPLATES random (of_service s) = inr FALLBACK).
Proof.
  intros random. split; [|split].
  - intros s Hc. unfold getResponse. now rewrite eligible_initial_low.
  - intros s Hn. unfold getResponse. now rewrite eligible_initial_other.
  - intros s Hn. unfold getResponse. rewrite eligible_initial_other; [reflexivity|].
    unfold of_service. cbn [category].
    destruct (Types.category s); try reflexivity. congruence.
Qed.

Lemma initial_templates_fallback_witness :
  0.2 < 0.4
  /\ getResponse INITIAL_TEMPLATES 0.5
       {| score := 0.3; category := lit "mildly_positive"; confidence := 0.2 |}
     = inr FALLBACK
  /\ strongly_bullish <> neutral
  /\ getResponse INITIAL_TEMPLATES 0.5
       (of_service {| Types.score := 1; Types.category := strongly_bullish;
                      Types.confidence := 1 |})
     = inr FALLBACK.
Proof.
  assert (H : 0.2 < 0.4) by lra.
  assert (H' : strongly_bullish <> neutral) by discriminate.
  split; [exact H|]. split.
  - exact (proj1 (initial_templates_fallback 0.5)
             {| score := 0.3; category := lit "mildly_positive"; confidence := 0.2 |} H).
  - split; [exact H'|].
    exact (proj2 (proj2 (initial_templates_fallback 0.5))
             {| Types.score := 1; Types.category := strongly_bullish;
                Types.confidence := 1 |} H').
Defined.

End TemplatesProperties.

(** ** Price mentions *)

Section PriceDetectorProperties.
Import Window Regex Price.

Section RegexProperties.

Lemma last_of_app prev a b : last_of prev (a ++ b) = last_of (last_of prev a) b.
Proof. unfold last_of. apply fold_left_app. Qed.

Lemma last_of_snoc prev a c : last_of prev (a ++ [c]) = Some c.
Proof. rewrite last_of_app. reflexivity. Qed.

Lemma last_error_snoc a c : last_error (a ++ [c]) = Some c.
Proof. apply last_of_snoc. Qed.

Lemma last_of_last_error before t :
  last_of (last_error before) t = last_error (before ++ t).
Proof. unfold last_error. now rewrite last_of_app. Qed.

Lemma star_sound p s : forall prev k x,
  star p prev s k = Some x ->
  exists t rest, s = t ++ rest /\ Matches (Star p) prev t rest
                 /\ k (last_of prev t) rest = Some x.
Proof.
  induction s as [|c s IH]; intros prev k x H; simpl in H.
  - exists [], []. repeat split; [constructor | exact H].
  - destruct (p c) eqn:Hp.
    + destruct (star p (Some c) s k) as [r|] eqn:Hs.
      * injection H as <-. destruct (IH _ _ _ Hs) as (t & rest & -> & Hm & Hk).
        exists (c :: t), rest. repeat split; [now constructor | exact Hk].
      * exists [], (c :: s). repeat split; [constructor | exact H].
    + exists [], (c :: s). repeat split; [constructor | exact H].
Qed.

Lemma run_sound r : forall prev s k x,
  run r prev s k = Some x ->
  exists t rest, s = t ++ rest /\ Matches r prev t rest
                 /\ k (last_of prev t) rest = Some x.
Proof.
  induction r as [|p|a IHa b IHb|a IHa b IHb|p|]; intros prev s k x H; simpl in H.
  - exists [], s. repeat split; [constructor | exact H].
  - destruct s as [|c s]; [discriminate|]. destruct (p c) eqn:Hp; [|discriminate].
    exists [c], s. repeat split; [now constructor | exact H].
  - destruct (IHa _ _ _ _ H) as (t1 & rest1 & -> & Ha & H1).
    destruct (IHb _ _ _ _ H1) as (t2 & rest & -> & Hb & H2).
    exists (t1 ++ t2), rest. rewrite <- app_assoc. repeat split.
    + now constructor.
    + now rewrite last_of_app.
  - destruct (run a prev s k) as [y|] eqn:Ha.
    + injection H as <-. destruct (IHa _ _ _ _ Ha) as (t & rest & -> & Hm & Hk).
      exists t, rest. repeat split; [now apply M_AltL | exact Hk].
    + destruct (IHb _ _ _ _ H) as (t & rest & -> & Hm & Hk).
      exists t, rest. repeat split; [now apply M_AltR | exact Hk].
  - now apply star_sound.
  - destruct (xorb _ _) eqn:Hx; [|discriminate].
    exists [], s. repeat split; [now constructor | exact H].
Qed.

Lemma run_complete r prev t rest :
  Matches r prev t rest ->
  forall k x, k (last_of prev t) rest = Some x ->
              exists y, run r prev (t ++ rest) k = Some y.
Proof.
  induction 1 as [prev rest|p c prev rest Hp|a b prev t1 t2 rest _ IHa _ IHb
                  |a b prev t rest _ IH|a b prev t rest _ IH
                  |p prev rest|p c prev t rest Hp _ IH|prev rest Hx];
    intros k x Hk; simpl.
  - eauto.
  - rewrite Hp. eauto.
  - rewrite <- app_assoc. rewrite last_of_app in Hk.
    destruct (IHb _ _ Hk) as [y Hy]. exact (IHa _ _ Hy).
  - destruct (IH _ _ Hk) as [y ->]. eauto.
  - destruct (run a prev (t ++ rest) k); [eauto|]. exact (IH _ _ Hk).
  - destruct rest as [|c rest]; simpl; [eauto|].
    destruct (p c); [|eauto]. destruct (star p (Some c) rest k); eauto.
  - rewrite Hp. destruct (IH _ _ Hk) as [y Hy]. simpl in Hy. rewrite Hy. eauto.
  - rewrite Hx. eauto.
Qed.

Lemma match_here_sound r prev s text :
  match_here r prev s = Some text ->
  exists rest, s = text ++ rest /\ Matches r prev text rest.
Proof.
  unfold match_here. intros H.
  destruct (run r prev s (fun _ rest => Some rest)) as [rest|] eqn:Hr; [|discriminate].
  injection H as <-.
  destruct (run_sound _ _ _ _ Hr) as (t & rest' & -> & Hm & Hk).
  injection Hk as ->. exists rest.
  replace (List.length (t ++ rest) - List.length rest)%nat with (List.length t)
    by (rewrite length_app; lia).
  rewrite firstn_app, Nat.sub_diag, firstn_all, firstn_O, app_nil_r. auto.
Qed.

Lemma match_here_complete r prev t rest :
  Matches r prev t rest -> exists text, match_here r prev (t ++ rest) = Some text.
Proof.
  intros H. unfold match_here.
  destruct (@run_complete r prev t rest H (fun _ rest => Some rest) rest eq_refl)
    as [y ->]. eauto.
Qed.

(** The matches reported by the exec loop are matches of the pattern. *)
Lemma exec_all_sound r s : forall skip before i v,
  In (i, v) (exec_all r skip (List.length before) (last_error before) s) ->
  exists mid rest, s = mid ++ v ++ rest /\ i = List.length (before ++ mid)
                   /\ Matches r (last_error (before ++ mid)) v rest.
Proof.
  induction s as [|c s IH]; intros skip before i v H; simpl in H; [contradiction|].
  assert (Hnext : forall n,
             In (i, v) (exec_all r n (S (List.length before)) (Some c) s) ->
             exists mid rest, c :: s = mid ++ v ++ rest
                              /\ i = List.length (before ++ mid)
                              /\ Matches r (last_error (before ++ mid)) v rest).
  { intros n Hn.
    replace (S (List.length before)) with (List.length (before ++ [c])) in Hn
      by (rewrite length_app; simpl; lia).
    rewrite <- (last_error_snoc before c) in Hn.
    destruct (IH _ _ _ _ Hn) as (mid & rest & -> & -> & Hm).
    exists (c :: mid), rest. rewrite <- app_assoc in Hm. rewrite <- app_assoc.
    auto. }
  destruct skip as [|n]; [|now apply Hnext in H].
  destruct (match_here r (last_error before) (c :: s)) as [text|] eqn:Hh;
    [|now apply Hnext in H].
  destruct H as [H|H]; [|now apply Hnext in H].
  injection H as <- <-.
  destruct (match_here_sound _ _ _ Hh) as (rest & Hs & Hm).
  exists [], rest. rewrite app_nil_r. auto.
Qed.

(** A match anywhere in the input makes the loop report something. *)
Lemma exec_all_nonempty r mid : forall skip idx prev before t rest,
  prev = last_error before ->
  (skip <= List.length mid)%nat -> t <> [] ->
  Matches r (last_error (before ++ mid)) t rest ->
  exec_all r skip idx prev (mid ++ t ++ rest) <> [].
Proof.
  induction mid as [|c mid IH]; intros skip idx prev before t rest -> Hskip Ht Hm.
  - simpl in Hskip. assert (skip = 0%nat) as -> by lia.
    rewrite app_nil_r in Hm. destruct (match_here_complete Hm) as [text Hh].
    simpl. destruct t as [|c t]; [congruence|]. simpl in *. rewrite Hh. discriminate.
  - simpl.
    assert (Hnext : forall n, (n <= List.length mid)%nat ->
               exec_all r n (S idx) (Some c) (mid ++ t ++ rest) <> []).
    { intros n Hn. apply (IH n (S idx) (Some c) (before ++ [c]) t rest);
        [now rewrite last_error_snoc | exact Hn | exact Ht |].
      now rewrite <- app_assoc. }
    simpl in Hskip. destruct skip as [|n]; [|apply Hnext; lia].
    destruct (match_here r (last_error before) (c :: mid ++ t ++ rest));
      [discriminate | apply Hnext; lia].
Qed.

(** A match is reported when no earlier match reaches into it. *)
Lemma exec_all_reaches r mid : forall skip before v rest,
  (skip <= List.length mid)%nat -> v <> [] ->
  match_here r (last_error (before ++ mid)) (v ++ rest) = Some v ->
  (forall mid1 c mid2 v',
      mid = mid1 ++ c :: mid2 -> (skip <= List.length mid1)%nat ->
      match_here r (last_error (before ++ mid1)) (c :: mid2 ++ v ++ rest) = Some v' ->
      (List.length v' <= S (List.length mid2))%nat) ->
  In (List.length (before ++ mid), v)
     (exec_all r skip (List.length before) (last_error before) (mid ++ v ++ rest)).
Proof.
  induction mid as [|c mid IH]; intros skip before v rest Hskip Hv Hh Hfree.
  - simpl in Hskip. assert (skip = 0%nat) as -> by lia.
    rewrite app_nil_r in *. simpl. destruct v as [|c v]; [congruence|].
    simpl in *. rewrite Hh. now left.
  - assert (Hnext : forall n, (n <= List.length mid)%nat -> (skip <= S n)%nat ->
               In (List.length (before ++ c :: mid), v)
                  (exec_all r n (S (List.length before)) (Some c) (mid ++ v ++ rest))).
    { intros n Hn Hsn.
      replace (S (List.length before)) with (List.length (before ++ [c]))
        by (rewrite length_app; simpl; lia).
      rewrite <- (last_error_snoc before c).
      replace (before ++ c :: mid) with ((before ++ [c]) ++ mid)
        by (now rewrite <- app_assoc).
      apply IH; [exact Hn | exact Hv | now rewrite <- app_assoc |].
      intros mid1 c' mid2 v' -> Hlen Hh'.
      apply (Hfree (c :: mid1) c' mid2 v'); [reflexivity | simpl; lia |].
      now rewrite <- app_assoc in Hh'. }
    simpl in Hskip. simpl. destruct skip as [|n]; [|apply Hnext; lia].
    destruct (match_here r (last_error before) (c :: mid ++ v ++ rest))
      as [v'|] eqn:Hh'; [|apply Hnext; lia].
    right. apply Hnext; [|lia].
    assert (List.length v' <= S (List.length mid))%nat; [|lia].
    apply (Hfree [] c mid v'); [reflexivity | simpl; lia |].
    now rewrite app_nil_r.
Qed.

End RegexProperties.

Section PriceProperties.

Local Open Scope N_scope.

Lemma app_eq_length {A} (a c b d : list A) :
  a ++ b = c ++ d -> List.length a = List.length c -> a = c /\ b = d.
Proof.
  revert c. induction a as [|x a IH]; intros [|y c] H Hl; simpl in *;
    try discriminate; [auto|].
  injection H as -> H. destruct (IH c H ltac:(lia)) as [-> ->]. auto.
Qed.

Lemma app_eq_prefix {A} (a c b d : list A) :
  a ++ b = c ++ d -> (List.length a <= List.length c)%nat ->
  exists w, c = a ++ w.
Proof.
  revert c. induction a as [|x a IH]; intros c H Hl; simpl in *; [eauto|].
  destruct c as [|y c]; simpl in *; [lia|].
  injection H as -> H. destruct (IH c H ltac:(lia)) as [w ->]. eauto.
Qed.

Lemma Matches_Star p t : forall prev rest,
  Matches (Star p) prev t rest <-> forallb p t = true.
Proof.
  induction t as [|c t IH]; intros prev rest; simpl.
  - split; [reflexivity | constructor].
  - rewrite andb_true_iff. split.
    + intros H. inversion H; subst. split; [assumption|]. now apply (IH (Some c) rest).
    + intros [Hp Ht]. constructor; [assumption|]. now apply IH.
Qed.

Lemma Matches_word_ci w : forall prev t rest,
  Matches (word_ci w) prev t rest <-> ci_eq w t = true.
Proof.
  induction w as [|l w IH]; intros prev t rest; simpl.
  - split.
    + intros H. inversion H; subst. reflexivity.
    + destruct t; [constructor | discriminate].
  - split.
    + intros H. inversion H as [| |a b p t1 t2 r Ha Hb| | | | |]; subst.
      unfold letter in Ha. inversion Ha; subst. simpl.
      rewrite andb_true_iff. split; [assumption|]. now apply IH in Hb.
    + destruct t as [|c t]; [discriminate|]. rewrite andb_true_iff. intros [Hc Ht].
      change (c :: t) with ([c] ++ t). constructor.
      * unfold letter. now constructor.
      * now apply IH.
Qed.

Lemma letter_word l c : lower l = true -> letter_match l c = true -> word c = true.
Proof.
  unfold lower, letter_match, word, digit. intros Hl Hc.
  apply andb_true_iff in Hl as [H1 H2]. apply N.leb_le in H1, H2.
  apply orb_true_iff in Hc as [Hc|Hc]; apply N.eqb_eq in Hc; subst c.
  - assert ((97 <=? l) = true) as -> by now apply N.leb_le.
    assert ((l <=? 122) = true) as -> by now apply N.leb_le. reflexivity.
  - assert ((65 <=? l - 32) = true) as -> by (apply N.leb_le; lia).
    assert ((l - 32 <=? 90) = true) as -> by (apply N.leb_le; lia).
    now rewrite orb_true_r.
Qed.

Lemma ci_eq_word w : forall t,
  forallb lower w = true -> ci_eq w t = true ->
  forallb word t = true /\ List.length t = List.length w.
Proof.
  induction w as [|l w IH]; intros [|c t] Hw H; simpl in *; try discriminate; [auto|].
  apply andb_true_iff in Hw as [Hl Hw]. apply andb_true_iff in H as [Hc H].
  destruct (IH t Hw H) as [Ht Hlen]. rewrite (letter_word _ _ Hl Hc), Ht. auto.
Qed.

Lemma last_of_word t : forall prev,
  t <> [] -> forallb word t = true -> word_at (last_of prev t) = true.
Proof.
  induction t as [|c t IH]; intros prev Hne H; [congruence|]. simpl in H.
  apply andb_true_iff in H as [Hc Ht]. destruct t as [|c' t]; [exact Hc|].
  change (last_of prev (c :: c' :: t)) with (last_of (Some c) (c' :: t)).
  apply IH; [discriminate | exact Ht].
Qed.

Lemma hd_word t rest :
  t <> [] -> forallb word t = true -> word_at (hd_error (t ++ rest)) = true.
Proof.
  destruct t as [|c t]; [congruence|]. simpl. intros _ H.
  now apply andb_true_iff in H as [H _].
Qed.

(** A term between word boundaries. *)
Lemma Matches_termRegex t prev v rest :
  t <> [] -> forallb lower t = true ->
  (Matches (termRegex t) prev v rest
   <-> ci_eq t v = true /\ word_at prev = false /\ word_at (hd_error rest) = false).
Proof.
  intros Hne Hlow. unfold termRegex. split.
  - intros H. inversion H as [| |a b p t1 t2 r Ha Hb| | | | |]; subst.
    inversion Ha; subst. simpl in *.
    inversion Hb as [| |a b p t1 t3 r Hc Hd| | | | |]; subst.
    inversion Hd; subst. rewrite app_nil_r in *.
    apply Matches_word_ci in Hc.
    destruct (ci_eq_word _ _ Hlow Hc) as [Hw Hlen].
    assert (Hv : t1 <> []) by (destruct t1, t; simpl in *; congruence).
    rewrite (hd_word _ Hv Hw) in *. rewrite (last_of_word _ Hv Hw) in *.
    split; [exact Hc|]. split.
    + now destruct (word_at prev).
    + now destruct (word_at (hd_error rest)).
  - intros (Hc & Hp & Hn).
    destruct (ci_eq_word _ _ Hlow Hc) as [Hw Hlen].
    assert (Hv : v <> []) by (destruct v, t; simpl in *; congruence).
    change v with ([] ++ v). constructor.
    + constructor. simpl. now rewrite (hd_word _ Hv Hw), Hp.
    + simpl. rewrite <- (app_nil_r v). constructor.
      * now apply Matches_word_ci.
      * constructor. now rewrite (last_of_word _ Hv Hw), Hn.
Qed.

Lemma exec_term_iff t message i v :
  t <> [] -> forallb lower t = true ->
  (In (i, v) (exec_all (termRegex t) 0 0 None message)
   <-> exists before after,
        message = before ++ v ++ after /\ i = List.length before
        /\ ci_eq t v = true
        /\ word_at (last_error before) = false
        /\ word_at (hd_error after) = false).
Proof.
  intros Hne Hlow. split.
  - intros H. apply (@exec_all_sound (termRegex t) message 0 [] i v) in H.
    destruct H as (mid & rest & -> & -> & Hm). simpl in Hm.
    apply Matches_termRegex in Hm; [|assumption..].
    exists mid, rest. tauto.
  - intros (before & after & -> & -> & Hc & Hp & Hn).
    destruct (ci_eq_word _ _ Hlow Hc) as [Hw Hlen].
    assert (Hv : v <> []) by (destruct v, t; simpl in *; congruence).
    apply (@exec_all_reaches (termRegex t) before 0 [] v after);
      [lia | exact Hv | |].
    + simpl.
      assert (Hm : Matches (termRegex t) (last_error before) v after)
        by (apply Matches_termRegex; auto).
      destruct (match_here_complete Hm) as [text Hh]. rewrite Hh. f_equal.
      destruct (match_here_sound _ _ _ Hh) as (rest' & Heq & Hm').
      apply Matches_termRegex in Hm'; [|assumption..].
      destruct Hm' as (Hc' & _).
      destruct (ci_eq_word _ _ Hlow Hc') as [_ Hlen'].
      symmetry. apply (app_eq_length _ _ _ _ Heq). congruence.
    + intros mid1 c mid2 v' -> _ Hh. simpl in Hh.
      destruct (match_here_sound _ _ _ Hh) as (rest' & Heq & Hm').
      apply Matches_termRegex in Hm'; [|assumption..].
      destruct Hm' as (Hc' & _).
      destruct (ci_eq_word _ _ Hlow Hc') as [Hw' _].
      destruct (Nat.le_gt_cases (List.length v') (S (List.length mid2)))
        as [Hle|Hgt]; [exact Hle | exfalso].
      change (c :: mid2 ++ v ++ after) with ((c :: mid2) ++ v ++ after) in Heq.
      destruct (app_eq_prefix _ _ _ _ Heq) as [w ->]; [simpl; lia|].
      rewrite forallb_app in Hw'. apply andb_true_iff in Hw' as [Hcm _].
      unfold last_error in Hp. rewrite last_of_app in Hp.
      rewrite last_of_word in Hp; [discriminate | discriminate | exact Hcm].
Qed.

Lemma prefix_spec p : forall s, prefix p s = true <-> exists rest, s = p ++ rest.
Proof.
  induction p as [|x p IH]; intros s; simpl.
  - split; eauto.
  - destruct s as [|y s].
    + split; [discriminate | intros [rest H]; discriminate].
    + rewrite andb_true_iff, N.eqb_eq, IH. split.
      * intros [-> [rest ->]]. eauto.
      * intros [rest H]. injection H as -> ->. eauto.
Qed.

Lemma indexesOf_iff e s : forall idx i,
  In i (indexesOf e idx s)
  <-> exists mid rest, s = mid ++ e ++ rest /\ i = (idx + List.length mid)%nat.
Proof.
  induction s as [|c s IH]; intros idx i.
  - simpl. rewrite app_nil_r. split.
    + destruct (prefix e []) eqn:Hp; [|contradiction].
      intros [<-|[]]. apply prefix_spec in Hp as [rest Hp].
      exists [], rest. simpl. split; [exact Hp | lia].
    + intros (mid & rest & H & ->).
      destruct mid; [|discriminate]. simpl in H.
      assert (Hp : prefix e [] = true) by (apply prefix_spec; eauto).
      rewrite Hp. left. simpl. lia.
  - cbn [indexesOf]. rewrite in_app_iff, IH. split.
    + intros [H|(mid & rest & -> & ->)].
      * destruct (prefix e (c :: s)) eqn:Hp; [|contradiction].
        destruct H as [<-|[]]. apply prefix_spec in Hp as [rest Hp].
        exists [], rest. simpl. split; [exact Hp | lia].
      * exists (c :: mid), rest. simpl. split; [reflexivity | lia].
    + intros (mid & rest & H & ->). destruct mid as [|c' mid].
      * left. simpl in H.
        assert (Hp : prefix e (c :: s) = true) by (apply prefix_spec; eauto).
        rewrite Hp. left. simpl. lia.
      * right. injection H as -> ->. exists mid, rest. simpl.
        split; [reflexivity | lia].
Qed.

Lemma includes_spec p : forall s,
  includes s p = true <-> exists a b, s = a ++ p ++ b.
Proof.
  induction s as [|c s IH]; simpl.
  - rewrite orb_false_r, prefix_spec. split.
    + intros [rest H]. exists [], rest. exact H.
    + intros (a & b & H). destruct a; [|discriminate]. eauto.
  - rewrite orb_true_iff, prefix_spec, IH. split.
    + intros [[rest H]|(a & b & ->)].
      * exists [], rest. exact H.
      * exists (c :: a), b. reflexivity.
    + intros (a & b & H). destruct a as [|c' a].
      * left. eauto.
      * right. injection H as -> ->. eauto.
Qed.

Lemma PRICE_TERMS_lower t :
  In t PRICE_TERMS -> t <> [] /\ forallb lower t = true.
Proof.
  intros H. unfold PRICE_TERMS in H. simpl in H.
  repeat (destruct H as [<-|H]; [split; [discriminate | reflexivity]|]).
  contradiction.
Qed.

(** X27. detectPriceMentions reports a term mention with value v at index i
    exactly when v stands at index i of the message, equals one of the
    six price terms up to the case of its letters, and has no word
    character right before or right after it; it reports an emoji
    mention with value e at index i exactly when e is one of the five
    price emojis and stands at index i of the message. *)
Theorem term_and_emoji_mentions_exact :
  forall (message : jsstring) (i : nat) (v : jsstring),
    (In {| type := term; value := v; index := i |} (detectPriceMentions message)
     <-> exists t before after,
          In t PRICE_TERMS /\ message = before ++ v ++ after
          /\ i = List.length before /\ ci_eq t v = true
          /\ word_at (last_error before) = false
          /\ word_at (hd_error after) = false)
    /\ (In {| type := emoji; value := v; index := i |} (detectPriceMentions message)
        <-> In v PRICE_EMOJIS
            /\ exists before after,
                message = before ++ v ++ after /\ i = List.length before).
Proof.
  intros message i v. unfold detectPriceMentions.
  rewrite !in_app_iff, !in_map_iff, !in_flat_map. split; split.
  - intros [(x & Hx & _)|[(t & Ht & Hin)|(e & _ & Hin)]]; [discriminate| |].
    + apply in_map_iff in Hin as ([i' v'] & Heq & Hin). simpl in Heq.
      injection Heq as -> ->.
      destruct (@PRICE_TERMS_lower t Ht) as [Hne Hlow].
      apply exec_term_iff in Hin; [|assumption..].
      destruct Hin as (before & after & H). exists t, before, after. tauto.
    + apply in_map_iff in Hin as (i' & Heq & _). discriminate.
  - intros (t & before & after & Ht & Hrest).
    right. left. exists t. split; [exact Ht|].
    apply in_map_iff. exists (i, v). split; [reflexivity|].
    destruct (@PRICE_TERMS_lower t Ht) as [Hne Hlow].
    apply exec_term_iff; [assumption..|]. exists before, after. exact Hrest.
  - intros [(x & Hx & _)|[(t & _ & Hin)|(e & He & Hin)]]; [discriminate| |].
    + apply in_map_iff in Hin as (x & Heq & _). discriminate.
    + apply in_map_iff in Hin as (i' & Heq & Hin). injection Heq as -> ->.
      split; [exact He|]. apply indexesOf_iff in Hin as (mid & rest & H1 & H2).
      exists mid, rest. split; [exact H1 | exact H2].
  - intros (He & before & after & Hm & Hi).
    right. right. exists v. split; [exact He|].
    apply in_map_iff. exists i. split; [reflexivity|].
    apply indexesOf_iff. exists before, after. split; [exact Hm | exact Hi].
Qed.

End PriceProperties.

Lemma term_and_emoji_mentions_exact_witness :
  In {| type := term; value := lit "PUMP"; index := 3 |}
     (detectPriceMentions (lit "we PUMP it"))
  /\ exists t before after,
       In t PRICE_TERMS /\ lit "we PUMP it" = before ++ lit "PUMP" ++ after
       /\ 3%nat = List.length before /\ ci_eq t (lit "PUMP") = true
       /\ word_at (last_error before) = false
       /\ word_at (hd_error after) = false.
Proof.
  assert (H : In {| type := term; value := lit "PUMP"; index := 3 |}
                 (detectPriceMentions (lit "we PUMP it")))
    by (vm_compute; left; reflexivity).
  split; [exact H|].
  exact (proj1 (proj1 (term_and_emoji_mentions_exact (lit "we PUMP it") 3
                         (lit "PUMP"))) H).
Defined.

Section MarketCapProperties.

Local Open Scope N_scope.

Ltac inv_seq H :=
  let Ha := fresh "Ha" in
  let Hb := fresh "Hb" in
  inversion H as [| |? ? ? ? ? ? Ha Hb| | | | |]; subst; clear H.

Ltac inv_alt H :=
  let Ha := fresh "Ha" in
  inversion H as [| | |? ? ? ? ? Ha|? ? ? ? ? Ha| | |]; subst; clear H.

Lemma ci_word w t :
  w <> [] -> forallb lower w = true -> ci_eq w t = true ->
  t <> [] /\ forallb word t = true.
Proof.
  intros Hne Hlow Hc. destruct (@ci_eq_word w t Hlow Hc) as [Hw Hlen].
  split; [|exact Hw]. destruct t, w; simpl in *; congruence.
Qed.

Lemma Matches_UNIT prev u rest :
  Matches UNIT prev u rest <-> unit_text u (hd_error rest).
Proof.
  unfold UNIT, unit_text. split.
  - intros H. inv_alt H; [left; now apply (Matches_word_ci (lit "mc")) in Ha|].
    inv_alt Ha.
    { right; left. inv_seq Ha0. inversion Hb; subst. rewrite app_nil_r.
      apply (Matches_word_ci (lit "m")) in Ha. split; [exact Ha|].
      destruct (@ci_word (lit "m") t1 ltac:(discriminate) eq_refl Ha) as [Hv Hw].
      rewrite (last_of_word _ Hv Hw) in *.
      now destruct (word_at (hd_error rest)). }
    inv_alt Ha0.
    { right; right; left. inv_seq Ha. inversion Hb; subst. rewrite app_nil_r.
      apply (Matches_word_ci (lit "mil")) in Ha0. split; [exact Ha0|].
      destruct (@ci_word (lit "mil") t1 ltac:(discriminate) eq_refl Ha0) as [Hv Hw].
      rewrite (last_of_word _ Hv Hw) in *.
      now destruct (word_at (hd_error rest)). }
    inv_alt Ha;
      [right; right; right; left; now apply (Matches_word_ci (lit "million")) in Ha0|].
    right; right; right; right. inv_seq Ha0. inv_seq Hb.
    apply (Matches_word_ci (lit "market")) in Ha. apply Matches_Star in Ha0.
    apply (Matches_word_ci (lit "cap")) in Hb0. eauto 10.
  - intros [H|[[H Hn]|[[H Hn]|[H|(a & sp & b & -> & Ha & Hsp & Hb)]]]].
    + apply M_AltL. now apply (Matches_word_ci (lit "mc")).
    + apply M_AltR, M_AltL. rewrite <- (app_nil_r u). constructor.
      * now apply (Matches_word_ci (lit "m")).
      * destruct (@ci_word (lit "m") u ltac:(discriminate) eq_refl H) as [Hv Hw].
        constructor. now rewrite (last_of_word _ Hv Hw), Hn.
    + apply M_AltR, M_AltR, M_AltL. rewrite <- (app_nil_r u). constructor.
      * now apply (Matches_word_ci (lit "mil")).
      * destruct (@ci_word (lit "mil") u ltac:(discriminate) eq_refl H) as [Hv Hw].
        constructor. now rewrite (last_of_word _ Hv Hw), Hn.
    + apply M_AltR, M_AltR, M_AltR, M_AltL. now apply (Matches_word_ci (lit "million")).
    + apply M_AltR, M_AltR, M_AltR, M_AltR. constructor.
      * now apply (Matches_word_ci (lit "market")).
      * constructor; [now apply Matches_Star | now apply (Matches_word_ci (lit "cap"))].
Qed.

Lemma Matches_Seq_inv a b prev t rest :
  Matches (Seq a b) prev t rest ->
  exists t1 t2, t = t1 ++ t2 /\ Matches a prev t1 (t2 ++ rest)
                /\ Matches b (last_of prev t1) t2 rest.
Proof. intros H. inversion H; subst. eauto. Qed.

Lemma Matches_Chr_inv p prev t rest :
  Matches (Chr p) prev t rest -> exists c, t = [c] /\ p c = true.
Proof. intros H. inversion H; subst. eauto. Qed.

Lemma Matches_mcRegex prev v rest :
  Matches mcRegex prev v rest <-> marketcap_text v (hd_error rest).
Proof.
  unfold mcRegex, marketcap_text. split.
  - intros H.
    apply Matches_Seq_inv in H as (t1 & r1 & -> & H1 & H).
    apply Matches_Chr_inv in H1 as (c & -> & Hc).
    apply Matches_Seq_inv in H as (d & r2 & -> & H2 & H). apply Matches_Star in H2.
    apply Matches_Seq_inv in H as (dot & r3 & -> & H3 & H).
    apply Matches_Seq_inv in H as (frac & r4 & -> & H4 & H). apply Matches_Star in H4.
    apply Matches_Seq_inv in H as (sp & u & -> & H5 & H). apply Matches_Star in H5.
    apply Matches_UNIT in H.
    exists (c :: d), dot, frac, sp, u. simpl. rewrite Hc, H2.
    repeat split; auto; [discriminate|].
    inversion H3 as [| | |? ? ? ? ? Ha|? ? ? ? ? Ha| | |]; subst.
    + right. apply Matches_Chr_inv in Ha as (c' & -> & Hc').
      apply N.eqb_eq in Hc'. now subst.
    + left. now inversion Ha.
  - intros (int & dot & frac & sp & u & -> & Hne & Hint & Hdot & Hfrac & Hsp & Hu).
    destruct int as [|c int]; [congruence|]. simpl in Hint.
    apply andb_true_iff in Hint as [Hc Hint].
    change ((c :: int) ++ dot ++ frac ++ sp ++ u)
      with ([c] ++ int ++ dot ++ frac ++ sp ++ u).
    constructor; [now constructor|].
    constructor; [now apply Matches_Star|].
    constructor.
    { destruct Hdot as [->| ->]; [apply M_AltR; constructor|].
      apply M_AltL. unfold exactly. now constructor. }
    constructor; [now apply Matches_Star|].
    constructor; [now apply Matches_Star|].
    now apply Matches_UNIT.
Qed.

Lemma word_range c : word c = true -> 48 <= c <= 122.
Proof.
  unfold word, digit. intros H.
  repeat (apply orb_true_iff in H as [H|H]);
    repeat match goal with
           | H : _ && _ = true |- _ => apply andb_true_iff in H as [? ?]
           | H : (_ <=? _) = true |- _ => apply N.leb_le in H
           | H : (_ =? _) = true |- _ => apply N.eqb_eq in H
           end; lia.
Qed.

Lemma word_not_space c : word c = true -> space c = false.
Proof.
  intros H. apply word_range in H. unfold space.
  repeat match goal with
         | |- context [?a <=? ?b] =>
             destruct (N.leb_spec a b); [try lia|]; simpl
         | |- context [?a =? ?b] =>
             destruct (N.eqb_spec a b); [try lia|]; simpl
         end; try reflexivity; lia.
Qed.

Lemma trim_word_ends c body d :
  word c = true -> word d = true -> trim (c :: body ++ [d]) = c :: body ++ [d].
Proof.
  intros Hc Hd. unfold trim. cbn [trimStart].
  rewrite (word_not_space _ Hc).
  change (c :: body ++ [d]) with ((c :: body) ++ [d]).
  generalize (c :: body). intros l.
  rewrite rev_app_distr. cbn [rev app trimStart].
  rewrite (word_not_space _ Hd). cbn [rev]. now rewrite rev_involutive.
Qed.

Lemma word_last t :
  t <> [] -> forallb word t = true -> exists t' d, t = t' ++ [d] /\ word d = true.
Proof.
  intros Hne Hw. destruct (exists_last Hne) as (t' & d & ->).
  rewrite forallb_app in Hw. apply andb_true_iff in Hw as [_ Hd]. simpl in Hd.
  exists t', d. split; [reflexivity|]. now destruct (word d).
Qed.

Lemma unit_text_last u next :
  unit_text u next -> exists u' d, u = u' ++ [d] /\ word d = true.
Proof.
  intros [H|[[H _]|[[H _]|[H|(a & sp & b & -> & _ & _ & H)]]]].
  - apply word_last; now apply (@ci_word (lit "mc")).
  - apply word_last; now apply (@ci_word (lit "m")).
  - apply word_last; now apply (@ci_word (lit "mil")).
  - apply word_last; now apply (@ci_word (lit "million")).
  - destruct (@ci_word (lit "cap") b ltac:(discriminate) eq_refl H) as [Hv Hw].
    destruct (word_last Hv Hw) as (b' & d & -> & Hd).
    exists (a ++ sp ++ b'), d. now rewrite <- !app_assoc.
Qed.

Lemma trim_marketcap v next : marketcap_text v next -> trim v = v.
Proof.
  intros (int & dot & frac & sp & u & -> & Hne & Hint & _ & _ & _ & Hu).
  destruct int as [|c int]; [congruence|]. simpl in Hint.
  apply andb_true_iff in Hint as [Hc _].
  destruct (unit_text_last Hu) as (u' & d & -> & Hd).
  replace ((c :: int) ++ dot ++ frac ++ sp ++ u' ++ [d])
    with (c :: (int ++ dot ++ frac ++ sp ++ u') ++ [d])
    by (simpl; now rewrite <- !app_assoc).
  apply trim_word_ends; [|exact Hd].
  unfold word. rewrite Hc. now rewrite !orb_true_r.
Qed.

Lemma marketcap_nonempty v next : marketcap_text v next -> v <> [].
Proof.
  intros (int & dot & frac & sp & u & -> & Hne & _). now destruct int.
Qed.

Lemma exec_marketcap_sound message i text :
  In (i, text) (exec_all mcRegex 0 0 None message) ->
  exists before after,
    message = before ++ text ++ after /\ i = List.length before
    /\ marketcap_text text (hd_error after).
Proof.
  intros H. apply (@exec_all_sound mcRegex message 0 [] i text) in H.
  destruct H as (mid & rest & -> & -> & Hm). apply Matches_mcRegex in Hm.
  exists mid, rest. auto.
Qed.

(** X28. Every market-cap mention of detectPriceMentions points at its own
    text: its value stands at its index in the message (trim removes
    nothing), and consists of one or more digits, an optional point,
    digits, white space, and a unit, which is mc, m, mil, million, or
    market and cap with white space between, in any case of the letters,
    where m and mil are not followed by a word character. *)
Theorem marketcap_mentions_sound :
  forall (message : jsstring) (i : nat) (v : jsstring),
    In {| type := marketcap; value := v; index := i |} (detectPriceMentions message) ->
    exists before after,
      message = before ++ v ++ after /\ i = List.length before
      /\ marketcap_text v (hd_error after).
Proof.
  intros message i v. unfold detectPriceMentions.
  rewrite !in_app_iff, !in_map_iff, !in_flat_map.
  intros [([i' text] & Heq & Hin)|[(t & _ & Hin)|(e & _ & Hin)]].
  - simpl in Heq. apply exec_marketcap_sound in Hin.
    destruct Hin as (before & after & Hm & Hi & Hshape).
    rewrite (trim_marketcap Hshape) in Heq. injection Heq as -> ->.
    exists before, after. auto.
  - apply in_map_iff in Hin as (x & Heq & _). discriminate.
  - apply in_map_iff in Hin as (x & Heq & _). discriminate.
Qed.

Lemma marketcap_mentions_sound_witness :
  exists before after,
    lit "cap 1.5 mil?" = before ++ lit "1.5 mil" ++ after
    /\ 4%nat = List.length before
    /\ marketcap_text (lit "1.5 mil") (hd_error after).
Proof.
  apply (@marketcap_mentions_sound (lit "cap 1.5 mil?") 4 (lit "1.5 mil")).
  vm_compute. left. reflexivity.
Defined.

Lemma length_pos_In {A} (l : list A) :
  (0 < List.length l)%nat <-> exists m, In m l.
Proof.
  destruct l as [|m l]; simpl; split.
  - lia.
  - intros [m []].
  - intros _. exists m. now left.
  - intros _. lia.
Qed.

(** X29. hasPriceMentions is true exactly when the message contains a text
    of the market-cap form (digits, optional point, digits, white space,
    unit), or one of the six price terms as a whole word in any case of
    its letters, or one of the five price emojis. *)
Theorem hasPriceMentions_iff :
  forall message : jsstring,
    hasPriceMentions message = true
    <-> (exists before v after,
           message = before ++ v ++ after /\ marketcap_text v (hd_error after))
        \/ (exists t before v after,
              In t PRICE_TERMS /\ message = before ++ v ++ after
              /\ ci_eq t v = true
              /\ word_at (last_error before) = false
              /\ word_at (hd_error after) = false)
        \/ (exists e, In e PRICE_EMOJIS /\ includes message e = true).
Proof.
  intros message. unfold hasPriceMentions. rewrite Nat.ltb_lt, length_pos_In.
  unfold detectPriceMentions. split.
  - intros [m Hin].
    rewrite !in_app_iff, !in_map_iff, !in_flat_map in Hin.
    destruct Hin as [([i text] & _ & Hin)|[(t & Ht & Hin)|(e & He & Hin)]].
    + left. apply exec_marketcap_sound in Hin.
      destruct Hin as (before & after & Hm & _ & Hshape). eauto.
    + right; left. apply in_map_iff in Hin as ([i v] & _ & Hin).
      destruct (@PRICE_TERMS_lower t Ht) as [Hne Hlow].
      apply exec_term_iff in Hin; [|assumption..].
      destruct Hin as (before & after & Hm & _ & Hrest).
      exists t, before, v, after. tauto.
    + right; right. apply in_map_iff in Hin as (i & _ & Hin).
      apply indexesOf_iff in Hin as (mid & rest & Hm & _).
      exists e. split; [exact He|]. apply includes_spec. eauto.
  - intros [(before & v & after & -> & Hshape)
           |[(t & before & v & after & Ht & Hm & Hrest)|(e & He & Hinc)]].
    + assert (Hne : exists x, In x (exec_all mcRegex 0 0 None (before ++ v ++ after))).
      { apply length_pos_In.
        pose proof (@exec_all_nonempty mcRegex before 0 0 None [] v after
                      eq_refl ltac:(lia) (marketcap_nonempty Hshape)
                      (proj2 (Matches_mcRegex _ _ _) Hshape)) as Hne.
        destruct (exec_all mcRegex 0 0 None (before ++ v ++ after));
          [congruence | simpl; lia]. }
      destruct Hne as [x Hx].
      eexists. apply in_app_iff. left. apply in_map. exact Hx.
    + destruct (@PRICE_TERMS_lower t Ht) as [Hne Hlow].
      exists {| type := term; value := v; index := List.length before |}.
      apply in_app_iff. right. apply in_app_iff. left.
      apply in_flat_map. exists t. split; [exact Ht|].
      apply in_map_iff. exists (List.length before, v). split; [reflexivity|].
      apply exec_term_iff; [assumption..|]. exists before, after. tauto.
    + apply includes_spec in Hinc as (a & b & Hm).
      exists {| type := emoji; value := e; index := List.length a |}.
      apply in_app_iff. right. apply in_app_iff. right.
      apply in_flat_map. exists e. split; [exact He|].
      apply in_map_iff. exists (List.length a). split; [reflexivity|].
      apply indexesOf_iff. exists a, b. auto.
Qed.

End MarketCapProperties.

Lemma hasPriceMentions_iff_witness :
  hasPriceMentions (lit "pumping 3mx") = false
  /\ ~ (exists before v after,
          lit "pumping 3mx" = before ++ v ++ after
          /\ marketcap_text v (hd_error after)).
Proof.
  assert (H : hasPriceMentions (lit "pumping 3mx") = false)
    by (vm_compute; reflexivity).
  split; [exact H|].
  intros Hm.
  pose proof (proj2 (hasPriceMentions_iff (lit "pumping 3mx")) (or_introl Hm)) as Ht.
  rewrite H in Ht. discriminate Ht.
Defined.

Section ProcessorProperties.

Lemma set_add_In users u u' : In u' (set_add users u) <-> In u' users \/ u' = u.
Proof.
  unfold set_add. destruct (existsb (Js.eqb u) users) eqn:E.
  - apply existsb_eqb_In in E. split; [auto | intros [H| ->]; auto].
  - rewrite in_app_iff. simpl. intuition auto.
Qed.

Lemma set_add_NoDup users u : NoDup users -> NoDup (set_add users u).
Proof.
  intros H. unfold set_add. destruct (existsb (Js.eqb u) users) eqn:E; [exact H|].
  assert (Hn : ~ In u users).
  { intros Hin. apply existsb_eqb_In in Hin. congruence. }
  apply NoDup_app; [exact H | repeat constructor; intros [] |].
  intros x Hx [<-|[]]. contradiction.
Qed.

Lemma Tracks_record kind m seen v u i :
  Tracks kind m seen ->
  Tracks kind (record_in m v u)
         (seen ++ [(u, {| type := kind; value := v; index := i |})]).
Proof.
  intros (Hnd & Hent & Hkeys). unfold record_in.
  destruct (map_get m v) as [users|] eqn:Hget.
  - assert (Hin : In (v, users) m) by now apply map_get_In.
    assert (Hk : In v (List.map fst m))
      by (apply in_map_iff; exists (v, users); auto).
    assert (Hks : List.map fst (map_set m v (set_add users u)) = List.map fst m).
    { rewrite map_set_keys.
      now rewrite (proj2 (existsb_eqb_In v (List.map fst m)) Hk). }
    split; [now rewrite Hks|]. split.
    + intros v' users' Hin'. rewrite map_set_present in Hin' by assumption.
      apply in_map_iff in Hin' as ([k x] & Heq & Hkx). simpl in Heq.
      destruct (Js.eqb k v) eqn:E.
      * apply eqb_eq in E. subst k. injection Heq as <- <-.
        assert (x = users) as ->.
        { apply In_map_get in Hkx; [|exact Hnd]. congruence. }
        destruct (Hent _ _ Hin) as [Hnu Hmem]. split; [now apply set_add_NoDup|].
        intros u'. rewrite set_add_In, Hmem. split.
        -- intros [[j Hj]| ->]; [exists j | exists i]; apply in_app_iff; simpl; auto.
        -- intros [j Hj]. apply in_app_iff in Hj as [Hj|[Hj|[]]]; [eauto|].
           injection Hj as -> _. now right.
      * injection Heq as <- <-. apply eqb_neq in E.
        destruct (Hent _ _ Hkx) as [Hnu Hmem]. split; [exact Hnu|].
        intros u'. rewrite Hmem. split.
        -- intros [j Hj]. exists j. apply in_app_iff. auto.
        -- intros [j Hj]. apply in_app_iff in Hj as [Hj|[Hj|[]]]; [eauto|].
           injection Hj as _ Hv _. congruence.
    + intros u' v' j Hj. rewrite Hks.
      apply in_app_iff in Hj as [Hj|[Hj|[]]]; [eauto|].
      injection Hj as _ -> _. exact Hk.
  - assert (Hk : ~ In v (List.map fst m)) by now apply map_get_None_keys.
    rewrite map_set_absent by exact Hk. split; [|split].
    + rewrite map_app. simpl. apply NoDup_app; [exact Hnd | repeat constructor; intros [] |].
      intros x Hx [<-|[]]. contradiction.
    + intros v' users' Hin'. apply in_app_iff in Hin' as [Hin'|[Heq|[]]].
      * destruct (Hent _ _ Hin') as [Hnu Hmem]. split; [exact Hnu|].
        assert (Hne : v' <> v).
        { intros ->. apply Hk. apply in_map_iff. exists (v, users'). auto. }
        intros u'. rewrite Hmem. split.
        -- intros [j Hj]. exists j. apply in_app_iff. auto.
        -- intros [j Hj]. apply in_app_iff in Hj as [Hj|[Hj|[]]]; [eauto|].
           injection Hj as _ Hv _. congruence.
      * injection Heq as <- <-. split; [repeat constructor; intros []|].
        intros u'. split.
        -- intros [<-|[]]. exists i. apply in_app_iff. simpl. auto.
        -- intros [j Hj]. apply in_app_iff in Hj as [Hj|[Hj|[]]].
           ++ exfalso. apply Hk. eauto.
           ++ injection Hj as ->. now left.
    + intros u' v' j Hj. rewrite map_app, in_app_iff. simpl.
      apply in_app_iff in Hj as [Hj|[Hj|[]]]; [left; eauto|].
      injection Hj as _ -> _. auto.
Qed.

Lemma Tracks_other kind m seen u mention :
  type mention <> kind ->
  Tracks kind m seen -> Tracks kind m (seen ++ [(u, mention)]).
Proof.
  intros Hne (Hnd & Hent & Hkeys). split; [exact Hnd|]. split.
  - intros v users Hin. destruct (Hent _ _ Hin) as [Hnu Hmem]. split; [exact Hnu|].
    intros u'. rewrite Hmem. split.
    + intros [j Hj]. exists j. apply in_app_iff. auto.
    + intros [j Hj]. apply in_app_iff in Hj as [Hj|[Hj|[]]]; [eauto|].
      injection Hj as _ Hm. subst mention. simpl in Hne. congruence.
  - intros u' v j Hj. apply in_app_iff in Hj as [Hj|[Hj|[]]]; [eauto|].
    injection Hj as _ Hm. subst mention. simpl in Hne. congruence.
Qed.

Lemma Tracks_step kind acc seen u mention :
  Tracks kind (mentions_of kind acc) seen ->
  Tracks kind (mentions_of kind (record_mention u acc mention))
         (seen ++ [(u, mention)]).
Proof.
  intros H. destruct mention as [ty v i]. unfold record_mention.
  destruct ty, kind; cbn [type value mentions_of marketCapMentions termMentions
                           emojiMentions];
    first [ now apply Tracks_record
          | apply Tracks_other; [discriminate | exact H] ].
Qed.

Lemma collect_all_mentions messages :
  collect messages
  = fold_left (fun acc p => record_mention (fst p) acc (snd p))
              (all_mentions messages)
              {| marketCapMentions := []; termMentions := []; emojiMentions := [] |}.
Proof.
  unfold collect, all_mentions.
  generalize {| marketCapMentions := []; termMentions := []; emojiMentions := [] |}.
  induction messages as [|message messages IH]; intros acc; simpl; [reflexivity|].
  rewrite fold_left_app, IH. f_equal.
  generalize (detectPriceMentions (text message)). intros l. revert acc.
  induction l as [|m l IHl]; intros acc; simpl; auto.
Qed.

Lemma Tracks_collect kind messages :
  Tracks kind (mentions_of kind (collect messages)) (all_mentions messages).
Proof.
  rewrite collect_all_mentions.
  induction (all_mentions messages) as [|[u m] seen IH] using rev_ind.
  - simpl. split; [destruct kind; constructor|]. split.
    + intros v users H. destruct kind; contradiction.
    + intros u v i [].
  - rewrite fold_left_app. simpl. now apply Tracks_step.
Qed.

Lemma all_mentions_In u m messages :
  In (u, m) (all_mentions messages)
  <-> exists message, In message messages /\ Window.userId message = u
                      /\ In m (detectPriceMentions (Window.text message)).
Proof.
  unfold all_mentions. rewrite in_flat_map. split.
  - intros (message & Hin & Hm). apply in_map_iff in Hm as (m' & Heq & Hm).
    injection Heq as <- <-. eauto.
  - intros (message & Hin & <- & Hm). exists message. split; [exact Hin|].
    now apply in_map.
Qed.

Lemma TrendDetected_In window kind v users :
  In (TrendDetected kind v users) (priceProcessor window)
  <-> In (v, users) (mentions_of kind (collect (messages window)))
      /\ (2 <= List.length users)%nat.
Proof.
  unfold priceProcessor, log_entries. cbv zeta.
  rewrite !in_app_iff, !in_map_iff.
  assert (Hent : forall k (e : jsstring * list jsstring),
             (if (2 <=? List.length (snd e))%nat
              then TrendDetected k (fst e) (snd e)
              else SingleUser k (fst e) (snd e)) = TrendDetected kind v users
             <-> k = kind /\ e = (v, users) /\ (2 <= List.length users)%nat).
  { intros k [v' users']. cbn [fst snd].
    destruct (2 <=? List.length users')%nat eqn:E.
    - apply Nat.leb_le in E. split.
      + intros H. injection H as -> -> ->. auto.
      + intros (-> & H & _). now injection H as -> ->.
    - apply Nat.leb_gt in E. split; [discriminate|].
      intros (_ & H & Hl). injection H as -> ->. lia. }
  split.
  - intros [[H|[H|[]]]|[(x & H & _)|[(e & H & Hin)|[(e & H & Hin)|[(e & H & Hin)|[H|[]]]]]]];
      try discriminate;
      apply Hent in H as (<- & -> & Hl); auto.
  - intros [Hin Hl]. right; right.
    destruct kind; [left | right; left | right; right; left];
      exists (v, users); (split; [now apply Hent | exact Hin]).
Qed.

Lemma two_distinct {A} (a b : A) l :
  In a l -> In b l -> a <> b -> (2 <= List.length l)%nat.
Proof.
  destruct l as [|x [|y l]]; simpl; try lia; try tauto.
  intros [<-|[]] [<-|[]]. congruence.
Qed.

(** X30. The price processor logs a trend for a text of a kind (market cap,
    term or emoji) exactly when two messages of the window from
    different users each hold a mention of that kind with exactly that
    value; the users logged with a trend are, without repetition, the
    users of the messages that hold such a mention. *)
Theorem priceProcessor_trend_iff :
  forall (window : MessageWindow) (kind : MentionType) (v : jsstring),
    ((exists users, In (TrendDetected kind v users) (priceProcessor window))
     <-> exists m1 m2 i1 i2,
          In m1 (messages window) /\ In m2 (messages window)
          /\ Window.userId m1 <> Window.userId m2
          /\ In {| type := kind; value := v; index := i1 |}
                (detectPriceMentions (Window.text m1))
          /\ In {| type := kind; value := v; index := i2 |}
                (detectPriceMentions (Window.text m2)))
    /\ forall users,
        In (TrendDetected kind v users) (priceProcessor window) ->
        NoDup users
        /\ forall u, In u users
                     <-> exists m i,
                          In m (messages window) /\ Window.userId m = u
                          /\ In {| type := kind; value := v; index := i |}
                                (detectPriceMentions (Window.text m)).
Proof.
  intros window kind v.
  destruct (Tracks_collect kind (messages window)) as (Hnd & Hent & Hkeys).
  assert (Hmem : forall users,
             In (v, users) (mentions_of kind (collect (messages window))) ->
             NoDup users
             /\ forall u, In u users
                          <-> exists m i,
                               In m (messages window) /\ Window.userId m = u
                               /\ In {| type := kind; value := v; index := i |}
                                     (detectPriceMentions (Window.text m))).
  { intros users Hin. destruct (Hent _ _ Hin) as [Hnu Hu]. split; [exact Hnu|].
    intros u. rewrite Hu. split.
    - intros [i Hi]. apply all_mentions_In in Hi as (m & H1 & H2 & H3). eauto.
    - intros (m & i & H1 & H2 & H3). exists i. apply all_mentions_In. eauto. }
  split; [split|].
  - intros [users H]. apply TrendDetected_In in H as [Hin Hl].
    destruct (Hmem _ Hin) as [Hnu Hu].
    destruct users as [|u1 [|u2 users]]; simpl in Hl; try lia.
    destruct (proj1 (Hu u1) ltac:(now left)) as (m1 & i1 & Ha & Hb & Hc).
    destruct (proj1 (Hu u2) ltac:(right; now left)) as (m2 & i2 & Ha2 & Hb2 & Hc2).
    exists m1, m2, i1, i2. repeat split; auto.
    rewrite Hb, Hb2. intros ->. inversion Hnu as [|? ? Hn _]. apply Hn. now left.
  - intros (m1 & m2 & i1 & i2 & H1 & H2 & Hne & Hm1 & Hm2).
    assert (Hk : In v (List.map fst (mentions_of kind (collect (messages window))))).
    { apply (Hkeys (Window.userId m1) v i1). apply all_mentions_In. eauto. }
    apply in_map_iff in Hk as ([v' users] & Hv & Hin). simpl in Hv. subst v'.
    exists users. apply TrendDetected_In. split; [exact Hin|].
    destruct (Hmem _ Hin) as [_ Hu].
    apply (@two_distinct _ (Window.userId m1) (Window.userId m2)); [| |exact Hne];
      apply Hu; eauto.
  - intros users H. apply TrendDetected_In in H as [Hin _]. now apply Hmem.
Qed.

End ProcessorProperties.

Lemma priceProcessor_trend_iff_witness :
  In (TrendDetected term (lit "moon") [lit "alice"; lit "bob"])
     (priceProcessor moon_window)
  /\ In (SingleUser term (lit "MOON") [lit "bob"]) (priceProcessor moon_window)
  /\ NoDup [lit "alice"; lit "bob"]
  /\ exists m1 m2 i1 i2,
       In m1 (messages moon_window) /\ In m2 (messages moon_window)
       /\ Window.userId m1 <> Window.userId m2
       /\ In {| type := term; value := lit "moon"; index := i1 |}
             (detectPriceMentions (Window.text m1))
       /\ In {| type := term; value := lit "moon"; index := i2 |}
             (detectPriceMentions (Window.text m2)).
Proof.
  assert (H1 : In (TrendDetected term (lit "moon") [lit "alice"; lit "bob"])
                  (priceProcessor moon_window))
    by (vm_compute; tauto).
  assert (H2 : In (SingleUser term (lit "MOON") [lit "bob"])
                  (priceProcessor moon_window))
    by (vm_compute; tauto).
  split; [exact H1|]. split; [exact H2|].
  destruct (priceProcessor_trend_iff moon_window term (lit "moon")) as [Hiff Hus].
  split.
  - exact (proj1 (Hus _ H1)).
  - apply (proj1 Hiff). exists [lit "alice"; lit "bob"]. exact H1.
Defined.

End PriceDetectorProperties.
